(** * Bitstream: a shallow embedding of libraries/metavoxels/src/Bitstream.cpp

    The development follows the C++ source function by function.  Integers
    are [Z]; a [quint8] is a [Z] reduced modulo 256 where the source stores
    into one, an [int] is reduced to the signed 32-bit range where the
    source could leave it.  Buffers reached through a [void*] are lists of
    bytes together with an index (the pointer); the host is little-endian,
    as on every platform the program was built for.  Loops carry a fuel
    argument; the theorems show how much fuel is enough. *)

From Stdlib Require Import ZArith List Lia Bool.
From stdpp Require Import base numbers list gmap.
From coqutil Require Import Z.bitblast.

Local Open Scope Z_scope.

(** ** Machine integers *)

(** Modelled from the spec: [BITS_IN_BYTE] is declared in SharedUtil.h,
    which is not among the sources; the accumulator is "an 8-bit
    accumulator" and the cursor is "in [0,8)". *)
Definition BITS_IN_BYTE : Z := 8.

Definition LAST_BIT_POSITION : Z := BITS_IN_BYTE - 1.

(** Conversion to [quint8] (assignment to [_byte] or through a [quint8*]). *)
Definition quint8 (x : Z) : Z := x mod 256.

(** Conversion to a 32-bit two's complement [int]. *)
Definition int32 (x : Z) : Z := (x + 2 ^ 31) mod 2 ^ 32 - 2 ^ 31.

(** The object representation of an integer: [n] bytes, least significant
    first. *)
Fixpoint to_bytes (n : nat) (v : Z) : list Z :=
  match n with
  | O => []
  | S n' => Z.land v 255 :: to_bytes n' (Z.shiftr v 8)
  end.

Fixpoint of_bytes (bs : list Z) : Z :=
  match bs with
  | [] => 0
  | b :: t => Z.lor (Z.land b 255) (Z.shiftl (of_bytes t) 8)
  end.

(** ** The underlying QDataStream

    [operator<<(quint8)] appends a byte to the device; [operator>>(quint8&)]
    takes the next byte, and stores 0 when the device is exhausted. *)

Record QDataStream := mkQDataStream {
  ds_written : list Z;
  ds_unread : list Z
}.

Definition ds_put (d : QDataStream) (b : Z) : QDataStream :=
  {| ds_written := ds_written d ++ [b]; ds_unread := ds_unread d |}.

Definition ds_get (d : QDataStream) : Z * QDataStream :=
  match ds_unread d with
  | [] => (0, d)
  | b :: t => (b, {| ds_written := ds_written d; ds_unread := t |})
  end.

(** ** Bitstream: the bit cursor *)

Record Bitstream := mkBitstream {
  _underlying : QDataStream;
  _byte : Z;
  _position : Z
}.

(** The constructor: [_byte(0), _position(0)]. *)
Definition Bitstream_new (underlying : QDataStream) : Bitstream :=
  {| _underlying := underlying; _byte := 0; _position := 0 |}.

Definition writer_new : Bitstream :=
  Bitstream_new {| ds_written := []; ds_unread := [] |}.

Definition reader_new (input : list Z) : Bitstream :=
  Bitstream_new {| ds_written := []; ds_unread := input |}.

Definition reset (s : Bitstream) : Bitstream :=
  {| _underlying := _underlying s; _byte := 0; _position := 0 |}.

Definition flush (s : Bitstream) : Bitstream :=
  if negb (_position s =? 0)
  then reset {| _underlying := ds_put (_underlying s) (_byte s);
                _byte := _byte s; _position := _position s |}
  else s.

(** [_underlying >> _byte] *)
Definition fetch (s : Bitstream) : Bitstream :=
  let '(b, d) := ds_get (_underlying s) in
  {| _underlying := d; _byte := quint8 b; _position := _position s |}.

(** [Bitstream::write(const void* data, int bits, int offset)]; [source] is
    the index of the byte the pointer designates. *)
Fixpoint write_loop (fuel : nat) (s : Bitstream) (data : list Z) (source : nat)
    (bits offset : Z) : option Bitstream :=
  if bits >? 0 then
    match fuel with
    | O => None
    | S fuel' =>
      let bitsToWrite :=
        Z.min (BITS_IN_BYTE - _position s) (Z.min (BITS_IN_BYTE - offset) bits) in
      let byte' :=
        quint8 (Z.lor (_byte s)
          (Z.shiftl (Z.land (Z.shiftr (nth source data 0) offset)
                            (Z.shiftl 1 bitsToWrite - 1)) (_position s))) in
      let position' := _position s + bitsToWrite in
      let s1 := {| _underlying := _underlying s; _byte := byte';
                   _position := position' |} in
      let s2 := if position' =? BITS_IN_BYTE then flush s1 else s1 in
      let offset' := offset + bitsToWrite in
      if offset' =? BITS_IN_BYTE
      then write_loop fuel' s2 data (S source) (bits - bitsToWrite) 0
      else write_loop fuel' s2 data source (bits - bitsToWrite) offset'
    end
  else Some s.

Definition write (s : Bitstream) (data : list Z) (bits offset : Z)
    : option Bitstream :=
  write_loop (Z.to_nat bits) s data 0 bits offset.

(** [Bitstream::read(void* data, int bits, int offset)]; the buffer is
    returned with the bits stored into it. *)
Fixpoint read_loop (fuel : nat) (s : Bitstream) (data : list Z) (dest : nat)
    (bits offset : Z) : option (Bitstream * list Z) :=
  if bits >? 0 then
    match fuel with
    | O => None
    | S fuel' =>
      let s0 := if _position s =? 0 then fetch s else s in
      let bitsToRead :=
        Z.min (BITS_IN_BYTE - _position s0) (Z.min (BITS_IN_BYTE - offset) bits) in
      let mask := Z.shiftl (Z.shiftl 1 bitsToRead - 1) offset in
      let d := nth dest data 0 in
      let d' :=
        quint8 (Z.lor (Z.land d (Z.lnot mask))
          (Z.land (Z.shiftl (Z.shiftr (_byte s0) (_position s0)) offset) mask)) in
      let data' := <[dest := d']> data in
      let s1 := {| _underlying := _underlying s0; _byte := _byte s0;
                   _position := Z.land (_position s0 + bitsToRead) LAST_BIT_POSITION |} in
      let offset' := offset + bitsToRead in
      if offset' =? BITS_IN_BYTE
      then read_loop fuel' s1 data' (S dest) (bits - bitsToRead) 0
      else read_loop fuel' s1 data' dest (bits - bitsToRead) offset'
    end
  else Some (s, data).

Definition read (s : Bitstream) (data : list Z) (bits offset : Z)
    : option (Bitstream * list Z) :=
  read_loop (Z.to_nat bits) s data 0 bits offset.

(** [Bitstream& Bitstream::operator<<(bool value)] *)
Definition operator_shl_bool (s : Bitstream) (value : bool) : Bitstream :=
  let byte' :=
    if value then quint8 (Z.lor (_byte s) (Z.shiftl 1 (_position s)))
    else _byte s in
  let position' := _position s + 1 in
  let s1 := {| _underlying := _underlying s; _byte := byte';
               _position := position' |} in
  if position' =? BITS_IN_BYTE then flush s1 else s1.

(** [Bitstream& Bitstream::operator>>(bool& value)] *)
Definition operator_shr_bool (s : Bitstream) : bool * Bitstream :=
  let s0 := if _position s =? 0 then fetch s else s in
  let value := negb (Z.land (_byte s0) (Z.shiftl 1 (_position s0)) =? 0) in
  (value,
   {| _underlying := _underlying s0; _byte := _byte s0;
      _position := Z.land (_position s0 + 1) LAST_BIT_POSITION |}).

(** Writing and reading a run of booleans, one [operator<<] or
    [operator>>] per element. *)
Definition write_bools (s : Bitstream) (values : list bool) : Bitstream :=
  fold_left operator_shl_bool values s.

Fixpoint read_bools (n : nat) (s : Bitstream) : list bool * Bitstream :=
  match n with
  | O => ([], s)
  | S n' =>
    let '(value, s1) := operator_shr_bool s in
    let '(values, s2) := read_bools n' s1 in
    (value :: values, s2)
  end.

(** ** Bit-level views used by the statements *)

(** [tab f n] lists [f 0; f 1; ...; f (n-1)]. *)
Definition tab (f : Z -> bool) (n : nat) : list bool :=
  map (fun k => f (Z.of_nat k)) (seq 0 n).

(** Bit [i] of a buffer: bit [i mod 8] of byte [i / 8]. *)
Definition bufbit (buf : list Z) (i : Z) : bool :=
  Z.testbit (nth (Z.to_nat (i / 8)) buf 0) (i mod 8).

(** The [n] bits of a buffer that start at bit address [a]. *)
Definition buf_bits (buf : list Z) (a : Z) (n : nat) : list bool :=
  tab (fun k => bufbit buf (a + k)) n.

Definition byte_bits (b : Z) : list bool := tab (Z.testbit b) 8.

Definition bytes_bits (bs : list Z) : list bool := flat_map byte_bits bs.

(** Every bit a writer has produced so far: the bytes already handed to the
    device, then the bits held in the accumulator. *)
Definition wbits (s : Bitstream) : list bool :=
  bytes_bits (ds_written (_underlying s))
  ++ tab (Z.testbit (_byte s)) (Z.to_nat (_position s)).

(** The cursor invariant of a writer: the accumulator holds nothing above
    the cursor. *)
Definition writer_ok (s : Bitstream) : Prop :=
  0 <= _position s < 8 /\ 0 <= _byte s < 2 ^ _position s.

(** A reader that has consumed the first [c] bits of the input [bs]. *)
Definition reader_at (bs : list Z) (c : Z) (s : Bitstream) : Prop :=
  0 <= c <= 8 * Z.of_nat (length bs)
  /\ _position s = c mod 8
  /\ ds_unread (_underlying s) = drop (Z.to_nat ((c + 7) / 8)) bs
  /\ (0 < c -> _byte s = quint8 (nth (Z.to_nat ((c - 1) / 8)) bs 0)).

Definition bytes_ok (bs : list Z) : Prop := Forall (fun b => 0 <= b < 256) bs.

(** One iteration of the loop of [Bitstream::write], used to state the
    loop lemmas. *)
Definition write_chunk (s : Bitstream) (d offset k : Z) : Bitstream :=
  let s1 := {| _underlying := _underlying s;
               _byte := quint8 (Z.lor (_byte s)
                  (Z.shiftl (Z.land (Z.shiftr d offset) (Z.shiftl 1 k - 1))
                            (_position s)));
               _position := _position s + k |} in
  if _position s + k =? BITS_IN_BYTE then flush s1 else s1.

(** One iteration of the loop of [Bitstream::read]. *)
Definition read_chunk (s : Bitstream) (data : list Z) (dest : nat) (offset k : Z)
    : Bitstream * list Z :=
  let s0 := if _position s =? 0 then fetch s else s in
  let mask := Z.shiftl (Z.shiftl 1 k - 1) offset in
  let d' :=
    quint8 (Z.lor (Z.land (nth dest data 0) (Z.lnot mask))
      (Z.land (Z.shiftl (Z.shiftr (_byte s0) (_position s0)) offset) mask)) in
  ({| _underlying := _underlying s0; _byte := _byte s0;
      _position := Z.land (_position s0 + k) LAST_BIT_POSITION |},
   <[dest := d']> data).

(** ** Stream operations as a state-and-failure monad

    The typed operators of the class are sequences of the primitives above;
    [None] stands for a loop that ran out of fuel. *)

Definition M (A : Type) : Type := Bitstream -> option (A * Bitstream).

Definition ret {A} (x : A) : M A := fun s => Some (x, s).

Definition bind {A B} (m : M A) (f : A -> M B) : M B :=
  fun s => match m s with
           | Some (x, s') => f x s'
           | None => None
           end.

Notation "'let*' x ':=' m 'in' k" := (bind m (fun x => k))
  (at level 10, x pattern, m at level 100, k at level 200).

Definition write_m (data : list Z) (bits offset : Z) : M unit :=
  fun s => match write s data bits offset with
           | Some s' => Some (tt, s')
           | None => None
           end.

Definition read_m (data : list Z) (bits offset : Z) : M (list Z) :=
  fun s => match read s data bits offset with
           | Some (s', data') => Some (data', s')
           | None => None
           end.

Definition write_bool_m (value : bool) : M unit :=
  fun s => Some (tt, operator_shl_bool s value).

Definition read_bool_m : M bool :=
  fun s => Some (operator_shr_bool s).

(** [W] appends exactly the bits [l] to whatever the writer has produced,
    and returns [x]. *)
Definition encodes {A} (W : M A) (l : list bool) (x : A) : Prop :=
  forall s, writer_ok s ->
    exists s', W s = Some (x, s')
      /\ writer_ok s'
      /\ ds_unread (_underlying s') = ds_unread (_underlying s)
      /\ wbits s' = wbits s ++ l.

(** [R] consumes exactly the bits [l], wherever they sit in the input, and
    returns [x]. *)
Definition decodes {A} (R : M A) (l : list bool) (x : A) : Prop :=
  forall bs c s, reader_at bs c s ->
    c + Z.of_nat (length l) <= 8 * Z.of_nat (length bs) ->
    buf_bits bs c (length l) = l ->
    exists s', R s = Some (x, s')
      /\ reader_at bs (c + Z.of_nat (length l)) s'
      /\ ds_written (_underlying s') = ds_written (_underlying s).

(** [R] reads [x] back from what [W] sends. *)
Definition round_trips {A} (W : M unit) (R : M A) (x : A) : Prop :=
  exists l, encodes W l tt /\ decodes R l x.

(** The number a list of bits denotes, least significant bit first. *)
Fixpoint bits_value (l : list bool) : Z :=
  match l with
  | [] => 0
  | b :: t => Z.b2z b + 2 * bits_value t
  end.

(** ** Typed operators *)

(** [operator<<(int value)]: [write(&value, 32)]. *)
Definition operator_shl_int (value : Z) : M unit :=
  write_m (to_bytes 4 value) 32 0.

(** [operator>>(int& value)]: [qint32 sizedValue; read(&sizedValue, 32)].
    Storage that the source leaves uninitialised before a read that
    overwrites all of it is taken to be zero. *)
Definition operator_shr_int : M Z :=
  let* data := read_m (replicate 4 0) 32 0 in
  ret (int32 (of_bytes data)).

(** ** IDStreamer

    The class holds a reference to its Bitstream (the state of the monad
    here) and the width [_bits]. *)

Record IDStreamer := mkIDStreamer { _bits : Z }.

(** [IDStreamer::IDStreamer]: [_bits(1)]. *)
Definition IDStreamer_new : IDStreamer := {| _bits := 1 |}.

(** [static int getBitsForHighestValue(int highestValue)]: the loop
    [while (highestValue != 0) { bits++; highestValue >>= 1; }], with [>>=]
    the arithmetic shift of a signed [int]. *)
Fixpoint getBitsForHighestValue_loop (fuel : nat) (highestValue bits : Z)
    : option Z :=
  if negb (highestValue =? 0) then
    match fuel with
    | O => None
    | S fuel' =>
      getBitsForHighestValue_loop fuel' (Z.shiftr highestValue 1) (int32 (bits + 1))
    end
  else Some bits.

Definition getBitsForHighestValue (fuel : nat) (highestValue : Z) : option Z :=
  getBitsForHighestValue_loop fuel highestValue 0.

(** [IDStreamer::setBitsFromValue(int value)] *)
Definition setBitsFromValue (fuel : nat) (st : IDStreamer) (value : Z)
    : option IDStreamer :=
  match getBitsForHighestValue fuel (int32 (value + 1)) with
  | Some bits => Some {| _bits := bits |}
  | None => None
  end.

(** The test [value == (1 << _bits) - 1] and the increment that follows it,
    shared by both operators. *)
Definition IDStreamer_advance (st : IDStreamer) (value : Z) : IDStreamer :=
  if value =? int32 (int32 (Z.shiftl 1 (_bits st)) - 1)
  then {| _bits := int32 (_bits st + 1) |}
  else st.

(** [IDStreamer& IDStreamer::operator<<(int value)] *)
Definition IDStreamer_shl (st : IDStreamer) (value : Z) : M IDStreamer :=
  let* _ := write_m (to_bytes 4 value) (_bits st) 0 in
  ret (IDStreamer_advance st value).

(** [IDStreamer& IDStreamer::operator>>(int& value)]: [value = 0;] then
    [_stream.read(&value, _bits)]. *)
Definition IDStreamer_shr (st : IDStreamer) : M (Z * IDStreamer) :=
  let* data := read_m (to_bytes 4 0) (_bits st) 0 in
  let value := int32 (of_bytes data) in
  ret (value, IDStreamer_advance st value).

(** A writer sending a sequence of identifiers, a reader receiving as many. *)
Fixpoint IDStreamer_write_all (st : IDStreamer) (ids : list Z) : M IDStreamer :=
  match ids with
  | [] => ret st
  | id :: rest =>
    let* st' := IDStreamer_shl st id in IDStreamer_write_all st' rest
  end.

Fixpoint IDStreamer_read_n (n : nat) (st : IDStreamer) : M (list Z * IDStreamer) :=
  match n with
  | O => ret ([], st)
  | S n' =>
    let* r := IDStreamer_shr st in
    let* rs := IDStreamer_read_n n' (snd r) in
    ret (fst r :: fst rs, snd rs)
  end.

(** Identifiers that fit the width in force when they are sent, the width
    staying below that of an [int]. *)
Fixpoint ids_fit (bits : Z) (ids : list Z) : Prop :=
  match ids with
  | [] => True
  | id :: rest =>
    0 <= bits <= 30 /\ 0 <= id < 2 ^ bits
    /\ ids_fit (if id =? 2 ^ bits - 1 then bits + 1 else bits) rest
  end.

(** ** Delta encoding

    [TypeStreamer] is the base class of the value codecs.  Its virtual
    [writeRawDelta] and [readRawDelta] are the fields of a record, so that
    a call goes to the override of the streamer at hand; the reader
    receives the content its [QVariant& value] argument had on entry and
    returns its content on exit.  [value == reference] is
    [QVariant::operator==] of Qt, which "only handles == for built-in
    types": it is the parameter [equals]. *)

Record TypeStreamer (QVariant : Type) := mkTypeStreamer {
  writeRawDelta : QVariant -> QVariant -> M unit;
  readRawDelta : QVariant -> QVariant -> M QVariant
}.

Arguments writeRawDelta {QVariant} _ _ _.
Arguments readRawDelta {QVariant} _ _ _.

(** [TypeStreamer::writeDelta(Bitstream& out, const QVariant& value,
    const QVariant& reference)] *)
Definition TypeStreamer_writeDelta {QVariant}
    (equals : QVariant -> QVariant -> bool)
    (ts : TypeStreamer QVariant) (value reference : QVariant) : M unit :=
  if equals value reference then write_bool_m false
  else let* _ := write_bool_m true in writeRawDelta ts value reference.

(** [TypeStreamer::readDelta(Bitstream& in, QVariant& value,
    const QVariant& reference)] *)
Definition TypeStreamer_readDelta {QVariant}
    (ts : TypeStreamer QVariant) (value reference : QVariant) : M QVariant :=
  let* changed := read_bool_m in
  if changed then readRawDelta ts value reference else ret reference.

(** [TypeStreamer::writeRawDelta], "nothing by default", and
    [TypeStreamer::readRawDelta], [value = reference]: the bodies of the
    base class, and the streamer that overrides neither. *)
Definition TypeStreamer_writeRawDelta {QVariant} (value reference : QVariant)
    : M unit :=
  ret tt.

Definition TypeStreamer_readRawDelta {QVariant} (value reference : QVariant)
    : M QVariant :=
  ret reference.

Definition base_TypeStreamer (QVariant : Type) : TypeStreamer QVariant :=
  {| writeRawDelta := TypeStreamer_writeRawDelta;
     readRawDelta := TypeStreamer_readRawDelta |}.

(** [void Bitstream::writeDelta(bool value, bool reference)] and
    [void Bitstream::readDelta(bool& value, bool reference)] *)
Definition Bitstream_writeDelta_bool (value reference : bool) : M unit :=
  write_bool_m value.

Definition Bitstream_readDelta_bool (reference : bool) : M bool :=
  read_bool_m.

(** A streamer of [int] values that overrides the raw delta with the
    value itself; its variants are compared as integers. *)
Definition int_TypeStreamer : TypeStreamer Z :=
  {| writeRawDelta := fun value _ => operator_shl_int value;
     readRawDelta := fun _ _ => operator_shr_int |}.

(** ** Set deltas

    [QSet<T>] is a finite set; its iteration order is the order of
    [elements], about which nothing is assumed. *)

Definition symmetric_difference `{Countable T} (a b : gset T) : gset T :=
  (a ∖ b) ∪ (b ∖ a).

Definition write_elements {T} (write_elem : T -> M unit) : list T -> M unit :=
  fix write_rest (xs : list T) : M unit :=
    match xs with
    | [] => ret tt
    | x :: rest => let* _ := write_elem x in write_rest rest
    end.

(** Modelled from the spec: the writer
    [Bitstream::writeRawDelta(const QSet<T>& value, const QSet<T>& reference)]
    is a template of Bitstream.h, which is not among the sources.  "Set:
    emit the count of the symmetric difference, then each element of the
    symmetric difference raw." *)
Definition writeRawDelta_QSet `{Countable T} (write_elem : T -> M unit)
    (value reference : gset T) : M unit :=
  let addedOrRemoved := symmetric_difference value reference in
  let* _ := operator_shl_int (Z.of_nat (size addedOrRemoved)) in
  write_elements write_elem (elements addedOrRemoved).

(** Modelled from the spec: [remove] and [insert] of the local set streamer
    (virtuals of [TypeStreamer] overridden in Bitstream.h): "remove if
    present, otherwise insert".  [remove] reports whether the element was
    there. *)
Definition QSet_remove `{Countable T} (object : gset T) (value : T)
    : bool * gset T :=
  (bool_decide (value ∈ object), object ∖ {[value]}).

Definition QSet_insert `{Countable T} (object : gset T) (value : T) : gset T :=
  {[value]} ∪ object.

(** The loop of [MappedSetTypeStreamer::readRawDelta], which is also that of
    the [SET_TYPE] case of [TypeReader::readRawDelta]:
    [if (_baseStreamer && !_baseStreamer->remove(object, value))
       _baseStreamer->insert(object, value);]
    [baseStreamer] tells whether the pointer is non-null. *)
Fixpoint readRawDelta_set_loop `{Countable T} (read_elem : M T)
    (baseStreamer : bool) (n : nat) (object : gset T) : M (gset T) :=
  match n with
  | O => ret object
  | S n' =>
    let* value := read_elem in
    let object' :=
      if baseStreamer then
        let '(removed, object1) := QSet_remove object value in
        if negb removed then QSet_insert object1 value else object1
      else object in
    readRawDelta_set_loop read_elem baseStreamer n' object'
  end.

(** [MappedSetTypeStreamer::readRawDelta(Bitstream& in, QVariant& object,
    const QVariant& reference)]: [object = reference;] then the count, then
    the loop. *)
Definition MappedSetTypeStreamer_readRawDelta `{Countable T} (read_elem : M T)
    (baseStreamer : bool) (reference : gset T) : M (gset T) :=
  let* addedOrRemoved := operator_shr_int in
  readRawDelta_set_loop read_elem baseStreamer (Z.to_nat addedOrRemoved) reference.

(** What one iteration of that loop does to the object when the local
    streamer is present. *)
Definition toggle `{Countable T} (object : gset T) (value : T) : gset T :=
  let '(removed, object1) := QSet_remove object value in
  if negb removed then QSet_insert object1 value else object1.

(** The bits of a run of elements, each encoded by [enc]. *)
Definition elements_bits {T} (enc : T -> list bool) (xs : list T) : list bool :=
  concat (map enc xs).

(** ** Type descriptors: enumerations

    The part of the schema negotiation that concerns enumerations.  A
    [QByteArray] is its list of bytes.  [QCryptographicHash] with
    [QCryptographicHash::Md5] is Qt's: the function [md5] from the data
    added to the result is a parameter. *)

Definition operator_shl_QByteArray (string : list Z) : M unit :=
  let* _ := operator_shl_int (Z.of_nat (length string)) in
  write_m string (Z.of_nat (length string) * BITS_IN_BYTE) 0.

(** [string.resize(size)] gives [size] bytes, all of which the read
    overwrites. *)
Definition operator_shr_QByteArray : M (list Z) :=
  let* size := operator_shr_int in
  read_m (replicate (Z.to_nat size) 0) (size * BITS_IN_BYTE) 0.

Definition fail {A} : M A := fun _ => None.

Definition lift {A} (o : option A) : M A :=
  fun s => match o with Some x => Some (x, s) | None => None end.

(** Modelled from the spec: the enumerations [MetadataType] and
    [GenericsMode] are declared in Bitstream.h, which is not among the
    sources: "None", "Hash", "Full", and "NONE", "ALL". *)
Inductive MetadataType := NO_METADATA | HASH_METADATA | FULL_METADATA.

Inductive GenericsMode := NO_GENERICS | ALL_GENERICS.

(** Modelled from the spec: the enumerators of [TypeReader::Type], declared
    in Bitstream.h, in the order "{Simple, Enum, Streamable, List, Set,
    Map}"; they are sent as [int]. *)
Definition SIMPLE_TYPE : Z := 0.
Definition ENUM_TYPE : Z := 1.
Definition STREAMABLE_TYPE : Z := 2.
Definition LIST_TYPE : Z := 3.
Definition SET_TYPE : Z := 4.
Definition MAP_TYPE : Z := 5.

(** [QMetaEnum]: the keys with their values, in declaration order, and
    whether the enumeration is a flag.  [QMetaEnum()] has no keys. *)
Record QMetaEnum := mkQMetaEnum {
  isFlag : bool;
  enumerators : list (list Z * Z)
}.

Definition QMetaEnum_null : QMetaEnum := {| isFlag := false; enumerators := [] |}.

Definition keyCount (e : QMetaEnum) : Z := Z.of_nat (length (enumerators e)).

(** [keyToValue] returns -1 for a key the enumeration does not have. *)
Definition keyToValue (e : QMetaEnum) (key : list Z) : Z :=
  match find (fun kv => bool_decide (fst kv = key)) (enumerators e) with
  | Some kv => snd kv
  | None => -1
  end.

(** What [operator<] and [operator>] ask of a [TypeStreamer] through its
    virtual functions. *)
Record StreamerInfo := mkStreamerInfo {
  getName : list Z;
  getReaderType : Z;
  getMetaEnum : QMetaEnum
}.

(** [EnumTypeStreamer::getBits]; an [int] that is not negative is shifted
    down to 0 in fewer than 32 steps. *)
Definition EnumTypeStreamer_getBits (e : QMetaEnum) : option Z :=
  getBitsForHighestValue 32
    (fold_left (fun highestValue kv => Z.max highestValue (snd kv)) (enumerators e) 0).

(** The data hashed for an enumeration: every key with its terminating
    zero, followed by the four bytes of its value. *)
Definition enum_hash_data (e : QMetaEnum) : list Z :=
  concat (map (fun kv => fst kv ++ [0] ++ to_bytes 4 (snd kv)) (enumerators e)).

Fixpoint write_enumerators (kvs : list (list Z * Z)) : M unit :=
  match kvs with
  | [] => ret tt
  | kv :: rest =>
    let* _ := operator_shl_QByteArray (fst kv) in
    let* _ := operator_shl_int (snd kv) in
    write_enumerators rest
  end.

(** [Bitstream& Bitstream::operator<(const TypeStreamer* streamer)], for
    simple and enumeration streamers.  The other kinds send their child
    descriptors through the RepeatedValueStreamer of Bitstream.h and are
    outside this development: the function fails on them. *)
Definition operator_lt_TypeStreamer (md5 : list Z -> list Z)
    (_metadataType : MetadataType) (streamer : option StreamerInfo) : M unit :=
  match streamer with
  | None => operator_shl_QByteArray []
  | Some st =>
    let* _ := operator_shl_QByteArray (getName st) in
    match _metadataType with
    | NO_METADATA => ret tt
    | _ =>
      let type := getReaderType st in
      let* _ := operator_shl_int type in
      if type =? SIMPLE_TYPE then ret tt
      else if type =? ENUM_TYPE then
        let metaEnum := getMetaEnum st in
        match _metadataType with
        | FULL_METADATA =>
          let* _ := operator_shl_int (keyCount metaEnum) in
          write_enumerators (enumerators metaEnum)
        | _ =>
          let* bits := lift (EnumTypeStreamer_getBits metaEnum) in
          let* _ := operator_shl_int bits in
          let hashResult := md5 (enum_hash_data metaEnum) in
          write_m hashResult (Z.of_nat (length hashResult) * BITS_IN_BYTE) 0
        end
      else fail
    end
  end.

Module TypeReader.
Record t := mk {
  _typeName : list Z;
  _streamer : option StreamerInfo;
  _exactMatch : bool;
  _type : Z;
  _bits : Z;
  _mappings : gmap Z Z
}.

(** [TypeReader(typeName, streamer)]: [_exactMatch(true)]. *)
Definition exact (typeName : list Z) (streamer : option StreamerInfo) : t :=
  {| _typeName := typeName; _streamer := streamer; _exactMatch := true;
     _type := SIMPLE_TYPE; _bits := 0; _mappings := ∅ |}.

(** [TypeReader(typeName, streamer, bits, mappings)]:
    [_exactMatch(false), _type(ENUM_TYPE)]. *)
Definition mapped (typeName : list Z) (streamer : option StreamerInfo)
    (bits : Z) (mappings : gmap Z Z) : t :=
  {| _typeName := typeName; _streamer := streamer; _exactMatch := false;
     _type := ENUM_TYPE; _bits := bits; _mappings := mappings |}.
End TypeReader.

(** The loop over the peer's enumerators in [operator>], full metadata. *)
Fixpoint read_enumerators (metaEnum : QMetaEnum) (n : nat)
    (mappings : gmap Z Z) (matches : bool) (highestValue : Z)
    : M (gmap Z Z * bool * Z) :=
  match n with
  | O => ret (mappings, matches, highestValue)
  | S n' =>
    let* key := operator_shr_QByteArray in
    let* value := operator_shr_int in
    let highestValue' := Z.max value highestValue in
    let localValue := keyToValue metaEnum key in
    let mappings' :=
      if negb (localValue =? -1) then <[value := localValue]> mappings
      else mappings in
    read_enumerators metaEnum n' mappings' (matches && (value =? localValue))
                     highestValue'
  end.

(** [Bitstream& Bitstream::operator>(TypeReader& reader)], for simple and
    enumeration descriptors; [resolve] is the lookup of the peer's type
    name in the substitutions and then in the registry. *)
Definition operator_gt_TypeReader (md5 : list Z -> list Z)
    (resolve : list Z -> option StreamerInfo)
    (_metadataType : MetadataType) (_genericsMode : GenericsMode)
    : M TypeReader.t :=
  let* typeName := operator_shr_QByteArray in
  if bool_decide (typeName = []) then ret (TypeReader.exact [] None)
  else
    let streamer := resolve typeName in
    match _metadataType with
    | NO_METADATA => ret (TypeReader.exact typeName streamer)
    | _ =>
      let* type := operator_shr_int in
      if type =? SIMPLE_TYPE then ret (TypeReader.exact typeName streamer)
      else
        let streamer :=
          match _genericsMode with ALL_GENERICS => None | _ => streamer end in
        if type =? ENUM_TYPE then
          let isEnum :=
            match streamer with
            | Some st => getReaderType st =? ENUM_TYPE
            | None => false
            end in
          match _metadataType with
          | FULL_METADATA =>
            let* keyCount' := operator_shr_int in
            let metaEnum :=
              match streamer with
              | Some st => if isEnum then getMetaEnum st else QMetaEnum_null
              | None => QMetaEnum_null
              end in
            let* r := read_enumerators metaEnum (Z.to_nat keyCount') ∅
                        (keyCount' =? keyCount metaEnum) 0 in
            let '(mappings, matches, highestValue) := r in
            if matches then ret (TypeReader.exact typeName streamer)
            else
              let* bits := lift (getBitsForHighestValue 32 highestValue) in
              ret (TypeReader.mapped typeName streamer bits mappings)
          | _ =>
            let* bits := operator_shr_int in
            let localHashResult :=
              md5 (match streamer with
                   | Some st => if isEnum then enum_hash_data (getMetaEnum st) else []
                   | None => []
                   end) in
            let* remoteHashResult :=
              read_m (replicate (length localHashResult) 0)
                     (Z.of_nat (length localHashResult) * BITS_IN_BYTE) 0 in
            if bool_decide (localHashResult = remoteHashResult)
            then ret (TypeReader.exact typeName streamer)
            else ret (TypeReader.mapped typeName streamer bits ∅)
          end
        else fail
    end.

(** [EnumTypeStreamer::setEnumValue]; the result is the new content of
    [object]. *)
Definition EnumTypeStreamer_setEnumValue (metaEnum : QMetaEnum) (value : Z)
    (mappings : gmap Z Z) : Z :=
  if isFlag metaEnum then
    map_fold (fun key mapped combined =>
                if negb (Z.land value key =? 0) then Z.lor combined mapped
                else combined) 0 mappings
  else default 0 (mappings !! value).

(** [EnumTypeStreamer::write]: [out.write(&intValue, getBits())]. *)
Definition EnumTypeStreamer_write (metaEnum : QMetaEnum) (value : Z) : M unit :=
  let* bits := lift (EnumTypeStreamer_getBits metaEnum) in
  write_m (to_bytes 4 value) bits 0.

(** [EnumTypeStreamer::read] *)
Definition EnumTypeStreamer_read (metaEnum : QMetaEnum) : M Z :=
  let* bits := lift (EnumTypeStreamer_getBits metaEnum) in
  let* data := read_m (to_bytes 4 0) bits 0 in
  ret (int32 (of_bytes data)).

(** The deltas of [EnumTypeStreamer], which overrides all four functions.
    A variant is [None] when invalid and the integer it holds otherwise;
    [toInt()] of an invalid variant is 0, [value = intValue] makes a
    variant that holds the integer, and [value = reference] copies the
    reference, valid or not. *)
Definition toInt (value : option Z) : Z := default 0 value.

(** [EnumTypeStreamer::writeDelta] *)
Definition EnumTypeStreamer_writeDelta (metaEnum : QMetaEnum)
    (value reference : option Z) : M unit :=
  let intValue := toInt value in
  let intReference := toInt reference in
  if intValue =? intReference then write_bool_m false
  else
    let* _ := write_bool_m true in
    let* bits := lift (EnumTypeStreamer_getBits metaEnum) in
    write_m (to_bytes 4 intValue) bits 0.

(** [EnumTypeStreamer::readDelta] *)
Definition EnumTypeStreamer_readDelta (metaEnum : QMetaEnum)
    (reference : option Z) : M (option Z) :=
  let* changed := read_bool_m in
  if changed then
    let* bits := lift (EnumTypeStreamer_getBits metaEnum) in
    let* data := read_m (to_bytes 4 0) bits 0 in
    ret (Some (int32 (of_bytes data)))
  else ret reference.

(** [EnumTypeStreamer::writeRawDelta] *)
Definition EnumTypeStreamer_writeRawDelta (metaEnum : QMetaEnum)
    (value reference : option Z) : M unit :=
  let intValue := toInt value in
  let* bits := lift (EnumTypeStreamer_getBits metaEnum) in
  write_m (to_bytes 4 intValue) bits 0.

(** [EnumTypeStreamer::readRawDelta] *)
Definition EnumTypeStreamer_readRawDelta (metaEnum : QMetaEnum)
    (reference : option Z) : M (option Z) :=
  let* bits := lift (EnumTypeStreamer_getBits metaEnum) in
  let* data := read_m (to_bytes 4 0) bits 0 in
  ret (Some (int32 (of_bytes data))).

(** An enumeration of two bits: its highest value is 3. *)
Definition two_bit_enum : QMetaEnum :=
  {| isFlag := false; enumerators := [([65], 0); ([66], 3)] |}.

(** [QVariant TypeReader::read(Bitstream& in) const], for readers of
    enumerations.  The variant read is [None] when invalid and the integer
    it holds otherwise; [QVariant(_streamer->getType(), 0)] holds 0. *)
Definition TypeReader_read (reader : TypeReader.t) : M (option Z) :=
  if TypeReader._exactMatch reader then
    match TypeReader._streamer reader with
    | Some st =>
      if getReaderType st =? ENUM_TYPE
      then let* v := EnumTypeStreamer_read (getMetaEnum st) in ret (Some v)
      else fail
    | None => fail
    end
  else
    let object :=
      match TypeReader._streamer reader with Some _ => Some 0 | None => None end in
    if TypeReader._type reader =? ENUM_TYPE then
      let* data := read_m (to_bytes 4 0) (TypeReader._bits reader) 0 in
      let value := int32 (of_bytes data) in
      match TypeReader._streamer reader with
      | Some st =>
        if getReaderType st =? ENUM_TYPE
        then ret (Some (EnumTypeStreamer_setEnumValue (getMetaEnum st) value
                          (TypeReader._mappings reader)))
        else ret object
      | None => ret object
      end
    else fail.

(** Scenario S3: the enumeration [Color] as the peer and as the local side
    declare it.  Names are given by their ASCII codes. *)
Definition name_RED : list Z := [82; 69; 68].
Definition name_GREEN : list Z := [71; 82; 69; 69; 78].
Definition name_BLUE : list Z := [66; 76; 85; 69].
Definition name_Color : list Z := [67; 111; 108; 111; 114].

Definition peer_Color : StreamerInfo :=
  {| getName := name_Color; getReaderType := ENUM_TYPE;
     getMetaEnum := {| isFlag := false;
       enumerators := [(name_RED, 0); (name_GREEN, 1); (name_BLUE, 2)] |} |}.

Definition local_Color : StreamerInfo :=
  {| getName := name_Color; getReaderType := ENUM_TYPE;
     getMetaEnum := {| isFlag := false;
       enumerators := [(name_RED, 0); (name_BLUE, 1); (name_GREEN, 2)] |} |}.

Definition local_registry (typeName : list Z) : option StreamerInfo :=
  if bool_decide (typeName = name_Color) then Some local_Color else None.

(** The peer sends the descriptor of its [Color] and then the value
    [value] with its own streamer. *)
Definition peer_sends (md5 : list Z -> list Z) (metadataType : MetadataType)
    (value : Z) : M unit :=
  let* _ := operator_lt_TypeStreamer md5 metadataType (Some peer_Color) in
  EnumTypeStreamer_write (getMetaEnum peer_Color) value.

(** The local side reads the descriptor and then the value through the
    reader it built. *)
Definition local_receives (md5 : list Z -> list Z) (metadataType : MetadataType)
    : M (TypeReader.t * option Z) :=
  let* reader := operator_gt_TypeReader md5 local_registry metadataType NO_GENERICS in
  let* value := TypeReader_read reader in
  ret (reader, value).

(** A stand-in for MD5 with results of 16 bytes, used to exercise
    statements that hold for every hash function: the first 16 bytes of the
    data, padded with zeros. *)
Definition toy_hash (data : list Z) : list Z :=
  take 16 (map quint8 data ++ replicate 16 0).

(** ** Writing a QVariant

    A [QVariant] is known here by what [operator<<] asks of it.  A
    registered streamer is known by its descriptor, by
    [getStreamerToWrite] and by its virtual [write].  [qWarning()] is an
    output of the function: the messages it logged are returned. *)

Record QVariant := mkQVariant {
  isValid : bool;
  userType : Z;
  typeName : list Z;
  content : list Z
}.

Record RegisteredStreamer := mkRegisteredStreamer {
  getStreamerToWrite : QVariant -> StreamerInfo;
  streamer_write : QVariant -> M unit
}.

Inductive Warning := Non_streamable_type (name : list Z).

(** [Bitstream& Bitstream::operator<<(const QVariant& value)].  The member
    [_typeStreamerStreamer] is a RepeatedValueStreamer, a template of
    Bitstream.h: its state [rvs] and its [operator<<] are parameters;
    [NULL] is [None]. *)
Definition operator_shl_QVariant {RVS : Type}
    (typeStreamerStreamer_shl : RVS -> option StreamerInfo -> M RVS)
    (getTypeStreamers : Z -> option RegisteredStreamer)
    (rvs : RVS) (value : QVariant) : M (RVS * list Warning) :=
  if negb (isValid value) then
    let* rvs' := typeStreamerStreamer_shl rvs None in
    ret (rvs', [])
  else
    match getTypeStreamers (userType value) with
    | Some streamer =>
      let* rvs' :=
        typeStreamerStreamer_shl rvs (Some (getStreamerToWrite streamer value)) in
      let* _ := streamer_write streamer value in
      ret (rvs', [])
    | None => ret (rvs, [Non_streamable_type (typeName value)])
    end.

(** Modelled from the spec: the writing side of
    [RepeatedValueStreamer<const TypeStreamer*>], a template of
    Bitstream.h, which is not among the sources.  "If v is null/empty, emit
    sentinel 0.  Look up v.  If found, emit its ID via IDStreamer.
    Otherwise emit the new-value sentinel (the current (1<<bits)-1 via
    IDStreamer, which advances bits), assign the next ID, record it in the
    transient map, and emit v in full-form."  Streamers are keyed by their
    names. *)
Record RepeatedValueStreamer := mkRepeatedValueStreamer {
  _idStreamer : IDStreamer;
  _ids : gmap (list Z) Z;
  _lastID : Z
}.

Definition RepeatedValueStreamer_new : RepeatedValueStreamer :=
  {| _idStreamer := IDStreamer_new; _ids := ∅; _lastID := 0 |}.

Definition RepeatedValueStreamer_shl (md5 : list Z -> list Z)
    (metadataType : MetadataType) (rvs : RepeatedValueStreamer)
    (value : option StreamerInfo) : M RepeatedValueStreamer :=
  match value with
  | None =>
    let* ids := IDStreamer_shl (_idStreamer rvs) 0 in
    ret {| _idStreamer := ids; _ids := _ids rvs; _lastID := _lastID rvs |}
  | Some st =>
    match _ids rvs !! getName st with
    | Some id =>
      let* ids := IDStreamer_shl (_idStreamer rvs) id in
      ret {| _idStreamer := ids; _ids := _ids rvs; _lastID := _lastID rvs |}
    | None =>
      let marker := Z.shiftl 1 (_bits (_idStreamer rvs)) - 1 in
      let* ids := IDStreamer_shl (_idStreamer rvs) marker in
      let id := _lastID rvs + 1 in
      let* _ := operator_lt_TypeStreamer md5 metadataType (Some st) in
      ret {| _idStreamer := ids; _ids := <[getName st := id]> (_ids rvs);
             _lastID := id |}
    end
  end.

(** A registry with the streamer of [int] alone (QMetaType::Int is 2), and
    a valid variant of a type that has no streamer. *)
Definition int_info : StreamerInfo :=
  {| getName := [105; 110; 116]; getReaderType := SIMPLE_TYPE;
     getMetaEnum := QMetaEnum_null |}.

Definition sample_registry (type : Z) : option RegisteredStreamer :=
  if type =? 2
  then Some {| getStreamerToWrite := fun _ => int_info;
               streamer_write := fun value => operator_shl_int (of_bytes (content value)) |}
  else None.

Definition unregistered_variant : QVariant :=
  {| isValid := true; userType := 1024;
     typeName := [87; 105; 100; 103; 101; 116]; content := [1; 2; 3] |}.

(** ** Script values

    [QScriptValue] as the tagged union the two operators see.  The tests
    [isUndefined], [isNull], [isBool], ... of [operator<<] are tried in the
    order of the constructors below, so each value takes the branch of its
    constructor.  A number is the 64 bits of its [double]; a string is its
    UTF-16 code units; a date is its milliseconds since the epoch; an array
    is the list of its elements, an absent element being the invalid value;
    an object is the list of its properties.  [QObject] and [QMetaObject]
    are the host's; their codecs, the codec of [QVariant] and that of the
    interned [QScriptString] go through the RepeatedValueStreamers of
    Bitstream.h and are parameters.  A [QScriptString] is [None] when
    invalid. *)

Definition INVALID_SCRIPT_VALUE : Z := 0.
Definition UNDEFINED_SCRIPT_VALUE : Z := 1.
Definition NULL_SCRIPT_VALUE : Z := 2.
Definition BOOL_SCRIPT_VALUE : Z := 3.
Definition NUMBER_SCRIPT_VALUE : Z := 4.
Definition STRING_SCRIPT_VALUE : Z := 5.
Definition VARIANT_SCRIPT_VALUE : Z := 6.
Definition QOBJECT_SCRIPT_VALUE : Z := 7.
Definition QMETAOBJECT_SCRIPT_VALUE : Z := 8.
Definition DATE_SCRIPT_VALUE : Z := 9.
Definition REGEXP_SCRIPT_VALUE : Z := 10.
Definition ARRAY_SCRIPT_VALUE : Z := 11.
Definition OBJECT_SCRIPT_VALUE : Z := 12.

Definition SCRIPT_VALUE_BITS : Z := 4.

(** [static void writeScriptValueType(Bitstream& out, ScriptValueType type)] *)
Definition writeScriptValueType (type : Z) : M unit :=
  write_m (to_bytes 4 type) SCRIPT_VALUE_BITS 0.

(** [static ScriptValueType readScriptValueType(Bitstream& in)] *)
Definition readScriptValueType : M Z :=
  let* data := read_m (to_bytes 4 0) SCRIPT_VALUE_BITS 0 in
  ret (int32 (of_bytes data)).

(** [operator<<(double)] and [operator>>(double&)], on the bits of the
    number; [operator<<(qint64)] and [operator>>(qint64&)]. *)
Definition operator_shl_double (bits : Z) : M unit := write_m (to_bytes 8 bits) 64 0.

Definition operator_shr_double : M Z :=
  let* data := read_m (replicate 8 0) 64 0 in ret (of_bytes data).

Definition int64 (x : Z) : Z := (x + 2 ^ 63) mod 2 ^ 64 - 2 ^ 63.

Definition operator_shl_qint64 (value : Z) : M unit := write_m (to_bytes 8 value) 64 0.

Definition operator_shr_qint64 : M Z :=
  let* data := read_m (replicate 8 0) 64 0 in ret (int64 (of_bytes data)).

(** [operator<<(const QString&)]: the size, then [size * sizeof(QChar)]
    bytes, two per code unit. *)
Definition QString_data (string : list Z) : list Z := flat_map (to_bytes 2) string.

Fixpoint QString_of_data (data : list Z) : list Z :=
  match data with
  | lo :: hi :: rest => of_bytes [lo; hi] :: QString_of_data rest
  | _ => []
  end.

Definition operator_shl_QString (string : list Z) : M unit :=
  let* _ := operator_shl_int (Z.of_nat (length string)) in
  write_m (QString_data string) (Z.of_nat (length string) * 2 * BITS_IN_BYTE) 0.

Definition operator_shr_QString : M (list Z) :=
  let* size := operator_shr_int in
  let* data := read_m (replicate (Z.to_nat (size * 2)) 0) (size * 2 * BITS_IN_BYTE) 0 in
  ret (QString_of_data data).

Section ScriptValues.
Variables QObject QMetaObject : Type.

Inductive QScriptValue :=
| Invalid_value
| Undefined_value
| Null_value
| Bool_value (b : bool)
| Number_value (bits : Z)
| String_value (string : list Z)
| Variant_value (variant : QVariant)
| QObject_value (object : QObject)
| QMetaObject_value (metaObject : QMetaObject)
| Date_value (msecsSinceEpoch : Z)
| RegExp_value (pattern : list Z) (caseSensitivity syntax : Z) (minimal : bool)
| Array_value (elements : list QScriptValue)
| Object_value (properties : list (list Z * QScriptValue)).

Variable shl_QVariant : QVariant -> M unit.
Variable shr_QVariant : M QVariant.
Variable shl_QObject : QObject -> M unit.
Variable shr_QObject : M (option QObject).
Variable shl_QMetaObject : QMetaObject -> M unit.
Variable shr_QMetaObject : M (option QMetaObject).
Variable shl_QScriptString : option (list Z) -> M unit.
Variable shr_QScriptString : M (option (list Z)).

(** [Bitstream& Bitstream::operator<<(const QRegExp& regExp)], on the
    fields of the expression. *)
Definition operator_shl_QRegExp (pattern : list Z) (caseSensitivity syntax : Z)
    (minimal : bool) : M unit :=
  let* _ := operator_shl_QString pattern in
  let* _ := write_m (to_bytes 4 caseSensitivity) 1 0 in
  let* _ := write_m (to_bytes 4 syntax) 3 0 in
  write_bool_m minimal.

Definition operator_shr_QRegExp : M QScriptValue :=
  let* pattern := operator_shr_QString in
  let* cs := read_m (to_bytes 4 0) 1 0 in
  let* syntax := read_m (to_bytes 4 0) 3 0 in
  let* minimal := read_bool_m in
  ret (RegExp_value pattern (int32 (of_bytes cs)) (int32 (of_bytes syntax)) minimal).

(** [Bitstream& Bitstream::operator<<(const QScriptValue& value)] *)
Fixpoint operator_shl_QScriptValue (value : QScriptValue) : M unit :=
  match value with
  | Undefined_value => writeScriptValueType UNDEFINED_SCRIPT_VALUE
  | Null_value => writeScriptValueType NULL_SCRIPT_VALUE
  | Bool_value b =>
    let* _ := writeScriptValueType BOOL_SCRIPT_VALUE in write_bool_m b
  | Number_value bits =>
    let* _ := writeScriptValueType NUMBER_SCRIPT_VALUE in operator_shl_double bits
  | String_value string =>
    let* _ := writeScriptValueType STRING_SCRIPT_VALUE in operator_shl_QString string
  | Variant_value variant =>
    let* _ := writeScriptValueType VARIANT_SCRIPT_VALUE in shl_QVariant variant
  | QObject_value object =>
    let* _ := writeScriptValueType QOBJECT_SCRIPT_VALUE in shl_QObject object
  | QMetaObject_value metaObject =>
    let* _ := writeScriptValueType QMETAOBJECT_SCRIPT_VALUE in
    shl_QMetaObject metaObject
  | Date_value msecs =>
    let* _ := writeScriptValueType DATE_SCRIPT_VALUE in operator_shl_qint64 msecs
  | RegExp_value pattern caseSensitivity syntax minimal =>
    let* _ := writeScriptValueType REGEXP_SCRIPT_VALUE in
    operator_shl_QRegExp pattern caseSensitivity syntax minimal
  | Array_value elements =>
    let* _ := writeScriptValueType ARRAY_SCRIPT_VALUE in
    let* _ := operator_shl_int (Z.of_nat (length elements)) in
    write_elements operator_shl_QScriptValue elements
  | Object_value properties =>
    let* _ := writeScriptValueType OBJECT_SCRIPT_VALUE in
    let* _ :=
      write_elements
        (fun property =>
           let* _ := shl_QScriptString (Some (fst property)) in
           operator_shl_QScriptValue (snd property)) properties in
    shl_QScriptString None
  | Invalid_value => writeScriptValueType INVALID_SCRIPT_VALUE
  end.

(** [value.setProperty(name, scriptValue)] on the list of properties:
    setting the invalid value removes the property. *)
Definition setProperty (properties : list (list Z * QScriptValue))
    (name : list Z) (scriptValue : QScriptValue)
    : list (list Z * QScriptValue) :=
  let others := filter (fun p => fst p <> name) properties in
  match scriptValue with
  | Invalid_value => others
  | _ => others ++ [(name, scriptValue)]
  end.

(** The loop of the ARRAY_SCRIPT_VALUE case: [QScriptValue element;
    *this >> element; value.setProperty(i, element);], for [n] indices from
    [i] on.  [read_element] is [*this >> element] on a default-constructed
    element. *)
Fixpoint read_elements (read_element : M QScriptValue) (n i : nat)
    (elements : list QScriptValue) : M (list QScriptValue) :=
  match n with
  | O => ret elements
  | S n' =>
    let* element := read_element in
    read_elements read_element n' (S i) (<[i := element]> elements)
  end.

(** The [forever] loop of the OBJECT_SCRIPT_VALUE case, which ends at the
    invalid name; [k] bounds its length. *)
Fixpoint read_properties (read_value : M QScriptValue) (k : nat)
    (properties : list (list Z * QScriptValue))
    : M (list (list Z * QScriptValue)) :=
  match k with
  | O => fail
  | S k' =>
    let* name := shr_QScriptString in
    match name with
    | None => ret properties
    | Some name' =>
      let* scriptValue := read_value in
      read_properties read_value k' (setProperty properties name' scriptValue)
    end
  end.

(** [Bitstream& Bitstream::operator>>(QScriptValue& value)]; [value] is
    what the caller's variable held, the result is what it holds
    afterwards.  [fuel] bounds the depth of nesting and the length of the
    [forever] loop over the properties of an object. *)
Fixpoint operator_shr_QScriptValue (fuel : nat) (value : QScriptValue)
    : M QScriptValue :=
  match fuel with
  | O => fail
  | S fuel' =>
    let* type := readScriptValueType in
    if type =? UNDEFINED_SCRIPT_VALUE then ret Undefined_value
    else if type =? NULL_SCRIPT_VALUE then ret Null_value
    else if type =? BOOL_SCRIPT_VALUE then
      let* boolValue := read_bool_m in ret (Bool_value boolValue)
    else if type =? NUMBER_SCRIPT_VALUE then
      let* numberValue := operator_shr_double in ret (Number_value numberValue)
    else if type =? STRING_SCRIPT_VALUE then
      let* stringValue := operator_shr_QString in ret (String_value stringValue)
    else if type =? VARIANT_SCRIPT_VALUE then
      let* variantValue := shr_QVariant in ret (Variant_value variantValue)
    else if type =? QOBJECT_SCRIPT_VALUE then
      let* object := shr_QObject in ret value
    else if type =? QMETAOBJECT_SCRIPT_VALUE then
      let* metaObject := shr_QMetaObject in ret value
    else if type =? DATE_SCRIPT_VALUE then
      let* msecsSinceEpoch := operator_shr_qint64 in ret (Date_value msecsSinceEpoch)
    else if type =? REGEXP_SCRIPT_VALUE then operator_shr_QRegExp
    else if type =? ARRAY_SCRIPT_VALUE then
      let* length' := operator_shr_int in
      let* elements :=
        read_elements (operator_shr_QScriptValue fuel' Invalid_value)
          (Z.to_nat length') 0%nat (replicate (Z.to_nat length') Invalid_value) in
      ret (Array_value elements)
    else if type =? OBJECT_SCRIPT_VALUE then
      let* properties :=
        read_properties (operator_shr_QScriptValue fuel' Invalid_value) fuel' [] in
      ret (Object_value properties)
    else ret Invalid_value
  end.
End ScriptValues.

Arguments Invalid_value {QObject QMetaObject}.
Arguments Undefined_value {QObject QMetaObject}.
Arguments Null_value {QObject QMetaObject}.
Arguments Bool_value {QObject QMetaObject} _.
Arguments Number_value {QObject QMetaObject} _.
Arguments String_value {QObject QMetaObject} _.
Arguments Variant_value {QObject QMetaObject} _.
Arguments QObject_value {QObject QMetaObject} _.
Arguments QMetaObject_value {QObject QMetaObject} _.
Arguments Date_value {QObject QMetaObject} _.
Arguments RegExp_value {QObject QMetaObject} _ _ _ _.
Arguments Array_value {QObject QMetaObject} _.
Arguments Object_value {QObject QMetaObject} _.

(** The script values for which the round trip is established below: no
    QObject and no QMetaObject at any depth, payloads that fit their wire
    format (the bit count of a string is an [int]), and, in an object,
    distinct property names with valid values.
    [supported name_ok variant_ok n value] also says that fuel [n] is
    enough to read [value] back; [name_ok] and [variant_ok] are the names
    and the variants that the parameter codecs handle. *)
Definition string_ok (string : list Z) : Prop :=
  Z.of_nat (length string) < 2 ^ 27 /\ Forall (fun unit => 0 <= unit < 65536) string.

Inductive supported {QObject QMetaObject : Type}
    (name_ok : list Z -> Prop) (variant_ok : QVariant -> Prop)
    : nat -> QScriptValue QObject QMetaObject -> Prop :=
| supported_invalid n : supported name_ok variant_ok (S n) Invalid_value
| supported_undefined n : supported name_ok variant_ok (S n) Undefined_value
| supported_null n : supported name_ok variant_ok (S n) Null_value
| supported_bool n b : supported name_ok variant_ok (S n) (Bool_value b)
| supported_number n bits :
    0 <= bits < 2 ^ 64 -> supported name_ok variant_ok (S n) (Number_value bits)
| supported_string n string :
    string_ok string -> supported name_ok variant_ok (S n) (String_value string)
| supported_variant n variant :
    variant_ok variant -> supported name_ok variant_ok (S n) (Variant_value variant)
| supported_date n msecs :
    - 2 ^ 63 <= msecs < 2 ^ 63 ->
    supported name_ok variant_ok (S n) (Date_value msecs)
| supported_regexp n pattern caseSensitivity syntax minimal :
    string_ok pattern -> 0 <= caseSensitivity < 2 -> 0 <= syntax < 8 ->
    supported name_ok variant_ok (S n)
      (RegExp_value pattern caseSensitivity syntax minimal)
| supported_array n elements :
    Z.of_nat (length elements) < 2 ^ 31 ->
    Forall (supported name_ok variant_ok n) elements ->
    supported name_ok variant_ok (S n) (Array_value elements)
| supported_object n properties :
    (length properties < n)%nat ->
    NoDup (map fst properties) ->
    Forall (fun property =>
              name_ok (fst property)
              /\ supported name_ok variant_ok n (snd property)
              /\ snd property <> Invalid_value) properties ->
    supported name_ok variant_ok (S n) (Object_value properties).

(** A sample instantiation of the parameters of the script-value
    operators, used to run them: objects and meta-objects are integer
    handles sent as [int], a variant is sent as its type and content, a
    script string as a validity bit and its bytes. *)
Definition sample_shl_QVariant (value : QVariant) : M unit :=
  let* _ := operator_shl_int (userType value) in
  let* _ := operator_shl_QByteArray (typeName value) in
  operator_shl_QByteArray (content value).

Definition sample_shr_QVariant : M QVariant :=
  let* type := operator_shr_int in
  let* name := operator_shr_QByteArray in
  let* data := operator_shr_QByteArray in
  ret {| isValid := true; userType := type; typeName := name; content := data |}.

Definition sample_shl_handle (handle : Z) : M unit := operator_shl_int handle.

Definition sample_shr_handle : M (option Z) :=
  let* handle := operator_shr_int in ret (Some handle).

Definition sample_shl_QScriptString (string : option (list Z)) : M unit :=
  match string with
  | Some name => let* _ := write_bool_m true in operator_shl_QByteArray name
  | None => write_bool_m false
  end.

Definition sample_shr_QScriptString : M (option (list Z)) :=
  let* valid := read_bool_m in
  if valid then let* name := operator_shr_QByteArray in ret (Some name)
  else ret None.

Definition sample_shl_QScriptValue : QScriptValue Z Z -> M unit :=
  operator_shl_QScriptValue Z Z sample_shl_QVariant sample_shl_handle
    sample_shl_handle sample_shl_QScriptString.

Definition sample_shr_QScriptValue (fuel : nat) (value : QScriptValue Z Z)
    : M (QScriptValue Z Z) :=
  operator_shr_QScriptValue Z Z sample_shr_QVariant sample_shr_handle
    sample_shr_handle sample_shr_QScriptString fuel value.

(** What the sample codecs handle: byte strings whose size fits an [int],
    and valid variants made of such. *)
Definition sample_name_ok (name : list Z) : Prop :=
  bytes_ok name /\ Z.of_nat (length name) < 2 ^ 31.

Definition sample_variant_ok (variant : QVariant) : Prop :=
  isValid variant = true
  /\ - 2 ^ 31 <= userType variant < 2 ^ 31
  /\ bytes_ok (typeName variant) /\ Z.of_nat (length (typeName variant)) < 2 ^ 31
  /\ bytes_ok (content variant) /\ Z.of_nat (length (content variant)) < 2 ^ 31.

(** Sending a script value on a fresh stream, flushing, and receiving it
    into a default-constructed (invalid) [QScriptValue]. *)
Definition script_value_roundtrip (fuel : nat) (value : QScriptValue Z Z)
    : option (QScriptValue Z Z) :=
  match sample_shl_QScriptValue value writer_new with
  | Some (_, w) =>
    match sample_shr_QScriptValue fuel Invalid_value
            (reader_new (ds_written (_underlying (flush w)))) with
    | Some (decoded, _) => Some decoded
    | None => None
    end
  | None => None
  end.

(** ** More typed operators

    The remaining scalar operators.  A [float] is the 32 bits of its
    object representation, as a [double] is its 64 bits above.  The readers
    of [float] store into the caller's variable, whose content on entry is
    their argument. *)

(** Conversion to a 32-bit [uint]. *)
Definition uint32 (x : Z) : Z := x mod 2 ^ 32.

(** [operator<<(uint value)] and [operator>>(uint& value)]:
    [quint32 sizedValue; read(&sizedValue, 32); value = sizedValue]. *)
Definition operator_shl_uint (value : Z) : M unit := write_m (to_bytes 4 value) 32 0.

Definition operator_shr_uint : M Z :=
  let* data := read_m (replicate 4 0) 32 0 in ret (of_bytes data).

(** [operator<<(float value)] and [operator>>(float& value)]:
    [read(&value, 32)]. *)
Definition operator_shl_float (value : Z) : M unit := write_m (to_bytes 4 value) 32 0.

Definition operator_shr_float (value : Z) : M Z :=
  let* data := read_m (to_bytes 4 value) 32 0 in ret (of_bytes data).

Module vec3.
Record t := mk { x : Z; y : Z; z : Z }.
End vec3.

Module quat.
Record t := mk { w : Z; x : Z; y : Z; z : Z }.
End quat.

(** [operator<<(const glm::vec3& value)]:
    [*this << value.x << value.y << value.z]. *)
Definition operator_shl_vec3 (value : vec3.t) : M unit :=
  let* _ := operator_shl_float (vec3.x value) in
  let* _ := operator_shl_float (vec3.y value) in
  operator_shl_float (vec3.z value).

(** [operator>>(glm::vec3& value)]:
    [*this >> value.x >> value.y >> value.z]. *)
Definition operator_shr_vec3 (value : vec3.t) : M vec3.t :=
  let* x := operator_shr_float (vec3.x value) in
  let* y := operator_shr_float (vec3.y value) in
  let* z := operator_shr_float (vec3.z value) in
  ret (vec3.mk x y z).

(** [operator<<(const glm::quat& value)]:
    [*this << value.w << value.x << value.y << value.z]. *)
Definition operator_shl_quat (value : quat.t) : M unit :=
  let* _ := operator_shl_float (quat.w value) in
  let* _ := operator_shl_float (quat.x value) in
  let* _ := operator_shl_float (quat.y value) in
  operator_shl_float (quat.z value).

(** [operator>>(glm::quat& value)] *)
Definition operator_shr_quat (value : quat.t) : M quat.t :=
  let* w := operator_shr_float (quat.w value) in
  let* x := operator_shr_float (quat.x value) in
  let* y := operator_shr_float (quat.y value) in
  let* z := operator_shr_float (quat.z value) in
  ret (quat.mk w x y z).

(** [operator<<(const QColor& color)]: [*this << (int)color.rgba()], and
    [operator>>(QColor& color)]: [int rgba; *this >> rgba;
    color.setRgba(rgba)].  A colour is known here by its [rgba()], a
    [QRgb], which is an [unsigned int]. *)
Definition operator_shl_QColor (rgba : Z) : M unit := operator_shl_int (int32 rgba).

Definition operator_shr_QColor : M Z :=
  let* rgba := operator_shr_int in ret (uint32 rgba).

(** [operator<<(const QUrl& url)]: [*this << url.toString()], and
    [operator>>(QUrl& url)]: [QString string; *this >> string; url = string].
    An URL is known here by its [toString()]. *)
Definition operator_shl_QUrl (url : list Z) : M unit := operator_shl_QString url.

Definition operator_shr_QUrl : M (list Z) := operator_shr_QString.

(** [operator<<(const QDateTime& dateTime)]:
    [*this << dateTime.toMSecsSinceEpoch()], and [operator>>(QDateTime&)].
    A date is known here by its milliseconds since the epoch. *)
Definition operator_shl_QDateTime (msecsSinceEpoch : Z) : M unit :=
  operator_shl_qint64 msecsSinceEpoch.

Definition operator_shr_QDateTime : M Z := operator_shr_qint64.

(** The bits of a string on the wire: its size as an [int], then two bytes
    for each code unit. *)
Definition QString_bits (string : list Z) : list bool :=
  tab (Z.testbit (Z.of_nat (length string))) 32 ++ bytes_bits (QString_data string).

Definition QByteArray_bits (string : list Z) : list bool :=
  tab (Z.testbit (Z.of_nat (length string))) 32 ++ bytes_bits string.

(** ** Enumeration descriptors in general

    What a streamer of an enumeration must satisfy to be described on the
    wire: a name and keys made of bytes, none of them the terminating zero
    of a C string, sizes and values that are [int]s. *)
Definition enumerator_ok (kv : list Z * Z) : Prop :=
  Forall (fun b => 0 < b < 256) (fst kv)
  /\ Z.of_nat (length (fst kv)) < 2 ^ 28
  /\ - 2 ^ 31 <= snd kv < 2 ^ 31.

Definition enum_streamer_ok (st : StreamerInfo) : Prop :=
  getReaderType st = ENUM_TYPE
  /\ getName st <> []
  /\ bytes_ok (getName st)
  /\ Z.of_nat (length (getName st)) < 2 ^ 28
  /\ Forall enumerator_ok (enumerators (getMetaEnum st))
  /\ Z.of_nat (length (enumerators (getMetaEnum st))) < 2 ^ 31.

(** A peer sends the descriptor of its streamer [st] and then [value]
    through it; the local side reads the descriptor and then a value
    through the reader it built. *)
Definition sends_enum (md5 : list Z -> list Z) (metadataType : MetadataType)
    (st : StreamerInfo) (value : Z) : M unit :=
  let* _ := operator_lt_TypeStreamer md5 metadataType (Some st) in
  EnumTypeStreamer_write (getMetaEnum st) value.

Definition receives_enum (md5 : list Z -> list Z)
    (resolve : list Z -> option StreamerInfo)
    (metadataType : MetadataType) (genericsMode : GenericsMode)
    : M (TypeReader.t * option Z) :=
  let* reader := operator_gt_TypeReader md5 resolve metadataType genericsMode in
  let* value := TypeReader_read reader in
  ret (reader, value).

(** ** Script strings in full

    [operator<(const QScriptString&)] and [operator>(QScriptString&)], the
    full form of a script string, which its RepeatedValueStreamer sends the
    first time the string is met.  [INVALID_STRING] is ["%INVALID%"];
    [toStringHandle] gives the handle of the string read. *)
Definition INVALID_STRING : list Z := [37; 73; 78; 86; 65; 76; 73; 68; 37].

Definition operator_lt_QScriptString (string : option (list Z)) : M unit :=
  operator_shl_QString
    (match string with Some text => text | None => INVALID_STRING end).

Definition operator_gt_QScriptString : M (option (list Z)) :=
  let* rawString := operator_shr_QString in
  ret (if bool_decide (rawString = INVALID_STRING) then None else Some rawString).

(** ** Deltas through a TypeReader

    [TypeReader::readRawDelta] and [TypeReader::readDelta], for readers of
    enumerations, as [TypeReader_read] above.  [object] is what the caller's
    variant held; the exact match goes to the virtuals of the streamer,
    [EnumTypeStreamer::readRawDelta] and [EnumTypeStreamer::readDelta]. *)
Definition TypeReader_readRawDelta (reader : TypeReader.t)
    (object reference : option Z) : M (option Z) :=
  if TypeReader._exactMatch reader then
    match TypeReader._streamer reader with
    | Some st =>
      if getReaderType st =? ENUM_TYPE
      then EnumTypeStreamer_readRawDelta (getMetaEnum st) reference
      else fail
    | None => fail
    end
  else
    if TypeReader._type reader =? ENUM_TYPE then
      let* data := read_m (to_bytes 4 0) (TypeReader._bits reader) 0 in
      let value := int32 (of_bytes data) in
      match TypeReader._streamer reader with
      | Some st =>
        if getReaderType st =? ENUM_TYPE
        then ret (Some (EnumTypeStreamer_setEnumValue (getMetaEnum st) value
                          (TypeReader._mappings reader)))
        else ret object
      | None => ret object
      end
    else fail.

Definition TypeReader_readDelta (reader : TypeReader.t)
    (object reference : option Z) : M (option Z) :=
  if TypeReader._exactMatch reader then
    match TypeReader._streamer reader with
    | Some st =>
      if getReaderType st =? ENUM_TYPE
      then EnumTypeStreamer_readDelta (getMetaEnum st) reference
      else fail
    | None => fail
    end
  else
    let* changed := read_bool_m in
    if changed then TypeReader_readRawDelta reader object reference
    else ret reference.

(** [MappedEnumTypeStreamer::readRawDelta], of the streamer built from a
    reader that is not an exact match. *)
Definition MappedEnumTypeStreamer_readRawDelta (baseStreamer : option StreamerInfo)
    (bits : Z) (mappings : gmap Z Z) (object reference : option Z)
    : M (option Z) :=
  let* data := read_m (to_bytes 4 0) bits 0 in
  let value := int32 (of_bytes data) in
  match baseStreamer with
  | Some st =>
    if getReaderType st =? ENUM_TYPE
    then ret (Some (EnumTypeStreamer_setEnumValue (getMetaEnum st) value mappings))
    else ret object
  | None => ret object
  end.

(** ** The registries

    The static tables of the class and the substitutions of an instance.
    A [TypeStreamer] registered is an object designated by a pointer:
    [registerTypeStreamer] writes into it, so the objects live in a store.
    A [QMetaObject] is a class name and the meta-object of the superclass,
    if any; two meta-objects are the same when they describe the same class
    with the same ancestors.  [QMultiHash::insert] adds an entry in front of
    those of the same key, [values] lists them from the most recent. *)
Module Registry.

Record TypeStreamerObject := mkTypeStreamerObject {
  _type : Z;
  _self : option N
}.

Inductive QMetaObject :=
| mkQMetaObject (className : list Z) (superClass : option QMetaObject).

Definition className (metaObject : QMetaObject) : list Z :=
  match metaObject with mkQMetaObject name _ => name end.

Definition superClass (metaObject : QMetaObject) : option QMetaObject :=
  match metaObject with mkQMetaObject _ super => super end.

Fixpoint QMetaObject_eqb (a b : QMetaObject) : bool :=
  match a, b with
  | mkQMetaObject name1 super1, mkQMetaObject name2 super2 =>
    bool_decide (name1 = name2)
    && match super1, super2 with
       | Some s1, Some s2 => QMetaObject_eqb s1 s2
       | None, None => true
       | _, _ => false
       end
  end.

Record t := mk {
  streamers : gmap N TypeStreamerObject;
  typeStreamers : gmap Z N;
  metaObjects : gmap (list Z) QMetaObject;
  metaObjectSubClasses : list (QMetaObject * QMetaObject)
}.

(** [int Bitstream::registerTypeStreamer(int type, TypeStreamer* streamer)];
    [None] when the pointer designates no object. *)
Definition registerTypeStreamer (r : t) (type : Z) (streamer : N) : option (Z * t) :=
  match streamers r !! streamer with
  | Some object =>
    let object' :=
      {| _type := type;
         _self := match _self object with
                  | Some self => Some self
                  | None => Some streamer
                  end |} in
    Some (0, {| streamers := <[streamer := object']> (streamers r);
                typeStreamers := <[type := streamer]> (typeStreamers r);
                metaObjects := metaObjects r;
                metaObjectSubClasses := metaObjectSubClasses r |})
  | None => None
  end.

(** [const TypeStreamer* Bitstream::getTypeStreamer(int type)]:
    [QHash::value] gives a null pointer for a key that is absent. *)
Definition getTypeStreamer (r : t) (type : Z) : option N := typeStreamers r !! type.

(** [streamer->getType()] *)
Definition getType (r : t) (streamer : N) : option Z :=
  _type <$> (streamers r !! streamer).

(** The loop of [registerMetaObject]:
    [for (superClass = metaObject; superClass;
          superClass = superClass->superClass())
       getMetaObjectSubClasses().insert(superClass, metaObject);] *)
Fixpoint insert_subclasses (superClass metaObject : QMetaObject)
    (subClasses : list (QMetaObject * QMetaObject))
    : list (QMetaObject * QMetaObject) :=
  match superClass with
  | mkQMetaObject _ super =>
    let subClasses' := (superClass, metaObject) :: subClasses in
    match super with
    | Some s => insert_subclasses s metaObject subClasses'
    | None => subClasses'
    end
  end.

(** [int Bitstream::registerMetaObject(const char* className,
    const QMetaObject* metaObject)] *)
Definition registerMetaObject (r : t) (name : list Z) (metaObject : QMetaObject)
    : Z * t :=
  (0, {| streamers := streamers r;
         typeStreamers := typeStreamers r;
         metaObjects := <[name := metaObject]> (metaObjects r);
         metaObjectSubClasses :=
           insert_subclasses metaObject metaObject (metaObjectSubClasses r) |}).

(** [Bitstream::getMetaObject(const QByteArray& className)] *)
Definition getMetaObject (r : t) (name : list Z) : option QMetaObject :=
  metaObjects r !! name.

(** [Bitstream::getMetaObjectSubClasses(const QMetaObject* metaObject)] *)
Definition getMetaObjectSubClasses (r : t) (metaObject : QMetaObject)
    : list QMetaObject :=
  map snd (List.filter (fun entry => QMetaObject_eqb (fst entry) metaObject)
                       (metaObjectSubClasses r)).

(** A class with its ancestors, from the class up. *)
Fixpoint ancestors (metaObject : QMetaObject) : list QMetaObject :=
  match metaObject with
  | mkQMetaObject _ super =>
    metaObject :: match super with Some s => ancestors s | None => [] end
  end.

(** [void Bitstream::addTypeSubstitution(const QByteArray& typeName,
    int type)]: the streamer stored is the one registered for [type], a
    null pointer if there is none. *)
Definition addTypeSubstitution (r : t)
    (_typeStreamerSubstitutions : gmap (list Z) (option N))
    (typeName : list Z) (type : Z) : gmap (list Z) (option N) :=
  <[typeName := getTypeStreamer r type]> _typeStreamerSubstitutions.

(** The lookup of a type name at the head of [operator>(TypeReader&)]:
    the substitutions, then the streamers by [QMetaType::type], then the
    enumeration streamers by name.  [QMetaType::type] and the table of
    enumeration streamers are parameters. *)
Definition resolve (r : t) (QMetaType_type : list Z -> Z)
    (getEnumStreamersByName : list Z -> option N)
    (_typeStreamerSubstitutions : gmap (list Z) (option N))
    (typeName : list Z) : option N :=
  match default None (_typeStreamerSubstitutions !! typeName) with
  | Some streamer => Some streamer
  | None =>
    match typeStreamers r !! QMetaType_type typeName with
    | Some streamer => Some streamer
    | None => getEnumStreamersByName typeName
    end
  end.

End Registry.

(** ** Objects and their properties

    A [QMetaObject] is known here by its properties, in the order of
    [property(i)]; a [QObject] is its meta-object and the values of its
    properties: [QMetaProperty::read] gives the value filed under the name
    of the property, an invalid variant when there is none, and
    [QMetaProperty::write] files the value.  A [TypeStreamer] is known by
    its virtual [write] and [read]; the [TypeReader] of a property reader,
    built by [TypeReader(QByteArray(), streamer)], is an exact match, and
    its [read] is that of the streamer.  The tables [getEnumStreamers] and
    [getTypeStreamers], the set of registered meta-objects and
    [QMetaObject::newInstance] are parameters, and so are the two operators
    of [_metaObjectStreamer], a RepeatedValueStreamer of Bitstream.h, with
    its state. *)

(** [QVariant()] *)
Definition QVariant_invalid : QVariant :=
  {| isValid := false; userType := 0; typeName := []; content := [] |}.

Module Objects.

Record Streamer := mkStreamer {
  write : QVariant -> M unit;
  read : M QVariant
}.

Record QMetaProperty := mkQMetaProperty {
  name : list Z;
  isValid : bool;
  isStored : bool;
  isEnumType : bool;
  enumerator : list Z * list Z;
  userType : Z
}.

(** [QMetaProperty()] *)
Definition QMetaProperty_invalid : QMetaProperty :=
  {| name := []; isValid := false; isStored := false; isEnumType := false;
     enumerator := ([], []); userType := 0 |}.

Record QMetaObject := mkQMetaObject {
  className : list Z;
  properties : list QMetaProperty
}.

Record QObject := mkQObject {
  metaObject : QMetaObject;
  values : gmap (list Z) QVariant
}.

(** [_property.read(object)] and [_property.write(object, value)] *)
Definition QMetaProperty_read (property : QMetaProperty) (object : QObject)
    : QVariant :=
  default QVariant_invalid (values object !! name property).

Definition QMetaProperty_write (property : QMetaProperty) (object : QObject)
    (value : QVariant) : QObject :=
  {| metaObject := metaObject object;
     values := <[name property := value]> (values object) |}.

Record PropertyWriter := mkPropertyWriter {
  writer_property : QMetaProperty;
  writer_streamer : Streamer
}.

Record PropertyReader := mkPropertyReader {
  reader_read : M QVariant;
  reader_property : QMetaProperty
}.

Record ObjectReader := mkObjectReader {
  _className : list Z;
  _metaObject : option QMetaObject;
  _properties : list PropertyReader
}.

Section Tables.
Variable getEnumStreamers : list Z * list Z -> option Streamer.
Variable getTypeStreamers : Z -> option Streamer.
Variable registered : QMetaObject -> bool.
Variable newInstance : QMetaObject -> option QObject.

(** The streamer of a property, as both [createPropertyReaders] and
    [createPropertyWriters] look for it. *)
Definition property_streamer (property : QMetaProperty) : option Streamer :=
  if isEnumType property then getEnumStreamers (enumerator property)
  else getTypeStreamers (userType property).

(** The loop of [Bitstream::createPropertyWriters] over the properties of
    one meta-object. *)
Fixpoint createPropertyWriters (properties : list QMetaProperty)
    : list PropertyWriter :=
  match properties with
  | [] => []
  | property :: rest =>
    if negb (isStored property) then createPropertyWriters rest
    else
      match property_streamer property with
      | Some streamer =>
        {| writer_property := property; writer_streamer := streamer |}
          :: createPropertyWriters rest
      | None => createPropertyWriters rest
      end
  end.

(** The loop of [Bitstream::createPropertyReaders]. *)
Fixpoint createPropertyReaders (properties : list QMetaProperty)
    : list PropertyReader :=
  match properties with
  | [] => []
  | property :: rest =>
    if negb (isStored property) then createPropertyReaders rest
    else
      match property_streamer property with
      | Some streamer =>
        {| reader_read := read streamer; reader_property := property |}
          :: createPropertyReaders rest
      | None => createPropertyReaders rest
      end
  end.

(** [getPropertyWriters().value(metaObject)] and
    [getPropertyReaders().value(metaObject)]: the tables have an entry for
    each registered meta-object, and [QHash::value] gives an empty vector
    for the others. *)
Definition getPropertyWriters (metaObject : QMetaObject) : list PropertyWriter :=
  if registered metaObject then createPropertyWriters (properties metaObject)
  else [].

Definition getPropertyReaders (metaObject : QMetaObject) : list PropertyReader :=
  if registered metaObject then createPropertyReaders (properties metaObject)
  else [].

(** [void PropertyWriter::write(Bitstream& out, const QObject* object)] *)
Definition PropertyWriter_write (writer : PropertyWriter) (object : QObject)
    : M unit :=
  write (writer_streamer writer) (QMetaProperty_read (writer_property writer) object).

(** [void PropertyReader::read(Bitstream& in, QObject* object)]; the
    result is the object afterwards, [None] standing for the null
    pointer. *)
Definition PropertyReader_read (reader : PropertyReader) (object : option QObject)
    : M (option QObject) :=
  let* value := reader_read reader in
  match object with
  | Some o =>
    if isValid (reader_property reader)
    then ret (Some (QMetaProperty_write (reader_property reader) o value))
    else ret object
  | None => ret object
  end.

Fixpoint read_properties_into (readers : list PropertyReader)
    (object : option QObject) : M (option QObject) :=
  match readers with
  | [] => ret object
  | reader :: rest =>
    let* object' := PropertyReader_read reader object in
    read_properties_into rest object'
  end.

(** [QObject* ObjectReader::read(Bitstream& in, QObject* object)] *)
Definition ObjectReader_read (objectReader : ObjectReader)
    (object : option QObject) : M (option QObject) :=
  let object' :=
    match object, _metaObject objectReader with
    | None, Some metaObject => newInstance metaObject
    | _, _ => object
    end in
  read_properties_into (_properties objectReader) object'.

(** [Bitstream& Bitstream::operator<<(const QObject* object)] *)
Definition operator_shl_QObject {RVS : Type}
    (metaObjectStreamer_shl : RVS -> option QMetaObject -> M RVS)
    (rvs : RVS) (object : option QObject) : M RVS :=
  match object with
  | None => metaObjectStreamer_shl rvs None
  | Some o =>
    let* rvs' := metaObjectStreamer_shl rvs (Some (metaObject o)) in
    let* _ :=
      write_elements (fun writer => PropertyWriter_write writer o)
                     (getPropertyWriters (metaObject o)) in
    ret rvs'
  end.

(** [Bitstream& Bitstream::operator>>(QObject*& object)] *)
Definition operator_shr_QObject {RVS : Type}
    (metaObjectStreamer_shr : RVS -> M (ObjectReader * RVS))
    (rvs : RVS) : M (option QObject * RVS) :=
  let* r := metaObjectStreamer_shr rvs in
  let* object := ObjectReader_read (fst r) None in
  ret (object, snd r).

(** The properties the two tables keep: those that are stored and have a
    streamer. *)
Definition streamed (property : QMetaProperty) : bool :=
  isStored property
  && match property_streamer property with Some _ => true | None => false end.

(** What the reader makes of the object it starts from: each streamed
    property, in the order of the table, receives the value it has in the
    object sent. *)
Definition restore (sent : QObject) (properties : list QMetaProperty)
    (start : QObject) : QObject :=
  fold_left (fun object property =>
               QMetaProperty_write property object
                 (QMetaProperty_read property sent))
            (List.filter streamed properties) start.

End Tables.

(** A sample: the class [Widget] with a stored property "size" of type
    [int] and a property "tmp" that is not stored, the sample codec of
    variants as the streamer of every type, and a meta-object streamer
    that sends the class name. *)
Definition sample_streamer : Streamer :=
  {| write := sample_shl_QVariant; read := sample_shr_QVariant |}.

Definition sample_size : QMetaProperty :=
  {| name := [115; 105; 122; 101]; isValid := true; isStored := true;
     isEnumType := false; enumerator := ([], []); userType := 2 |}.

Definition sample_tmp : QMetaProperty :=
  {| name := [116; 109; 112]; isValid := true; isStored := false;
     isEnumType := false; enumerator := ([], []); userType := 2 |}.

Definition sample_Widget : QMetaObject :=
  {| className := [87; 105; 100; 103; 101; 116];
     properties := [sample_size; sample_tmp] |}.

Definition sample_five : QVariant :=
  mkQVariant true 2 [105; 110; 116] [5; 0; 0; 0].

Definition sample_widget : QObject :=
  {| metaObject := sample_Widget;
     values := <[name sample_size := sample_five]>
                 (<[name sample_tmp := sample_five]> ∅) |}.

Definition sample_newInstance (metaObject : QMetaObject) : option QObject :=
  Some {| metaObject := metaObject; values := ∅ |}.

Definition sample_metaObjectStreamer_shl (rvs : unit)
    (metaObject : option QMetaObject) : M unit :=
  operator_shl_QByteArray
    (match metaObject with Some m => className m | None => [] end).

Definition sample_metaObjectStreamer_shr (rvs : unit) : M (ObjectReader * unit) :=
  let* name := operator_shr_QByteArray in
  ret ({| _className := name;
          _metaObject := Some sample_Widget;
          _properties :=
            getPropertyReaders (fun _ => None) (fun _ => Some sample_streamer)
              (fun _ => true) sample_Widget |}, tt).
End Objects.

(** ** Script values through the streamers of a Bitstream

    [operator<<(const QScriptString&)] is [_scriptStringStreamer << string]
    and [operator<<(const QVariant&)] goes through [_typeStreamerStreamer]:
    RepeatedValueStreamers, which send a value in full the first time and
    as its identifier afterwards, so that what a script value sends
    depends on what the stream has sent before.  [Streamers] is the state
    of the RepeatedValueStreamers of a Bitstream; the codecs of [QVariant],
    [QObject], [QMetaObject] and [QScriptString], of Bitstream.h, read and
    update it and are parameters.  The operators of this module are those
    of the section above with that state threaded through them: a writer
    returns the state it leaves, a reader the value with the state. *)
Module Threaded.
Section ScriptValues.
Variables QObject QMetaObject Streamers : Type.
Variable shl_QVariant : QVariant -> Streamers -> M Streamers.
Variable shr_QVariant : Streamers -> M (QVariant * Streamers).
Variable shl_QObject : QObject -> Streamers -> M Streamers.
Variable shr_QObject : Streamers -> M (option QObject * Streamers).
Variable shl_QMetaObject : QMetaObject -> Streamers -> M Streamers.
Variable shr_QMetaObject : Streamers -> M (option QMetaObject * Streamers).
Variable shl_QScriptString : option (list Z) -> Streamers -> M Streamers.
Variable shr_QScriptString : Streamers -> M (option (list Z) * Streamers).

Local Abbreviation value_t := (QScriptValue QObject QMetaObject).

(** A loop that sends the elements of a list in order. *)
Definition write_elements {T} (write_elem : T -> Streamers -> M Streamers)
    : list T -> Streamers -> M Streamers :=
  fix go xs streamers :=
    match xs with
    | [] => ret streamers
    | x :: xs' =>
      let* streamers' := write_elem x streamers in go xs' streamers'
    end.

(** [Bitstream& Bitstream::operator<<(const QScriptValue& value)] *)
Fixpoint operator_shl_QScriptValue (value : value_t) (streamers : Streamers)
    : M Streamers :=
  match value with
  | Undefined_value =>
    let* _ := writeScriptValueType UNDEFINED_SCRIPT_VALUE in ret streamers
  | Null_value =>
    let* _ := writeScriptValueType NULL_SCRIPT_VALUE in ret streamers
  | Bool_value b =>
    let* _ := writeScriptValueType BOOL_SCRIPT_VALUE in
    let* _ := write_bool_m b in ret streamers
  | Number_value bits =>
    let* _ := writeScriptValueType NUMBER_SCRIPT_VALUE in
    let* _ := operator_shl_double bits in ret streamers
  | String_value string =>
    let* _ := writeScriptValueType STRING_SCRIPT_VALUE in
    let* _ := operator_shl_QString string in ret streamers
  | Variant_value variant =>
    let* _ := writeScriptValueType VARIANT_SCRIPT_VALUE in
    shl_QVariant variant streamers
  | QObject_value object =>
    let* _ := writeScriptValueType QOBJECT_SCRIPT_VALUE in
    shl_QObject object streamers
  | QMetaObject_value metaObject =>
    let* _ := writeScriptValueType QMETAOBJECT_SCRIPT_VALUE in
    shl_QMetaObject metaObject streamers
  | Date_value msecs =>
    let* _ := writeScriptValueType DATE_SCRIPT_VALUE in
    let* _ := operator_shl_QDateTime msecs in ret streamers
  | RegExp_value pattern caseSensitivity syntax minimal =>
    let* _ := writeScriptValueType REGEXP_SCRIPT_VALUE in
    let* _ := operator_shl_QRegExp pattern caseSensitivity syntax minimal in
    ret streamers
  | Array_value elements =>
    let* _ := writeScriptValueType ARRAY_SCRIPT_VALUE in
    let* _ := operator_shl_int (Z.of_nat (length elements)) in
    write_elements operator_shl_QScriptValue elements streamers
  | Object_value properties =>
    let* _ := writeScriptValueType OBJECT_SCRIPT_VALUE in
    let* streamers' :=
      write_elements
        (fun property streamers' =>
           let* streamers'' := shl_QScriptString (Some (fst property)) streamers' in
           operator_shl_QScriptValue (snd property) streamers'')
        properties streamers in
    shl_QScriptString None streamers'
  | Invalid_value =>
    let* _ := writeScriptValueType INVALID_SCRIPT_VALUE in ret streamers
  end.

(** The loop of the ARRAY_SCRIPT_VALUE case, for [n] indices from [i] on. *)
Fixpoint read_elements (read_element : Streamers -> M (value_t * Streamers))
    (n i : nat) (elements : list value_t) (streamers : Streamers)
    : M (list value_t * Streamers) :=
  match n with
  | O => ret (elements, streamers)
  | S n' =>
    let* (element, streamers') := read_element streamers in
    read_elements read_element n' (S i) (<[i := element]> elements) streamers'
  end.

(** The [forever] loop of the OBJECT_SCRIPT_VALUE case, which ends at the
    invalid name; [k] bounds its length. *)
Fixpoint read_properties (read_value : Streamers -> M (value_t * Streamers))
    (k : nat) (properties : list (list Z * value_t)) (streamers : Streamers)
    : M (list (list Z * value_t) * Streamers) :=
  match k with
  | O => fail
  | S k' =>
    let* (name, streamers') := shr_QScriptString streamers in
    match name with
    | None => ret (properties, streamers')
    | Some name' =>
      let* (scriptValue, streamers'') := read_value streamers' in
      read_properties read_value k'
        (setProperty QObject QMetaObject properties name' scriptValue) streamers''
    end
  end.

(** [Bitstream& Bitstream::operator>>(QScriptValue& value)]; [value] is
    what the caller's variable held, the result is what it holds
    afterwards.  [fuel] bounds the depth of nesting and the length of the
    [forever] loop over the properties of an object. *)
Fixpoint operator_shr_QScriptValue (fuel : nat) (value : value_t)
    (streamers : Streamers) : M (value_t * Streamers) :=
  match fuel with
  | O => fail
  | S fuel' =>
    let* type := readScriptValueType in
    if type =? UNDEFINED_SCRIPT_VALUE then ret (Undefined_value, streamers)
    else if type =? NULL_SCRIPT_VALUE then ret (Null_value, streamers)
    else if type =? BOOL_SCRIPT_VALUE then
      let* boolValue := read_bool_m in ret (Bool_value boolValue, streamers)
    else if type =? NUMBER_SCRIPT_VALUE then
      let* numberValue := operator_shr_double in
      ret (Number_value numberValue, streamers)
    else if type =? STRING_SCRIPT_VALUE then
      let* stringValue := operator_shr_QString in
      ret (String_value stringValue, streamers)
    else if type =? VARIANT_SCRIPT_VALUE then
      let* (variantValue, streamers') := shr_QVariant streamers in
      ret (Variant_value variantValue, streamers')
    else if type =? QOBJECT_SCRIPT_VALUE then
      let* (object, streamers') := shr_QObject streamers in ret (value, streamers')
    else if type =? QMETAOBJECT_SCRIPT_VALUE then
      let* (metaObject, streamers') := shr_QMetaObject streamers in
      ret (value, streamers')
    else if type =? DATE_SCRIPT_VALUE then
      let* dateTime := operator_shr_QDateTime in ret (Date_value dateTime, streamers)
    else if type =? REGEXP_SCRIPT_VALUE then
      let* regExp := operator_shr_QRegExp QObject QMetaObject in
      ret (regExp, streamers)
    else if type =? ARRAY_SCRIPT_VALUE then
      let* length' := operator_shr_int in
      let* (elements, streamers') :=
        read_elements (operator_shr_QScriptValue fuel' Invalid_value)
          (Z.to_nat length') 0%nat (replicate (Z.to_nat length') Invalid_value)
          streamers in
      ret (Array_value elements, streamers')
    else if type =? OBJECT_SCRIPT_VALUE then
      let* (properties, streamers') :=
        read_properties (operator_shr_QScriptValue fuel' Invalid_value) fuel' []
          streamers in
      ret (Object_value properties, streamers')
    else ret (Invalid_value, streamers)
  end.

(** *** Deltas of script values

    [Bitstream::writeRawDelta(const QScriptValue&, const QScriptValue&)]
    and [Bitstream::readRawDelta(QScriptValue&, const QScriptValue&)].
    Besides the codecs above they go through the raw deltas of [QVariant]
    and of [QObject], through the templates [writeDelta] and [readDelta]
    of Bitstream.h on the elements of an array, through the comparison of
    script values of ScriptCache.h and through [newQObject] and
    [newQMetaObject] of the script engine: all are parameters.  The writer
    calls itself on a property of the reference, the reader loops over
    the names received: both take fuel. *)
Variable writeRawDelta_QVariant : QVariant -> QVariant -> Streamers -> M Streamers.
Variable readRawDelta_QVariant : QVariant -> Streamers -> M (QVariant * Streamers).
Variable writeRawDelta_QObject : QObject -> QObject -> Streamers -> M Streamers.
Variable readRawDelta_QObject : QObject -> Streamers -> M (option QObject * Streamers).
Variable writeDelta_QScriptValue : value_t -> value_t -> Streamers -> M Streamers.
Variable readDelta_QScriptValue : value_t -> Streamers -> M (value_t * Streamers).
Variable script_equals : value_t -> value_t -> bool.
Variable newQObject : option QObject -> value_t.
Variable newQMetaObject : option QMetaObject -> value_t.

(** [value.property(name)]: the invalid value when there is no such
    property. *)
Definition script_property (value : value_t) (name : list Z) : value_t :=
  match value with
  | Object_value properties =>
    match find (fun property => bool_decide (fst property = name)) properties with
    | Some property => snd property
    | None => Invalid_value
    end
  | _ => Invalid_value
  end.

Definition script_isValid (value : value_t) : bool :=
  match value with Invalid_value => false | _ => true end.

(** The loop of the array case of the writer, from index [i] on:
    [writeDelta(value.property(i), reference.property(i))] below the length
    of the reference, [*this << value.property(i)] from there. *)
Fixpoint write_array_delta (referenceElements : list value_t) (i : nat)
    (elements : list value_t) (streamers : Streamers) : M Streamers :=
  match elements with
  | [] => ret streamers
  | element :: elements' =>
    let* streamers' :=
      if (i <? length referenceElements)%nat
      then writeDelta_QScriptValue element (nth i referenceElements Invalid_value)
             streamers
      else operator_shl_QScriptValue element streamers in
    write_array_delta referenceElements (S i) elements' streamers'
  end.

(** [void Bitstream::writeRawDelta(const QScriptValue& value,
    const QScriptValue& reference)] *)
Fixpoint writeRawDelta (fuel : nat) (value reference : value_t)
    (streamers : Streamers) : M Streamers :=
  match fuel with
  | O => fail
  | S fuel' =>
    let typeChanged :=
      let* _ := write_bool_m true in operator_shl_QScriptValue value streamers in
    match reference with
    | Undefined_value | Null_value => operator_shl_QScriptValue value streamers
    | Bool_value _ =>
      match value with
      | Bool_value b =>
        let* _ := write_bool_m false in
        let* _ := write_bool_m b in ret streamers
      | _ => typeChanged
      end
    | Number_value _ =>
      match value with
      | Number_value bits =>
        let* _ := write_bool_m false in
        let* _ := operator_shl_double bits in ret streamers
      | _ => typeChanged
      end
    | String_value _ =>
      match value with
      | String_value string =>
        let* _ := write_bool_m false in
        let* _ := operator_shl_QString string in ret streamers
      | _ => typeChanged
      end
    | Variant_value referenceVariant =>
      match value with
      | Variant_value variant =>
        let* _ := write_bool_m false in
        writeRawDelta_QVariant variant referenceVariant streamers
      | _ => typeChanged
      end
    | QObject_value referenceObject =>
      match value with
      | QObject_value object =>
        let* _ := write_bool_m false in
        writeRawDelta_QObject object referenceObject streamers
      | _ => typeChanged
      end
    | QMetaObject_value _ =>
      match value with
      | QMetaObject_value metaObject =>
        let* _ := write_bool_m false in shl_QMetaObject metaObject streamers
      | _ => typeChanged
      end
    | Date_value _ =>
      match value with
      | Date_value msecs =>
        let* _ := write_bool_m false in
        let* _ := operator_shl_QDateTime msecs in ret streamers
      | _ => typeChanged
      end
    | RegExp_value _ _ _ _ =>
      match value with
      | RegExp_value pattern caseSensitivity syntax minimal =>
        let* _ := write_bool_m false in
        let* _ := operator_shl_QRegExp pattern caseSensitivity syntax minimal in
        ret streamers
      | _ => typeChanged
      end
    | Array_value referenceElements =>
      match value with
      | Array_value elements =>
        let* _ := write_bool_m false in
        let* _ := operator_shl_int (Z.of_nat (length elements)) in
        write_array_delta referenceElements 0 elements streamers
      | _ => typeChanged
      end
    | Object_value referenceProperties =>
      match value with
      | Object_value properties =>
        let* _ := write_bool_m false in
        let* streamers' :=
          write_elements
            (fun property streamers' =>
               let referenceValue := script_property reference (fst property) in
               if negb (script_equals (snd property) referenceValue) then
                 let* streamers'' :=
                   shl_QScriptString (Some (fst property)) streamers' in
                 writeRawDelta fuel' (snd property) referenceValue streamers''
               else ret streamers') properties streamers in
        let* streamers'' :=
          write_elements
            (fun property streamers'' =>
               if negb (script_isValid (script_property value (fst property))) then
                 let* streamers''' :=
                   shl_QScriptString (Some (fst property)) streamers'' in
                 writeRawDelta fuel' Invalid_value (snd property) streamers'''
               else ret streamers'') referenceProperties streamers' in
        shl_QScriptString None streamers''
      | _ => typeChanged
      end
    | Invalid_value => operator_shl_QScriptValue value streamers
    end
  end.

(** The loop of the array case of the reader. *)
Fixpoint read_array_delta (read_element : Streamers -> M (value_t * Streamers))
    (referenceElements : list value_t) (n i : nat) (elements : list value_t)
    (streamers : Streamers) : M (list value_t * Streamers) :=
  match n with
  | O => ret (elements, streamers)
  | S n' =>
    let* (element, streamers') :=
      if (i <? length referenceElements)%nat
      then readDelta_QScriptValue (nth i referenceElements Invalid_value) streamers
      else read_element streamers in
    read_array_delta read_element referenceElements n' (S i)
                     (<[i := element]> elements) streamers'
  end.

(** The [forever] loop of the object case of the reader. *)
Fixpoint read_property_deltas
    (read_delta : value_t -> Streamers -> M (value_t * Streamers))
    (reference : value_t) (k : nat) (properties : list (list Z * value_t))
    (streamers : Streamers) : M (list (list Z * value_t) * Streamers) :=
  match k with
  | O => fail
  | S k' =>
    let* (name, streamers') := shr_QScriptString streamers in
    match name with
    | None => ret (properties, streamers')
    | Some name' =>
      let* (scriptValue, streamers'') :=
        read_delta (script_property reference name') streamers' in
      read_property_deltas read_delta reference k'
        (setProperty QObject QMetaObject properties name' scriptValue) streamers''
    end
  end.

(** [void Bitstream::readRawDelta(QScriptValue& value,
    const QScriptValue& reference)]; [value] is what the caller's variable
    held. *)
Fixpoint readRawDelta (fuel : nat) (value reference : value_t)
    (streamers : Streamers) : M (value_t * Streamers) :=
  match fuel with
  | O => fail
  | S fuel' =>
    let same_type (read_same : M (value_t * Streamers)) : M (value_t * Streamers) :=
      let* typeChanged := read_bool_m in
      if typeChanged then operator_shr_QScriptValue fuel value streamers
      else read_same in
    match reference with
    | Undefined_value | Null_value => operator_shr_QScriptValue fuel value streamers
    | Bool_value _ =>
      same_type (let* boolValue := read_bool_m in
                 ret (Bool_value boolValue, streamers))
    | Number_value _ =>
      same_type (let* numberValue := operator_shr_double in
                 ret (Number_value numberValue, streamers))
    | String_value _ =>
      same_type (let* stringValue := operator_shr_QString in
                 ret (String_value stringValue, streamers))
    | Variant_value referenceVariant =>
      same_type (let* (variant, streamers') :=
                   readRawDelta_QVariant referenceVariant streamers in
                 ret (Variant_value variant, streamers'))
    | QObject_value referenceObject =>
      same_type (let* (object, streamers') :=
                   readRawDelta_QObject referenceObject streamers in
                 ret (newQObject object, streamers'))
    | QMetaObject_value _ =>
      same_type (let* (metaObject, streamers') := shr_QMetaObject streamers in
                 ret (newQMetaObject metaObject, streamers'))
    | Date_value _ =>
      same_type (let* dateTime := operator_shr_QDateTime in
                 ret (Date_value dateTime, streamers))
    | RegExp_value _ _ _ _ =>
      same_type (let* regExp := operator_shr_QRegExp QObject QMetaObject in
                 ret (regExp, streamers))
    | Array_value referenceElements =>
      same_type
        (let* length' := operator_shr_int in
         let* (elements, streamers') :=
           read_array_delta (operator_shr_QScriptValue fuel Invalid_value)
             referenceElements (Z.to_nat length') 0%nat
             (replicate (Z.to_nat length') Invalid_value) streamers in
         ret (Array_value elements, streamers'))
    | Object_value referenceProperties =>
      same_type
        (let copied :=
           fold_left (fun properties property =>
                        setProperty QObject QMetaObject properties
                          (fst property) (snd property))
                     referenceProperties [] in
         let* (properties, streamers') :=
           read_property_deltas (readRawDelta fuel' Invalid_value)
             reference fuel' copied streamers in
         ret (Object_value properties, streamers'))
    | Invalid_value => operator_shr_QScriptValue fuel value streamers
    end
  end.

(** *** What the deltas are meant to do

    A writer and a reader of the same stream are in step when their
    streamers agree on what has been sent: [in_step] is any such relation.
    [restores] says that from states that are in step [R] reads [x] back
    from the bits [W] sends, whatever the position in the stream, and
    leaves the states in step. *)
Variable in_step : Streamers -> Streamers -> Prop.

Definition restores {A} (W : Streamers -> M Streamers)
    (R : Streamers -> M (A * Streamers)) (x : A) : Prop :=
  forall sent received,
    in_step sent received ->
    exists l sent' received',
      encodes (W sent) l sent'
      /\ decodes (R received) l (x, received')
      /\ in_step sent' received'.

(** The kind of a script value: the tag [operator<<] sends first, in four
    bits. *)
Definition script_kind (value : value_t) : Z :=
  match value with
  | Invalid_value => INVALID_SCRIPT_VALUE
  | Undefined_value => UNDEFINED_SCRIPT_VALUE
  | Null_value => NULL_SCRIPT_VALUE
  | Bool_value _ => BOOL_SCRIPT_VALUE
  | Number_value _ => NUMBER_SCRIPT_VALUE
  | String_value _ => STRING_SCRIPT_VALUE
  | Variant_value _ => VARIANT_SCRIPT_VALUE
  | QObject_value _ => QOBJECT_SCRIPT_VALUE
  | QMetaObject_value _ => QMETAOBJECT_SCRIPT_VALUE
  | Date_value _ => DATE_SCRIPT_VALUE
  | RegExp_value _ _ _ _ => REGEXP_SCRIPT_VALUE
  | Array_value _ => ARRAY_SCRIPT_VALUE
  | Object_value _ => OBJECT_SCRIPT_VALUE
  end.

(** Whether a delta of [value] against [reference] goes through the deltas
    of their contents: both are variants, both objects of the host, both
    meta-objects, both arrays or both plain objects. *)
Definition nested_delta (value reference : value_t) : bool :=
  match reference, value with
  | Variant_value _, Variant_value _
  | QObject_value _, QObject_value _
  | QMetaObject_value _, QMetaObject_value _
  | Array_value _, Array_value _
  | Object_value _, Object_value _ => true
  | _, _ => false
  end.

(** The bits of a delta that is not nested, from the bits [plain] that
    [operator<<] sends for the value: against an invalid, undefined or
    null reference they are sent as they are; for a value of the kind of
    the reference the flag 0 is followed by the payload, which is [plain]
    without the four bits of the kind; for a value of another kind the
    flag 1 is followed by [plain]. *)
Definition flat_delta_bits (value reference : value_t) (plain : list bool)
    : list bool :=
  match reference with
  | Invalid_value | Undefined_value | Null_value => plain
  | _ =>
    if script_kind value =? script_kind reference
    then false :: drop (Z.to_nat SCRIPT_VALUE_BITS) plain
    else true :: plain
  end.

(** The entries of the delta of an object: the properties of the value
    that the comparison tells apart from those of the reference, each
    with the property of the reference it is a delta against, then the
    names of the reference under which the value has no property, with
    the invalid value. *)
Definition changed_properties (properties : list (list Z * value_t))
    (reference : value_t) : list (list Z * value_t * value_t) :=
  omap (fun property =>
          let referenceValue := script_property reference (fst property) in
          if negb (script_equals (snd property) referenceValue)
          then Some (fst property, snd property, referenceValue) else None)
       properties.

Definition removed_properties (value : value_t)
    (referenceProperties : list (list Z * value_t))
    : list (list Z * value_t * value_t) :=
  omap (fun property =>
          if negb (script_isValid (script_property value (fst property)))
          then Some (fst property, Invalid_value, snd property) else None)
       referenceProperties.

(** Sending entries one after the other, each as its name followed by
    the raw delta of its value against its reference: the bits sent and
    the state of the streamers afterwards. *)
Inductive sends_entries (fuel : nat)
    : Streamers -> list (list Z * value_t * value_t) -> list bool -> Streamers
      -> Prop :=
| sends_none streamers : sends_entries fuel streamers [] [] streamers
| sends_entry streamers name value reference entries l1 s1 l2 s2 l3 s3 :
    encodes (shl_QScriptString (Some name) streamers) l1 s1 ->
    encodes (writeRawDelta fuel value reference s1) l2 s2 ->
    sends_entries fuel s2 entries l3 s3 ->
    sends_entries fuel streamers ((name, value, reference) :: entries)
                  (l1 ++ l2 ++ l3) s3.
End ScriptValues.
End Threaded.

(** A sample instantiation of the streamers, used to run the operators
    above.  The state is the list of the script strings sent so far: a
    string sent before travels as the flag 1 and its index in that list,
    in unary; a new one as the flag 0 and its full form, and is appended.
    Variants and handles go through the sample codecs above, which keep no
    state; the raw deltas of variants and of handles send the value whole,
    as do the deltas of the elements of an array, and the comparison tells
    scalars apart. *)
Definition sample_streamers : Type := list (option (list Z)).

Fixpoint index_of (string : option (list Z)) (sent : sample_streamers)
    : option nat :=
  match sent with
  | [] => None
  | first :: rest =>
    if decide (first = string) then Some 0%nat
    else match index_of string rest with
         | Some i => Some (S i)
         | None => None
         end
  end.

Fixpoint write_unary (n : nat) : M unit :=
  match n with
  | O => write_bool_m false
  | S n' => let* _ := write_bool_m true in write_unary n'
  end.

Fixpoint read_unary (fuel : nat) : M nat :=
  match fuel with
  | O => fail
  | S fuel' =>
    let* more := read_bool_m in
    if more then let* n := read_unary fuel' in ret (S n) else ret O
  end.

Definition sample_interned_shl (string : option (list Z))
    (streamers : sample_streamers) : M sample_streamers :=
  match index_of string streamers with
  | Some i =>
    let* _ := write_bool_m true in
    let* _ := write_unary i in ret streamers
  | None =>
    let* _ := write_bool_m false in
    let* _ := sample_shl_QScriptString string in ret (streamers ++ [string])
  end.

Definition sample_interned_shr (streamers : sample_streamers)
    : M (option (list Z) * sample_streamers) :=
  let* known := read_bool_m in
  if known then
    let* i := read_unary (length streamers) in
    ret (nth i streamers None, streamers)
  else
    let* string := sample_shr_QScriptString in
    ret (string, streamers ++ [string]).

Definition stateless_shl {T} (shl : T -> M unit) (value : T)
    (streamers : sample_streamers) : M sample_streamers :=
  let* _ := shl value in ret streamers.

Definition stateless_shr {T} (shr : M T) (streamers : sample_streamers)
    : M (T * sample_streamers) :=
  let* value := shr in ret (value, streamers).

Definition sample_threaded_shl
    : QScriptValue Z Z -> sample_streamers -> M sample_streamers :=
  Threaded.operator_shl_QScriptValue Z Z sample_streamers
    (stateless_shl sample_shl_QVariant) (stateless_shl sample_shl_handle)
    (stateless_shl sample_shl_handle) sample_interned_shl.

Definition sample_threaded_shr
    : nat -> QScriptValue Z Z -> sample_streamers ->
      M (QScriptValue Z Z * sample_streamers) :=
  Threaded.operator_shr_QScriptValue Z Z sample_streamers
    (stateless_shr sample_shr_QVariant) (stateless_shr sample_shr_handle)
    (stateless_shr sample_shr_handle) sample_interned_shr.

Definition sample_script_equals (first second : QScriptValue Z Z) : bool :=
  match first, second with
  | Undefined_value, Undefined_value => true
  | Null_value, Null_value => true
  | Bool_value b, Bool_value b' => Bool.eqb b b'
  | Number_value bits, Number_value bits' => bits =? bits'
  | String_value string, String_value string' => bool_decide (string = string')
  | _, _ => false
  end.

Definition sample_newHandle (handle : option Z) : QScriptValue Z Z :=
  match handle with
  | Some handle' => QObject_value handle'
  | None => Null_value
  end.

Definition sample_writeRawDelta
    : nat -> QScriptValue Z Z -> QScriptValue Z Z -> sample_streamers ->
      M sample_streamers :=
  Threaded.writeRawDelta Z Z sample_streamers
    (stateless_shl sample_shl_QVariant) (stateless_shl sample_shl_handle)
    (stateless_shl sample_shl_handle) sample_interned_shl
    (fun value _ => stateless_shl sample_shl_QVariant value)
    (fun object _ => stateless_shl sample_shl_handle object)
    (fun value _ => sample_threaded_shl value)
    sample_script_equals.

Definition sample_readRawDelta
    : nat -> QScriptValue Z Z -> QScriptValue Z Z -> sample_streamers ->
      M (QScriptValue Z Z * sample_streamers) :=
  Threaded.readRawDelta Z Z sample_streamers
    (stateless_shr sample_shr_QVariant) (stateless_shr sample_shr_handle)
    (stateless_shr sample_shr_handle) sample_interned_shr
    (fun _ => stateless_shr sample_shr_QVariant)
    (fun _ => stateless_shr sample_shr_handle)
    (fun _ => sample_threaded_shr 4 Invalid_value)
    sample_newHandle sample_newHandle.

(** [{ re: { re: /a/ }, list: [true, "hi"] }]: the name [re] is sent
    twice. *)
Definition sample_nested : QScriptValue Z Z :=
  Object_value
    [([114; 101], Object_value [([114; 101], RegExp_value [97] 1 0 false)]);
     ([108; 105; 115; 116], Array_value [Bool_value true; String_value [104; 105]])].

(** [{ size: 1, on: true, tag: "x" }] and, with [size] kept, [on] turned
    into a number, [tag] removed and [re] added,
    [{ size: 1, on: 2, re: /a/ }]; the numbers given by their bits. *)
Definition sample_reference : QScriptValue Z Z :=
  Object_value
    [([115; 105; 122; 101], Number_value 0x3FF0000000000000);
     ([111; 110], Bool_value true);
     ([116; 97; 103], String_value [120])].

Definition sample_changed : QScriptValue Z Z :=
  Object_value
    [([115; 105; 122; 101], Number_value 0x3FF0000000000000);
     ([111; 110], Number_value 0x4000000000000000);
     ([114; 101], RegExp_value [97] 1 0 false)].

(** * Lemmas *)

Ltac norm_app := rewrite ?app_nil_r, ?app_nil_l, <- ?app_assoc.

(** ** Tabulated bit lists *)

Lemma tab_length f n : length (tab f n) = n.
Proof. unfold tab. now rewrite length_map, length_seq. Qed.

Lemma tab_ext f g n :
  (forall k, 0 <= k < Z.of_nat n -> f k = g k) -> tab f n = tab g n.
Proof.
  intros H. unfold tab. apply map_ext_in. intros k Hk.
  apply in_seq in Hk. apply H. lia.
Qed.

Lemma tab_app f n m :
  tab f (n + m) = tab f n ++ tab (fun k => f (Z.of_nat n + k)) m.
Proof.
  unfold tab. rewrite seq_app, map_app. f_equal.
  enough (G : forall j, map (fun k => f (Z.of_nat k)) (seq (n + j) m)
                 = map (fun k => f (Z.of_nat n + Z.of_nat k)) (seq j m))
    by (rewrite <- G; f_equal; f_equal; lia).
  induction m as [|m IH]; intros j; [reflexivity|].
  cbn [seq map]. f_equal; [f_equal; lia|].
  rewrite <- IH. f_equal. f_equal. lia.
Qed.

Lemma tab_lookup f n (k : nat) :
  (k < n)%nat -> tab f n !! k = Some (f (Z.of_nat k)).
Proof.
  intros H. unfold tab. rewrite list_lookup_fmap, lookup_seq_lt by lia.
  reflexivity.
Qed.

Lemma tab_S f n : tab f (S n) = f 0 :: tab (fun k => f (1 + k)) n.
Proof. change (S n) with (1 + n)%nat. now rewrite tab_app. Qed.

Lemma tab_inj f g n :
  tab f n = tab g n -> forall k, 0 <= k < Z.of_nat n -> f k = g k.
Proof.
  intros H k Hk.
  assert (E : tab f n !! Z.to_nat k = tab g n !! Z.to_nat k) by now rewrite H.
  rewrite !tab_lookup in E by lia. rewrite Z2Nat.id in E by lia. congruence.
Qed.

(** ** Bytes and bits *)

Lemma shiftl_1_ones k : Z.shiftl 1 k - 1 = Z.ones k.
Proof. unfold Z.ones. lia. Qed.

Lemma quint8_land x : quint8 x = Z.land x (Z.ones 8).
Proof. unfold quint8. now rewrite Z.land_ones by lia. Qed.

Lemma testbit_small x p i : 0 <= x < 2 ^ p -> 0 <= p <= i -> Z.testbit x i = false.
Proof.
  intros Hx Hi. rewrite <- (Z.mod_small x (2 ^ p)) by lia.
  apply Z.mod_pow2_bits_high. lia.
Qed.

Lemma small_of_bits x p :
  0 <= p -> 0 <= x -> (forall i, p <= i -> Z.testbit x i = false) -> x < 2 ^ p.
Proof.
  intros Hp Hx H.
  assert (E : Z.land x (Z.ones p) = x).
  { Z.bitblast. rewrite H by lia. reflexivity. }
  rewrite Z.land_ones in E by lia. rewrite <- E.
  apply Z.mod_pos_bound. lia.
Qed.

Lemma write_chunk_bit byte d pos off k i :
  0 <= pos -> 0 <= off -> 0 <= k -> pos + k <= 8 ->
  0 <= byte < 2 ^ pos -> 0 <= i ->
  Z.testbit (quint8 (Z.lor byte
      (Z.shiftl (Z.land (Z.shiftr d off) (Z.shiftl 1 k - 1)) pos))) i
  = if i <? pos then Z.testbit byte i
    else if i <? pos + k then Z.testbit d (off + (i - pos)) else false.
Proof.
  intros Hpos Hoff Hk Hpk Hb Hi.
  rewrite quint8_land, shiftl_1_ones.
  pose proof (testbit_small byte pos i Hb) as Hhigh.
  destruct (Z.ltb_spec i pos), (Z.ltb_spec i (pos + k)); try lia.
  - Z.bitblast_core.
  - rewrite Z.land_spec, Z.lor_spec, Hhigh by lia. Z.bitblast_core.
  - rewrite Z.land_spec, Z.lor_spec, Hhigh by lia. Z.bitblast_core.
Qed.

Lemma bufbit_in_byte data (j : nat) (i : Z) :
  0 <= i < 8 -> bufbit data (8 * Z.of_nat j + i) = Z.testbit (nth j data 0) i.
Proof.
  intros Hi. unfold bufbit.
  replace ((8 * Z.of_nat j + i) / 8) with (Z.of_nat j)
    by (apply Z.div_unique with i; lia).
  replace ((8 * Z.of_nat j + i) mod 8) with i
    by (apply Z.mod_unique with (Z.of_nat j); lia).
  now rewrite Nat2Z.id.
Qed.

Lemma buf_bits_app data a n m :
  buf_bits data a (n + m) = buf_bits data a n ++ buf_bits data (a + Z.of_nat n) m.
Proof.
  unfold buf_bits. rewrite tab_app. f_equal.
  apply tab_ext. intros k _. f_equal. lia.
Qed.

Lemma buf_bits_length data a n : length (buf_bits data a n) = n.
Proof. apply tab_length. Qed.

Lemma buf_bits_chunk data (j : nat) off (k : nat) :
  0 <= off -> off + Z.of_nat k <= 8 ->
  buf_bits data (8 * Z.of_nat j + off) k
  = tab (fun i => Z.testbit (nth j data 0) (off + i)) k.
Proof.
  intros Hoff Hk. apply tab_ext. intros i Hi.
  rewrite <- Z.add_assoc. apply bufbit_in_byte. lia.
Qed.

Lemma bytes_bits_app bs cs : bytes_bits (bs ++ cs) = bytes_bits bs ++ bytes_bits cs.
Proof. unfold bytes_bits. now rewrite !flat_map_concat_map, map_app, concat_app. Qed.

Lemma bytes_bits_length bs : length (bytes_bits bs) = (8 * length bs)%nat.
Proof.
  induction bs as [|b bs IH]; [reflexivity|].
  cbn [bytes_bits flat_map]. rewrite length_app. fold (bytes_bits bs).
  rewrite IH. unfold byte_bits. rewrite tab_length. cbn [length]. lia.
Qed.

Lemma bytes_bits_buf_bits bs :
  bytes_bits bs = buf_bits bs 0 (8 * length bs).
Proof.
  induction bs as [|b bs IH] using rev_ind; [reflexivity|].
  rewrite bytes_bits_app, length_app. cbn [length].
  replace (8 * (length bs + 1))%nat with (8 * length bs + 8)%nat by lia.
  rewrite buf_bits_app, IH. f_equal.
  - apply tab_ext. intros k Hk. unfold bufbit. f_equal.
    rewrite app_nth1; [reflexivity|].
    assert ((0 + k) / 8 < Z.of_nat (length bs))
      by (apply Z.div_lt_upper_bound; lia).
    assert (0 <= (0 + k) / 8) by (apply Z.div_pos; lia). lia.
  - cbn [bytes_bits flat_map]. rewrite app_nil_r. unfold byte_bits.
    replace (0 + Z.of_nat (8 * length bs)) with (8 * Z.of_nat (length bs) + 0) by lia.
    rewrite buf_bits_chunk by lia.
    rewrite nth_middle. apply tab_ext. intros; f_equal.
Qed.

(** ** The writer *)

Lemma flush_nonzero s :
  _position s <> 0 ->
  flush s = {| _underlying := ds_put (_underlying s) (_byte s);
               _byte := 0; _position := 0 |}.
Proof.
  intros H. unfold flush. destruct (Z.eqb_spec (_position s) 0); [lia|reflexivity].
Qed.

Lemma flush_zero s : _position s = 0 -> flush s = s.
Proof. intros H. unfold flush. now rewrite H. Qed.

Lemma wbits_flush s :
  writer_ok s ->
  bytes_bits (ds_written (_underlying (flush s)))
  = wbits s ++ (if _position s =? 0 then []
                else replicate (Z.to_nat (8 - _position s)) false).
Proof.
  intros [Hp Hb]. unfold flush, wbits.
  destruct (Z.eqb_spec (_position s) 0) as [E|E]; cbn.
  - rewrite E. cbn. now rewrite !app_nil_r.
  - rewrite bytes_bits_app. cbn [bytes_bits flat_map]. rewrite app_nil_r.
    rewrite <- app_assoc. f_equal. unfold byte_bits.
    replace 8%nat with (Z.to_nat (_position s) + Z.to_nat (8 - _position s))%nat by lia.
    rewrite tab_app. f_equal.
    apply list_eq. intros i.
    destruct (Nat.lt_ge_cases i (Z.to_nat (8 - _position s))).
    + rewrite tab_lookup by lia.
      rewrite lookup_replicate_2 by lia.
      f_equal. apply (testbit_small _ (_position s)); lia.
    + rewrite !lookup_ge_None_2; [reflexivity| |].
      * now rewrite length_replicate.
      * now rewrite tab_length.
Qed.

Lemma write_chunk_spec s data (source : nat) offset k :
  writer_ok s -> 0 <= offset -> 0 <= k ->
  _position s + k <= 8 -> offset + k <= 8 ->
  let s2 := write_chunk s (nth source data 0) offset k in
  writer_ok s2
  /\ ds_unread (_underlying s2) = ds_unread (_underlying s)
  /\ length (ds_written (_underlying s2))
     = (length (ds_written (_underlying s))
        + (if (_position s + k =? 8)%Z then 1 else 0))%nat
  /\ _position s2 = (_position s + k) mod 8
  /\ wbits s2 = wbits s ++ buf_bits data (8 * Z.of_nat source + offset) (Z.to_nat k).
Proof.
  intros [Hp Hb] Hoff Hk Hpk Hok. unfold write_chunk.
  set (b' := quint8 _).
  assert (Hbit : forall i, 0 <= i -> Z.testbit b' i =
     if i <? _position s then Z.testbit (_byte s) i
     else if i <? _position s + k
          then Z.testbit (nth source data 0) (offset + (i - _position s))
          else false)
    by (intros i Hi; apply write_chunk_bit; lia).
  assert (Hb0 : 0 <= b') by (apply Z.mod_pos_bound; lia).
  assert (Hb' : b' < 2 ^ (_position s + k)).
  { apply small_of_bits; [lia|lia|]. intros i Hi. rewrite Hbit by lia.
    destruct (Z.ltb_spec i (_position s)), (Z.ltb_spec i (_position s + k));
      try lia; reflexivity. }
  assert (Hw : tab (Z.testbit b') (Z.to_nat (_position s + k))
     = tab (Z.testbit (_byte s)) (Z.to_nat (_position s))
       ++ buf_bits data (8 * Z.of_nat source + offset) (Z.to_nat k)).
  { rewrite Z2Nat.inj_add, tab_app by lia. f_equal.
    - apply tab_ext. intros i Hi. rewrite Hbit by lia.
      destruct (Z.ltb_spec i (_position s)); [reflexivity|lia].
    - rewrite buf_bits_chunk by lia. apply tab_ext. intros i Hi.
      rewrite Hbit by lia.
      destruct (Z.ltb_spec (Z.of_nat (Z.to_nat (_position s)) + i) (_position s)); [lia|].
      destruct (Z.ltb_spec (Z.of_nat (Z.to_nat (_position s)) + i) (_position s + k)); [|lia].
      f_equal. lia. }
  unfold BITS_IN_BYTE.
  destruct (Z.eqb_spec (_position s + k) 8) as [E|E].
  - rewrite flush_nonzero by (cbn; lia).
    unfold writer_ok, wbits, ds_put.
    cbn [_position _byte _underlying ds_written ds_unread].
    rewrite E. change (8 mod 8) with 0.
    split; [cbn; lia|]. split; [reflexivity|]. split; [now rewrite length_app|].
    split; [reflexivity|].
    rewrite bytes_bits_app. cbn [bytes_bits flat_map Z.to_nat tab seq map].
    rewrite !app_nil_r, <- app_assoc. f_equal.
    rewrite <- Hw, E. reflexivity.
  - unfold writer_ok, wbits. cbn [_position _byte _underlying].
    split; [lia|]. split; [reflexivity|]. split; [lia|].
    split; [now rewrite Z.mod_small by lia|].
    rewrite <- app_assoc. f_equal. exact Hw.
Qed.

Lemma write_loop_spec fuel : forall s data source bits offset,
  writer_ok s -> 0 <= offset < 8 -> 0 <= bits -> (Z.to_nat bits <= fuel)%nat ->
  exists s', write_loop fuel s data source bits offset = Some s'
    /\ writer_ok s'
    /\ ds_unread (_underlying s') = ds_unread (_underlying s)
    /\ 8 * Z.of_nat (length (ds_written (_underlying s'))) + _position s'
       = 8 * Z.of_nat (length (ds_written (_underlying s))) + _position s + bits
    /\ wbits s' = wbits s
         ++ buf_bits data (8 * Z.of_nat source + offset) (Z.to_nat bits).
Proof.
  induction fuel as [|fuel IH]; intros s data source bits offset Hs Hoff Hbits Hfuel.
  - assert (bits = 0) by lia. subst bits. cbn.
    exists s. rewrite app_nil_r. repeat split; try apply Hs; lia.
  - cbn [write_loop]. destruct (Z.gtb_spec bits 0) as [Hpos|Hz].
    2:{ assert (bits = 0) by lia. subst bits. exists s. cbn. rewrite app_nil_r.
        repeat split; try apply Hs; lia. }
    unfold BITS_IN_BYTE.
    set (k := Z.min (8 - _position s) (Z.min (8 - offset) bits)).
    assert (Hk : 0 < k /\ _position s + k <= 8 /\ offset + k <= 8 /\ k <= bits)
      by (destruct Hs; lia).
    destruct (write_chunk_spec s data source offset k)
      as (Hok & Hun & Hlen & Hp2 & Hw); try tauto; try lia.
    unfold write_chunk, BITS_IN_BYTE in *.
    set (s2 := if _position s + k =? 8 then _ else _) in *.
    assert (Hcnt : 8 * Z.of_nat (length (ds_written (_underlying s2))) + _position s2
         = 8 * Z.of_nat (length (ds_written (_underlying s))) + _position s + k).
    { rewrite Hlen, Hp2. destruct Hs as [Hps _].
      destruct (Z.eqb_spec (_position s + k) 8) as [E|E].
      - rewrite E, Z.mod_same by lia. lia.
      - rewrite Z.mod_small by lia. lia. }
    assert (Hsplit : buf_bits data (8 * Z.of_nat source + offset) (Z.to_nat bits)
       = buf_bits data (8 * Z.of_nat source + offset) (Z.to_nat k)
         ++ buf_bits data (8 * Z.of_nat source + offset + k) (Z.to_nat (bits - k))).
    { replace (Z.to_nat bits) with (Z.to_nat k + Z.to_nat (bits - k))%nat by lia.
      rewrite buf_bits_app. do 2 f_equal. lia. }
    destruct (Z.eqb_spec (offset + k) 8) as [E|E].
    + destruct (IH s2 data (S source) (bits - k) 0) as (s' & Hr & Hok' & Hun' & Hc' & Hw');
        try assumption; try lia.
      exists s'. repeat split; try apply Hok'; try congruence; try lia.
      rewrite Hw', Hw, Hsplit, <- app_assoc. do 3 f_equal. lia.
    + destruct (IH s2 data source (bits - k) (offset + k)) as (s' & Hr & Hok' & Hun' & Hc' & Hw');
        try assumption; try lia.
      exists s'. repeat split; try apply Hok'; try congruence; try lia.
      rewrite Hw', Hw, Hsplit, <- app_assoc. do 3 f_equal. lia.
Qed.

(** ** The reader *)

Lemma read_chunk_bit d B pos off k i :
  0 <= pos -> 0 <= off -> 0 <= k -> off + k <= 8 -> 0 <= i < 8 ->
  Z.testbit (quint8 (Z.lor (Z.land d (Z.lnot (Z.shiftl (Z.shiftl 1 k - 1) off)))
       (Z.land (Z.shiftl (Z.shiftr B pos) off) (Z.shiftl (Z.shiftl 1 k - 1) off)))) i
  = if (off <=? i) && (i <? off + k) then Z.testbit B (pos + (i - off))
    else Z.testbit d i.
Proof.
  intros Hpos Hoff Hk Hok Hi.
  rewrite quint8_land, shiftl_1_ones.
  destruct (Z.leb_spec off i), (Z.ltb_spec i (off + k)); cbn [andb];
    Z.bitblast_core.
Qed.

Lemma nth_insert (data : list Z) (dest j : nat) x :
  (dest < length data)%nat ->
  nth j (<[dest := x]> data) 0 = if decide (j = dest) then x else nth j data 0.
Proof.
  intros H. rewrite !nth_lookup. destruct (decide (j = dest)) as [->|Hne].
  - now rewrite list_lookup_insert_eq.
  - now rewrite list_lookup_insert_ne.
Qed.

Lemma div8_unique c q r : c = 8 * q + r -> 0 <= r < 8 -> c / 8 = q /\ c mod 8 = r.
Proof.
  intros -> Hr. split.
  - symmetry. apply Z.div_unique with r; lia.
  - symmetry. apply Z.mod_unique with q; lia.
Qed.

Lemma bufbit_split bs c :
  0 <= c -> bufbit bs c = Z.testbit (nth (Z.to_nat (c / 8)) bs 0) (c mod 8).
Proof. reflexivity. Qed.

Lemma testbit_quint8 x i : 0 <= i < 8 -> Z.testbit (quint8 x) i = Z.testbit x i.
Proof. intros Hi. rewrite quint8_land. Z.bitblast_core. Qed.

Lemma quint8_range x : 0 <= quint8 x < 256.
Proof. unfold quint8. apply Z.mod_pos_bound. lia. Qed.

Lemma land7_mod8 x : Z.land x LAST_BIT_POSITION = x mod 8.
Proof. change LAST_BIT_POSITION with (Z.ones 3). now rewrite Z.land_ones by lia. Qed.

Lemma fetch_position s : _position (fetch s) = _position s.
Proof. unfold fetch. destruct (ds_get _). reflexivity. Qed.

Lemma reader_at_current bs c s k :
  reader_at bs c s -> 0 < k -> c + k <= 8 * Z.of_nat (length bs) ->
  let s0 := if _position s =? 0 then fetch s else s in
  _position s0 = c mod 8
  /\ _byte s0 = quint8 (nth (Z.to_nat (c / 8)) bs 0)
  /\ ds_unread (_underlying s0) = drop (S (Z.to_nat (c / 8))) bs
  /\ ds_written (_underlying s0) = ds_written (_underlying s).
Proof.
  intros (Hc & Hp & Hu & Hb) Hk Hlen.
  pose proof (Z.div_mod c 8 ltac:(lia)) as Hdm.
  pose proof (Z.mod_pos_bound c 8 ltac:(lia)) as Hm.
  assert (Hq : 0 <= c / 8) by (apply Z.div_pos; lia).
  destruct (Z.eqb_spec (_position s) 0) as [E|E]; cbn zeta.
  - rewrite fetch_position. split; [exact Hp|].
    assert (Hq7 : (c + 7) / 8 = c / 8)
      by (apply (div8_unique (c + 7) (c / 8) 7); lia).
    rewrite Hq7 in Hu.
    assert (Hin : (Z.to_nat (c / 8) < length bs)%nat) by lia.
    destruct (lookup_lt_is_Some_2 bs _ Hin) as [b Hbq].
    unfold fetch, ds_get. rewrite Hu, (drop_S _ _ _ Hbq). cbn.
    rewrite (nth_lookup_Some _ _ _ _ Hbq). auto.
  - split; [exact Hp|].
    assert (Hq1 : (c - 1) / 8 = c / 8)
      by (apply (div8_unique (c - 1) (c / 8) (c mod 8 - 1)); lia).
    assert (Hq7 : (c + 7) / 8 = c / 8 + 1)
      by (apply (div8_unique (c + 7) (c / 8 + 1) (c mod 8 - 1)); lia).
    rewrite Hb, Hq1, Hu, Hq7 by lia.
    replace (Z.to_nat (c / 8 + 1)) with (S (Z.to_nat (c / 8))) by lia. auto.
Qed.

Lemma read_chunk_spec bs c s data (dest : nat) offset k :
  reader_at bs c s -> 0 <= offset -> 0 < k ->
  c mod 8 + k <= 8 -> offset + k <= 8 ->
  c + k <= 8 * Z.of_nat (length bs) -> (dest < length data)%nat ->
  let r := read_chunk s data dest offset k in
  reader_at bs (c + k) (fst r)
  /\ ds_written (_underlying (fst r)) = ds_written (_underlying s)
  /\ length (snd r) = length data
  /\ (bytes_ok data -> bytes_ok (snd r))
  /\ forall i, 0 <= i ->
       bufbit (snd r) i
       = if (8 * Z.of_nat dest + offset <=? i) && (i <? 8 * Z.of_nat dest + offset + k)
         then bufbit bs (c + (i - (8 * Z.of_nat dest + offset)))
         else bufbit data i.
Proof.
  intros Hr Hoff Hk Hpk Hok Hlen Hdest.
  destruct (reader_at_current bs c s k Hr Hk Hlen) as (Hp0 & Hb0 & Hu0 & Hw0).
  destruct Hr as (Hc & _).
  pose proof (Z.div_mod c 8 ltac:(lia)) as Hdm.
  pose proof (Z.mod_pos_bound c 8 ltac:(lia)) as Hm.
  assert (Hq : 0 <= c / 8) by (apply Z.div_pos; lia).
  unfold read_chunk. cbn zeta. cbn [fst snd].
  set (s0 := if _position s =? 0 then fetch s else s) in *.
  set (d' := quint8 _).
  destruct (div8_unique (c + k) (c / 8 + (c mod 8 + k) / 8) ((c mod 8 + k) mod 8))
    as [Hq' Hm'].
  { pose proof (Z.div_mod (c mod 8 + k) 8 ltac:(lia)). lia. }
  { apply Z.mod_pos_bound. lia. }
  split; [|split; [|split; [|split]]].
  - unfold reader_at. cbn [_position _byte _underlying].
    split; [lia|]. split; [|split].
    + rewrite land7_mod8, Hp0. now rewrite Hm'.
    + rewrite Hu0. f_equal.
      assert ((c + k + 7) / 8 = c / 8 + 1)
        by (apply (div8_unique (c + k + 7) (c / 8 + 1) (c mod 8 + k - 1)); lia).
      lia.
    + intros _. rewrite Hb0. do 3 f_equal. symmetry.
      apply (div8_unique (c + k - 1) (c / 8) (c mod 8 + k - 1)); lia.
  - exact Hw0.
  - apply length_insert.
  - intros Hd. unfold bytes_ok in *. apply Forall_insert; [exact Hd|].
    apply quint8_range.
  - intros i Hi. unfold bufbit at 1 3.
    pose proof (Z.div_mod i 8 ltac:(lia)) as Hdi.
    pose proof (Z.mod_pos_bound i 8 ltac:(lia)) as Hmi.
    assert (Hqi : 0 <= i / 8) by (apply Z.div_pos; lia).
    rewrite nth_insert by exact Hdest.
    destruct (decide (Z.to_nat (i / 8) = dest)) as [Ed|Ed].
    + subst d'. rewrite read_chunk_bit by lia.
      rewrite Hb0, Hp0.
      assert (Hd8 : 8 * Z.of_nat dest = i - i mod 8) by lia.
      replace ((8 * Z.of_nat dest + offset <=? i) && (i <? 8 * Z.of_nat dest + offset + k))
        with ((offset <=? i mod 8) && (i mod 8 <? offset + k)).
      2:{ destruct (Z.leb_spec offset (i mod 8)), (Z.ltb_spec (i mod 8) (offset + k)),
            (Z.leb_spec (8 * Z.of_nat dest + offset) i),
            (Z.ltb_spec i (8 * Z.of_nat dest + offset + k)); cbn; try reflexivity; lia. }
      destruct (Z.leb_spec offset (i mod 8)), (Z.ltb_spec (i mod 8) (offset + k));
        cbn [andb]; try (rewrite Ed; reflexivity).
      rewrite testbit_quint8 by lia.
      unfold bufbit.
      destruct (div8_unique (c + (i - (8 * Z.of_nat dest + offset))) (c / 8)
                  (c mod 8 + (i mod 8 - offset))) as [-> ->]; [lia|lia|].
      reflexivity.
    + replace ((8 * Z.of_nat dest + offset <=? i) && (i <? 8 * Z.of_nat dest + offset + k))
        with false; [reflexivity|].
      destruct (Z.leb_spec (8 * Z.of_nat dest + offset) i),
        (Z.ltb_spec i (8 * Z.of_nat dest + offset + k)); cbn; try reflexivity.
      exfalso. apply Ed.
      assert (i / 8 = Z.of_nat dest)
        by (apply (div8_unique i (Z.of_nat dest) (i - 8 * Z.of_nat dest)); lia).
      lia.
Qed.

Lemma read_loop_unfold fuel s data dest bits offset :
  read_loop (S fuel) s data dest bits offset
  = if bits >? 0 then
      let k := Z.min (8 - _position s) (Z.min (8 - offset) bits) in
      let r := read_chunk s data dest offset k in
      if offset + k =? 8
      then read_loop fuel (fst r) (snd r) (S dest) (bits - k) 0
      else read_loop fuel (fst r) (snd r) dest (bits - k) (offset + k)
    else Some (s, data).
Proof.
  cbn [read_loop]. unfold read_chunk, BITS_IN_BYTE. cbn [fst snd].
  destruct (_position s =? 0); rewrite ?fetch_position; reflexivity.
Qed.

Lemma read_loop_spec fuel : forall bs c s data dest bits offset,
  reader_at bs c s -> 0 <= offset < 8 -> 0 <= bits ->
  c + bits <= 8 * Z.of_nat (length bs) ->
  8 * Z.of_nat dest + offset + bits <= 8 * Z.of_nat (length data) ->
  (Z.to_nat bits <= fuel)%nat ->
  exists s' data', read_loop fuel s data dest bits offset = Some (s', data')
    /\ reader_at bs (c + bits) s'
    /\ ds_written (_underlying s') = ds_written (_underlying s)
    /\ length data' = length data
    /\ (bytes_ok data -> bytes_ok data')
    /\ forall i, 0 <= i ->
         bufbit data' i
         = if (8 * Z.of_nat dest + offset <=? i)
              && (i <? 8 * Z.of_nat dest + offset + bits)
           then bufbit bs (c + (i - (8 * Z.of_nat dest + offset)))
           else bufbit data i.
Proof.
  assert (Hnil : forall bs c s data dest offset,
    reader_at bs c s ->
    reader_at bs (c + 0) s
    /\ ds_written (_underlying s) = ds_written (_underlying s)
    /\ length data = length data
    /\ (bytes_ok data -> bytes_ok data)
    /\ forall i, 0 <= i ->
         bufbit data i
         = if (8 * Z.of_nat dest + offset <=? i)
              && (i <? 8 * Z.of_nat dest + offset + 0)
           then bufbit bs (c + (i - (8 * Z.of_nat dest + offset)))
           else bufbit data i).
  { intros bs c s data dest offset Hr. rewrite Z.add_0_r.
    repeat split; try apply Hr; auto.
    intros i Hi.
    destruct (Z.leb_spec (8 * Z.of_nat dest + offset) i),
      (Z.ltb_spec i (8 * Z.of_nat dest + offset + 0)); cbn; try reflexivity; lia. }
  induction fuel as [|fuel IH]; intros bs c s data dest bits offset
    Hr Hoff Hbits Hin Hout Hfuel.
  - assert (bits = 0) by lia. subst bits. cbn. exists s, data. split; [reflexivity|].
    now apply Hnil.
  - rewrite read_loop_unfold. destruct (Z.gtb_spec bits 0) as [Hpos|Hz].
    2:{ assert (bits = 0) by lia. subst bits. exists s, data. split; [reflexivity|].
        now apply Hnil. }
    cbn zeta.
    assert (Hp : _position s = c mod 8) by apply Hr.
    pose proof (Z.mod_pos_bound c 8 ltac:(lia)) as Hm.
    set (k := Z.min (8 - _position s) (Z.min (8 - offset) bits)).
    assert (Hk : 0 < k /\ c mod 8 + k <= 8 /\ offset + k <= 8 /\ k <= bits) by lia.
    assert (Hdest : (dest < length data)%nat) by lia.
    destruct (read_chunk_spec bs c s data dest offset k)
      as (Hr1 & Hw1 & Hl1 & Hok1 & Hbits1); try tauto; try lia.
    set (r := read_chunk s data dest offset k) in *.
    destruct (Z.eqb_spec (offset + k) 8) as [E|E].
    + destruct (IH bs (c + k) (fst r) (snd r) (S dest) (bits - k) 0)
        as (s' & data' & Hrun & Hr' & Hw' & Hl' & Hok' & Hb');
        try assumption; try lia.
      exists s', data'. split; [exact Hrun|].
      split; [now replace (c + bits) with (c + k + (bits - k)) by lia|].
      split; [congruence|]. split; [congruence|]. split; [tauto|].
      intros i Hi. rewrite Hb', Hbits1 by lia.
      destruct (Z.leb_spec (8 * Z.of_nat (S dest) + 0) i),
        (Z.ltb_spec i (8 * Z.of_nat (S dest) + 0 + (bits - k))),
        (Z.leb_spec (8 * Z.of_nat dest + offset) i),
        (Z.ltb_spec i (8 * Z.of_nat dest + offset + k)),
        (Z.ltb_spec i (8 * Z.of_nat dest + offset + bits));
        cbn [andb]; try lia; try reflexivity.
      f_equal. lia.
    + destruct (IH bs (c + k) (fst r) (snd r) dest (bits - k) (offset + k))
        as (s' & data' & Hrun & Hr' & Hw' & Hl' & Hok' & Hb');
        try assumption; try lia.
      exists s', data'. split; [exact Hrun|].
      split; [now replace (c + bits) with (c + k + (bits - k)) by lia|].
      split; [congruence|]. split; [congruence|]. split; [tauto|].
      intros i Hi. rewrite Hb', Hbits1 by lia.
      destruct (Z.leb_spec (8 * Z.of_nat dest + (offset + k)) i),
        (Z.ltb_spec i (8 * Z.of_nat dest + (offset + k) + (bits - k))),
        (Z.leb_spec (8 * Z.of_nat dest + offset) i),
        (Z.ltb_spec i (8 * Z.of_nat dest + offset + k)),
        (Z.ltb_spec i (8 * Z.of_nat dest + offset + bits));
        cbn [andb]; try lia; try reflexivity.
      f_equal. lia.
Qed.

(** ** Single bits *)

Lemma operator_shl_bool_chunk s value :
  writer_ok s ->
  operator_shl_bool s value = write_chunk s (nth 0 [if value then 1 else 0] 0) 0 1.
Proof.
  intros [Hp Hb]. unfold operator_shl_bool, write_chunk.
  assert (E : (if value then quint8 (Z.lor (_byte s) (Z.shiftl 1 (_position s)))
               else _byte s)
    = quint8 (Z.lor (_byte s)
        (Z.shiftl (Z.land (Z.shiftr (nth 0 [if value then 1 else 0] 0) 0)
                          (Z.shiftl 1 1 - 1))
                  (_position s)))); [|now rewrite E].
  destruct value; [reflexivity|].
  cbn [nth]. rewrite Z.shiftr_0_l, Z.land_0_l, Z.shiftl_0_l, Z.lor_0_r.
  unfold quint8. rewrite Z.mod_small; [reflexivity|].
  assert (2 ^ _position s <= 2 ^ 7) by (apply Z.pow_le_mono_r; lia). lia.
Qed.

Lemma operator_shl_bool_spec s value :
  writer_ok s ->
  let s' := operator_shl_bool s value in
  writer_ok s'
  /\ ds_unread (_underlying s') = ds_unread (_underlying s)
  /\ 8 * Z.of_nat (length (ds_written (_underlying s'))) + _position s'
     = 8 * Z.of_nat (length (ds_written (_underlying s))) + _position s + 1
  /\ wbits s' = wbits s ++ [value].
Proof.
  intros Hs. cbn zeta. rewrite operator_shl_bool_chunk by exact Hs.
  destruct (write_chunk_spec s [if value then 1 else 0] 0 0 1)
    as (Hok & Hun & Hlen & Hp2 & Hw); try (destruct Hs; lia); [exact Hs|].
  split; [exact Hok|]. split; [exact Hun|]. split.
  - rewrite Hlen, Hp2. destruct Hs as [Hps _].
    destruct (Z.eqb_spec (_position s + 1) 8) as [E|E].
    + rewrite E, Z.mod_same by lia. lia.
    + rewrite Z.mod_small by lia. lia.
  - rewrite Hw. f_equal. destruct value; reflexivity.
Qed.

Lemma write_bools_spec values : forall s,
  writer_ok s ->
  let s' := write_bools s values in
  writer_ok s'
  /\ ds_unread (_underlying s') = ds_unread (_underlying s)
  /\ 8 * Z.of_nat (length (ds_written (_underlying s'))) + _position s'
     = 8 * Z.of_nat (length (ds_written (_underlying s))) + _position s
       + Z.of_nat (length values)
  /\ wbits s' = wbits s ++ values.
Proof.
  induction values as [|v values IH]; intros s Hs; cbn zeta.
  - cbn. rewrite app_nil_r. repeat split; try apply Hs; lia.
  - cbn [write_bools fold_left].
    destruct (operator_shl_bool_spec s v Hs) as (Hok & Hun & Hc & Hw).
    destruct (IH _ Hok) as (Hok' & Hun' & Hc' & Hw').
    unfold write_bools in *.
    split; [exact Hok'|]. split; [congruence|]. split.
    + rewrite Hc', Hc. cbn [length]. lia.
    + rewrite Hw', Hw, <- app_assoc. reflexivity.
Qed.

Lemma operator_shr_bool_spec bs c s :
  reader_at bs c s -> c + 1 <= 8 * Z.of_nat (length bs) ->
  let r := operator_shr_bool s in
  fst r = bufbit bs c
  /\ reader_at bs (c + 1) (snd r)
  /\ ds_written (_underlying (snd r)) = ds_written (_underlying s).
Proof.
  intros Hr Hlen.
  destruct (read_chunk_spec bs c s [0] 0 0 1)
    as (Hr1 & Hw1 & _ & _ & Hbit); try assumption; try lia.
  { destruct Hr as (Hc & _). pose proof (Z.mod_pos_bound c 8 ltac:(lia)). lia. }
  { cbn. lia. }
  unfold read_chunk in *. cbn [fst snd] in *. cbn zeta.
  unfold operator_shr_bool. cbn [fst snd].
  split; [|split; assumption].
  destruct (reader_at_current bs c s 1 Hr ltac:(lia) Hlen) as (Hp0 & Hb0 & _).
  set (s0 := if _position s =? 0 then fetch s else s) in *.
  destruct Hr as (Hc & _).
  pose proof (Z.mod_pos_bound c 8 ltac:(lia)) as Hm.
  rewrite Hb0, Hp0. unfold bufbit.
  rewrite <- (testbit_quint8 (nth _ bs 0) (c mod 8)) by lia.
  set (B := quint8 _).
  destruct (Z.testbit B (c mod 8)) eqn:Eb.
  - destruct (Z.eqb_spec (Z.land B (Z.shiftl 1 (c mod 8))) 0) as [E|E]; [|reflexivity].
    exfalso. apply (f_equal (fun x => Z.testbit x (c mod 8))) in E.
    rewrite Z.land_spec, Eb, Z.shiftl_spec, Z.sub_diag, Z.bits_0 in E by lia.
    cbn in E. discriminate.
  - destruct (Z.eqb_spec (Z.land B (Z.shiftl 1 (c mod 8))) 0) as [E|E]; [reflexivity|].
    exfalso. apply E. apply Z.bits_inj'. intros i Hi.
    rewrite Z.land_spec, Z.bits_0, Z.shiftl_spec by lia.
    destruct (Z.eq_dec i (c mod 8)) as [->|Hne].
    + now rewrite Eb.
    + rewrite andb_comm.
      replace (Z.testbit 1 (i - c mod 8)) with false; [reflexivity|].
      symmetry. destruct (Z.lt_ge_cases i (c mod 8)).
      * apply Z.testbit_neg_r. lia.
      * change 1 with (2 ^ 0). apply Z.pow2_bits_false. lia.
Qed.

Lemma read_bools_spec bs n : forall c s,
  reader_at bs c s -> c + Z.of_nat n <= 8 * Z.of_nat (length bs) ->
  let r := read_bools n s in
  fst r = buf_bits bs c n
  /\ reader_at bs (c + Z.of_nat n) (snd r)
  /\ ds_written (_underlying (snd r)) = ds_written (_underlying s).
Proof.
  induction n as [|n IH]; intros c s Hr Hlen; cbn zeta.
  - cbn. rewrite Z.add_0_r. auto.
  - cbn [read_bools].
    destruct (operator_shr_bool_spec bs c s Hr ltac:(lia)) as (Hv & Hr1 & Hw1).
    destruct (operator_shr_bool s) as [v s1]. cbn [fst snd] in *.
    destruct (IH (c + 1) s1 Hr1 ltac:(lia)) as (Hvs & Hr2 & Hw2).
    destruct (read_bools n s1) as [vs s2]. cbn [fst snd] in *.
    split; [|split].
    + unfold buf_bits. rewrite tab_S. f_equal.
      * rewrite Hv. f_equal. lia.
      * rewrite Hvs. apply tab_ext. intros k _. f_equal. lia.
    + now replace (c + Z.of_nat (S n)) with (c + 1 + Z.of_nat n) by lia.
    + congruence.
Qed.

(** ** Writers, readers and the bytes between them *)

Lemma writer_new_ok : writer_ok writer_new.
Proof. unfold writer_ok. cbn. lia. Qed.

Lemma wbits_writer_new : wbits writer_new = [].
Proof. reflexivity. Qed.

Lemma reader_new_at bs : reader_at bs 0 (reader_new bs).
Proof. unfold reader_at. cbn. repeat split; try lia. Qed.

Lemma wbits_length s :
  writer_ok s ->
  Z.of_nat (length (wbits s))
  = 8 * Z.of_nat (length (ds_written (_underlying s))) + _position s.
Proof.
  intros [Hp _]. unfold wbits. rewrite length_app, bytes_bits_length, tab_length. lia.
Qed.

Lemma buf_bits_of_stream bs pre l post :
  bytes_bits bs = pre ++ l ++ post ->
  buf_bits bs (Z.of_nat (length pre)) (length l) = l.
Proof.
  intros H. rewrite bytes_bits_buf_bits in H.
  assert (Hlen : (8 * length bs = length pre + (length l + length post))%nat).
  { apply (f_equal (@length bool)) in H.
    now rewrite buf_bits_length, !length_app in H. }
  rewrite Hlen, !buf_bits_app in H.
  apply app_inj_1 in H; [|now rewrite buf_bits_length].
  destruct H as [_ H].
  apply app_inj_1 in H; [|now rewrite buf_bits_length].
  destruct H as [H _]. exact H.
Qed.

Lemma bufbit_of_stream bs l (i : nat) b :
  bytes_bits bs = l -> l !! i = Some b -> bufbit bs (Z.of_nat i) = b.
Proof.
  intros H Hi. subst l. rewrite bytes_bits_buf_bits in Hi.
  pose proof (lookup_lt_Some _ _ _ Hi) as Hlt. rewrite buf_bits_length in Hlt.
  unfold buf_bits in Hi. rewrite tab_lookup in Hi by exact Hlt.
  now injection Hi.
Qed.

(** ** Composition of encoders and decoders *)

Lemma encodes_ret {A} (x : A) : encodes (ret x) [] x.
Proof. intros s Hs. exists s. rewrite app_nil_r. auto. Qed.

Lemma encodes_bind {A B} (W1 : M A) (W2 : A -> M B) l1 l2 x y :
  encodes W1 l1 x -> encodes (W2 x) l2 y -> encodes (bind W1 W2) (l1 ++ l2) y.
Proof.
  intros H1 H2 s Hs.
  destruct (H1 s Hs) as (s1 & E1 & Hok1 & Hu1 & Hw1).
  destruct (H2 s1 Hok1) as (s2 & E2 & Hok2 & Hu2 & Hw2).
  exists s2. unfold bind. rewrite E1, E2.
  repeat split; try apply Hok2; try congruence.
  now rewrite Hw2, Hw1, app_assoc.
Qed.

Lemma decodes_ret {A} (x : A) : decodes (ret x) [] x.
Proof.
  intros bs c s Hr _ _. exists s. cbn. rewrite Z.add_0_r. auto.
Qed.

Lemma decodes_bind {A B} (R1 : M A) (R2 : A -> M B) l1 l2 x y :
  decodes R1 l1 x -> decodes (R2 x) l2 y -> decodes (bind R1 R2) (l1 ++ l2) y.
Proof.
  intros H1 H2 bs c s Hr Hlen Hb.
  rewrite length_app in Hlen, Hb. rewrite buf_bits_app in Hb.
  apply app_inj_1 in Hb; [|now rewrite buf_bits_length].
  destruct Hb as [Hb1 Hb2].
  destruct (H1 bs c s Hr ltac:(lia) Hb1) as (s1 & E1 & Hr1 & Hw1).
  destruct (H2 bs _ s1 Hr1 ltac:(lia) Hb2) as (s2 & E2 & Hr2 & Hw2).
  exists s2. unfold bind. rewrite E1, E2. rewrite length_app.
  split; [reflexivity|]. split; [|congruence].
  now replace (c + Z.of_nat (length l1 + length l2))
    with (c + Z.of_nat (length l1) + Z.of_nat (length l2)) by lia.
Qed.

Lemma encodes_ext {A} (W : M A) l l' x x' :
  encodes W l x -> l = l' -> x = x' -> encodes W l' x'.
Proof. now intros H <- <-. Qed.

Lemma decodes_ext {A} (R : M A) l l' x x' :
  decodes R l x -> l = l' -> x = x' -> decodes R l' x'.
Proof. now intros H <- <-. Qed.

(** A writer started on an empty device, flushed, and a reader started on
    the bytes that came out. *)
Lemma end_to_end {A B} (W : M B) (R : M A) l x y :
  encodes W l y -> decodes R l x ->
  exists w, W writer_new = Some (y, w)
    /\ exists r, R (reader_new (ds_written (_underlying (flush w)))) = Some (x, r).
Proof.
  intros HW HR.
  destruct (HW writer_new writer_new_ok) as (w & E & Hok & _ & Hw).
  exists w. split; [exact E|].
  pose proof (wbits_flush w Hok) as Hf.
  rewrite Hw, wbits_writer_new in Hf. cbn [app] in Hf.
  set (bs := ds_written (_underlying (flush w))) in *.
  assert (Hlen : Z.of_nat (length l) <= 8 * Z.of_nat (length bs)).
  { apply (f_equal (@length bool)) in Hf.
    rewrite bytes_bits_length, length_app in Hf. lia. }
  destruct (HR bs 0 (reader_new bs) (reader_new_at bs) ltac:(lia)) as (r & Er & _).
  - apply (buf_bits_of_stream bs [] l _ Hf).
  - exists r. exact Er.
Qed.

(** ** Object representations *)

Lemma to_bytes_length m v : length (to_bytes m v) = m.
Proof. revert v. induction m as [|m IH]; intros v; cbn; [reflexivity|]. now rewrite IH. Qed.

Lemma to_bytes_ok m v : bytes_ok (to_bytes m v).
Proof.
  revert v. induction m as [|m IH]; intros v; cbn; constructor; [|apply IH].
  change 255 with (Z.ones 8). rewrite Z.land_ones by lia.
  apply Z.mod_pos_bound. lia.
Qed.

Lemma bufbit_cons b bs i :
  0 <= i -> bufbit (b :: bs) i = if i <? 8 then Z.testbit b i else bufbit bs (i - 8).
Proof.
  intros Hi. unfold bufbit.
  pose proof (Z.div_mod i 8 ltac:(lia)) as Hdm.
  pose proof (Z.mod_pos_bound i 8 ltac:(lia)) as Hm.
  destruct (Z.ltb_spec i 8).
  - rewrite Z.div_small, Z.mod_small by lia. reflexivity.
  - destruct (div8_unique (i - 8) (i / 8 - 1) (i mod 8)) as [-> ->]; [lia|lia|].
    assert (1 <= i / 8) by (apply Z.div_le_lower_bound; lia).
    replace (Z.to_nat (i / 8)) with (S (Z.to_nat (i / 8 - 1))) by lia.
    reflexivity.
Qed.

Lemma bufbit_nil i : bufbit [] i = false.
Proof. unfold bufbit. destruct (Z.to_nat (i / 8)); cbn; apply Z.testbit_0_l. Qed.

Lemma bufbit_to_bytes m : forall v i,
  0 <= i -> bufbit (to_bytes m v) i = (i <? 8 * Z.of_nat m) && Z.testbit v i.
Proof.
  induction m as [|m IH]; intros v i Hi.
  - cbn [to_bytes]. rewrite bufbit_nil.
    destruct (Z.ltb_spec i (8 * Z.of_nat 0)); [lia|reflexivity].
  - cbn [to_bytes]. rewrite bufbit_cons by lia.
    destruct (Z.ltb_spec i 8).
    + destruct (Z.ltb_spec i (8 * Z.of_nat (S m))); [|lia].
      change 255 with (Z.ones 8). cbn [andb]. Z.bitblast_core.
    + rewrite IH by lia. rewrite Z.shiftr_spec by lia.
      replace (i - 8 + 8) with i by lia.
      destruct (Z.ltb_spec (i - 8) (8 * Z.of_nat m)),
        (Z.ltb_spec i (8 * Z.of_nat (S m))); try lia; reflexivity.
Qed.

Lemma testbit_of_bytes bs : forall i, 0 <= i -> Z.testbit (of_bytes bs) i = bufbit bs i.
Proof.
  induction bs as [|b bs IH]; intros i Hi.
  - cbn [of_bytes]. now rewrite bufbit_nil, Z.bits_0.
  - cbn [of_bytes]. rewrite bufbit_cons by lia.
    change 255 with (Z.ones 8).
    destruct (Z.ltb_spec i 8).
    + rewrite Z.lor_spec, Z.land_spec, Z.shiftl_spec_low by lia.
      rewrite Z.ones_spec_low by lia. now rewrite andb_true_r, orb_false_r.
    + rewrite Z.lor_spec, Z.land_spec, Z.shiftl_spec, IH by lia.
      rewrite Z.ones_spec_high by lia. now rewrite andb_false_r.
Qed.

Lemma buffer_ext (a b : list Z) :
  bytes_ok a -> bytes_ok b -> length a = length b ->
  (forall i, 0 <= i -> bufbit a i = bufbit b i) -> a = b.
Proof.
  revert b. induction a as [|x a IH]; intros [|y b] Ha Hb Hl H; try discriminate;
    [reflexivity|].
  inversion Ha as [|? ? Hx Ha']; inversion Hb as [|? ? Hy Hb']; subst.
  f_equal.
  - apply Z.bits_inj'. intros i Hi. destruct (Z.ltb_spec i 8) as [Hlt|Hge].
    + specialize (H i Hi). rewrite !bufbit_cons in H by lia.
      destruct (Z.ltb_spec i 8); [exact H|lia].
    + rewrite (testbit_small x 8), (testbit_small y 8) by lia. reflexivity.
  - apply IH; try assumption; [now injection Hl|].
    intros i Hi. specialize (H (i + 8) ltac:(lia)).
    rewrite !bufbit_cons in H by lia.
    destruct (Z.ltb_spec (i + 8) 8); [lia|].
    now replace (i + 8 - 8) with i in H by lia.
Qed.

Lemma testbit_bits_value l : forall i,
  0 <= i -> Z.testbit (bits_value l) i = nth (Z.to_nat i) l false.
Proof.
  induction l as [|b l IH]; intros i Hi.
  - cbn. rewrite Z.bits_0. now destruct (Z.to_nat i).
  - cbn [bits_value]. destruct (Z.eq_dec i 0) as [->|Hne].
    + cbn [Z.to_nat nth]. rewrite Z.add_comm, Z.testbit_0_r. reflexivity.
    + replace i with (Z.succ (i - 1)) at 1 by lia.
      rewrite Z.add_comm, Z.testbit_succ_r, IH by lia.
      replace (Z.to_nat i) with (S (Z.to_nat (i - 1))) by lia. reflexivity.
Qed.

Lemma bits_value_nonneg l : 0 <= bits_value l.
Proof. induction l as [|[] l IH]; cbn [bits_value Z.b2z]; lia. Qed.

Lemma bits_value_bound l : bits_value l < 2 ^ Z.of_nat (length l).
Proof.
  induction l as [|b l IH]; [cbn; lia|].
  cbn [bits_value length]. rewrite Nat2Z.inj_succ, Z.pow_succ_r by lia.
  destruct b; cbn [Z.b2z]; lia.
Qed.

Lemma bits_value_tab v n :
  bits_value (tab (Z.testbit v) n) = v mod 2 ^ Z.of_nat n.
Proof.
  apply Z.bits_inj'. intros i Hi.
  rewrite testbit_bits_value by lia.
  destruct (Z.ltb_spec i (Z.of_nat n)).
  - rewrite Z.mod_pow2_bits_low by lia.
    rewrite nth_lookup, tab_lookup by lia. cbn. f_equal. lia.
  - rewrite Z.mod_pow2_bits_high by lia.
    rewrite nth_overflow; [reflexivity|]. rewrite tab_length. lia.
Qed.

Lemma tab_bits_value l : tab (Z.testbit (bits_value l)) (length l) = l.
Proof.
  apply list_eq. intros i. destruct (Nat.lt_ge_cases i (length l)) as [H|H].
  - rewrite tab_lookup by exact H. rewrite testbit_bits_value by lia.
    rewrite Nat2Z.id. destruct (lookup_lt_is_Some_2 l i H) as [b Hb].
    rewrite Hb. f_equal. now apply nth_lookup_Some.
  - rewrite !lookup_ge_None_2; [reflexivity|lia|now rewrite tab_length].
Qed.

Lemma buf_bits_to_bytes m v n :
  (n <= 8 * m)%nat -> buf_bits (to_bytes m v) 0 n = tab (Z.testbit v) n.
Proof.
  intros H. apply tab_ext. intros k Hk. rewrite bufbit_to_bytes by lia.
  destruct (Z.ltb_spec (0 + k) (8 * Z.of_nat m)); [reflexivity|lia].
Qed.

Lemma of_to_bytes m v : of_bytes (to_bytes m v) = v mod 2 ^ (8 * Z.of_nat m).
Proof.
  apply Z.bits_inj'. intros i Hi.
  rewrite testbit_of_bytes, bufbit_to_bytes by lia.
  destruct (Z.ltb_spec i (8 * Z.of_nat m)).
  - now rewrite Z.mod_pow2_bits_low by lia.
  - now rewrite Z.mod_pow2_bits_high by lia.
Qed.

Lemma int32_range x : - 2 ^ 31 <= int32 x < 2 ^ 31.
Proof. unfold int32. pose proof (Z.mod_pos_bound (x + 2 ^ 31) (2 ^ 32)). lia. Qed.

Lemma int32_small x : - 2 ^ 31 <= x < 2 ^ 31 -> int32 x = x.
Proof. intros H. unfold int32. rewrite Z.mod_small by lia. lia. Qed.

Lemma int32_mod x : int32 (x mod 2 ^ 32) = int32 x.
Proof.
  unfold int32. f_equal.
  rewrite <- (Zplus_mod_idemp_l x). reflexivity.
Qed.

(** ** Primitive encoders and decoders *)

Lemma encodes_write_bool b : encodes (write_bool_m b) [b] tt.
Proof.
  intros s Hs. exists (operator_shl_bool s b). split; [reflexivity|].
  destruct (operator_shl_bool_spec s b Hs) as (Hok & Hun & _ & Hw). auto.
Qed.

Lemma decodes_read_bool b : decodes read_bool_m [b] b.
Proof.
  intros bs c s Hr Hlen Hb. cbn [length] in *.
  destruct (operator_shr_bool_spec bs c s Hr ltac:(lia)) as (Hv & Hr1 & Hw1).
  exists (snd (operator_shr_bool s)). unfold read_bool_m.
  split; [|split; assumption].
  rewrite (surjective_pairing (operator_shr_bool s)), Hv. do 2 f_equal.
  unfold buf_bits in Hb. rewrite tab_S in Hb. injection Hb as Hb.
  now rewrite Z.add_0_r in Hb.
Qed.

Lemma encodes_write data bits offset :
  0 <= offset < 8 -> 0 <= bits ->
  encodes (write_m data bits offset) (buf_bits data offset (Z.to_nat bits)) tt.
Proof.
  intros Hoff Hbits s Hs. unfold write_m, write.
  destruct (write_loop_spec (Z.to_nat bits) s data 0 bits offset)
    as (s' & E & Hok & Hun & _ & Hw); try assumption; try lia.
  exists s'. rewrite E. auto.
Qed.

Lemma decodes_read_zero m l :
  (length l <= 8 * m)%nat ->
  decodes (read_m (replicate m 0) (Z.of_nat (length l)) 0) l
          (to_bytes m (bits_value l)).
Proof.
  intros Hm bs c s Hr Hlen Hb. unfold read_m, read.
  destruct (read_loop_spec (Z.to_nat (Z.of_nat (length l))) bs c s
              (replicate m 0) 0 (Z.of_nat (length l)) 0)
    as (s' & data' & E & Hr' & Hw' & Hl' & Hok' & Hbit');
    try assumption; try lia.
  { rewrite length_replicate. lia. }
  rewrite E. exists s'. split; [|split; assumption].
  do 2 f_equal. apply buffer_ext.
  - apply Hok'. unfold bytes_ok. apply Forall_replicate. lia.
  - apply to_bytes_ok.
  - now rewrite Hl', length_replicate, to_bytes_length.
  - intros i Hi. rewrite Hbit', bufbit_to_bytes by lia.
    change (8 * Z.of_nat 0 + 0) with 0. rewrite Z.add_0_l.
    replace (bufbit (replicate m 0) i) with false.
    2:{ unfold bufbit. rewrite nth_lookup.
        destruct (replicate m 0 !! Z.to_nat (i / 8)) as [x|] eqn:Ex; cbn.
        - apply lookup_replicate in Ex as [-> _]. now rewrite Z.bits_0.
        - now rewrite Z.bits_0. }
    rewrite testbit_bits_value by lia.
    destruct (Z.leb_spec 0 i); [|lia].
    destruct (Z.ltb_spec i (Z.of_nat (length l))); cbn [andb].
    + destruct (Z.ltb_spec i (8 * Z.of_nat m)); [|lia]. cbn [andb].
      replace (c + (i - 0)) with (c + Z.of_nat (Z.to_nat i)) by lia.
      assert (Hk : buf_bits bs c (length l) !! Z.to_nat i
                   = Some (bufbit bs (c + Z.of_nat (Z.to_nat i))))
        by (unfold buf_bits; rewrite tab_lookup by lia; reflexivity).
      rewrite Hb in Hk. symmetry. now apply nth_lookup_Some.
    + rewrite nth_overflow by lia. now rewrite andb_false_r.
Qed.

Lemma encodes_int value :
  encodes (operator_shl_int value) (tab (Z.testbit value) 32) tt.
Proof.
  eapply encodes_ext; [apply encodes_write; lia| |reflexivity].
  now apply (buf_bits_to_bytes 4 value 32).
Qed.

Lemma decodes_int value :
  - 2 ^ 31 <= value < 2 ^ 31 ->
  decodes operator_shr_int (tab (Z.testbit value) 32) value.
Proof.
  intros Hv. unfold operator_shr_int.
  eapply decodes_ext; [eapply decodes_bind|..].
  - apply (decodes_read_zero 4 (tab (Z.testbit value) 32)).
    rewrite tab_length. lia.
  - apply decodes_ret.
  - now rewrite app_nil_r.
  - rewrite of_to_bytes, bits_value_tab.
    change (8 * Z.of_nat 4) with 32. change (Z.of_nat 32) with 32.
    rewrite Z.mod_mod by lia. rewrite int32_mod. now apply int32_small.
Qed.

(** ** The cursor *)

Lemma land7_range x : 0 <= Z.land x LAST_BIT_POSITION < 8.
Proof. rewrite land7_mod8. apply Z.mod_pos_bound. lia. Qed.

Lemma flush_position s : _position (flush s) = 0.
Proof.
  unfold flush. destruct (Z.eqb_spec (_position s) 0) as [E|E]; [exact E|reflexivity].
Qed.

Lemma flush_idempotent s : flush (flush s) = flush s.
Proof. apply flush_zero, flush_position. Qed.

Lemma flush_written s :
  ds_written (_underlying (flush s))
  = if _position s =? 0 then ds_written (_underlying s)
    else ds_written (_underlying s) ++ [_byte s].
Proof. unfold flush. destruct (_position s =? 0); reflexivity. Qed.

Lemma write_chunk_cursor s d offset k :
  0 <= _position s -> 0 < k -> _position s + k <= 8 ->
  let s' := write_chunk s d offset k in
  0 <= _position s' < 8
  /\ 8 * Z.of_nat (length (ds_written (_underlying s'))) + _position s'
     = 8 * Z.of_nat (length (ds_written (_underlying s))) + _position s + k
  /\ ds_written (_underlying s')
     = if _position s + k =? 8
       then ds_written (_underlying s)
            ++ [quint8 (Z.lor (_byte s)
                 (Z.shiftl (Z.land (Z.shiftr d offset) (Z.shiftl 1 k - 1))
                           (_position s)))]
       else ds_written (_underlying s).
Proof.
  intros Hp Hk Hpk. unfold write_chunk, BITS_IN_BYTE. cbn zeta.
  destruct (Z.eqb_spec (_position s + k) 8) as [E|E].
  - rewrite flush_nonzero by (cbn; lia).
    cbn [_position _byte _underlying ds_put ds_written].
    rewrite length_app. cbn [length]. repeat split; lia.
  - cbn [_position _byte _underlying]. repeat split; lia.
Qed.

Lemma write_loop_cursor fuel : forall s data source bits offset,
  0 <= _position s < 8 -> 0 <= offset < 8 -> (Z.to_nat bits <= fuel)%nat ->
  exists s', write_loop fuel s data source bits offset = Some s'
    /\ 0 <= _position s' < 8
    /\ 8 * Z.of_nat (length (ds_written (_underlying s'))) + _position s'
       = 8 * Z.of_nat (length (ds_written (_underlying s))) + _position s
         + Z.max 0 bits.
Proof.
  induction fuel as [|fuel IH]; intros s data source bits offset Hp Hoff Hfuel.
  - cbn. destruct (Z.gtb_spec bits 0); [lia|]. exists s. repeat split; lia.
  - cbn [write_loop]. destruct (Z.gtb_spec bits 0) as [Hpos|Hz].
    2:{ exists s. repeat split; lia. }
    unfold BITS_IN_BYTE.
    set (k := Z.min (8 - _position s) (Z.min (8 - offset) bits)).
    assert (Hk : 0 < k /\ _position s + k <= 8 /\ offset + k <= 8 /\ k <= bits) by lia.
    destruct (write_chunk_cursor s (nth source data 0) offset k) as (Hp' & Hc' & _);
      try lia.
    unfold write_chunk, BITS_IN_BYTE in Hp', Hc'.
    set (s2 := if _position s + k =? 8 then _ else _) in *.
    destruct (Z.eqb_spec (offset + k) 8) as [E|E].
    + destruct (IH s2 data (S source) (bits - k) 0) as (s' & Hr & Hps & Hcs);
        try lia.
      exists s'. repeat split; try assumption; lia.
    + destruct (IH s2 data source (bits - k) (offset + k)) as (s' & Hr & Hps & Hcs);
        try lia.
      exists s'. repeat split; try assumption; lia.
Qed.

Lemma read_loop_cursor fuel : forall s data dest bits offset,
  0 <= _position s < 8 -> 0 <= offset < 8 -> (Z.to_nat bits <= fuel)%nat ->
  exists s' data', read_loop fuel s data dest bits offset = Some (s', data')
    /\ 0 <= _position s' < 8.
Proof.
  induction fuel as [|fuel IH]; intros s data dest bits offset Hp Hoff Hfuel.
  - cbn. destruct (Z.gtb_spec bits 0); [lia|]. exists s, data. split; [reflexivity|lia].
  - rewrite read_loop_unfold. destruct (Z.gtb_spec bits 0) as [Hpos|Hz].
    2:{ exists s, data. split; [reflexivity|lia]. }
    cbn zeta.
    set (k := Z.min (8 - _position s) (Z.min (8 - offset) bits)).
    assert (Hk : 0 < k /\ _position s + k <= 8 /\ offset + k <= 8 /\ k <= bits) by lia.
    set (r := read_chunk s data dest offset k).
    assert (Hr : 0 <= _position (fst r) < 8) by (apply land7_range).
    destruct (Z.eqb_spec (offset + k) 8) as [E|E].
    + apply IH; lia.
    + apply IH; lia.
Qed.

(** ** Matching cursors *)

Lemma cursor_match w bs rest r :
  writer_ok w ->
  bytes_bits bs = wbits w ++ rest ->
  reader_at bs (8 * Z.of_nat (length (ds_written (_underlying w))) + _position w) r ->
  _position r = _position w
  /\ _byte w = Z.land (_byte r) (Z.ones (_position w))
  /\ (_position w = 0 -> _byte w = 0).
Proof.
  intros [Hp Hb] Hbs (Hc & Hpr & _ & Hbr).
  set (n := Z.of_nat (length (ds_written (_underlying w)))) in *.
  destruct (div8_unique (8 * n + _position w) n (_position w)) as [Hq Hm]; [lia|lia|].
  split; [now rewrite Hpr|]. split.
  - destruct (Z.eq_dec (_position w) 0) as [Hz|Hnz].
    { rewrite Hz in *. change (2 ^ 0) with 1 in Hb. rewrite Z.land_0_r. lia. }
    rewrite Hbr by lia.
    destruct (div8_unique (8 * n + _position w - 1) n (_position w - 1)) as [-> _];
      [lia|lia|].
    apply Z.bits_inj'. intros i Hi. rewrite Z.land_spec.
    destruct (Z.ltb_spec i (_position w)) as [Hlt|Hge].
    + rewrite Z.ones_spec_low, andb_true_r, testbit_quint8 by lia.
      assert (Hk : (wbits w ++ rest) !! Z.to_nat (8 * n + i)
                   = Some (Z.testbit (_byte w) i)).
      { rewrite lookup_app_l by (pose proof (wbits_length w (conj Hp Hb)); lia).
        unfold wbits. rewrite lookup_app_r by (rewrite bytes_bits_length; lia).
        rewrite bytes_bits_length, tab_lookup by lia. do 2 f_equal. lia. }
      rewrite <- Hbs in Hk. apply (bufbit_of_stream bs _ _ _ eq_refl) in Hk.
      rewrite Z2Nat.id in Hk by lia. rewrite <- Hk.
      unfold n. rewrite bufbit_in_byte by lia. now rewrite Nat2Z.id.
    + rewrite Z.ones_spec_high, andb_false_r by lia.
      apply (testbit_small _ (_position w)); lia.
  - intros Hz. rewrite Hz in Hb. change (2 ^ 0) with 1 in Hb. lia.
Qed.

Lemma cursor_match_flushed w r :
  writer_ok w -> _position w <> 0 ->
  reader_at (ds_written (_underlying (flush w)))
            (8 * Z.of_nat (length (ds_written (_underlying w))) + _position w) r ->
  _byte r = _byte w.
Proof.
  intros [Hp Hb] Hnz (Hc & Hpr & _ & Hbr).
  set (n := Z.of_nat (length (ds_written (_underlying w)))) in *.
  rewrite Hbr by lia.
  destruct (div8_unique (8 * n + _position w - 1) n (_position w - 1)) as [-> _];
    [lia|lia|].
  rewrite flush_written. destruct (Z.eqb_spec (_position w) 0); [lia|].
  unfold n. rewrite Nat2Z.id, nth_middle.
  unfold quint8. apply Z.mod_small.
  assert (2 ^ _position w <= 2 ^ 7) by (apply Z.pow_le_mono_r; lia). lia.
Qed.

(** ** IDStreamer *)

Lemma log2_up_step h : 1 <= h -> Z.log2_up (h + 1) = 1 + Z.log2_up (h / 2 + 1).
Proof.
  intros Hh. rewrite (Z.log2_up_eqn (h + 1)) by lia.
  replace (Z.pred (h + 1)) with h by lia.
  destruct (Z.eq_dec h 1) as [->|Hne]; [reflexivity|].
  assert (H2 : 1 <= h / 2) by (apply Z.div_le_lower_bound; lia).
  rewrite (Z.log2_up_eqn (h / 2 + 1)) by lia.
  replace (Z.pred (h / 2 + 1)) with (h / 2) by lia.
  change (h / 2) with (h / 2 ^ 1).
  rewrite <- (Z.shiftr_div_pow2 h 1) by lia.
  rewrite Z.log2_shiftr by lia.
  assert (1 <= Z.log2 h) by (apply Z.log2_le_pow2; lia). lia.
Qed.

Lemma getBitsForHighestValue_loop_spec n : forall fuel h bits,
  0 <= h < 2 ^ Z.of_nat n -> (n <= fuel)%nat ->
  0 <= bits -> bits + Z.of_nat n < 2 ^ 31 ->
  getBitsForHighestValue_loop fuel h bits = Some (bits + Z.log2_up (h + 1)).
Proof.
  induction n as [|n IH]; intros fuel h bits Hh Hfuel Hb Hbn.
  - assert (h = 0) by (change (2 ^ Z.of_nat 0) with 1 in Hh; lia). subst h.
    change (Z.log2_up (0 + 1)) with 0. rewrite Z.add_0_r.
    destruct fuel; reflexivity.
  - destruct (Z.eq_dec h 0) as [->|Hne].
    { change (Z.log2_up (0 + 1)) with 0. rewrite Z.add_0_r.
      destruct fuel; reflexivity. }
    destruct fuel as [|fuel]; [lia|].
    cbn [getBitsForHighestValue_loop].
    destruct (Z.eqb_spec h 0); [lia|]. cbn [negb].
    rewrite Z.shiftr_div_pow2 by lia. change (2 ^ 1) with 2.
    rewrite int32_small by lia.
    rewrite Nat2Z.inj_succ, Z.pow_succ_r in Hh by lia.
    rewrite IH; try lia.
    + f_equal. rewrite (log2_up_step h) by lia. lia.
    + split; [apply Z.div_pos; lia|]. apply Z.div_lt_upper_bound; lia.
Qed.

(** On a negative argument the loop of [getBitsForHighestValue] never
    ends: an arithmetic shift keeps a negative number negative. *)
Lemma getBitsForHighestValue_loop_negative fuel : forall h bits,
  h < 0 -> getBitsForHighestValue_loop fuel h bits = None.
Proof.
  induction fuel as [|fuel IH]; intros h bits Hh; cbn;
    (destruct (Z.eqb_spec h 0); [lia|]); cbn [negb]; [reflexivity|].
  apply IH. now apply Z.shiftr_neg.
Qed.

Lemma setBitsFromValue_spec fuel st max :
  -1 <= max < 2 ^ 31 - 1 -> (32 <= fuel)%nat ->
  setBitsFromValue fuel st max = Some {| _bits := Z.log2_up (max + 2) |}.
Proof.
  intros Hm Hfuel. unfold setBitsFromValue, getBitsForHighestValue.
  rewrite int32_small by lia.
  rewrite (getBitsForHighestValue_loop_spec 31) by (cbn; lia).
  rewrite Z.add_0_l. do 3 f_equal. lia.
Qed.

Lemma new_marker bits :
  0 <= bits <= 31 -> int32 (int32 (Z.shiftl 1 bits) - 1) = 2 ^ bits - 1.
Proof.
  intros Hb. rewrite Z.shiftl_1_l.
  destruct (Z.eq_dec bits 31) as [->|Hne]; [reflexivity|].
  assert (0 < 2 ^ bits) by (apply Z.pow_pos_nonneg; lia).
  assert (2 ^ bits <= 2 ^ 30) by (apply Z.pow_le_mono_r; lia).
  rewrite (int32_small (2 ^ bits)) by lia. apply int32_small. lia.
Qed.

Lemma IDStreamer_advance_bits st value :
  0 <= _bits st <= 31 ->
  _bits (IDStreamer_advance st value)
  = if value =? 2 ^ _bits st - 1 then _bits st + 1 else _bits st.
Proof.
  intros Hb. unfold IDStreamer_advance. rewrite new_marker by exact Hb.
  destruct (value =? 2 ^ _bits st - 1); [|reflexivity].
  cbn. apply int32_small. lia.
Qed.

Lemma encodes_IDStreamer_shl st value :
  0 <= _bits st <= 32 ->
  encodes (IDStreamer_shl st value)
          (tab (Z.testbit value) (Z.to_nat (_bits st)))
          (IDStreamer_advance st value).
Proof.
  intros Hb. unfold IDStreamer_shl.
  eapply encodes_ext; [eapply encodes_bind|..].
  - apply encodes_write; lia.
  - apply encodes_ret.
  - rewrite app_nil_r. apply buf_bits_to_bytes. lia.
  - reflexivity.
Qed.

Lemma decodes_IDStreamer_shr st l :
  0 <= _bits st <= 31 -> Z.of_nat (length l) = _bits st ->
  decodes (IDStreamer_shr st) l
          (bits_value l, IDStreamer_advance st (bits_value l)).
Proof.
  intros Hb Hl. unfold IDStreamer_shr.
  assert (Hv : int32 (of_bytes (to_bytes 4 (bits_value l))) = bits_value l).
  { rewrite of_to_bytes. change (8 * Z.of_nat 4) with 32.
    rewrite int32_mod. apply int32_small.
    pose proof (bits_value_nonneg l). pose proof (bits_value_bound l).
    assert (2 ^ Z.of_nat (length l) <= 2 ^ 31) by (apply Z.pow_le_mono_r; lia).
    lia. }
  eapply decodes_ext; [eapply decodes_bind|..].
  - rewrite <- Hl. change (to_bytes 4 0) with (replicate 4 0).
    apply (decodes_read_zero 4 l). lia.
  - apply decodes_ret.
  - now rewrite app_nil_r.
  - cbn zeta. now rewrite Hv.
Qed.

Lemma IDStreamer_shl_result st value s st' s' :
  IDStreamer_shl st value s = Some (st', s') -> st' = IDStreamer_advance st value.
Proof.
  unfold IDStreamer_shl, bind, ret. destruct (write_m _ _ _ s) as [[[] s1]|];
    [|discriminate]. now intros [= <- _].
Qed.

Lemma IDStreamer_shr_result st s value st' s' :
  IDStreamer_shr st s = Some ((value, st'), s') -> st' = IDStreamer_advance st value.
Proof.
  unfold IDStreamer_shr, bind, ret. destruct (read_m _ _ _ s) as [[data s1]|];
    [|discriminate]. now intros [= <- <- _].
Qed.

Lemma IDStreamer_same_sequence ids : forall st sw sr stw w vals str r,
  IDStreamer_write_all st ids sw = Some (stw, w) ->
  IDStreamer_read_n (length ids) st sr = Some ((vals, str), r) ->
  vals = ids -> _bits str = _bits stw.
Proof.
  induction ids as [|id ids IH]; intros st sw sr stw w vals str r Hw Hr Hv.
  - cbn in Hw, Hr. unfold ret in *. congruence.
  - cbn [IDStreamer_write_all IDStreamer_read_n length] in Hw, Hr.
    unfold bind in Hw, Hr.
    destruct (IDStreamer_shl st id sw) as [[st1 s1]|] eqn:E1; [|discriminate].
    destruct (IDStreamer_shr st sr) as [[[v st2] s2]|] eqn:E2; [|discriminate].
    cbn [fst snd] in Hr.
    destruct (IDStreamer_read_n (length ids) st2 s2) as [[[vs st3] s3]|] eqn:E3;
      [|discriminate].
    unfold ret in Hr. cbn [fst snd] in Hr. injection Hr as <- <- <-.
    injection Hv as -> ->.
    apply IDStreamer_shl_result in E1. apply IDStreamer_shr_result in E2.
    subst st1 st2. eapply IH; eauto.
Qed.

Lemma ids_codec ids : forall st,
  ids_fit (_bits st) ids ->
  exists l stf,
    encodes (IDStreamer_write_all st ids) l stf
    /\ decodes (IDStreamer_read_n (length ids) st) l (ids, stf).
Proof.
  induction ids as [|id ids IH]; intros st Hfit.
  - exists [], st. split; [apply encodes_ret|apply decodes_ret].
  - destruct Hfit as (Hb & Hid & Hfit).
    assert (Hadv : _bits (IDStreamer_advance st id)
       = if id =? 2 ^ _bits st - 1 then _bits st + 1 else _bits st)
      by (apply IDStreamer_advance_bits; lia).
    rewrite <- Hadv in Hfit.
    destruct (IH _ Hfit) as (l & stf & He & Hd).
    set (l0 := tab (Z.testbit id) (Z.to_nat (_bits st))).
    assert (Hv : bits_value l0 = id).
    { unfold l0. rewrite bits_value_tab, Z2Nat.id by lia. apply Z.mod_small. lia. }
    exists (l0 ++ l), stf. split.
    + cbn [IDStreamer_write_all]. eapply encodes_bind; [|exact He].
      apply encodes_IDStreamer_shl. lia.
    + cbn [IDStreamer_read_n length].
      eapply decodes_ext; [eapply decodes_bind; [|eapply decodes_bind]|..].
      * apply (decodes_IDStreamer_shr st l0); [lia|].
        unfold l0. rewrite tab_length. lia.
      * cbn [snd]. rewrite Hv. exact Hd.
      * apply decodes_ret.
      * now rewrite app_nil_r.
      * cbn [fst snd]. now rewrite Hv.
Qed.

(** * The claims *)

(** C4 — scenario S1, bit packing.  On a fresh Bitstream, writing the
    booleans true, false, true, true and flushing sends exactly one byte,
    0x0D (binary 00001101), to the underlying stream; four booleans read
    back from that output are true, false, true, true. *)
Theorem S1_bit_packing :
  let out :=
    ds_written (_underlying
      (flush (write_bools writer_new [true; false; true; true]))) in
  out = [0x0D]
  /\ fst (read_bools 4 (reader_new out)) = [true; false; true; true].
Proof. split; reflexivity. Qed.

(** C5 — [read] inverts [write] and frames the buffer.  A writer that has
    already produced any run of bits [pre] writes [nBits] bits of [src] from
    bit [offset] and flushes; a reader that has consumed [pre] from that
    output reads [nBits] bits into [dest] at the same [offset].  Afterwards
    every bit of [dest] inside [offset, offset + nBits) equals the bit of
    [src] at the same place, every other bit of [dest] has its prior value,
    and the buffer keeps its length and its bytes stay bytes. *)
Theorem read_inverts_write_and_frames
    (pre : list bool) (src dest : list Z) (nBits offset : Z) :
  0 <= offset < 8 -> 0 <= nBits ->
  offset + nBits <= 8 * Z.of_nat (length src) ->
  offset + nBits <= 8 * Z.of_nat (length dest) ->
  exists w r dest',
    write (write_bools writer_new pre) src nBits offset = Some w
    /\ read (snd (read_bools (length pre)
                   (reader_new (ds_written (_underlying (flush w))))))
            dest nBits offset = Some (r, dest')
    /\ length dest' = length dest
    /\ (bytes_ok dest -> bytes_ok dest')
    /\ forall i, 0 <= i ->
         bufbit dest' i
         = if (offset <=? i) && (i <? offset + nBits) then bufbit src i
           else bufbit dest i.
Proof.
  intros Hoff Hbits _ Hdest.
  destruct (write_bools_spec pre writer_new writer_new_ok) as (Hok0 & _ & _ & Hw0).
  cbn zeta in *. rewrite wbits_writer_new in Hw0. cbn [app] in Hw0.
  destruct (write_loop_spec (Z.to_nat nBits) (write_bools writer_new pre) src 0
              nBits offset) as (w & Ew & Hok & _ & _ & Hw); try assumption; try lia.
  rewrite Hw0 in Hw. change (8 * Z.of_nat 0 + offset) with offset in Hw.
  pose proof (wbits_flush w Hok) as Hf. rewrite Hw, <- app_assoc in Hf.
  set (bs := ds_written (_underlying (flush w))) in *.
  assert (Hlen : Z.of_nat (length pre) + nBits <= 8 * Z.of_nat (length bs)).
  { apply (f_equal (@length bool)) in Hf.
    rewrite bytes_bits_length, !length_app, buf_bits_length in Hf. lia. }
  destruct (read_bools_spec bs (length pre) 0 (reader_new bs) (reader_new_at bs)
              ltac:(lia)) as (_ & Hr0 & _).
  cbn zeta in Hr0. rewrite Z.add_0_l in Hr0.
  destruct (read_loop_spec (Z.to_nat nBits) bs (Z.of_nat (length pre))
              (snd (read_bools (length pre) (reader_new bs))) dest 0 nBits offset)
    as (r & dest' & Er & _ & _ & Hl & Hbok & Hbit); try assumption; try lia.
  exists w, r, dest'. split; [exact Ew|]. split; [exact Er|].
  split; [exact Hl|]. split; [exact Hbok|].
  intros i Hi. rewrite Hbit by lia. change (8 * Z.of_nat 0 + offset) with offset.
  destruct (Z.leb_spec offset i), (Z.ltb_spec i (offset + nBits)); cbn [andb];
    try reflexivity.
  pose proof (buf_bits_of_stream bs pre _ _ Hf) as Hs.
  rewrite buf_bits_length in Hs.
  apply tab_inj with (k := i - offset) in Hs; [|lia].
  rewrite Hs. f_equal. lia.
Qed.

Lemma read_inverts_write_and_frames_witness :
  (0 <= 3 < 8 /\ 0 <= 9)
  /\ exists w r dest',
    write (write_bools writer_new [true; true]) [0xA5; 0x3C] 9 3 = Some w
    /\ read (snd (read_bools (length [true; true])
                   (reader_new (ds_written (_underlying (flush w))))))
            [0xFF; 0x00] 9 3 = Some (r, dest')
    /\ length dest' = length [0xFF; 0x00]
    /\ (bytes_ok [0xFF; 0x00] -> bytes_ok dest')
    /\ forall i, 0 <= i ->
         bufbit dest' i
         = if (3 <=? i) && (i <? 3 + 9) then bufbit [0xA5; 0x3C] i
           else bufbit [0xFF; 0x00] i.
Proof.
  split; [lia|].
  apply (read_inverts_write_and_frames [true; true] [0xA5; 0x3C] [0xFF; 0x00] 9 3);
    cbn; lia.
Defined.

(** C9, as stated, fails: a writer that has written one whole byte 0xFF
    holds (position 0, byte 0) because it resets its accumulator when it
    emits, while the reader that has read those eight bits holds
    (position 0, byte 0xFF): it keeps the last byte it fetched. *)
Lemma bit_boundary_exactness_counterexample :
  exists w r dest',
    write writer_new [0xFF] 8 0 = Some w
    /\ read (reader_new (ds_written (_underlying (flush w)))) [0] 8 0
       = Some (r, dest')
    /\ dest' = [0xFF]
    /\ (_position w, _byte w) = (0, 0)
    /\ (_position r, _byte r) = (0, 0xFF)
    /\ (_position w, _byte w) <> (_position r, _byte r).
Proof.
  eexists _, _, _. split; [reflexivity|]. split; [reflexivity|].
  split; [reflexivity|]. split; [reflexivity|]. split; [reflexivity|].
  cbn. discriminate.
Qed.

(** C9, amended — a writer that has produced any run of bits [pre] writes
    [nBits] bits of [src]; call its state then [w].  It may go on writing
    [post], and flushes.  A reader of the bytes sent that has consumed [pre]
    and then reads the [nBits] bits stands at the same bit position as [w],
    and the accumulator of [w] is the part of the reader's accumulator below
    that position.  The two bytes are equal when the writer flushed right
    after the write and the position is not 0; at position 0 the writer's
    accumulator is 0, whatever byte the reader last fetched. *)
Theorem bit_boundary_positions_agree
    (pre post : list bool) (src dest : list Z) (nBits offset : Z) :
  0 <= offset < 8 -> 0 <= nBits ->
  offset + nBits <= 8 * Z.of_nat (length src) ->
  offset + nBits <= 8 * Z.of_nat (length dest) ->
  exists w r dest',
    write (write_bools writer_new pre) src nBits offset = Some w
    /\ read (snd (read_bools (length pre)
                   (reader_new
                      (ds_written (_underlying (flush (write_bools w post)))))))
            dest nBits offset = Some (r, dest')
    /\ _position r = _position w
    /\ _byte w = Z.land (_byte r) (Z.ones (_position w))
    /\ (post = [] -> _position w <> 0 -> _byte r = _byte w)
    /\ (_position w = 0 -> _byte w = 0).
Proof.
  intros Hoff Hbits _ Hdest.
  destruct (write_bools_spec pre writer_new writer_new_ok) as (Hok0 & _ & Hc0 & _).
  cbn zeta in *.
  destruct (write_loop_spec (Z.to_nat nBits) (write_bools writer_new pre) src 0
              nBits offset) as (w & Ew & Hok & _ & Hc & _); try assumption; try lia.
  rewrite Hc0 in Hc. cbn [writer_new Bitstream_new _underlying ds_written length
    _position] in Hc.
  destruct (write_bools_spec post w Hok) as (Hok1 & _ & _ & Hw1). cbn zeta in *.
  pose proof (wbits_flush _ Hok1) as Hf. rewrite Hw1, <- app_assoc in Hf.
  set (bs := ds_written (_underlying (flush (write_bools w post)))) in *.
  pose proof (wbits_length w Hok) as Hwl.
  assert (Hlen : Z.of_nat (length pre) + nBits <= 8 * Z.of_nat (length bs)).
  { apply (f_equal (@length bool)) in Hf.
    rewrite bytes_bits_length, length_app in Hf. lia. }
  destruct (read_bools_spec bs (length pre) 0 (reader_new bs) (reader_new_at bs)
              ltac:(lia)) as (_ & Hr0 & _).
  cbn zeta in Hr0. rewrite Z.add_0_l in Hr0.
  destruct (read_loop_spec (Z.to_nat nBits) bs (Z.of_nat (length pre))
              (snd (read_bools (length pre) (reader_new bs))) dest 0 nBits offset)
    as (r & dest' & Er & Hr & _); try assumption; try lia.
  exists w, r, dest'. split; [exact Ew|]. split; [exact Er|].
  replace (Z.of_nat (length pre) + nBits)
    with (8 * Z.of_nat (length (ds_written (_underlying w))) + _position w)
    in Hr by lia.
  destruct (cursor_match w bs _ r Hok Hf Hr) as (Hp & Hb & Hz).
  split; [exact Hp|]. split; [exact Hb|]. split; [|exact Hz].
  intros -> Hnz. apply cursor_match_flushed; assumption.
Qed.

Lemma bit_boundary_positions_agree_witness :
  (0 <= 0 < 8 /\ 0 <= 11)
  /\ exists w r dest',
    write (write_bools writer_new [true]) [0xFF; 0xFF] 11 0 = Some w
    /\ read (snd (read_bools (length [true])
                   (reader_new
                      (ds_written (_underlying
                         (flush (write_bools w [true; true])))))))
            [0; 0] 11 0 = Some (r, dest')
    /\ _position r = _position w
    /\ _byte w = Z.land (_byte r) (Z.ones (_position w))
    /\ ([true; true] = [] -> _position w <> 0 -> _byte r = _byte w)
    /\ (_position w = 0 -> _byte w = 0).
Proof.
  split; [lia|].
  apply (bit_boundary_positions_agree [true] [true; true] [0xFF; 0xFF] [0; 0] 11 0);
    cbn; lia.
Defined.



(** C3 — the IDStreamer contract.  The state is the width [_bits], 1 at
    construction.  [operator<<] emits exactly [_bits] bits, the low bits of
    the identifier, and increments [_bits] if and only if the identifier is
    (1 << _bits) - 1; [operator>>] consumes exactly [_bits] bits, returns
    the number they denote and increments [_bits] if and only if that
    number is (1 << _bits) - 1; [setBitsFromValue max] sets [_bits] to
    ceil(log2(max + 2)).  Consequently a writer and a reader that go
    through the same sequence of identifiers end with equal widths, and a
    reader fed the writer's output does go through the same sequence when
    every identifier fits the width in force. *)
Theorem IDStreamer_contract
    (st : IDStreamer) (id max : Z) (ids : list Z) (fuel : nat) :
  0 <= _bits st <= 31 -> -1 <= max < 2 ^ 31 - 1 -> (32 <= fuel)%nat ->
  _bits IDStreamer_new = 1
  /\ encodes (IDStreamer_shl st id)
             (tab (Z.testbit id) (Z.to_nat (_bits st)))
             (IDStreamer_advance st id)
  /\ (forall l, Z.of_nat (length l) = _bits st ->
        decodes (IDStreamer_shr st) l
                (bits_value l, IDStreamer_advance st (bits_value l)))
  /\ (forall v,
        (_bits (IDStreamer_advance st v) = _bits st + 1 <-> v = 2 ^ _bits st - 1)
        /\ (v <> 2 ^ _bits st - 1 -> _bits (IDStreamer_advance st v) = _bits st))
  /\ setBitsFromValue fuel st max = Some {| _bits := Z.log2_up (max + 2) |}
  /\ (forall sw sr stw w vals str r,
        IDStreamer_write_all st ids sw = Some (stw, w) ->
        IDStreamer_read_n (length ids) st sr = Some ((vals, str), r) ->
        vals = ids -> _bits str = _bits stw)
  /\ (ids_fit (_bits st) ids ->
        exists stw w str r,
          IDStreamer_write_all st ids writer_new = Some (stw, w)
          /\ IDStreamer_read_n (length ids) st
               (reader_new (ds_written (_underlying (flush w))))
             = Some ((ids, str), r)
          /\ _bits str = _bits stw).
Proof.
  intros Hb Hm Hfuel.
  split; [reflexivity|].
  split; [apply encodes_IDStreamer_shl; lia|].
  split; [intros l Hl; now apply decodes_IDStreamer_shr|].
  split.
  { intros v. rewrite IDStreamer_advance_bits by exact Hb.
    destruct (Z.eqb_spec v (2 ^ _bits st - 1)); split; try tauto; lia. }
  split; [now apply setBitsFromValue_spec|].
  split; [apply IDStreamer_same_sequence|].
  intros Hfit. destruct (ids_codec ids st Hfit) as (l & stf & He & Hd).
  destruct (end_to_end _ _ _ _ _ He Hd) as (w & Ew & r & Er).
  exists stf, w, stf, r. auto.
Qed.

Lemma IDStreamer_contract_witness :
  (0 <= _bits IDStreamer_new <= 31 /\ -1 <= 6 < 2 ^ 31 - 1 /\ (32 <= 40)%nat
   /\ ids_fit (_bits IDStreamer_new) [1; 3; 0; 2; 7; 5])
  /\ setBitsFromValue 40 IDStreamer_new 6 = Some {| _bits := 3 |}
  /\ exists stw w str r,
       IDStreamer_write_all IDStreamer_new [1; 3; 0; 2; 7; 5] writer_new
       = Some (stw, w)
       /\ IDStreamer_read_n (length [1; 3; 0; 2; 7; 5]) IDStreamer_new
            (reader_new (ds_written (_underlying (flush w))))
          = Some (([1; 3; 0; 2; 7; 5], str), r)
       /\ _bits str = _bits stw.
Proof.
  assert (Hb : 0 <= _bits IDStreamer_new <= 31) by (cbn; lia).
  assert (Hm : -1 <= 6 < 2 ^ 31 - 1) by lia.
  assert (Hf : (32 <= 40)%nat) by lia.
  assert (Hfit : ids_fit (_bits IDStreamer_new) [1; 3; 0; 2; 7; 5])
    by (vm_compute; repeat split; discriminate).
  split; [tauto|].
  destruct (IDStreamer_contract IDStreamer_new 1 6 [1; 3; 0; 2; 7; 5] 40 Hb Hm Hf)
    as (_ & _ & _ & _ & Hset & _ & Hseq).
  split; [exact Hset|]. exact (Hseq Hfit).
Defined.

(** ** Set deltas *)

Section SetToggle.
Context `{Countable T}.

Lemma toggle_spec (object : gset T) (value : T) :
  toggle object value = symmetric_difference object {[value]}.
Proof.
  unfold toggle, QSet_remove, QSet_insert, symmetric_difference.
  destruct (bool_decide_reflect (value ∈ object)); cbn; set_solver.
Qed.

Lemma toggle_all (xs : list T) : forall object : gset T,
  NoDup xs ->
  foldl toggle object xs = symmetric_difference object (list_to_set xs).
Proof.
  induction xs as [|x xs IH]; intros object Hnd; cbn [foldl list_to_set].
  - unfold symmetric_difference. set_solver.
  - apply NoDup_cons in Hnd as [Hx Hnd]. rewrite IH by exact Hnd.
    rewrite toggle_spec. unfold symmetric_difference.
    apply set_eq. intros y. set_unfold.
    destruct (decide (y = x)) as [->|Hne]; [|naive_solver].
    tauto.
Qed.

Lemma symmetric_difference_cancel (r v : gset T) :
  symmetric_difference r (symmetric_difference v r) = v.
Proof.
  unfold symmetric_difference. apply set_eq. intros y. set_unfold.
  destruct (decide (y ∈ r)), (decide (y ∈ v)); tauto.
Qed.

End SetToggle.

Section SetDelta.
Context `{Countable T}.
Variable write_elem : T -> M unit.
Variable read_elem : M T.
Variable enc : T -> list bool.

Lemma encodes_write_elements xs :
  (forall x, x ∈ xs -> encodes (write_elem x) (enc x) tt) ->
  encodes (write_elements write_elem xs) (elements_bits enc xs) tt.
Proof.
  induction xs as [|x xs IH]; intros Hx; cbn [write_elements].
  - apply encodes_ret.
  - unfold elements_bits. cbn [map concat].
    eapply encodes_bind; [apply Hx; left|].
    apply IH. intros y Hy. apply Hx. now right.
Qed.

Lemma decodes_set_loop (xs : list T) : forall object : gset T,
  (forall x, x ∈ xs -> decodes read_elem (enc x) x) ->
  decodes (readRawDelta_set_loop read_elem true (length xs) object)
          (elements_bits enc xs) (foldl toggle object xs).
Proof.
  induction xs as [|x xs IH]; intros object Hx;
    cbn [readRawDelta_set_loop length foldl].
  - apply decodes_ret.
  - unfold elements_bits. cbn [map concat].
    eapply decodes_bind; [apply Hx; left|].
    apply IH. intros y Hy. apply Hx. now right.
Qed.
End SetDelta.

(** C6 — set delta reconstruction.  For a reference set [R] and a new set
    [V], the delta written is the count of the symmetric difference of the
    two, as an [int], followed by each element of the symmetric difference
    in raw form; the reader, starting from [R], removes each element it
    reads if present and inserts it otherwise, and ends with [V], also end
    to end through a flushed byte stream.  With R = {a, b, c} and
    V = {a, c, d} the symmetric difference is {b, d}: count 2, elements b
    and d. *)
Theorem set_delta_reconstruction `{Countable T}
    (write_elem : T -> M unit) (read_elem : M T) (enc : T -> list bool)
    (R V : gset T) (a b c d : T) :
  (forall x, x ∈ symmetric_difference V R ->
     encodes (write_elem x) (enc x) tt /\ decodes read_elem (enc x) x) ->
  Z.of_nat (size (symmetric_difference V R)) < 2 ^ 31 ->
  NoDup [a; b; c; d] ->
  let D := symmetric_difference V R in
  let delta :=
    tab (Z.testbit (Z.of_nat (size D))) 32 ++ elements_bits enc (elements D) in
  encodes (writeRawDelta_QSet write_elem V R) delta tt
  /\ decodes (MappedSetTypeStreamer_readRawDelta read_elem true R) delta V
  /\ (exists w r,
        writeRawDelta_QSet write_elem V R writer_new = Some (tt, w)
        /\ MappedSetTypeStreamer_readRawDelta read_elem true R
             (reader_new (ds_written (_underlying (flush w)))) = Some (V, r))
  /\ foldl toggle R (elements D) = V
  /\ symmetric_difference ({[a; c; d]} : gset T) {[a; b; c]} = {[b; d]}
  /\ size (symmetric_difference ({[a; c; d]} : gset T) {[a; b; c]}) = 2%nat
  /\ toggle (toggle {[a; b; c]} b) d = {[a; c; d]}.
Proof.
  intros Hcodec Hsize Hnd D delta.
  assert (Hfold : foldl toggle R (elements D) = V).
  { rewrite (toggle_all (elements D) R (NoDup_elements D)).
    rewrite list_to_set_elements_L. apply symmetric_difference_cancel. }
  assert (He : encodes (writeRawDelta_QSet write_elem V R) delta tt).
  { unfold writeRawDelta_QSet. fold D. eapply encodes_bind; [apply encodes_int|].
    apply encodes_write_elements. intros x Hx.
    apply Hcodec. now apply elem_of_elements in Hx. }
  assert (Hd : decodes (MappedSetTypeStreamer_readRawDelta read_elem true R) delta V).
  { unfold MappedSetTypeStreamer_readRawDelta.
    eapply decodes_bind; [apply decodes_int; unfold D; lia|].
    rewrite Nat2Z.id.
    eapply decodes_ext; [|reflexivity|exact Hfold].
    apply (decodes_set_loop read_elem enc (elements D) R). intros x Hx.
    apply Hcodec. now apply elem_of_elements in Hx. }
  split; [exact He|]. split; [exact Hd|].
  split.
  { destruct (end_to_end _ _ _ _ _ He Hd) as (w & Ew & r & Er). exists w, r; split; [exact Ew|exact Er]. }
  split; [exact Hfold|].
  assert (Hab : a <> b /\ a <> c /\ a <> d /\ b <> c /\ b <> d /\ c <> d).
  { repeat match goal with
           | Hn : NoDup (_ :: _) |- _ => apply NoDup_cons in Hn as [? Hn]
           end.
    set_solver. }
  assert (Hsd : symmetric_difference ({[a; c; d]} : gset T) {[a; b; c]} = {[b; d]}).
  { unfold symmetric_difference. apply set_eq. intros y. set_unfold. naive_solver. }
  split; [exact Hsd|]. split.
  { rewrite Hsd. rewrite size_union by set_solver. now rewrite !size_singleton. }
  rewrite !toggle_spec. unfold symmetric_difference.
  apply set_eq. intros y. set_unfold. naive_solver.
Qed.

Lemma set_delta_reconstruction_witness :
  Z.of_nat (size (symmetric_difference ({[1; 3; 4]} : gset Z) {[1; 2; 3]})) = 2
  /\ NoDup [1; 2; 3; 4]
  /\ exists w r,
       writeRawDelta_QSet operator_shl_int ({[1; 3; 4]} : gset Z) {[1; 2; 3]}
         writer_new = Some (tt, w)
       /\ MappedSetTypeStreamer_readRawDelta operator_shr_int true
            ({[1; 2; 3]} : gset Z)
            (reader_new (ds_written (_underlying (flush w))))
          = Some ({[1; 3; 4]}, r).
Proof.
  assert (Hsize : Z.of_nat (size (symmetric_difference ({[1; 3; 4]} : gset Z)
                                    {[1; 2; 3]})) = 2) by (vm_compute; reflexivity).
  assert (Hnd : NoDup [1; 2; 3; 4])
    by (repeat (apply NoDup_cons; split; [set_solver|]); apply NoDup_nil_2).
  assert (Hcodec : forall x : Z,
    x ∈ symmetric_difference ({[1; 3; 4]} : gset Z) {[1; 2; 3]} ->
    encodes (operator_shl_int x) (tab (Z.testbit x) 32) tt
    /\ decodes operator_shr_int (tab (Z.testbit x) 32) x).
  { intros x Hx. split; [apply encodes_int|]. apply decodes_int.
    unfold symmetric_difference in Hx. set_unfold. lia. }
  assert (Hlt : Z.of_nat (size (symmetric_difference ({[1; 3; 4]} : gset Z)
                                  {[1; 2; 3]})) < 2 ^ 31) by (rewrite Hsize; lia).
  split; [exact Hsize|]. split; [exact Hnd|].
  destruct (set_delta_reconstruction operator_shl_int operator_shr_int
              (fun x => tab (Z.testbit x) 32)
              ({[1; 2; 3]} : gset Z) ({[1; 3; 4]} : gset Z) 1 2 3 4
              Hcodec Hlt Hnd) as (_ & _ & Hrun & _).
  exact Hrun.
Defined.

(** ** Byte arrays and descriptors *)

Lemma bits_value_bytes_bits bs :
  bytes_ok bs -> to_bytes (length bs) (bits_value (bytes_bits bs)) = bs.
Proof.
  intros Hok. apply buffer_ext; [apply to_bytes_ok|exact Hok|apply to_bytes_length|].
  intros i Hi. rewrite bufbit_to_bytes, testbit_bits_value by lia.
  destruct (Z.ltb_spec i (8 * Z.of_nat (length bs))); cbn [andb].
  - assert (Hk : bytes_bits bs !! Z.to_nat i = Some (bufbit bs i)).
    { rewrite bytes_bits_buf_bits. unfold buf_bits. rewrite tab_lookup by lia.
      do 2 f_equal. lia. }
    now apply nth_lookup_Some.
  - unfold bufbit. rewrite nth_overflow; [now rewrite Z.bits_0|].
    assert (Z.of_nat (length bs) <= i / 8) by (apply Z.div_le_lower_bound; lia).
    lia.
Qed.

Lemma encodes_write_bytes bs :
  encodes (write_m bs (Z.of_nat (length bs) * BITS_IN_BYTE) 0) (bytes_bits bs) tt.
Proof.
  eapply encodes_ext; [apply encodes_write; unfold BITS_IN_BYTE; lia| |reflexivity].
  rewrite bytes_bits_buf_bits. f_equal. unfold BITS_IN_BYTE. lia.
Qed.

Lemma decodes_read_bytes bs n :
  bytes_ok bs -> n = length bs ->
  decodes (read_m (replicate n 0) (Z.of_nat n * BITS_IN_BYTE) 0) (bytes_bits bs) bs.
Proof.
  intros Hok ->.
  pose proof (decodes_read_zero (length bs) (bytes_bits bs)) as Hd.
  rewrite bytes_bits_length in Hd. specialize (Hd ltac:(lia)).
  rewrite bits_value_bytes_bits in Hd by exact Hok.
  replace (Z.of_nat (length bs) * BITS_IN_BYTE) with (Z.of_nat (8 * length bs))
    by (unfold BITS_IN_BYTE; lia).
  exact Hd.
Qed.

Lemma encodes_QByteArray bs :
  encodes (operator_shl_QByteArray bs)
          (tab (Z.testbit (Z.of_nat (length bs))) 32 ++ bytes_bits bs) tt.
Proof.
  unfold operator_shl_QByteArray.
  eapply encodes_bind; [apply encodes_int|apply encodes_write_bytes].
Qed.

Lemma decodes_QByteArray bs :
  bytes_ok bs -> Z.of_nat (length bs) < 2 ^ 31 ->
  decodes operator_shr_QByteArray
          (tab (Z.testbit (Z.of_nat (length bs))) 32 ++ bytes_bits bs) bs.
Proof.
  intros Hok Hlen. unfold operator_shr_QByteArray.
  eapply decodes_bind; [apply decodes_int; lia|].
  cbv beta. rewrite Nat2Z.id. now apply decodes_read_bytes.
Qed.

Lemma encodes_lift {A} (x : A) : encodes (lift (Some x)) [] x.
Proof. apply (encodes_ret x). Qed.

Lemma decodes_lift {A} (x : A) : decodes (lift (Some x)) [] x.
Proof. apply (decodes_ret x). Qed.

Lemma encodes_write_low value bits :
  0 <= bits <= 32 ->
  encodes (write_m (to_bytes 4 value) bits 0)
          (tab (Z.testbit value) (Z.to_nat bits)) tt.
Proof.
  intros Hb. eapply encodes_ext; [apply encodes_write; lia| |reflexivity].
  apply buf_bits_to_bytes. lia.
Qed.

Lemma decodes_read_low value bits :
  0 <= bits <= 31 -> 0 <= value < 2 ^ bits ->
  decodes (let* data := read_m (to_bytes 4 0) bits 0 in ret (int32 (of_bytes data)))
          (tab (Z.testbit value) (Z.to_nat bits)) value.
Proof.
  intros Hb Hv.
  set (l0 := tab (Z.testbit value) (Z.to_nat bits)).
  assert (Hl : Z.of_nat (length l0) = bits) by (unfold l0; rewrite tab_length; lia).
  assert (Hval : bits_value l0 = value).
  { unfold l0. rewrite bits_value_tab, Z2Nat.id by lia. apply Z.mod_small. lia. }
  eapply decodes_ext; [eapply decodes_bind|..].
  - rewrite <- Hl. change (to_bytes 4 0) with (replicate 4 0).
    apply (decodes_read_zero 4 l0). lia.
  - apply decodes_ret.
  - now rewrite app_nil_r.
  - rewrite of_to_bytes. change (8 * Z.of_nat 4) with 32.
    rewrite int32_mod, Hval. apply int32_small.
    assert (2 ^ bits <= 2 ^ 31) by (apply Z.pow_le_mono_r; lia). lia.
Qed.

Lemma S3_hash_codec md5 :
  (forall d, length (md5 d) = 16%nat) -> (forall d, bytes_ok (md5 d)) ->
  md5 (enum_hash_data (getMetaEnum peer_Color))
    <> md5 (enum_hash_data (getMetaEnum local_Color)) ->
  exists l,
    encodes (peer_sends md5 HASH_METADATA 1) l tt
    /\ decodes (local_receives md5 HASH_METADATA) l
         (TypeReader.mapped name_Color (Some local_Color) 2 ∅, Some 0).
Proof.
  intros Hlen Hok Hne.
  set (hp := md5 (enum_hash_data (getMetaEnum peer_Color))) in *.
  set (hl := md5 (enum_hash_data (getMetaEnum local_Color))) in *.
  exists ((tab (Z.testbit 5) 32 ++ bytes_bits name_Color)
          ++ tab (Z.testbit ENUM_TYPE) 32
          ++ tab (Z.testbit 2) 32
          ++ bytes_bits hp
          ++ tab (Z.testbit 1) 2).
  split.
  - unfold peer_sends, operator_lt_TypeStreamer.
    cbv beta iota delta [peer_Color getName getReaderType getMetaEnum
      ENUM_TYPE SIMPLE_TYPE Z.eqb Pos.eqb EnumTypeStreamer_write].
    fold hp.
    change (EnumTypeStreamer_getBits _) with (Some 2).
    eapply encodes_ext; [|shelve|reflexivity].
    { eapply encodes_bind.
      + eapply encodes_bind; [apply (encodes_QByteArray name_Color)|].
        eapply encodes_bind; [apply encodes_int|].
        eapply encodes_bind; [apply encodes_lift|].
        eapply encodes_bind; [apply encodes_int|].
        apply encodes_write_bytes.
      + eapply encodes_bind; [apply encodes_lift|].
        apply (encodes_write_low 1 2). lia. }
    Unshelve. norm_app. reflexivity.
  - unfold local_receives, operator_gt_TypeReader.
    eapply decodes_ext; [|shelve|reflexivity].
    { eapply decodes_bind.
      + eapply decodes_bind.
        { apply (decodes_QByteArray name_Color); [|cbn; lia].
          unfold bytes_ok, name_Color. repeat constructor; lia. }
        cbv beta. rewrite bool_decide_eq_false_2 by discriminate.
        eapply decodes_bind; [apply (decodes_int ENUM_TYPE); unfold ENUM_TYPE; lia|].
        cbv beta.
        change (ENUM_TYPE =? SIMPLE_TYPE) with false.
        change (ENUM_TYPE =? ENUM_TYPE) with true.
        change (local_registry name_Color) with (Some local_Color).
        cbv iota beta.
        eapply decodes_bind; [apply (decodes_int 2); lia|].
        cbv beta.
        change (getReaderType local_Color =? ENUM_TYPE) with true. cbv iota.
        fold hl.
        eapply decodes_bind.
        { apply (decodes_read_bytes hp); [apply Hok|].
          unfold hl, hp. now rewrite !Hlen. }
        cbv beta. rewrite bool_decide_eq_false_2 by congruence.
        apply decodes_ret.
      + cbv beta. unfold TypeReader_read.
        cbv beta iota delta [TypeReader._exactMatch TypeReader._streamer
          TypeReader._type TypeReader._bits TypeReader._mappings TypeReader.mapped].
        change (ENUM_TYPE =? ENUM_TYPE) with true.
        change (getReaderType local_Color =? ENUM_TYPE) with true. cbv iota.
        eapply decodes_bind.
        { eapply decodes_bind.
          - change (to_bytes 4 0) with (replicate 4 0).
            apply (decodes_read_zero 4 (tab (Z.testbit 1) 2)). cbn. lia.
          - apply decodes_ret. }
        cbv beta. apply decodes_ret. }
    Unshelve. norm_app. reflexivity.
Qed.

(** C7 — scenario S3, enum schema remapping.  The peer declares
    Color {RED=0, GREEN=1, BLUE=2}, the local side {RED=0, BLUE=1, GREEN=2};
    the peer sends the descriptor of its enumeration and then GREEN, its
    value 1.  Under full metadata the reader is not an exact match, its map
    from peer values to local values, built from the names, is
    {0->0, 1->2, 2->1}, and the value decodes to 2, the local GREEN.  Under
    hash metadata, for every hash function with 16-byte results that tells
    the two declarations apart, the reader is not an exact match, keeps the
    peer's width with an empty map, and the value decodes to 0. *)
Theorem S3_enum_remap (md5 : list Z -> list Z) :
  (forall d, length (md5 d) = 16%nat) -> (forall d, bytes_ok (md5 d)) ->
  md5 (enum_hash_data (getMetaEnum peer_Color))
    <> md5 (enum_hash_data (getMetaEnum local_Color)) ->
  (exists w r,
     peer_sends md5 FULL_METADATA 1 writer_new = Some (tt, w)
     /\ local_receives md5 FULL_METADATA
          (reader_new (ds_written (_underlying (flush w))))
        = Some ((TypeReader.mapped name_Color (Some local_Color) 2
                   (<[0 := 0]> (<[1 := 2]> (<[2 := 1]> ∅))), Some 2), r))
  /\ (exists w r,
        peer_sends md5 HASH_METADATA 1 writer_new = Some (tt, w)
        /\ local_receives md5 HASH_METADATA
             (reader_new (ds_written (_underlying (flush w))))
           = Some ((TypeReader.mapped name_Color (Some local_Color) 2 ∅,
                    Some 0), r)).
Proof.
  intros Hlen Hok Hne. split.
  - eexists _, _. split.
    + vm_compute. reflexivity.
    + vm_compute. reflexivity.
  - destruct (S3_hash_codec md5 Hlen Hok Hne) as (l & He & Hd).
    destruct (end_to_end _ _ _ _ _ He Hd) as (w & Ew & r & Er).
    exists w, r; split; [exact Ew|exact Er].
Qed.

Lemma toy_hash_length d : length (toy_hash d) = 16%nat.
Proof.
  unfold toy_hash. rewrite length_take, length_app, length_replicate. lia.
Qed.

Lemma toy_hash_ok d : bytes_ok (toy_hash d).
Proof.
  unfold toy_hash, bytes_ok. apply Forall_take, Forall_app. split.
  - apply Forall_forall. intros x Hx. apply list_elem_of_In, in_map_iff in Hx.
    destruct Hx as (y & <- & _). apply quint8_range.
  - apply Forall_replicate. lia.
Qed.

Lemma S3_enum_remap_witness :
  toy_hash (enum_hash_data (getMetaEnum peer_Color))
    <> toy_hash (enum_hash_data (getMetaEnum local_Color))
  /\ (exists w r,
        peer_sends toy_hash FULL_METADATA 1 writer_new = Some (tt, w)
        /\ local_receives toy_hash FULL_METADATA
             (reader_new (ds_written (_underlying (flush w))))
           = Some ((TypeReader.mapped name_Color (Some local_Color) 2
                      (<[0 := 0]> (<[1 := 2]> (<[2 := 1]> ∅))), Some 2), r))
  /\ (exists w r,
        peer_sends toy_hash HASH_METADATA 1 writer_new = Some (tt, w)
        /\ local_receives toy_hash HASH_METADATA
             (reader_new (ds_written (_underlying (flush w))))
           = Some ((TypeReader.mapped name_Color (Some local_Color) 2 ∅,
                    Some 0), r)).
Proof.
  assert (Hne : toy_hash (enum_hash_data (getMetaEnum peer_Color))
                <> toy_hash (enum_hash_data (getMetaEnum local_Color)))
    by (vm_compute; discriminate).
  split; [exact Hne|].
  exact (S3_enum_remap toy_hash toy_hash_length toy_hash_ok Hne).
Defined.

(** C8, as stated, fails: for a valid variant whose type has no streamer,
    [operator<<] logs the warning and sends nothing, whereas the empty-type
    sentinel, [_typeStreamerStreamer << NULL], costs one bit on a fresh
    stream. *)
Lemma non_streamable_sentinel_counterexample :
  exists w w0 rvs0,
    operator_shl_QVariant (RepeatedValueStreamer_shl toy_hash FULL_METADATA)
      sample_registry RepeatedValueStreamer_new unregistered_variant writer_new
    = Some ((RepeatedValueStreamer_new,
             [Non_streamable_type (typeName unregistered_variant)]), w)
    /\ wbits w = []
    /\ RepeatedValueStreamer_shl toy_hash FULL_METADATA
         RepeatedValueStreamer_new None writer_new = Some (rvs0, w0)
    /\ wbits w0 = [false]
    /\ w <> w0.
Proof.
  eexists _, _, _. split; [reflexivity|]. split; [reflexivity|].
  split; [reflexivity|]. split; [reflexivity|]. discriminate.
Qed.

(** C8, amended — for every valid QVariant whose user type has no
    registered streamer, [operator<<] logs the warning "Non-streamable
    type" with the type's name and does nothing else: no bit is sent, the
    cursor and the table of interned type descriptors are left as they
    were. *)
Theorem non_streamable_type_warns_only {RVS : Type}
    (typeStreamerStreamer_shl : RVS -> option StreamerInfo -> M RVS)
    (getTypeStreamers : Z -> option RegisteredStreamer)
    (rvs : RVS) (value : QVariant) (s : Bitstream) :
  isValid value = true ->
  getTypeStreamers (userType value) = None ->
  operator_shl_QVariant typeStreamerStreamer_shl getTypeStreamers rvs value s
  = Some ((rvs, [Non_streamable_type (typeName value)]), s).
Proof.
  intros Hv Hn. unfold operator_shl_QVariant. now rewrite Hv, Hn.
Qed.

Lemma non_streamable_type_warns_only_witness :
  operator_shl_QVariant (RepeatedValueStreamer_shl toy_hash HASH_METADATA)
    sample_registry RepeatedValueStreamer_new unregistered_variant
    (write_bools writer_new [true; false])
  = Some ((RepeatedValueStreamer_new,
           [Non_streamable_type (typeName unregistered_variant)]),
          write_bools writer_new [true; false]).
Proof.
  apply (non_streamable_type_warns_only
           (RepeatedValueStreamer_shl toy_hash HASH_METADATA) sample_registry
           RepeatedValueStreamer_new unregistered_variant
           (write_bools writer_new [true; false])); reflexivity.
Defined.

(** ** Script values *)

Lemma decodes_readScriptValueType type :
  0 <= type < 16 ->
  decodes readScriptValueType (tab (Z.testbit type) 4) type.
Proof. intros Ht. apply (decodes_read_low type 4); lia. Qed.

Lemma encodes_writeScriptValueType type :
  encodes (writeScriptValueType type) (tab (Z.testbit type) 4) tt.
Proof. apply (encodes_write_low type 4). lia. Qed.

(** C1 — the round trip fails on script values that wrap a QObject.
    [operator<<] sends the tag QOBJECT_SCRIPT_VALUE and the object;
    [operator>>] reads the object back, builds the script value with
    [newQObject] and throws it away: the caller's variable keeps what it
    held.  In particular a default-constructed, invalid [QScriptValue] stays
    invalid, which is not the value sent.  This holds whatever the object
    codec is, as long as the reader can parse what the writer produced. *)
Theorem QObject_script_value_not_restored {QObject QMetaObject : Type}
    (shl_QVariant : QVariant -> M unit) (shr_QVariant : M QVariant)
    (shl_QObject : QObject -> M unit) (shr_QObject : M (option QObject))
    (shl_QMetaObject : QMetaObject -> M unit)
    (shr_QMetaObject : M (option QMetaObject))
    (shl_QScriptString : option (list Z) -> M unit)
    (shr_QScriptString : M (option (list Z)))
    (object : QObject) (received : option QObject) (l : list bool)
    (prior : QScriptValue QObject QMetaObject) (fuel : nat) :
  encodes (shl_QObject object) l tt ->
  decodes shr_QObject l received ->
  exists w r,
    operator_shl_QScriptValue QObject QMetaObject shl_QVariant shl_QObject
      shl_QMetaObject shl_QScriptString (QObject_value object) writer_new
    = Some (tt, w)
    /\ operator_shr_QScriptValue QObject QMetaObject shr_QVariant shr_QObject
         shr_QMetaObject shr_QScriptString (S fuel) prior
         (reader_new (ds_written (_underlying (flush w))))
       = Some (prior, r)
    /\ (Invalid_value : QScriptValue QObject QMetaObject) <> QObject_value object.
Proof.
  intros He Hd.
  assert (He' : encodes
    (operator_shl_QScriptValue QObject QMetaObject shl_QVariant shl_QObject
       shl_QMetaObject shl_QScriptString (QObject_value object))
    (tab (Z.testbit QOBJECT_SCRIPT_VALUE) 4 ++ l) tt).
  { cbn [operator_shl_QScriptValue].
    eapply encodes_bind; [apply encodes_writeScriptValueType|exact He]. }
  assert (Hd' : decodes
    (operator_shr_QScriptValue QObject QMetaObject shr_QVariant shr_QObject
       shr_QMetaObject shr_QScriptString (S fuel) prior)
    (tab (Z.testbit QOBJECT_SCRIPT_VALUE) 4 ++ l) prior).
  { cbn [operator_shr_QScriptValue].
    eapply decodes_bind.
    - apply decodes_readScriptValueType. unfold QOBJECT_SCRIPT_VALUE. lia.
    - cbv beta.
      change (QOBJECT_SCRIPT_VALUE =? UNDEFINED_SCRIPT_VALUE) with false.
      change (QOBJECT_SCRIPT_VALUE =? NULL_SCRIPT_VALUE) with false.
      change (QOBJECT_SCRIPT_VALUE =? BOOL_SCRIPT_VALUE) with false.
      change (QOBJECT_SCRIPT_VALUE =? NUMBER_SCRIPT_VALUE) with false.
      change (QOBJECT_SCRIPT_VALUE =? STRING_SCRIPT_VALUE) with false.
      change (QOBJECT_SCRIPT_VALUE =? VARIANT_SCRIPT_VALUE) with false.
      change (QOBJECT_SCRIPT_VALUE =? QOBJECT_SCRIPT_VALUE) with true.
      cbv iota.
      rewrite <- (app_nil_r l).
      eapply decodes_bind; [exact Hd|]. apply decodes_ret. }
  destruct (end_to_end _ _ _ _ _ He' Hd') as (w & Ew & r & Er).
  exists w, r. split; [exact Ew|]. split; [exact Er|]. discriminate.
Qed.

Lemma QObject_script_value_not_restored_witness :
  script_value_roundtrip 4 (QObject_value 7) = Some Invalid_value
  /\ exists w r,
       sample_shl_QScriptValue (QObject_value 7) writer_new = Some (tt, w)
       /\ sample_shr_QScriptValue 4 Invalid_value
            (reader_new (ds_written (_underlying (flush w))))
          = Some (Invalid_value, r)
       /\ (Invalid_value : QScriptValue Z Z) <> QObject_value 7.
Proof.
  split; [vm_compute; reflexivity|].
  assert (Hd : decodes sample_shr_handle (tab (Z.testbit 7) 32) (Some 7)).
  { unfold sample_shr_handle. rewrite <- (app_nil_r (tab _ _)).
    eapply decodes_bind; [apply decodes_int; lia|]. apply decodes_ret. }
  exact (QObject_script_value_not_restored sample_shl_QVariant sample_shr_QVariant
           sample_shl_handle sample_shr_handle sample_shl_handle sample_shr_handle
           sample_shl_QScriptString sample_shr_QScriptString
           7 (Some 7) (tab (Z.testbit 7) 32) Invalid_value 3
           (encodes_int 7) Hd).
Defined.

(** ** Script values that are restored *)

Lemma bind_assoc {A B C} (m : M A) (f : A -> M B) (g : B -> M C) s :
  bind (bind m f) g s = bind m (fun x => bind (f x) g) s.
Proof. unfold bind. destruct (m s) as [[x s']|]; reflexivity. Qed.

Lemma encodes_equiv {A} (W W' : M A) l x :
  (forall s, W' s = W s) -> encodes W l x -> encodes W' l x.
Proof. intros E H s Hs. rewrite E. exact (H s Hs). Qed.

Lemma round_trips_bind {A B} (W1 W2 : M unit) (R1 : M A) (R2 : A -> M B) x y :
  round_trips W1 R1 x -> round_trips W2 (R2 x) y ->
  round_trips (let* _ := W1 in W2) (bind R1 R2) y.
Proof.
  intros (l1 & E1 & D1) (l2 & E2 & D2). exists (l1 ++ l2). split.
  - eapply encodes_bind; [exact E1|exact E2].
  - eapply decodes_bind; [exact D1|exact D2].
Qed.

Lemma round_trips_ret {A} (x : A) : round_trips (ret tt) (ret x) x.
Proof. exists []. split; [apply encodes_ret|apply decodes_ret]. Qed.

Lemma round_trips_map {A B} (W : M unit) (R : M A) (f : A -> B) x :
  round_trips W R x -> round_trips W (let* y := R in ret (f y)) (f x).
Proof.
  intros (l & E & D). exists l. split; [exact E|].
  rewrite <- (app_nil_r l). eapply decodes_bind; [exact D|apply decodes_ret].
Qed.

Lemma round_trips_then {A B} (W : M unit) (R1 : M A) (R2 : A -> M B) x y :
  round_trips W R1 x -> R2 x = ret y -> round_trips W (bind R1 R2) y.
Proof.
  intros (l & E & D) H. exists l. split; [exact E|].
  rewrite <- (app_nil_r l). eapply decodes_bind; [exact D|].
  rewrite H. apply decodes_ret.
Qed.

Lemma round_trips_skip {A} (W : M unit) (R : M A) x :
  round_trips W R x -> round_trips (let* _ := ret tt in W) R x.
Proof.
  intros (l & E & D). exists l. split; [|exact D].
  change l with ([] ++ l). eapply encodes_bind; [apply encodes_ret|exact E].
Qed.

Lemma round_trips_assoc {A} (W1 W2 W3 : M unit) (R : M A) x :
  round_trips (let* _ := W1 in let* _ := W2 in W3) R x ->
  round_trips (let* _ := (let* _ := W1 in W2) in W3) R x.
Proof.
  intros (l & E & D). exists l. split; [|exact D].
  eapply encodes_equiv; [|exact E]. intros s. apply bind_assoc.
Qed.

Lemma round_trips_end_to_end {A} (W : M unit) (R : M A) x :
  round_trips W R x ->
  exists w r, W writer_new = Some (tt, w)
    /\ R (reader_new (ds_written (_underlying (flush w)))) = Some (x, r).
Proof.
  intros (l & E & D).
  destruct (end_to_end _ _ _ _ _ E D) as (w & Ew & r & Er).
  exists w, r. split; [exact Ew|exact Er].
Qed.

Lemma round_trips_bool b : round_trips (write_bool_m b) read_bool_m b.
Proof. exists [b]. split; [apply encodes_write_bool|apply decodes_read_bool]. Qed.

Lemma round_trips_int value :
  - 2 ^ 31 <= value < 2 ^ 31 ->
  round_trips (operator_shl_int value) operator_shr_int value.
Proof.
  intros H. exists (tab (Z.testbit value) 32).
  split; [apply encodes_int|now apply decodes_int].
Qed.

Lemma round_trips_ScriptValueType type :
  0 <= type < 16 ->
  round_trips (writeScriptValueType type) readScriptValueType type.
Proof.
  intros H. exists (tab (Z.testbit type) 4).
  split; [apply encodes_writeScriptValueType|now apply decodes_readScriptValueType].
Qed.

Lemma round_trips_8_bytes value :
  round_trips (write_m (to_bytes 8 value) 64 0) (read_m (replicate 8 0) 64 0)
    (to_bytes 8 value).
Proof.
  exists (tab (Z.testbit value) 64). split.
  - eapply encodes_ext; [apply encodes_write; lia| |reflexivity].
    now apply (buf_bits_to_bytes 8 value 64).
  - eapply decodes_ext;
      [apply (decodes_read_zero 8 (tab (Z.testbit value) 64));
       rewrite tab_length; lia|reflexivity|].
    apply buffer_ext; [apply to_bytes_ok|apply to_bytes_ok
                      |now rewrite !to_bytes_length|].
    intros i Hi. rewrite !bufbit_to_bytes by lia.
    destruct (Z.ltb_spec i (8 * Z.of_nat 8)); [|reflexivity]. cbn [andb].
    rewrite bits_value_tab. apply Z.mod_pow2_bits_low. lia.
Qed.

Lemma round_trips_double bits :
  0 <= bits < 2 ^ 64 ->
  round_trips (operator_shl_double bits) operator_shr_double bits.
Proof.
  intros H. unfold operator_shl_double, operator_shr_double.
  replace bits with (of_bytes (to_bytes 8 bits)) at 2.
  - apply round_trips_map, round_trips_8_bytes.
  - rewrite of_to_bytes. apply Z.mod_small. change (8 * Z.of_nat 8) with 64. lia.
Qed.

Lemma round_trips_qint64 value :
  - 2 ^ 63 <= value < 2 ^ 63 ->
  round_trips (operator_shl_qint64 value) operator_shr_qint64 value.
Proof.
  intros H. unfold operator_shl_qint64, operator_shr_qint64.
  replace value with (int64 (of_bytes (to_bytes 8 value))) at 2.
  - apply (round_trips_map _ _ (fun data => int64 (of_bytes data))),
      round_trips_8_bytes.
  - rewrite of_to_bytes. change (8 * Z.of_nat 8) with 64. unfold int64.
    rewrite Zplus_mod_idemp_l. rewrite Z.mod_small by lia. lia.
Qed.

Lemma QString_data_length string :
  length (QString_data string) = (2 * length string)%nat.
Proof.
  unfold QString_data. induction string as [|u string IH]; [reflexivity|].
  cbn [flat_map]. rewrite length_app, to_bytes_length, IH. cbn [length]. lia.
Qed.

Lemma QString_data_ok string : bytes_ok (QString_data string).
Proof.
  induction string as [|u string IH]; [constructor|].
  unfold QString_data. cbn [flat_map]. apply Forall_app. split; [apply to_bytes_ok|exact IH].
Qed.

Lemma QString_of_data_data string :
  Forall (fun unit => 0 <= unit < 65536) string ->
  QString_of_data (QString_data string) = string.
Proof.
  induction 1 as [|u string Hu _ IH]; [reflexivity|].
  unfold QString_data in *. cbn [flat_map].
  change (to_bytes 2 u) with [Z.land u 255; Z.land (Z.shiftr u 8) 255].
  cbn [app QString_of_data]. rewrite IH. f_equal.
  change (of_bytes (to_bytes 2 u) = u). rewrite of_to_bytes.
  apply Z.mod_small. change (2 ^ (8 * Z.of_nat 2)) with 65536. lia.
Qed.

Lemma round_trips_QString string :
  string_ok string ->
  round_trips (operator_shl_QString string) operator_shr_QString string.
Proof.
  intros [Hlen Hu]. unfold operator_shl_QString, operator_shr_QString.
  apply (round_trips_bind _ _ _ _ (Z.of_nat (length string)));
    [apply round_trips_int; lia|].
  cbv beta.
  assert (H : round_trips
    (write_m (QString_data string) (Z.of_nat (length string) * 2 * BITS_IN_BYTE) 0)
    (read_m (replicate (Z.to_nat (Z.of_nat (length string) * 2)) 0)
       (Z.of_nat (length string) * 2 * BITS_IN_BYTE) 0)
    (QString_data string)).
  { exists (bytes_bits (QString_data string)).
    replace (Z.of_nat (length string) * 2)
      with (Z.of_nat (length (QString_data string)))
      by (rewrite QString_data_length; lia).
    split; [apply encodes_write_bytes|].
    rewrite Nat2Z.id. apply decodes_read_bytes; [apply QString_data_ok|reflexivity]. }
  apply (round_trips_map _ _ QString_of_data) in H.
  now rewrite (QString_of_data_data string Hu) in H.
Qed.

Lemma round_trips_low value bits :
  0 <= bits <= 31 -> 0 <= value < 2 ^ bits ->
  exists data,
    round_trips (write_m (to_bytes 4 value) bits 0) (read_m (to_bytes 4 0) bits 0) data
    /\ int32 (of_bytes data) = value.
Proof.
  intros Hb Hv.
  set (l0 := tab (Z.testbit value) (Z.to_nat bits)).
  assert (Hl : Z.of_nat (length l0) = bits) by (unfold l0; rewrite tab_length; lia).
  assert (Hval : bits_value l0 = value).
  { unfold l0. rewrite bits_value_tab, Z2Nat.id by lia. apply Z.mod_small. lia. }
  exists (to_bytes 4 (bits_value l0)). split.
  - exists l0. split; [apply encodes_write_low; lia|].
    rewrite <- Hl. change (to_bytes 4 0) with (replicate 4 0).
    apply (decodes_read_zero 4 l0). lia.
  - rewrite of_to_bytes. change (8 * Z.of_nat 4) with 32.
    rewrite int32_mod, Hval. apply int32_small.
    assert (2 ^ bits <= 2 ^ 31) by (apply Z.pow_le_mono_r; lia). lia.
Qed.

Lemma write_elements_cons {T} (write_elem : T -> M unit) x xs :
  write_elements write_elem (x :: xs)
  = let* _ := write_elem x in write_elements write_elem xs.
Proof. reflexivity. Qed.


Section RestoredScriptValues.
Context {QObject QMetaObject : Type}.

Local Abbreviation value := (QScriptValue QObject QMetaObject).

Lemma setProperty_fresh (properties : list (list Z * value)) name scriptValue :
  name ∉ map fst properties -> scriptValue <> Invalid_value ->
  setProperty QObject QMetaObject properties name scriptValue
  = properties ++ [(name, scriptValue)].
Proof.
  intros Hn Hv. unfold setProperty.
  replace (filter (fun p => fst p <> name) properties) with properties.
  - destruct scriptValue; congruence.
  - induction properties as [|p ps IH]; [reflexivity|].
    cbn [map] in Hn. apply not_elem_of_cons in Hn as [Hp Hps].
    rewrite filter_cons_True by congruence. f_equal. now apply IH.
Qed.

Lemma round_trips_QRegExp pattern caseSensitivity syntax minimal :
  string_ok pattern -> 0 <= caseSensitivity < 2 -> 0 <= syntax < 8 ->
  round_trips (operator_shl_QRegExp pattern caseSensitivity syntax minimal)
    (operator_shr_QRegExp QObject QMetaObject)
    (RegExp_value pattern caseSensitivity syntax minimal).
Proof.
  intros Hp Hc Hx. unfold operator_shl_QRegExp, operator_shr_QRegExp.
  destruct (round_trips_low caseSensitivity 1) as (cs & Hcs & Ecs); [lia|lia|].
  destruct (round_trips_low syntax 3) as (sx & Hsx & Esx); [lia|lia|].
  apply (round_trips_bind _ _ _ _ pattern); [now apply round_trips_QString|].
  apply (round_trips_bind _ _ _ _ cs); [exact Hcs|].
  apply (round_trips_bind _ _ _ _ sx); [exact Hsx|].
  cbv beta. rewrite Ecs, Esx.
  apply (round_trips_map _ _ (RegExp_value pattern caseSensitivity syntax)),
    round_trips_bool.
Qed.
End RestoredScriptValues.

Lemma round_trips_QByteArray bs :
  bytes_ok bs -> Z.of_nat (length bs) < 2 ^ 31 ->
  round_trips (operator_shl_QByteArray bs) operator_shr_QByteArray bs.
Proof.
  intros Hok Hlen.
  exists (tab (Z.testbit (Z.of_nat (length bs))) 32 ++ bytes_bits bs).
  split; [apply encodes_QByteArray|now apply decodes_QByteArray].
Qed.

Lemma sample_variant_codec variant :
  sample_variant_ok variant ->
  round_trips (sample_shl_QVariant variant) sample_shr_QVariant variant.
Proof.
  destruct variant as [valid type name data].
  intros (Hvalid & Htype & Hname & Hnl & Hdata & Hdl). cbn in *. subst valid.
  unfold sample_shl_QVariant, sample_shr_QVariant. cbn [userType typeName content].
  apply (round_trips_bind _ _ _ _ type); [now apply round_trips_int|].
  apply (round_trips_bind _ _ _ _ name); [now apply round_trips_QByteArray|].
  apply (round_trips_map _ _
           (fun data => {| isValid := true; userType := type;
                           typeName := name; content := data |})).
  now apply round_trips_QByteArray.
Qed.

Lemma sample_name_codec name :
  sample_name_ok name ->
  round_trips (sample_shl_QScriptString (Some name)) sample_shr_QScriptString
    (Some name).
Proof.
  intros [Hok Hlen]. unfold sample_shl_QScriptString, sample_shr_QScriptString.
  apply (round_trips_bind _ _ _ _ true); [apply round_trips_bool|].
  cbv beta iota. apply (round_trips_map _ _ Some). now apply round_trips_QByteArray.
Qed.

Lemma sample_invalid_name_codec :
  round_trips (sample_shl_QScriptString None) sample_shr_QScriptString None.
Proof.
  unfold sample_shl_QScriptString, sample_shr_QScriptString.
  apply (round_trips_then _ _ _ false); [apply round_trips_bool|reflexivity].
Qed.

(** ** Delta encoding *)

(** C2, as stated, fails in four ways.  The bool overload: with value and
    reference both true, [Bitstream::writeDelta(bool, bool)] emits one bit,
    and that bit is 1.  The base class: [TypeStreamer::writeRawDelta] writes
    nothing and [TypeStreamer::readRawDelta] assigns the reference, so the
    delta of 5 against 3 is the one bit 1 and is read back as 3.
    [EnumTypeStreamer]: the delta of the integer 0 against an invalid
    reference is the one bit 0 and is read back as the invalid reference;
    and the delta of 5, which does not fit the two bits of the
    enumeration, is read back as 1. *)
Lemma delta_correctness_counterexample :
  (exists w,
     Bitstream_writeDelta_bool true true writer_new = Some (tt, w)
     /\ wbits w = [true]
     /\ ds_written (_underlying (flush w)) = [1]
     /\ wbits w <> [false])
  /\ (exists w r,
        TypeStreamer_writeDelta Z.eqb (base_TypeStreamer Z) 5 3 writer_new
        = Some (tt, w)
        /\ wbits w = [true]
        /\ TypeStreamer_readDelta (base_TypeStreamer Z) 0 3
             (reader_new (ds_written (_underlying (flush w)))) = Some (3, r)
        /\ 3 <> 5)
  /\ (exists w r,
        EnumTypeStreamer_writeDelta two_bit_enum (Some 0) None writer_new
        = Some (tt, w)
        /\ wbits w = [false]
        /\ EnumTypeStreamer_readDelta two_bit_enum None
             (reader_new (ds_written (_underlying (flush w)))) = Some (None, r)
        /\ None <> Some 0)
  /\ (exists w r,
        EnumTypeStreamer_writeDelta two_bit_enum (Some 5) (Some 0) writer_new
        = Some (tt, w)
        /\ EnumTypeStreamer_readDelta two_bit_enum (Some 0)
             (reader_new (ds_written (_underlying (flush w)))) = Some (Some 1, r)
        /\ Some 1 <> Some 5).
Proof.
  split; [|split; [|split]].
  - eexists. split; [reflexivity|]. split; [reflexivity|]. split; [reflexivity|].
    discriminate.
  - eexists. eexists. split; [reflexivity|]. split; [reflexivity|].
    split; [reflexivity|]. discriminate.
  - eexists. eexists. split; [reflexivity|]. split; [reflexivity|].
    split; [reflexivity|]. discriminate.
  - eexists. eexists. split; [reflexivity|]. split; [reflexivity|]. discriminate.
Qed.

Lemma decodes_flag {A} (flag : bool) (R : bool -> M A) l x :
  decodes (R flag) l x ->
  decodes (let* changed := read_bool_m in R changed) (flag :: l) x.
Proof.
  intros H. change (flag :: l) with ([flag] ++ l).
  eapply decodes_bind; [apply decodes_read_bool|exact H].
Qed.

Lemma encodes_flag (flag : bool) (W : M unit) l :
  encodes W l tt -> encodes (let* _ := write_bool_m flag in W) (flag :: l) tt.
Proof.
  intros H. change (flag :: l) with ([flag] ++ l).
  eapply encodes_bind; [apply encodes_write_bool|exact H].
Qed.

Lemma decodes_some {A B} (R : M A) (f : A -> B) l x :
  decodes (let* y := R in ret (f y)) l x ->
  decodes (let* y := R in ret (Some (f y))) l (Some x).
Proof.
  intros H bs c s Hr Hlen Hb.
  destruct (H bs c s Hr Hlen Hb) as (s' & E & Hs). exists s'. split; [|exact Hs].
  unfold bind, ret in *. destruct (R s) as [[y s1]|]; [|discriminate].
  now injection E as -> ->.
Qed.

Section DeltaCorrectness.
Context {QVariant : Type}.
Variable equals : QVariant -> QVariant -> bool.
Variable ts : TypeStreamer QVariant.

Lemma TypeStreamer_delta_unchanged (v ref prior : QVariant) :
  equals v ref = true ->
  encodes (TypeStreamer_writeDelta equals ts v ref) [false] tt
  /\ decodes (TypeStreamer_readDelta ts prior ref) [false] ref.
Proof.
  intros He. unfold TypeStreamer_writeDelta, TypeStreamer_readDelta. rewrite He.
  split; [apply encodes_write_bool|]. apply decodes_flag, decodes_ret.
Qed.

Lemma TypeStreamer_delta_changed (v ref prior x : QVariant) l :
  equals v ref = false ->
  encodes (writeRawDelta ts v ref) l tt ->
  decodes (readRawDelta ts prior ref) l x ->
  encodes (TypeStreamer_writeDelta equals ts v ref) (true :: l) tt
  /\ decodes (TypeStreamer_readDelta ts prior ref) (true :: l) x.
Proof.
  intros He Hw Hr. unfold TypeStreamer_writeDelta, TypeStreamer_readDelta.
  rewrite He. split; [now apply encodes_flag|now apply decodes_flag].
Qed.
End DeltaCorrectness.

Lemma base_TypeStreamer_delta {QVariant : Type}
    (equals : QVariant -> QVariant -> bool) (v ref prior : QVariant) :
  encodes (TypeStreamer_writeDelta equals (base_TypeStreamer QVariant) v ref)
          [negb (equals v ref)] tt
  /\ decodes (TypeStreamer_readDelta (base_TypeStreamer QVariant) prior ref)
             [negb (equals v ref)] ref.
Proof.
  destruct (equals v ref) eqn:He; cbn [negb].
  - now apply TypeStreamer_delta_unchanged.
  - apply TypeStreamer_delta_changed; [exact He|apply encodes_ret|apply decodes_ret].
Qed.

Lemma EnumTypeStreamer_delta_roundtrip (metaEnum : QMetaEnum) bits
    (v ref : option Z) :
  EnumTypeStreamer_getBits metaEnum = Some bits ->
  0 <= bits <= 31 -> 0 <= toInt v < 2 ^ bits ->
  exists l r,
    encodes (EnumTypeStreamer_writeDelta metaEnum v ref) l tt
    /\ decodes (EnumTypeStreamer_readDelta metaEnum ref) l r
    /\ toInt r = toInt v
    /\ (toInt v = toInt ref -> l = [false] /\ r = ref)
    /\ (toInt v <> toInt ref ->
        l = true :: tab (Z.testbit (toInt v)) (Z.to_nat bits)
        /\ r = Some (toInt v)).
Proof.
  intros Hbits Hb Hv. unfold EnumTypeStreamer_writeDelta, EnumTypeStreamer_readDelta.
  cbv zeta. rewrite Hbits.
  destruct (Z.eqb_spec (toInt v) (toInt ref)) as [He|Hne].
  - exists [false], ref. split; [apply encodes_write_bool|].
    split; [apply decodes_flag, decodes_ret|]. split; [now symmetry|].
    split; [now split|]. intros H. now destruct H.
  - exists (true :: tab (Z.testbit (toInt v)) (Z.to_nat bits)), (Some (toInt v)).
    split; [|split; [|split; [reflexivity|split; [intros H; now destruct Hne|easy]]]].
    + apply encodes_flag.
      change (tab (Z.testbit (toInt v)) (Z.to_nat bits))
        with ([] ++ tab (Z.testbit (toInt v)) (Z.to_nat bits)).
      eapply encodes_bind; [apply encodes_lift|]. apply encodes_write_low. lia.
    + apply decodes_flag. cbv iota.
      change (tab (Z.testbit (toInt v)) (Z.to_nat bits))
        with ([] ++ tab (Z.testbit (toInt v)) (Z.to_nat bits)).
      eapply decodes_bind; [apply decodes_lift|]. cbv beta.
      apply (decodes_some _ (fun data => int32 (of_bytes data))).
      now apply decodes_read_low.
Qed.

(** C2, amended — delta correctness.  [TypeStreamer::writeDelta] emits the
    one bit 0 when [value == reference], and [readDelta] then returns the
    reference; otherwise it emits the bit 1 followed by what the streamer's
    [writeRawDelta] emits, and [readDelta] returns what the streamer's
    [readRawDelta] reads from it, also end to end through a flushed byte
    stream: the value, for a streamer whose raw delta restores it, but the
    reference for the base class, which writes nothing and assigns the
    reference.  [EnumTypeStreamer] compares the integers: for a value that
    fits its width [readDelta] returns a variant with the same integer,
    the reference itself, after the one bit 0, when the integers are
    equal.  The bool overload ignores the reference: it always emits
    exactly one bit, the value itself, which [readDelta] returns. *)
Theorem delta_correctness {QVariant : Type}
    (equals : QVariant -> QVariant -> bool)
    (ts : TypeStreamer QVariant) (v ref prior x : QVariant) (l : list bool)
    (metaEnum : QMetaEnum) (bits : Z) (ev eref : option Z) (b bref : bool) :
  EnumTypeStreamer_getBits metaEnum = Some bits ->
  0 <= bits <= 31 -> 0 <= toInt ev < 2 ^ bits ->
  (equals v ref = true ->
   encodes (TypeStreamer_writeDelta equals ts v ref) [false] tt
   /\ decodes (TypeStreamer_readDelta ts prior ref) [false] ref)
  /\ (equals v ref = false ->
      encodes (writeRawDelta ts v ref) l tt ->
      decodes (readRawDelta ts prior ref) l x ->
      encodes (TypeStreamer_writeDelta equals ts v ref) (true :: l) tt
      /\ decodes (TypeStreamer_readDelta ts prior ref) (true :: l) x
      /\ exists w r,
           TypeStreamer_writeDelta equals ts v ref writer_new = Some (tt, w)
           /\ TypeStreamer_readDelta ts prior ref
                (reader_new (ds_written (_underlying (flush w)))) = Some (x, r))
  /\ (encodes (TypeStreamer_writeDelta equals (base_TypeStreamer QVariant) v ref)
              [negb (equals v ref)] tt
      /\ decodes (TypeStreamer_readDelta (base_TypeStreamer QVariant) prior ref)
                 [negb (equals v ref)] ref)
  /\ (exists l' r,
        encodes (EnumTypeStreamer_writeDelta metaEnum ev eref) l' tt
        /\ decodes (EnumTypeStreamer_readDelta metaEnum eref) l' r
        /\ toInt r = toInt ev
        /\ (toInt ev = toInt eref -> l' = [false] /\ r = eref)
        /\ (toInt ev <> toInt eref ->
            l' = true :: tab (Z.testbit (toInt ev)) (Z.to_nat bits)
            /\ r = Some (toInt ev)))
  /\ encodes (Bitstream_writeDelta_bool b bref) [b] tt
  /\ decodes (Bitstream_readDelta_bool bref) [b] b.
Proof.
  intros Hbits Hb Hev.
  split; [intros He; now apply TypeStreamer_delta_unchanged|].
  split.
  { intros He Hw Hr.
    destruct (TypeStreamer_delta_changed equals ts v ref prior x l He Hw Hr)
      as [Hw' Hr'].
    split; [exact Hw'|]. split; [exact Hr'|].
    destruct (end_to_end _ _ _ _ _ Hw' Hr') as (w & Ew & r & Er).
    exists w, r. split; [exact Ew|exact Er]. }
  split; [apply base_TypeStreamer_delta|].
  split; [now apply EnumTypeStreamer_delta_roundtrip|].
  split; [apply encodes_write_bool|apply decodes_read_bool].
Qed.

Lemma delta_correctness_witness :
  (exists w r,
     TypeStreamer_writeDelta Z.eqb int_TypeStreamer 5 3 writer_new = Some (tt, w)
     /\ TypeStreamer_readDelta int_TypeStreamer 0 3
          (reader_new (ds_written (_underlying (flush w)))) = Some (5, r))
  /\ (encodes (TypeStreamer_writeDelta Z.eqb int_TypeStreamer 3 3) [false] tt
      /\ decodes (TypeStreamer_readDelta int_TypeStreamer 0 3) [false] 3)
  /\ (exists l' r,
        encodes (EnumTypeStreamer_writeDelta two_bit_enum (Some 2) (Some 0)) l' tt
        /\ decodes (EnumTypeStreamer_readDelta two_bit_enum (Some 0)) l' r
        /\ r = Some 2)
  /\ encodes (Bitstream_writeDelta_bool true true) [true] tt.
Proof.
  assert (Hbits : EnumTypeStreamer_getBits two_bit_enum = Some 2) by reflexivity.
  assert (Hb : 0 <= 2 <= 31) by lia.
  assert (Hev : 0 <= toInt (Some 2) < 2 ^ 2) by (cbn; lia).
  destruct (delta_correctness Z.eqb int_TypeStreamer 5 3 0 5
              (tab (Z.testbit 5) 32) two_bit_enum 2 (Some 2) (Some 0) true true
              Hbits Hb Hev)
    as (_ & Hchanged & _ & (l' & r & Hw & Hr & _ & _ & Hne) & Hbool & _).
  destruct (delta_correctness Z.eqb int_TypeStreamer 3 3 0 3
              [] two_bit_enum 2 (Some 2) (Some 0) true true Hbits Hb Hev)
    as (Hsame & _).
  split.
  { destruct (Hchanged eq_refl (encodes_int 5) (decodes_int 5 ltac:(lia)))
      as (_ & _ & Hrun). exact Hrun. }
  split; [exact (Hsame eq_refl)|].
  split; [|exact Hbool].
  exists l', r. split; [exact Hw|]. split; [exact Hr|].
  now destruct Hne as [_ ->]; [cbn; lia|].
Defined.

(** * Further properties *)
(** ** The typed operators *)

Lemma decodes_read_over data l :
  bytes_ok data -> length l = (8 * length data)%nat ->
  decodes (read_m data (Z.of_nat (length l)) 0) l
          (to_bytes (length data) (bits_value l)).
Proof.
  intros Hok Hm bs c s Hr Hlen Hb. unfold read_m, read.
  destruct (read_loop_spec (Z.to_nat (Z.of_nat (length l))) bs c s
              data 0 (Z.of_nat (length l)) 0)
    as (s' & data' & E & Hr' & Hw' & Hl' & Hok' & Hbit');
    try assumption; try lia.
  rewrite E. exists s'. split; [|split; assumption].
  do 2 f_equal. apply buffer_ext.
  - apply Hok'. exact Hok.
  - apply to_bytes_ok.
  - now rewrite Hl', to_bytes_length.
  - intros i Hi. rewrite Hbit', bufbit_to_bytes by lia.
    change (8 * Z.of_nat 0 + 0) with 0. rewrite Z.add_0_l.
    rewrite testbit_bits_value by lia.
    destruct (Z.leb_spec 0 i); [|lia].
    destruct (Z.ltb_spec i (Z.of_nat (length l))); cbn [andb].
    + destruct (Z.ltb_spec i (8 * Z.of_nat (length data))); [|lia]. cbn [andb].
      replace (c + (i - 0)) with (c + Z.of_nat (Z.to_nat i)) by lia.
      assert (Hk : buf_bits bs c (length l) !! Z.to_nat i
                   = Some (bufbit bs (c + Z.of_nat (Z.to_nat i))))
        by (unfold buf_bits; rewrite tab_lookup by lia; reflexivity).
      rewrite Hb in Hk. symmetry. now apply nth_lookup_Some.
    + destruct (Z.ltb_spec i (8 * Z.of_nat (length data))); [lia|]. cbn [andb].
      unfold bufbit. rewrite nth_overflow; [now rewrite Z.bits_0|].
      assert (Z.of_nat (length data) <= i / 8) by (apply Z.div_le_lower_bound; lia).
      lia.
Qed.

Lemma encodes_word value :
  encodes (write_m (to_bytes 4 value) 32 0) (tab (Z.testbit value) 32) tt.
Proof.
  eapply encodes_ext; [apply encodes_write; lia| |reflexivity].
  now apply (buf_bits_to_bytes 4 value 32).
Qed.

Lemma decodes_word prior value :
  0 <= value < 2 ^ 32 ->
  decodes (let* data := read_m (to_bytes 4 prior) 32 0 in ret (of_bytes data))
          (tab (Z.testbit value) 32) value.
Proof.
  intros Hv.
  eapply decodes_ext; [eapply decodes_bind|..].
  - apply (decodes_read_over (to_bytes 4 prior) (tab (Z.testbit value) 32));
      [apply to_bytes_ok|reflexivity].
  - apply decodes_ret.
  - now rewrite app_nil_r.
  - rewrite to_bytes_length, of_to_bytes, bits_value_tab.
    change (8 * Z.of_nat 4) with 32. change (Z.of_nat 32) with 32.
    rewrite Z.mod_mod by lia. apply Z.mod_small. exact Hv.
Qed.

(** X1 — [operator<<(int)] sends the 32 bits of the two's complement
    representation, least significant first, wherever the cursor stands;
    [operator>>(int&)] reads any such run back as the same [int], negative
    values included. *)
Theorem int_wire_format (value : Z) :
  - 2 ^ 31 <= value < 2 ^ 31 ->
  encodes (operator_shl_int value) (tab (Z.testbit value) 32) tt
  /\ decodes operator_shr_int (tab (Z.testbit value) 32) value.
Proof. intros H. split; [apply encodes_int|now apply decodes_int]. Qed.

Lemma int_wire_format_witness :
  - 2 ^ 31 <= -5 < 2 ^ 31
  /\ encodes (operator_shl_int (-5)) (tab (Z.testbit (-5)) 32) tt
  /\ decodes operator_shr_int (tab (Z.testbit (-5)) 32) (-5).
Proof. split; [lia|]. apply (int_wire_format (-5)). lia. Defined.

(** X2 — [operator<<(uint)] sends 32 bits, least significant first, and
    [operator>>(uint&)] reads them back as the same unsigned value, those
    above [INT_MAX] included. *)
Theorem uint_wire_format (value : Z) :
  0 <= value < 2 ^ 32 ->
  encodes (operator_shl_uint value) (tab (Z.testbit value) 32) tt
  /\ decodes operator_shr_uint (tab (Z.testbit value) 32) value.
Proof.
  intros H. split; [apply encodes_word|].
  apply (decodes_word 0 value H).
Qed.

Lemma uint_wire_format_witness :
  0 <= 4000000000 < 2 ^ 32
  /\ encodes (operator_shl_uint 4000000000) (tab (Z.testbit 4000000000) 32) tt
  /\ decodes operator_shr_uint (tab (Z.testbit 4000000000) 32) 4000000000.
Proof. split; [lia|]. apply (uint_wire_format 4000000000). lia. Defined.

(** X3 — a [float] travels as the 32 bits of its representation, and the
    reader stores them whatever its variable held; a [glm::vec3] is its
    three components in the order x, y, z, 96 bits in all. *)
Theorem vec3_wire_format (value prior : vec3.t) :
  0 <= vec3.x value < 2 ^ 32 -> 0 <= vec3.y value < 2 ^ 32 ->
  0 <= vec3.z value < 2 ^ 32 ->
  let bits := tab (Z.testbit (vec3.x value)) 32
              ++ tab (Z.testbit (vec3.y value)) 32
              ++ tab (Z.testbit (vec3.z value)) 32 in
  encodes (operator_shl_float (vec3.x value)) (tab (Z.testbit (vec3.x value)) 32) tt
  /\ decodes (operator_shr_float (vec3.x prior))
             (tab (Z.testbit (vec3.x value)) 32) (vec3.x value)
  /\ encodes (operator_shl_vec3 value) bits tt
  /\ decodes (operator_shr_vec3 prior) bits value.
Proof.
  intros Hx Hy Hz bits. destruct value as [x y z], prior as [px py pz].
  cbn [vec3.x vec3.y vec3.z] in *.
  split; [apply encodes_word|]. split; [exact (decodes_word px x Hx)|].
  unfold bits, operator_shl_vec3, operator_shr_vec3. cbn [vec3.x vec3.y vec3.z].
  split.
  - eapply encodes_bind; [apply encodes_word|].
    eapply encodes_bind; [apply encodes_word|apply encodes_word].
  - eapply decodes_bind; [exact (decodes_word px x Hx)|].
    eapply decodes_bind; [exact (decodes_word py y Hy)|].
    rewrite <- (app_nil_r (tab (Z.testbit z) 32)).
    eapply decodes_bind; [exact (decodes_word pz z Hz)|apply decodes_ret].
Qed.

Lemma vec3_wire_format_witness :
  let value := vec3.mk 0x3F800000 0xC0000000 0x7FC00001 in
  let prior := vec3.mk 7 8 9 in
  let bits := tab (Z.testbit 0x3F800000) 32 ++ tab (Z.testbit 0xC0000000) 32
              ++ tab (Z.testbit 0x7FC00001) 32 in
  encodes (operator_shl_float 0x3F800000) (tab (Z.testbit 0x3F800000) 32) tt
  /\ decodes (operator_shr_float 7) (tab (Z.testbit 0x3F800000) 32) 0x3F800000
  /\ encodes (operator_shl_vec3 value) bits tt
  /\ decodes (operator_shr_vec3 prior) bits value.
Proof.
  apply (vec3_wire_format (vec3.mk 0x3F800000 0xC0000000 0x7FC00001)
           (vec3.mk 7 8 9)); cbn; lia.
Defined.

(** X4 — a [glm::quat] is sent as w, x, y, z, the scalar part first, 128
    bits in all, and read back in the same order. *)
Theorem quat_wire_format (value prior : quat.t) :
  0 <= quat.w value < 2 ^ 32 -> 0 <= quat.x value < 2 ^ 32 ->
  0 <= quat.y value < 2 ^ 32 -> 0 <= quat.z value < 2 ^ 32 ->
  let bits := tab (Z.testbit (quat.w value)) 32
              ++ tab (Z.testbit (quat.x value)) 32
              ++ tab (Z.testbit (quat.y value)) 32
              ++ tab (Z.testbit (quat.z value)) 32 in
  encodes (operator_shl_quat value) bits tt
  /\ decodes (operator_shr_quat prior) bits value.
Proof.
  intros Hw Hx Hy Hz bits. destruct value as [w x y z], prior as [pw px py pz].
  cbn [quat.w quat.x quat.y quat.z] in *.
  unfold bits, operator_shl_quat, operator_shr_quat.
  cbn [quat.w quat.x quat.y quat.z].
  split.
  - eapply encodes_bind; [apply encodes_word|].
    eapply encodes_bind; [apply encodes_word|].
    eapply encodes_bind; [apply encodes_word|apply encodes_word].
  - eapply decodes_bind; [exact (decodes_word pw w Hw)|].
    eapply decodes_bind; [exact (decodes_word px x Hx)|].
    eapply decodes_bind; [exact (decodes_word py y Hy)|].
    rewrite <- (app_nil_r (tab (Z.testbit z) 32)).
    eapply decodes_bind; [exact (decodes_word pz z Hz)|apply decodes_ret].
Qed.

Lemma quat_wire_format_witness :
  let value := quat.mk 0x3F800000 0 0x80000000 0x3F000000 in
  let prior := quat.mk 1 2 3 4 in
  let bits := tab (Z.testbit 0x3F800000) 32 ++ tab (Z.testbit 0) 32
              ++ tab (Z.testbit 0x80000000) 32 ++ tab (Z.testbit 0x3F000000) 32 in
  encodes (operator_shl_quat value) bits tt
  /\ decodes (operator_shr_quat prior) bits value.
Proof.
  apply (quat_wire_format (quat.mk 0x3F800000 0 0x80000000 0x3F000000)
           (quat.mk 1 2 3 4)); cbn; lia.
Defined.

Lemma encodes_8_bytes value :
  encodes (write_m (to_bytes 8 value) 64 0) (tab (Z.testbit value) 64) tt.
Proof.
  eapply encodes_ext; [apply encodes_write; lia| |reflexivity].
  now apply (buf_bits_to_bytes 8 value 64).
Qed.

Lemma decodes_8_bytes value :
  decodes (read_m (replicate 8 0) 64 0) (tab (Z.testbit value) 64)
          (to_bytes 8 (value mod 2 ^ 64)).
Proof.
  eapply decodes_ext;
    [apply (decodes_read_zero 8 (tab (Z.testbit value) 64));
     rewrite tab_length; lia|reflexivity|].
  now rewrite bits_value_tab.
Qed.

(** X5 — a [qint64] travels as the 64 bits of its two's complement
    representation and a [double] as the 64 bits of its own, least
    significant first; both are read back unchanged, so is a [QDateTime]
    through its milliseconds. *)
Theorem qint64_double_wire_format (value number : Z) :
  - 2 ^ 63 <= value < 2 ^ 63 -> 0 <= number < 2 ^ 64 ->
  (encodes (operator_shl_qint64 value) (tab (Z.testbit value) 64) tt
   /\ decodes operator_shr_qint64 (tab (Z.testbit value) 64) value)
  /\ (encodes (operator_shl_QDateTime value) (tab (Z.testbit value) 64) tt
      /\ decodes operator_shr_QDateTime (tab (Z.testbit value) 64) value)
  /\ (encodes (operator_shl_double number) (tab (Z.testbit number) 64) tt
      /\ decodes operator_shr_double (tab (Z.testbit number) 64) number).
Proof.
  intros Hv Hn.
  assert (Hq : decodes (let* data := read_m (replicate 8 0) 64 0 in
                        ret (int64 (of_bytes data)))
                 (tab (Z.testbit value) 64) value).
  { eapply decodes_ext; [eapply decodes_bind; [apply decodes_8_bytes|apply decodes_ret]
                        |now rewrite app_nil_r|].
    rewrite of_to_bytes. change (8 * Z.of_nat 8) with 64.
    rewrite Z.mod_mod by lia. unfold int64.
    rewrite Zplus_mod_idemp_l. rewrite Z.mod_small by lia. lia. }
  split; [split; [apply encodes_8_bytes|exact Hq]|].
  split; [split; [apply encodes_8_bytes|exact Hq]|].
  split; [apply encodes_8_bytes|].
  eapply decodes_ext; [eapply decodes_bind; [apply decodes_8_bytes|apply decodes_ret]
                      |now rewrite app_nil_r|].
  rewrite of_to_bytes. change (8 * Z.of_nat 8) with 64.
  rewrite Z.mod_mod by lia. now apply Z.mod_small.
Qed.

Lemma qint64_double_wire_format_witness :
  (encodes (operator_shl_qint64 (-1000)) (tab (Z.testbit (-1000)) 64) tt
   /\ decodes operator_shr_qint64 (tab (Z.testbit (-1000)) 64) (-1000))
  /\ (encodes (operator_shl_QDateTime (-1000)) (tab (Z.testbit (-1000)) 64) tt
      /\ decodes operator_shr_QDateTime (tab (Z.testbit (-1000)) 64) (-1000))
  /\ (encodes (operator_shl_double 0x4014000000000000)
              (tab (Z.testbit 0x4014000000000000) 64) tt
      /\ decodes operator_shr_double (tab (Z.testbit 0x4014000000000000) 64)
                 0x4014000000000000).
Proof. apply (qint64_double_wire_format (-1000) 0x4014000000000000); lia. Defined.

(** X6 — a [QByteArray] is its size as an [int] followed by its bytes,
    32 + 8 * size bits in all, and is read back as it was; the empty array
    is 32 zero bits. *)
Theorem QByteArray_wire_format (string : list Z) :
  bytes_ok string -> Z.of_nat (length string) < 2 ^ 28 ->
  encodes (operator_shl_QByteArray string) (QByteArray_bits string) tt
  /\ decodes operator_shr_QByteArray (QByteArray_bits string) string
  /\ length (QByteArray_bits string) = (32 + 8 * length string)%nat
  /\ QByteArray_bits [] = replicate 32 false.
Proof.
  intros Hok Hlen. unfold QByteArray_bits.
  split; [apply encodes_QByteArray|].
  split; [apply decodes_QByteArray; [exact Hok|lia]|].
  split; [|reflexivity].
  rewrite length_app, tab_length, bytes_bits_length. reflexivity.
Qed.

Lemma QByteArray_wire_format_witness :
  encodes (operator_shl_QByteArray [104; 105; 255]) (QByteArray_bits [104; 105; 255]) tt
  /\ decodes operator_shr_QByteArray (QByteArray_bits [104; 105; 255]) [104; 105; 255]
  /\ length (QByteArray_bits [104; 105; 255]) = (32 + 8 * length [104; 105; 255]%Z)%nat
  /\ QByteArray_bits [] = replicate 32 false.
Proof.
  apply (QByteArray_wire_format [104; 105; 255]); [|cbn; lia].
  repeat constructor; lia.
Defined.

Lemma encodes_QString string :
  encodes (operator_shl_QString string) (QString_bits string) tt.
Proof.
  unfold operator_shl_QString, QString_bits.
  eapply encodes_bind; [apply encodes_int|].
  replace (Z.of_nat (length string) * 2)
    with (Z.of_nat (length (QString_data string)))
    by (rewrite QString_data_length; lia).
  apply encodes_write_bytes.
Qed.

Lemma decodes_QString string :
  Z.of_nat (length string) < 2 ^ 27 ->
  Forall (fun unit => 0 <= unit < 65536) string ->
  decodes operator_shr_QString (QString_bits string) string.
Proof.
  intros Hlen Hu. unfold operator_shr_QString, QString_bits.
  eapply decodes_bind; [apply decodes_int; lia|]. cbv beta.
  eapply decodes_ext; [eapply decodes_bind; [|apply decodes_ret]
                      |apply app_nil_r|apply (QString_of_data_data string Hu)].
  replace (Z.of_nat (length string) * 2)
    with (Z.of_nat (length (QString_data string)))
    by (rewrite QString_data_length; lia).
  rewrite Nat2Z.id. apply decodes_read_bytes; [apply QString_data_ok|reflexivity].
Qed.

(** X7 — a [QString] is its size as an [int] followed by two bytes for
    each UTF-16 code unit, low byte first, 32 + 16 * size bits in all, and
    is read back as it was; a [QUrl] travels as its string. *)
Theorem QString_wire_format (string : list Z) :
  Z.of_nat (length string) < 2 ^ 27 ->
  Forall (fun unit => 0 <= unit < 65536) string ->
  encodes (operator_shl_QString string) (QString_bits string) tt
  /\ decodes operator_shr_QString (QString_bits string) string
  /\ encodes (operator_shl_QUrl string) (QString_bits string) tt
  /\ decodes operator_shr_QUrl (QString_bits string) string
  /\ length (QString_bits string) = (32 + 16 * length string)%nat.
Proof.
  intros Hlen Hu.
  split; [apply encodes_QString|]. split; [now apply decodes_QString|].
  split; [apply encodes_QString|]. split; [now apply decodes_QString|].
  unfold QString_bits.
  rewrite length_app, tab_length, bytes_bits_length, QString_data_length. lia.
Qed.

Lemma QString_wire_format_witness :
  encodes (operator_shl_QString [104; 8364]) (QString_bits [104; 8364]) tt
  /\ decodes operator_shr_QString (QString_bits [104; 8364]) [104; 8364]
  /\ encodes (operator_shl_QUrl [104; 8364]) (QString_bits [104; 8364]) tt
  /\ decodes operator_shr_QUrl (QString_bits [104; 8364]) [104; 8364]
  /\ length (QString_bits [104; 8364]) = (32 + 16 * length [104; 8364]%Z)%nat.
Proof.
  apply (QString_wire_format [104; 8364]); [cbn; lia|repeat constructor; lia].
Defined.

Lemma low_bits_tab value bits :
  0 <= bits ->
  tab (Z.testbit (value mod 2 ^ bits)) (Z.to_nat bits)
  = tab (Z.testbit value) (Z.to_nat bits).
Proof.
  intros Hb. apply tab_ext. intros k Hk. apply Z.mod_pow2_bits_low. lia.
Qed.

(** X8 — a [QColor] is sent as its [rgba()] converted to [int] and read
    back through [setRgba]: every 32-bit value, an alpha of 128 or more
    included (a negative [int] on the way), comes back unchanged. *)
Theorem QColor_wire_format (rgba : Z) :
  0 <= rgba < 2 ^ 32 ->
  encodes (operator_shl_QColor rgba) (tab (Z.testbit rgba) 32) tt
  /\ decodes operator_shr_QColor (tab (Z.testbit rgba) 32) rgba.
Proof.
  intros Hr.
  assert (Hbits : tab (Z.testbit (int32 rgba)) 32 = tab (Z.testbit rgba) 32).
  { apply tab_ext. intros k Hk. unfold int32.
    change (Z.of_nat 32) with 32 in Hk.
    destruct (Z.ltb_spec rgba (2 ^ 31)).
    - rewrite Z.mod_small by lia. f_equal. lia.
    - replace ((rgba + 2 ^ 31) mod 2 ^ 32 - 2 ^ 31) with (rgba - 2 ^ 32).
      + replace (rgba - 2 ^ 32) with (rgba + (-1) * 2 ^ 32) by lia.
        rewrite <- (Z.mod_pow2_bits_low _ 32) by lia.
        rewrite Z.mod_add by lia. apply Z.mod_pow2_bits_low. lia.
      + replace (rgba + 2 ^ 31) with (rgba - 2 ^ 31 + 1 * 2 ^ 32) by lia.
        rewrite Z.mod_add by lia. rewrite Z.mod_small by lia. lia. }
  unfold operator_shl_QColor, operator_shr_QColor. rewrite <- Hbits. split.
  - apply encodes_int.
  - eapply decodes_ext; [eapply decodes_bind;
                           [apply decodes_int, int32_range|apply decodes_ret]
                        |apply app_nil_r|].
    unfold uint32, int32.
    replace ((rgba + 2 ^ 31) mod 2 ^ 32 - 2 ^ 31)
      with ((rgba + 2 ^ 31) mod 2 ^ 32 + (-2 ^ 31)) by lia.
    rewrite Zplus_mod_idemp_l.
    replace (rgba + 2 ^ 31 + - 2 ^ 31) with rgba by lia.
    now apply Z.mod_small.
Qed.

Lemma QColor_wire_format_witness :
  encodes (operator_shl_QColor 0xFF336699) (tab (Z.testbit 0xFF336699) 32) tt
  /\ decodes operator_shr_QColor (tab (Z.testbit 0xFF336699) 32) 0xFF336699.
Proof. apply (QColor_wire_format 0xFF336699). lia. Defined.

Lemma decodes_read_low_any value bits :
  0 <= bits <= 31 ->
  exists data,
    decodes (read_m (to_bytes 4 0) bits 0)
            (tab (Z.testbit value) (Z.to_nat bits)) data
    /\ int32 (of_bytes data) = value mod 2 ^ bits.
Proof.
  intros Hb.
  set (l0 := tab (Z.testbit value) (Z.to_nat bits)).
  assert (Hl : Z.of_nat (length l0) = bits) by (unfold l0; rewrite tab_length; lia).
  assert (Hval : bits_value l0 = value mod 2 ^ bits).
  { unfold l0. now rewrite bits_value_tab, Z2Nat.id by lia. }
  exists (to_bytes 4 (bits_value l0)). split.
  - rewrite <- Hl. change (to_bytes 4 0) with (replicate 4 0).
    apply (decodes_read_zero 4 l0). lia.
  - rewrite of_to_bytes. change (8 * Z.of_nat 4) with 32.
    rewrite int32_mod, Hval. apply int32_small.
    assert (2 ^ bits <= 2 ^ 31) by (apply Z.pow_le_mono_r; lia).
    pose proof (Z.mod_pos_bound value (2 ^ bits)). lia.
Qed.

(** X9 — a [QRegExp] is its pattern as a [QString], one bit of case
    sensitivity, three bits of pattern syntax and the minimal flag: five
    bits after the pattern.  The reader rebuilds the same expression; of a
    case sensitivity or a syntax that does not fit its field only the bits
    sent come back. *)
Theorem QRegExp_wire_format {QObject QMetaObject : Type}
    (pattern : list Z) (caseSensitivity syntax : Z) (minimal : bool) :
  Z.of_nat (length pattern) < 2 ^ 27 ->
  Forall (fun unit => 0 <= unit < 65536) pattern ->
  let bits := QString_bits pattern ++ tab (Z.testbit caseSensitivity) 1
              ++ tab (Z.testbit syntax) 3 ++ [minimal] in
  encodes (operator_shl_QRegExp pattern caseSensitivity syntax minimal) bits tt
  /\ decodes (operator_shr_QRegExp QObject QMetaObject) bits
       (RegExp_value pattern (caseSensitivity mod 2) (syntax mod 8) minimal)
  /\ length bits = (length (QString_bits pattern) + 5)%nat.
Proof.
  intros Hlen Hu bits. unfold bits, operator_shl_QRegExp, operator_shr_QRegExp.
  destruct (decodes_read_low_any caseSensitivity 1) as (cs & Dcs & Ecs); [lia|].
  destruct (decodes_read_low_any syntax 3) as (sx & Dsx & Esx); [lia|].
  split; [|split].
  - eapply encodes_bind; [apply encodes_QString|].
    eapply encodes_bind; [apply (encodes_write_low caseSensitivity 1); lia|].
    eapply encodes_bind; [apply (encodes_write_low syntax 3); lia|].
    apply encodes_write_bool.
  - eapply decodes_bind; [now apply decodes_QString|].
    eapply decodes_bind; [exact Dcs|].
    eapply decodes_bind; [exact Dsx|]. cbv beta. rewrite Ecs, Esx.
    rewrite <- (app_nil_r [minimal]).
    eapply decodes_bind; [apply decodes_read_bool|apply decodes_ret].
  - rewrite !length_app, !tab_length. cbn [length]. lia.
Qed.

Lemma QRegExp_wire_format_witness :
  let bits := QString_bits [97; 42] ++ tab (Z.testbit 1) 1
              ++ tab (Z.testbit 9) 3 ++ [true] in
  encodes (operator_shl_QRegExp [97; 42] 1 9 true) bits tt
  /\ decodes (operator_shr_QRegExp unit unit) bits
       (RegExp_value [97; 42] (1 mod 2) (9 mod 8) true)
  /\ length bits = (length (QString_bits [97; 42]%Z) + 5)%nat.
Proof.
  apply (@QRegExp_wire_format unit unit [97; 42] 1 9 true);
    [cbn; lia|repeat constructor; lia].
Defined.

(** ** Writes compose *)

Lemma write_chunk_written s d offset k :
  exists ext,
    ds_written (_underlying (write_chunk s d offset k))
    = ds_written (_underlying s) ++ ext
    /\ bytes_ok ext.
Proof.
  unfold write_chunk. set (b' := quint8 _).
  destruct (_position s + k =? BITS_IN_BYTE).
  - unfold flush. cbn [_position _byte _underlying].
    destruct (negb (_position s + k =? 0)).
    + exists [b']. split; [reflexivity|].
      constructor; [apply quint8_range|constructor].
    + exists []. split; [now rewrite app_nil_r|constructor].
  - exists []. split; [cbn; now rewrite app_nil_r|constructor].
Qed.

Lemma write_loop_written fuel : forall s data source bits offset s',
  write_loop fuel s data source bits offset = Some s' ->
  exists ext,
    ds_written (_underlying s') = ds_written (_underlying s) ++ ext
    /\ bytes_ok ext.
Proof.
  induction fuel as [|fuel IH]; intros s data source bits offset s' H.
  - cbn in H. destruct (bits >? 0); [discriminate|]. injection H as <-.
    exists []. split; [now rewrite app_nil_r|constructor].
  - cbn [write_loop] in H. destruct (bits >? 0).
    2:{ injection H as <-. exists []. split; [now rewrite app_nil_r|constructor]. }
    set (k := Z.min (BITS_IN_BYTE - _position s) (Z.min (BITS_IN_BYTE - offset) bits)) in *.
    destruct (write_chunk_written s (nth source data 0) offset k) as (e1 & E1 & H1).
    unfold write_chunk in E1.
    set (s2 := if _position s + k =? BITS_IN_BYTE then _ else _) in *.
    destruct (offset + k =? BITS_IN_BYTE);
      apply IH in H; destruct H as (e2 & E2 & H2);
      exists (e1 ++ e2); (split; [now rewrite E2, E1, app_assoc|now apply Forall_app]).
Qed.

Lemma bytes_bits_inj a b :
  bytes_ok a -> bytes_ok b -> bytes_bits a = bytes_bits b -> a = b.
Proof.
  intros Ha Hb H.
  assert (Hl : length a = length b).
  { apply (f_equal (@length bool)) in H. rewrite !bytes_bits_length in H. lia. }
  rewrite <- (bits_value_bytes_bits a Ha), <- (bits_value_bytes_bits b Hb).
  now rewrite H, Hl.
Qed.

Lemma writer_state_unique s s1 s2 e1 e2 :
  writer_ok s1 -> writer_ok s2 ->
  ds_written (_underlying s1) = ds_written (_underlying s) ++ e1 -> bytes_ok e1 ->
  ds_written (_underlying s2) = ds_written (_underlying s) ++ e2 -> bytes_ok e2 ->
  ds_unread (_underlying s1) = ds_unread (_underlying s2) ->
  wbits s1 = wbits s2 -> s1 = s2.
Proof.
  intros [Hp1 Hb1] [Hp2 Hb2] E1 He1 E2 He2 Hun Hw.
  unfold wbits in Hw. rewrite E1, E2, !bytes_bits_app, <- !app_assoc in Hw.
  apply app_inv_head in Hw.
  assert (Hlen : (8 * length e1 + Z.to_nat (_position s1)
                  = 8 * length e2 + Z.to_nat (_position s2))%nat).
  { apply (f_equal (@length bool)) in Hw.
    now rewrite !length_app, !bytes_bits_length, !tab_length in Hw. }
  assert (Hle : length e1 = length e2) by lia.
  assert (Hpos : _position s1 = _position s2) by lia.
  apply app_inj_1 in Hw; [|rewrite !bytes_bits_length; lia].
  destruct Hw as [Hbytes Htab].
  apply bytes_bits_inj in Hbytes; [|assumption|assumption]. subst e2.
  assert (Hbyte : _byte s1 = _byte s2).
  { apply Z.bits_inj'. intros i Hi.
    destruct (Z.ltb_spec i (_position s1)) as [Hlt|Hge].
    - assert (Hk : tab (Z.testbit (_byte s1)) (Z.to_nat (_position s1)) !! Z.to_nat i
                   = Some (Z.testbit (_byte s1) i)).
      { rewrite tab_lookup by lia. do 2 f_equal. lia. }
      rewrite Htab, <- Hpos, tab_lookup in Hk by lia.
      injection Hk as Hk. rewrite <- Hk. f_equal. lia.
    - rewrite (testbit_small (_byte s1) (_position s1)) by lia.
      rewrite (testbit_small (_byte s2) (_position s2)) by lia. reflexivity. }
  destruct s1 as [[w1 u1] b1 p1], s2 as [[w2 u2] b2 p2]. cbn in *. congruence.
Qed.

Lemma bufbit_drop data (n : nat) i :
  0 <= i -> bufbit (drop n data) i = bufbit data (8 * Z.of_nat n + i).
Proof.
  intros Hi. unfold bufbit.
  destruct (div8_unique (8 * Z.of_nat n + i) (Z.of_nat n + i / 8) (i mod 8))
    as [-> ->].
  - pose proof (Z.div_mod i 8). lia.
  - apply Z.mod_pos_bound. lia.
  - f_equal. rewrite !nth_lookup, lookup_drop. do 2 f_equal.
    assert (0 <= i / 8) by (apply Z.div_pos; lia). lia.
Qed.

(** X10 — writes compose: writing the first [a] bits of a buffer and then
    the next [b] bits, from where the first write stopped in the buffer,
    leaves the stream in the very state that one write of [a + b] bits
    does. *)
Theorem write_splits (s : Bitstream) (data : list Z) (a b offset : Z) :
  writer_ok s -> 0 <= offset < 8 -> 0 <= a -> 0 <= b ->
  exists s1 s2,
    write s data a offset = Some s1
    /\ write s1 (drop (Z.to_nat ((offset + a) / 8)) data) b ((offset + a) mod 8)
       = Some s2
    /\ write s data (a + b) offset = Some s2.
Proof.
  intros Hs Hoff Ha Hb. unfold write.
  pose proof (Z.div_mod (offset + a) 8 ltac:(lia)) as Hdm.
  pose proof (Z.mod_pos_bound (offset + a) 8 ltac:(lia)) as Hm.
  assert (Hq : 0 <= (offset + a) / 8) by (apply Z.div_pos; lia).
  destruct (write_loop_spec (Z.to_nat a) s data 0 a offset)
    as (s1 & E1 & Hok1 & Hun1 & _ & Hw1); try assumption; try lia.
  destruct (write_loop_spec (Z.to_nat b) s1
              (drop (Z.to_nat ((offset + a) / 8)) data) 0 b ((offset + a) mod 8))
    as (s2 & E2 & Hok2 & Hun2 & _ & Hw2); try assumption; try lia.
  destruct (write_loop_spec (Z.to_nat (a + b)) s data 0 (a + b) offset)
    as (s3 & E3 & Hok3 & Hun3 & _ & Hw3); try assumption; try lia.
  exists s1, s2. split; [exact E1|]. split; [exact E2|]. rewrite E3. f_equal.
  destruct (write_loop_written _ _ _ _ _ _ _ E1) as (e1 & X1 & B1).
  destruct (write_loop_written _ _ _ _ _ _ _ E2) as (e2 & X2 & B2).
  destruct (write_loop_written _ _ _ _ _ _ _ E3) as (e3 & X3 & B3).
  apply (writer_state_unique s s3 s2 e3 (e1 ++ e2)); try assumption.
  - now rewrite X2, X1, app_assoc.
  - now apply Forall_app.
  - congruence.
  - rewrite Hw3, Hw2, Hw1, <- app_assoc. f_equal.
    replace (Z.to_nat (a + b)) with (Z.to_nat a + Z.to_nat b)%nat by lia.
    rewrite buf_bits_app. f_equal.
    apply tab_ext. intros k Hk. rewrite bufbit_drop by lia. f_equal. lia.
Qed.

Lemma write_splits_witness :
  exists s1 s2,
    write (write_bools writer_new [true; false; true]) [0xA7; 0x5C; 0x3E] 11 2
    = Some s1
    /\ write s1 (drop (Z.to_nat ((2 + 11) / 8)) [0xA7; 0x5C; 0x3E]) 9 ((2 + 11) mod 8)
       = Some s2
    /\ write (write_bools writer_new [true; false; true]) [0xA7; 0x5C; 0x3E] (11 + 9) 2
       = Some s2.
Proof.
  apply (write_splits (write_bools writer_new [true; false; true])
           [0xA7; 0x5C; 0x3E] 11 9 2); [|lia|lia|lia].
  unfold writer_ok. vm_compute. repeat split; discriminate.
Defined.

(** ** Flushing *)

(** X11 — [flush] completes the byte in progress with zero bits: what the
    device has received is what was written followed by fewer than eight
    [false] bits, none when the cursor stood on a byte boundary, and the
    flushed writer holds nothing back. *)
Theorem flush_pads_with_zeros (s : Bitstream) :
  writer_ok s ->
  bytes_bits (ds_written (_underlying (flush s)))
  = wbits s ++ replicate (Z.to_nat ((8 - _position s) mod 8)) false
  /\ wbits (flush s) = bytes_bits (ds_written (_underlying (flush s)))
  /\ writer_ok (flush s).
Proof.
  intros Hs. pose proof (wbits_flush s Hs) as Hf. destruct Hs as [Hp Hb].
  split; [|split].
  - rewrite Hf. f_equal.
    destruct (Z.eqb_spec (_position s) 0) as [E|E].
    + rewrite E. reflexivity.
    + rewrite Z.mod_small by lia. reflexivity.
  - unfold wbits. rewrite flush_position. cbn. now rewrite app_nil_r.
  - unfold writer_ok. rewrite flush_position. unfold flush.
    destruct (Z.eqb_spec (_position s) 0) as [E|E]; cbn; [|lia].
    rewrite E in Hb. cbn in Hb. lia.
Qed.

Lemma flush_pads_with_zeros_witness :
  let s := write_bools writer_new [true; true; false; true; true] in
  bytes_bits (ds_written (_underlying (flush s)))
  = wbits s ++ replicate (Z.to_nat ((8 - _position s) mod 8)) false
  /\ wbits (flush s) = bytes_bits (ds_written (_underlying (flush s)))
  /\ writer_ok (flush s).
Proof.
  apply (flush_pads_with_zeros (write_bools writer_new [true; true; false; true; true])).
  unfold writer_ok. vm_compute. repeat split; discriminate.
Defined.

(** ** Widths *)

Lemma log2_up_bit_length h :
  0 <= h ->
  h < 2 ^ Z.log2_up (h + 1) /\ (0 < h -> 2 ^ (Z.log2_up (h + 1) - 1) <= h).
Proof.
  intros Hh. destruct (Z.eq_dec h 0) as [->|Hne].
  { change (Z.log2_up (0 + 1)) with 0. split; [reflexivity|lia]. }
  pose proof (Z.log2_up_spec (h + 1) ltac:(lia)) as [H1 H2].
  rewrite <- Z.sub_1_r in H1. lia.
Qed.

Lemma log2_up_le_31 h : 0 <= h < 2 ^ 31 -> 0 <= Z.log2_up (h + 1) <= 31.
Proof.
  intros Hh. split; [apply Z.log2_up_nonneg|].
  change 31 with (Z.log2_up (2 ^ 31)). apply Z.log2_up_le_mono. lia.
Qed.

(** X12 — [getBitsForHighestValue] returns the bit length of a value that
    is not negative: the least width that holds it, 0 for 0 and at most 31
    for an [int]. *)
Theorem getBitsForHighestValue_bit_length (fuel : nat) (highestValue : Z) :
  0 <= highestValue < 2 ^ 31 -> (31 <= fuel)%nat ->
  exists bits,
    getBitsForHighestValue fuel highestValue = Some bits
    /\ 0 <= bits <= 31
    /\ highestValue < 2 ^ bits
    /\ (0 < highestValue -> 2 ^ (bits - 1) <= highestValue)
    /\ (highestValue = 0 -> bits = 0).
Proof.
  intros Hh Hfuel. exists (Z.log2_up (highestValue + 1)).
  unfold getBitsForHighestValue.
  rewrite (getBitsForHighestValue_loop_spec 31) by (cbn; lia).
  split; [reflexivity|]. split; [now apply log2_up_le_31|].
  destruct (log2_up_bit_length highestValue) as [H1 H2]; [lia|].
  split; [exact H1|]. split; [exact H2|]. intros ->. reflexivity.
Qed.

Lemma getBitsForHighestValue_bit_length_witness :
  exists bits,
    getBitsForHighestValue 31 5 = Some bits
    /\ 0 <= bits <= 31 /\ 5 < 2 ^ bits
    /\ (0 < 5 -> 2 ^ (bits - 1) <= 5) /\ (5 = 0 -> bits = 0).
Proof. apply (getBitsForHighestValue_bit_length 31 5); lia. Defined.

(** X13 — on a negative argument the loop of [getBitsForHighestValue]
    never ends, the arithmetic shift keeping the value negative: no number
    of iterations gives a result.  [IDStreamer::setBitsFromValue] is in
    that case for every value below -1. *)
Theorem getBitsForHighestValue_negative_never_returns
    (fuel : nat) (highestValue value : Z) (st : IDStreamer) :
  highestValue < 0 -> - 2 ^ 31 <= value < -1 ->
  getBitsForHighestValue fuel highestValue = None
  /\ setBitsFromValue fuel st value = None.
Proof.
  intros Hh Hv. unfold setBitsFromValue, getBitsForHighestValue.
  rewrite getBitsForHighestValue_loop_negative by exact Hh.
  rewrite getBitsForHighestValue_loop_negative; [now split|].
  rewrite int32_small by lia. lia.
Qed.

Lemma getBitsForHighestValue_negative_never_returns_witness :
  getBitsForHighestValue 1000 (-1) = None
  /\ setBitsFromValue 1000 IDStreamer_new (-2) = None.
Proof.
  apply (getBitsForHighestValue_negative_never_returns 1000 (-1) (-2) IDStreamer_new);
    lia.
Defined.

Lemma highest_value_spec (kvs : list (list Z * Z)) : forall h0,
  let highest :=
    fold_left (fun highestValue kv => Z.max highestValue (snd kv)) kvs h0 in
  h0 <= highest
  /\ Forall (fun kv => snd kv <= highest) kvs
  /\ (highest = h0 \/ Exists (fun kv => snd kv = highest) kvs).
Proof.
  induction kvs as [|kv kvs IH]; intros h0; cbn [fold_left].
  - split; [lia|]. split; [constructor|now left].
  - destruct (IH (Z.max h0 (snd kv))) as (H1 & H2 & H3). cbv zeta in *.
    set (highest := fold_left _ kvs _) in *.
    split; [lia|]. split; [constructor; [lia|exact H2]|].
    destruct H3 as [H3|H3]; [|right; now constructor 2].
    destruct (Z.max_spec h0 (snd kv)) as [[_ E]|[_ E]]; rewrite E in H3.
    + right. now constructor 1.
    + now left.
Qed.

(** X14 — [EnumTypeStreamer::getBits] always returns, and returns the bit
    length of the highest enumerator value, negative ones counting for 0:
    every declared value is below 2 ^ bits, and no smaller width has that
    property.  [write] sends that many low bits of the value and [read]
    returns them: a value within the width comes back unchanged, others,
    negative ones among them, reduced modulo 2 ^ bits. *)
Theorem EnumTypeStreamer_width (metaEnum : QMetaEnum) (value : Z) :
  Forall (fun kv => snd kv < 2 ^ 31) (enumerators metaEnum) ->
  exists bits,
    EnumTypeStreamer_getBits metaEnum = Some bits
    /\ 0 <= bits <= 31
    /\ Forall (fun kv => snd kv < 2 ^ bits) (enumerators metaEnum)
    /\ (forall b, 0 <= b ->
                  Forall (fun kv => snd kv < 2 ^ b) (enumerators metaEnum) ->
                  bits <= b)
    /\ encodes (EnumTypeStreamer_write metaEnum value)
               (tab (Z.testbit value) (Z.to_nat bits)) tt
    /\ decodes (EnumTypeStreamer_read metaEnum)
               (tab (Z.testbit value) (Z.to_nat bits)) (value mod 2 ^ bits)
    /\ (0 <= value < 2 ^ bits -> value mod 2 ^ bits = value).
Proof.
  intros Hv.
  destruct (highest_value_spec (enumerators metaEnum) 0) as (H0 & Hall & Hex).
  cbv zeta in *.
  set (highest := fold_left _ (enumerators metaEnum) 0) in *.
  assert (Hh : 0 <= highest < 2 ^ 31).
  { split; [exact H0|]. destruct Hex as [->|Hex]; [lia|].
    apply Exists_exists in Hex as (kv & Hin & <-).
    rewrite Forall_forall in Hv. now apply Hv. }
  set (bits := Z.log2_up (highest + 1)).
  assert (Hbits : EnumTypeStreamer_getBits metaEnum = Some bits).
  { unfold EnumTypeStreamer_getBits, getBitsForHighestValue. fold highest.
    now rewrite (getBitsForHighestValue_loop_spec 31) by (cbn; lia). }
  pose proof (log2_up_le_31 highest Hh) as Hb. fold bits in Hb.
  destruct (log2_up_bit_length highest) as [Hlt _]; [lia|]. fold bits in Hlt.
  exists bits. split; [exact Hbits|]. split; [exact Hb|].
  split; [|split; [|split; [|split]]].
  - eapply Forall_impl; [exact Hall|]. cbn beta. intros kv Hkv. lia.
  - intros b Hb0 Hfit. destruct Hex as [E|Hex].
    + unfold bits. rewrite E. change (Z.log2_up (0 + 1)) with 0. exact Hb0.
    + apply Exists_exists in Hex as (kv & Hin & E).
      rewrite Forall_forall in Hfit. specialize (Hfit kv Hin). rewrite E in Hfit.
      unfold bits. apply Z.log2_up_le_pow2; lia.
  - unfold EnumTypeStreamer_write. rewrite Hbits.
    change (tab (Z.testbit value) (Z.to_nat bits))
      with ([] ++ tab (Z.testbit value) (Z.to_nat bits)).
    eapply encodes_bind; [apply encodes_lift|]. apply encodes_write_low. lia.
  - unfold EnumTypeStreamer_read. rewrite Hbits.
    change (tab (Z.testbit value) (Z.to_nat bits))
      with ([] ++ tab (Z.testbit value) (Z.to_nat bits)).
    eapply decodes_bind; [apply decodes_lift|]. cbv beta.
    rewrite <- (low_bits_tab value bits) by lia.
    apply decodes_read_low; [lia|]. apply Z.mod_pos_bound.
    apply Z.pow_pos_nonneg; lia.
  - intros Hr. now apply Z.mod_small.
Qed.

Lemma EnumTypeStreamer_width_witness :
  exists bits,
    EnumTypeStreamer_getBits (getMetaEnum peer_Color) = Some bits
    /\ 0 <= bits <= 31
    /\ Forall (fun kv => snd kv < 2 ^ bits) (enumerators (getMetaEnum peer_Color))
    /\ (forall b, 0 <= b ->
                  Forall (fun kv => snd kv < 2 ^ b)
                         (enumerators (getMetaEnum peer_Color)) ->
                  bits <= b)
    /\ encodes (EnumTypeStreamer_write (getMetaEnum peer_Color) 2)
               (tab (Z.testbit 2) (Z.to_nat bits)) tt
    /\ decodes (EnumTypeStreamer_read (getMetaEnum peer_Color))
               (tab (Z.testbit 2) (Z.to_nat bits)) (2 mod 2 ^ bits)
    /\ (0 <= 2 < 2 ^ bits -> 2 mod 2 ^ bits = 2).
Proof.
  apply (EnumTypeStreamer_width (getMetaEnum peer_Color) 2).
  cbn. repeat constructor.
Defined.

(** X15 — [EnumTypeStreamer::setEnumValue] on a flag enumeration: a bit of
    the result is set exactly when it is set in the local value of some
    mapped key that the value received intersects; keys the local side does
    not know contribute nothing. *)
Theorem setEnumValue_flags (metaEnum : QMetaEnum) (value : Z)
    (mappings : gmap Z Z) (i : Z) :
  isFlag metaEnum = true -> 0 <= i ->
  Z.testbit (EnumTypeStreamer_setEnumValue metaEnum value mappings) i = true
  <-> exists key mapped,
        mappings !! key = Some mapped
        /\ Z.land value key <> 0
        /\ Z.testbit mapped i = true.
Proof.
  intros Hflag Hi. unfold EnumTypeStreamer_setEnumValue. rewrite Hflag.
  rewrite map_fold_foldr.
  assert (Hl : forall l : list (Z * Z),
    Z.testbit (foldr (uncurry (fun key mapped combined =>
                 if negb (Z.land value key =? 0) then Z.lor combined mapped
                 else combined)) 0 l) i = true
    <-> exists key mapped, (key, mapped) ∈ l /\ Z.land value key <> 0
                           /\ Z.testbit mapped i = true).
  { induction l as [|[key mapped] l IH].
    - cbn. rewrite Z.bits_0. split; [discriminate|].
      intros (? & ? & Hin & _). now apply elem_of_nil in Hin.
    - cbn [foldr uncurry]. destruct (Z.eqb_spec (Z.land value key) 0) as [E|E];
        cbn [negb].
      + rewrite IH. split.
        * intros (k & m & Hin & Hk & Hm). exists k, m.
          split; [apply elem_of_cons; now right|now split].
        * intros (k & m & Hin & Hk & Hm). apply elem_of_cons in Hin as [Heq|Hin].
          -- injection Heq as -> ->. contradiction.
          -- exists k, m. now repeat split.
      + rewrite Z.lor_spec, orb_true_iff, IH. split.
        * intros [(k & m & Hin & Hk & Hm)|Hm].
          -- exists k, m. split; [apply elem_of_cons; now right|now split].
          -- exists key, mapped. split; [apply elem_of_cons; now left|now split].
        * intros (k & m & Hin & Hk & Hm). apply elem_of_cons in Hin as [Heq|Hin].
          -- injection Heq as -> ->. now right.
          -- left. exists k, m. now repeat split. }
  rewrite Hl. split; intros (k & m & Hin & Hk & Hm); exists k, m;
    (split; [|now split]).
  - now apply elem_of_map_to_list.
  - now apply elem_of_map_to_list.
Qed.

Lemma setEnumValue_flags_witness :
  Z.testbit (EnumTypeStreamer_setEnumValue
               {| isFlag := true; enumerators := [] |} 5
               (<[1 := 4]> (<[2 := 8]> (<[4 := 1]> ∅)))) 0 = true
  <-> exists key mapped,
        (<[1 := 4]> (<[2 := 8]> (<[4 := 1]> ∅)) : gmap Z Z) !! key = Some mapped
        /\ Z.land 5 key <> 0
        /\ Z.testbit mapped 0 = true.
Proof.
  apply (setEnumValue_flags {| isFlag := true; enumerators := [] |} 5
           (<[1 := 4]> (<[2 := 8]> (<[4 := 1]> ∅))) 0); [reflexivity|lia].
Defined.

(** ** Type descriptors *)

(** X16 — the descriptor of a null streamer is an empty name, 32 zero
    bits, whatever the metadata mode; it is read back as the default
    [TypeReader], whatever the modes and the registry. *)
Theorem null_streamer_descriptor (md5 : list Z -> list Z)
    (resolve : list Z -> option StreamerInfo)
    (metadataType : MetadataType) (genericsMode : GenericsMode) :
  encodes (operator_lt_TypeStreamer md5 metadataType None) (replicate 32 false) tt
  /\ decodes (operator_gt_TypeReader md5 resolve metadataType genericsMode)
             (replicate 32 false) (TypeReader.exact [] None).
Proof.
  split.
  - cbn [operator_lt_TypeStreamer].
    eapply encodes_ext; [apply (encodes_QByteArray [])|reflexivity|reflexivity].
  - unfold operator_gt_TypeReader.
    apply (decodes_ext _
             ((tab (Z.testbit (Z.of_nat (length (@nil Z)))) 32 ++ bytes_bits [])
              ++ []) _ (TypeReader.exact [] None));
      [eapply decodes_bind|reflexivity|reflexivity].
    + apply (decodes_QByteArray []); [constructor|cbn; lia].
    + cbv beta. rewrite bool_decide_eq_true_2 by reflexivity. apply decodes_ret.
Qed.

Lemma round_trips_lift {A B} (b : B) (W : B -> M unit) (R : M A) x :
  round_trips (W b) R x -> round_trips (bind (lift (Some b)) W) R x.
Proof.
  intros (l & E & D). exists l. split; [|exact D].
  change l with ([] ++ l). eapply encodes_bind; [apply encodes_lift|exact E].
Qed.

Lemma round_trips_lift_r {A B} (b : B) (W : M unit) (R : B -> M A) x :
  round_trips W (R b) x -> round_trips W (bind (lift (Some b)) R) x.
Proof.
  intros (l & E & D). exists l. split; [exact E|].
  change l with ([] ++ l). eapply decodes_bind; [apply decodes_lift|exact D].
Qed.

Lemma round_trips_bytes bs :
  bytes_ok bs ->
  round_trips (write_m bs (Z.of_nat (length bs) * BITS_IN_BYTE) 0)
    (read_m (replicate (length bs) 0) (Z.of_nat (length bs) * BITS_IN_BYTE) 0) bs.
Proof.
  intros Hok. exists (bytes_bits bs).
  split; [apply encodes_write_bytes|now apply decodes_read_bytes].
Qed.

Lemma EnumTypeStreamer_getBits_some (metaEnum : QMetaEnum) :
  Forall (fun kv => snd kv < 2 ^ 31) (enumerators metaEnum) ->
  exists bits, EnumTypeStreamer_getBits metaEnum = Some bits /\ 0 <= bits <= 31.
Proof.
  intros Hv.
  destruct (highest_value_spec (enumerators metaEnum) 0) as (H0 & Hall & Hex).
  cbv zeta in *.
  set (highest := fold_left _ (enumerators metaEnum) 0) in *.
  assert (Hh : 0 <= highest < 2 ^ 31).
  { split; [exact H0|]. destruct Hex as [->|Hex]; [lia|].
    apply Exists_exists in Hex as (kv & Hin & <-).
    rewrite Forall_forall in Hv. now apply Hv. }
  exists (Z.log2_up (highest + 1)). split; [|now apply log2_up_le_31].
  unfold EnumTypeStreamer_getBits, getBitsForHighestValue. fold highest.
  now rewrite (getBitsForHighestValue_loop_spec 31) by (cbn; lia).
Qed.


Lemma bytes_ok_nonzero bs : Forall (fun b => 0 < b < 256) bs -> bytes_ok bs.
Proof. intros H. eapply Forall_impl; [exact H|]. cbn beta. intros b Hb. lia. Qed.

Lemma round_trips_name name :
  bytes_ok name -> Z.of_nat (length name) < 2 ^ 28 ->
  round_trips (operator_shl_QByteArray name) operator_shr_QByteArray name.
Proof.
  intros Hok Hlen.
  exists (tab (Z.testbit (Z.of_nat (length name))) 32 ++ bytes_bits name).
  split; [apply encodes_QByteArray|apply decodes_QByteArray; [exact Hok|lia]].
Qed.

Lemma keyToValue_own (metaEnum : QMetaEnum) kv :
  NoDup (map fst (enumerators metaEnum)) -> kv ∈ enumerators metaEnum ->
  keyToValue metaEnum (fst kv) = snd kv.
Proof.
  unfold keyToValue. induction (enumerators metaEnum) as [|kv' l IH];
    intros Hnd Hin.
  - now apply elem_of_nil in Hin.
  - cbn [find]. cbn [map] in Hnd. apply NoDup_cons in Hnd as [Hnotin Hnd].
    destruct (bool_decide_reflect (fst kv' = fst kv)) as [E|E].
    + apply elem_of_cons in Hin as [->|Hin]; [reflexivity|].
      exfalso. apply Hnotin. rewrite E. apply list_elem_of_In, in_map.
      now apply list_elem_of_In.
    + apply elem_of_cons in Hin as [->|Hin]; [contradiction|]. now apply IH.
Qed.

Lemma write_enumerators_cons kv rest :
  write_enumerators (kv :: rest)
  = let* _ := operator_shl_QByteArray (fst kv) in
    let* _ := operator_shl_int (snd kv) in
    write_enumerators rest.
Proof. reflexivity. Qed.

(** The loop over the peer's enumerators, when every one of them is
    declared locally with the same value. *)
Lemma round_trips_enumerators_same (metaEnum : QMetaEnum) kvs :
  Forall enumerator_ok kvs ->
  Forall (fun kv => keyToValue metaEnum (fst kv) = snd kv) kvs ->
  forall mappings highestValue,
  exists mappings' highestValue',
    round_trips (write_enumerators kvs)
      (read_enumerators metaEnum (length kvs) mappings true highestValue)
      (mappings', true, highestValue').
Proof.
  induction 1 as [|kv kvs (Hk & Hl & Hv) _ IH]; intros Hsame mappings highestValue.
  - exists mappings, highestValue. apply round_trips_ret.
  - apply Forall_cons in Hsame as [Hown Hrest].
    set (mappings1 := if negb (snd kv =? -1) then <[snd kv := snd kv]> mappings
                      else mappings).
    destruct (IH Hrest mappings1 (Z.max (snd kv) highestValue))
      as (mappings' & highestValue' & Hrt).
    exists mappings', highestValue'.
    rewrite write_enumerators_cons. cbn [length read_enumerators].
    apply (round_trips_bind _ _ _ _ (fst kv));
      [apply round_trips_name; [now apply bytes_ok_nonzero|exact Hl]|].
    apply (round_trips_bind _ _ _ _ (snd kv)); [now apply round_trips_int|].
    cbv beta zeta. rewrite Hown, Z.eqb_refl. exact Hrt.
Qed.

(** The same loop when the local side has no declaration to compare
    with. *)
Lemma round_trips_enumerators_unknown kvs :
  Forall enumerator_ok kvs ->
  forall mappings highestValue,
    round_trips (write_enumerators kvs)
      (read_enumerators QMetaEnum_null (length kvs) mappings false highestValue)
      (mappings, false,
       fold_left (fun highest kv => Z.max highest (snd kv)) kvs highestValue).
Proof.
  induction 1 as [|kv kvs (Hk & Hl & Hv) _ IH]; intros mappings highestValue.
  - apply round_trips_ret.
  - rewrite write_enumerators_cons. cbn [length read_enumerators fold_left].
    apply (round_trips_bind _ _ _ _ (fst kv));
      [apply round_trips_name; [now apply bytes_ok_nonzero|exact Hl]|].
    apply (round_trips_bind _ _ _ _ (snd kv)); [now apply round_trips_int|].
    cbv beta zeta. change (keyToValue QMetaEnum_null (fst kv)) with (-1).
    change (negb (-1 =? -1)) with false. cbv iota.
    rewrite (Z.max_comm (snd kv) highestValue). apply IH.
Qed.

Lemma round_trips_enum_value (metaEnum : QMetaEnum) bits value :
  EnumTypeStreamer_getBits metaEnum = Some bits -> 0 <= bits <= 31 ->
  round_trips (EnumTypeStreamer_write metaEnum value)
    (EnumTypeStreamer_read metaEnum) (value mod 2 ^ bits).
Proof.
  intros Hbits Hb. unfold EnumTypeStreamer_write, EnumTypeStreamer_read.
  rewrite Hbits. apply round_trips_lift, round_trips_lift_r.
  exists (tab (Z.testbit value) (Z.to_nat bits)). split.
  - apply encodes_write_low. lia.
  - rewrite <- (low_bits_tab value bits) by lia.
    apply decodes_read_low; [lia|]. apply Z.mod_pos_bound.
    apply Z.pow_pos_nonneg; lia.
Qed.

Section IdenticalDeclarations.
Variable md5 : list Z -> list Z.
Variable resolve : list Z -> option StreamerInfo.
Variable st : StreamerInfo.
Hypothesis st_ok : enum_streamer_ok st.
Hypothesis keys_distinct : NoDup (map fst (enumerators (getMetaEnum st))).
Hypothesis registered : resolve (getName st) = Some st.
Hypothesis hash_ok : bytes_ok (md5 (enum_hash_data (getMetaEnum st))).

Lemma descriptor_exact metadataType genericsMode :
  metadataType = NO_METADATA \/ genericsMode = NO_GENERICS ->
  round_trips (operator_lt_TypeStreamer md5 metadataType (Some st))
    (operator_gt_TypeReader md5 resolve metadataType genericsMode)
    (TypeReader.exact (getName st) (Some st)).
Proof.
  intros Hmode.
  assert (Hgenerics : metadataType <> NO_METADATA -> genericsMode = NO_GENERICS)
    by (intros Hm; now destruct Hmode).
  clear Hmode.
  destruct st_ok as (Htype & Hne & Hnok & Hnlen & Hkvs & Hcount).
  assert (Hname : round_trips (operator_shl_QByteArray (getName st))
                    operator_shr_QByteArray (getName st))
    by now apply round_trips_name.
  assert (Htag : round_trips (operator_shl_int ENUM_TYPE) operator_shr_int ENUM_TYPE)
    by (apply round_trips_int; unfold ENUM_TYPE; lia).
  unfold operator_lt_TypeStreamer, operator_gt_TypeReader.
  apply (round_trips_bind _ _ _ _ (getName st)); [exact Hname|].
  cbv beta zeta. rewrite bool_decide_eq_false_2 by exact Hne. rewrite registered.
  destruct metadataType.
  - apply round_trips_ret.
  - rewrite Hgenerics by discriminate. rewrite Htype.
    apply (round_trips_bind _ _ _ _ ENUM_TYPE); [exact Htag|]. cbv beta.
    change (ENUM_TYPE =? SIMPLE_TYPE) with false.
    change (ENUM_TYPE =? ENUM_TYPE) with true. cbv iota.
    destruct (EnumTypeStreamer_getBits_some (getMetaEnum st)) as (bits & Hbits & Hb).
    { eapply Forall_impl; [exact Hkvs|]. intros kv (_ & _ & Hv). cbn beta. lia. }
    rewrite Hbits. apply round_trips_lift.
    apply (round_trips_bind _ _ _ _ bits); [apply round_trips_int; lia|].
    cbv beta iota zeta. rewrite ?Htype. change (ENUM_TYPE =? ENUM_TYPE) with true.
    cbv iota.
    apply (round_trips_then _ _ _ (md5 (enum_hash_data (getMetaEnum st))));
      [now apply round_trips_bytes|].
    now rewrite bool_decide_eq_true_2 by reflexivity.
  - rewrite Hgenerics by discriminate. rewrite Htype.
    apply (round_trips_bind _ _ _ _ ENUM_TYPE); [exact Htag|]. cbv beta.
    change (ENUM_TYPE =? SIMPLE_TYPE) with false.
    change (ENUM_TYPE =? ENUM_TYPE) with true. cbv iota.
    apply (round_trips_bind _ _ _ _ (keyCount (getMetaEnum st)));
      [apply round_trips_int; unfold keyCount; lia|].
    cbv beta iota zeta. rewrite ?Htype. change (ENUM_TYPE =? ENUM_TYPE) with true.
    cbv iota. rewrite Z.eqb_refl. unfold keyCount. rewrite Nat2Z.id.
    destruct (round_trips_enumerators_same (getMetaEnum st)
                (enumerators (getMetaEnum st)) Hkvs) with (mappings := (∅ : gmap Z Z))
      (highestValue := 0) as (mappings' & highestValue' & Hrt).
    { apply Forall_forall. intros kv Hin. now apply keyToValue_own. }
    apply (round_trips_then _ _ _ (mappings', true, highestValue'));
      [exact Hrt|reflexivity].
Qed.
End IdenticalDeclarations.

(** X17 — two sides that declare an enumeration identically negotiate an
    exact match in every metadata mode as long as the streamer is kept,
    that is without metadata or when generics are not forced (under
    ALL_GENERICS with hash or full metadata [operator>] drops the
    streamer): from the descriptor the peer sends (the name alone, the
    name with the width and the hash of the declaration, or the name with
    every key and value), the reader built is the local streamer itself,
    and the values that follow are read through it. *)
Theorem identical_enum_declarations_match_exactly
    (md5 : list Z -> list Z) (resolve : list Z -> option StreamerInfo)
    (st : StreamerInfo) (metadataType : MetadataType)
    (genericsMode : GenericsMode) (value : Z) :
  enum_streamer_ok st ->
  NoDup (map fst (enumerators (getMetaEnum st))) ->
  resolve (getName st) = Some st ->
  bytes_ok (md5 (enum_hash_data (getMetaEnum st))) ->
  metadataType = NO_METADATA \/ genericsMode = NO_GENERICS ->
  exists bits,
    EnumTypeStreamer_getBits (getMetaEnum st) = Some bits
    /\ round_trips (operator_lt_TypeStreamer md5 metadataType (Some st))
         (operator_gt_TypeReader md5 resolve metadataType genericsMode)
         (TypeReader.exact (getName st) (Some st))
    /\ round_trips (sends_enum md5 metadataType st value)
         (receives_enum md5 resolve metadataType genericsMode)
         (TypeReader.exact (getName st) (Some st), Some (value mod 2 ^ bits)).
Proof.
  intros Hok Hnd Hreg Hhash Hmode.
  pose proof (descriptor_exact md5 resolve st Hok Hnd Hreg Hhash metadataType
                genericsMode Hmode) as Hd.
  destruct Hok as (Htype & Hne & Hnok & Hnlen & Hkvs & Hcount).
  destruct (EnumTypeStreamer_getBits_some (getMetaEnum st)) as (bits & Hbits & Hb).
  { eapply Forall_impl; [exact Hkvs|]. intros kv (_ & _ & Hv). cbn beta. lia. }
  exists bits. split; [exact Hbits|]. split; [exact Hd|].
  unfold sends_enum, receives_enum.
  apply (round_trips_bind _ _ _ _ (TypeReader.exact (getName st) (Some st)));
    [exact Hd|].
  unfold TypeReader_read, TypeReader.exact.
  cbn [TypeReader._exactMatch TypeReader._streamer]. rewrite Htype.
  change (ENUM_TYPE =? ENUM_TYPE) with true. cbv iota.
  apply (round_trips_map _ _ (fun v : option Z =>
           ({| TypeReader._typeName := getName st;
               TypeReader._streamer := Some st;
               TypeReader._exactMatch := true;
               TypeReader._type := SIMPLE_TYPE;
               TypeReader._bits := 0;
               TypeReader._mappings := ∅ |}, v))).
  apply (round_trips_map _ _ Some).
  now apply round_trips_enum_value.
Qed.

Lemma local_Color_ok : enum_streamer_ok local_Color.
Proof.
  unfold enum_streamer_ok, enumerator_ok, bytes_ok.
  split; [reflexivity|]. split; [discriminate|].
  split; [repeat constructor; lia|]. split; [cbn; lia|].
  split; [|cbn; lia].
  repeat (apply Forall_cons_2; [cbn [fst snd]; split;
            [repeat constructor; lia|split; [cbn; lia|lia]]|]).
  apply Forall_nil_2.
Qed.

Lemma identical_enum_declarations_match_exactly_witness :
  exists bits,
    EnumTypeStreamer_getBits (getMetaEnum local_Color) = Some bits
    /\ round_trips (operator_lt_TypeStreamer toy_hash HASH_METADATA (Some local_Color))
         (operator_gt_TypeReader toy_hash local_registry HASH_METADATA NO_GENERICS)
         (TypeReader.exact (getName local_Color) (Some local_Color))
    /\ round_trips (sends_enum toy_hash HASH_METADATA local_Color 2)
         (receives_enum toy_hash local_registry HASH_METADATA NO_GENERICS)
         (TypeReader.exact (getName local_Color) (Some local_Color),
          Some (2 mod 2 ^ bits)).
Proof.
  apply (identical_enum_declarations_match_exactly toy_hash local_registry
           local_Color HASH_METADATA NO_GENERICS 2).
  - exact local_Color_ok.
  - cbn [map fst local_Color getMetaEnum enumerators].
    repeat (apply NoDup_cons; split; [set_solver|]). apply NoDup_nil_2.
  - reflexivity.
  - apply toy_hash_ok.
  - now right.
Defined.

(** X18 — an enumeration the local side cannot resolve, or any
    enumeration when generics are forced, under full metadata.  When it
    declares at least one key it is skipped cleanly: the whole descriptor
    is consumed, the reader built has no streamer and the peer's width, and
    the value that follows is consumed and yields an invalid variant.
    When it declares no key, the count of keys, 0, equals that of the
    null [QMetaEnum]: the reader built is an exact match on a null
    streamer, and [TypeReader::read] goes through that null pointer, so
    reading the value fails. *)
Theorem unknown_enum_is_skipped
    (md5 : list Z -> list Z) (resolve : list Z -> option StreamerInfo)
    (st : StreamerInfo) (genericsMode : GenericsMode) (value : Z) :
  enum_streamer_ok st ->
  resolve (getName st) = None \/ genericsMode = ALL_GENERICS ->
  exists bits,
    EnumTypeStreamer_getBits (getMetaEnum st) = Some bits
    /\ (enumerators (getMetaEnum st) <> [] ->
        round_trips (sends_enum md5 FULL_METADATA st value)
          (receives_enum md5 resolve FULL_METADATA genericsMode)
          (TypeReader.mapped (getName st) None bits ∅, None))
    /\ (enumerators (getMetaEnum st) = [] ->
        round_trips (operator_lt_TypeStreamer md5 FULL_METADATA (Some st))
          (operator_gt_TypeReader md5 resolve FULL_METADATA genericsMode)
          (TypeReader.exact (getName st) None)
        /\ (forall s, TypeReader_read (TypeReader.exact (getName st) None) s = None)
        /\ exists w,
             sends_enum md5 FULL_METADATA st value writer_new = Some (tt, w)
             /\ receives_enum md5 resolve FULL_METADATA genericsMode
                  (reader_new (ds_written (_underlying (flush w)))) = None).
Proof.
  intros (Htype & Hne & Hnok & Hnlen & Hkvs & Hcount) Hunknown.
  destruct (EnumTypeStreamer_getBits_some (getMetaEnum st)) as (bits & Hbits & Hb).
  { eapply Forall_impl; [exact Hkvs|]. intros kv (_ & _ & Hv). cbn beta. lia. }
  exists bits. split; [exact Hbits|].
  assert (Hstreamer :
    match genericsMode with
    | ALL_GENERICS => None
    | _ => resolve (getName st)
    end = None).
  { destruct Hunknown as [H| ->]; [now destruct genericsMode|reflexivity]. }
  split.
  - intros Hnonempty.
    unfold sends_enum, receives_enum.
    apply (round_trips_bind _ _ _ _ (TypeReader.mapped (getName st) None bits ∅)).
    + unfold operator_lt_TypeStreamer, operator_gt_TypeReader.
      apply (round_trips_bind _ _ _ _ (getName st)); [now apply round_trips_name|].
      cbv beta zeta. rewrite bool_decide_eq_false_2 by exact Hne. rewrite Htype.
      apply (round_trips_bind _ _ _ _ ENUM_TYPE);
        [apply round_trips_int; unfold ENUM_TYPE; lia|].
      cbv beta. change (ENUM_TYPE =? SIMPLE_TYPE) with false.
      change (ENUM_TYPE =? ENUM_TYPE) with true. cbv iota zeta.
      rewrite Hstreamer.
      apply (round_trips_bind _ _ _ _ (keyCount (getMetaEnum st)));
        [apply round_trips_int; unfold keyCount; lia|].
      cbv beta iota zeta.
      assert (Hcnt : keyCount (getMetaEnum st) =? keyCount QMetaEnum_null = false).
      { apply Z.eqb_neq. unfold keyCount. cbn [QMetaEnum_null enumerators length].
        destruct (enumerators (getMetaEnum st)); [contradiction|cbn [length]; lia]. }
      rewrite Hcnt. unfold keyCount at 1. rewrite Nat2Z.id.
      apply (round_trips_then _ _ _
               (∅, false,
                fold_left (fun highest kv => Z.max highest (snd kv))
                          (enumerators (getMetaEnum st)) 0));
        [exact (round_trips_enumerators_unknown _ Hkvs ∅ 0)|].
      cbv beta iota. unfold EnumTypeStreamer_getBits in Hbits. rewrite Hbits.
      reflexivity.
    + unfold TypeReader_read, TypeReader.mapped, EnumTypeStreamer_write.
      cbn [TypeReader._exactMatch TypeReader._streamer TypeReader._type
           TypeReader._bits TypeReader._mappings].
      change (ENUM_TYPE =? ENUM_TYPE) with true. cbv iota.
      rewrite Hbits. apply round_trips_lift.
      destruct (decodes_read_low_any value bits) as (data & Ddata & _); [lia|].
      apply (round_trips_map _ _ (fun v : option Z =>
               ({| TypeReader._typeName := getName st;
                   TypeReader._streamer := None;
                   TypeReader._exactMatch := false;
                   TypeReader._type := ENUM_TYPE;
                   TypeReader._bits := bits;
                   TypeReader._mappings := ∅ |}, v)) None).
      apply (round_trips_map _ _ (fun _ : list Z => @None Z) data).
      exists (tab (Z.testbit value) (Z.to_nat bits)).
      split; [apply encodes_write_low; lia|exact Ddata].
  - intros Hempty.
    assert (Hd : round_trips (operator_lt_TypeStreamer md5 FULL_METADATA (Some st))
                   (operator_gt_TypeReader md5 resolve FULL_METADATA genericsMode)
                   (TypeReader.exact (getName st) None)).
    { unfold operator_lt_TypeStreamer, operator_gt_TypeReader.
      apply (round_trips_bind _ _ _ _ (getName st)); [now apply round_trips_name|].
      cbv beta zeta. rewrite bool_decide_eq_false_2 by exact Hne. rewrite Htype.
      apply (round_trips_bind _ _ _ _ ENUM_TYPE);
        [apply round_trips_int; unfold ENUM_TYPE; lia|].
      cbv beta. change (ENUM_TYPE =? SIMPLE_TYPE) with false.
      change (ENUM_TYPE =? ENUM_TYPE) with true. cbv iota zeta.
      rewrite Hstreamer.
      apply (round_trips_bind _ _ _ _ (keyCount (getMetaEnum st)));
        [apply round_trips_int; unfold keyCount; lia|].
      cbv beta iota zeta. unfold keyCount. rewrite Hempty.
      cbn [length QMetaEnum_null enumerators Z.of_nat Z.to_nat Z.eqb
           read_enumerators write_enumerators].
      apply round_trips_ret. }
    assert (Hfail : forall s,
              TypeReader_read (TypeReader.exact (getName st) None) s = None)
      by reflexivity.
    split; [exact Hd|]. split; [exact Hfail|].
    assert (Hbits0 : bits = 0).
    { unfold EnumTypeStreamer_getBits in Hbits. rewrite Hempty in Hbits.
      cbn in Hbits. now injection Hbits as <-. }
    assert (Hs : round_trips (sends_enum md5 FULL_METADATA st value)
                   (operator_gt_TypeReader md5 resolve FULL_METADATA genericsMode)
                   (TypeReader.exact (getName st) None)).
    { destruct Hd as (l & E & D). exists l. split; [|exact D].
      unfold sends_enum. rewrite <- (app_nil_r l).
      eapply encodes_bind; [exact E|].
      unfold EnumTypeStreamer_write. rewrite Hbits, Hbits0.
      change (@nil bool) with ([] ++ tab (Z.testbit value) (Z.to_nat 0)).
      eapply encodes_bind; [apply encodes_lift|]. apply encodes_write_low. lia. }
    destruct (round_trips_end_to_end _ _ _ Hs) as (w & r & Ew & Er).
    exists w. split; [exact Ew|].
    unfold receives_enum, bind. rewrite Er. now rewrite Hfail.
Qed.

Lemma unknown_enum_is_skipped_witness :
  exists bits,
    EnumTypeStreamer_getBits (getMetaEnum peer_Color) = Some bits
    /\ round_trips (sends_enum toy_hash FULL_METADATA peer_Color 1)
         (receives_enum toy_hash (fun _ => None) FULL_METADATA NO_GENERICS)
         (TypeReader.mapped (getName peer_Color) None bits ∅, None).
Proof.
  destruct (unknown_enum_is_skipped toy_hash (fun _ => None) peer_Color
              NO_GENERICS 1) as (bits & Hbits & Hskip & _).
  - unfold enum_streamer_ok, enumerator_ok, bytes_ok.
    split; [reflexivity|]. split; [discriminate|].
    split; [repeat constructor; lia|]. split; [cbn; lia|].
    split; [|cbn; lia].
    repeat (apply Forall_cons_2; [cbn [fst snd]; split;
              [repeat constructor; lia|split; [cbn; lia|lia]]|]).
    apply Forall_nil_2.
  - left. reflexivity.
  - exists bits. split; [exact Hbits|]. apply Hskip. discriminate.
Defined.

(** ** Script values through the streamers *)

Section ThreadedCodecs.
Variable Streamers : Type.
Variable in_step : Streamers -> Streamers -> Prop.

Local Abbreviation restores := (Threaded.restores Streamers in_step).

Lemma restores_ret {A} (x : A) :
  restores (fun streamers => ret streamers) (fun streamers => ret (x, streamers)) x.
Proof.
  intros sent received Hin. exists [], sent, received.
  split; [apply encodes_ret|]. split; [apply decodes_ret|exact Hin].
Qed.

Lemma restores_bind {A B} (W1 W2 : Streamers -> M Streamers)
    (R1 : Streamers -> M (A * Streamers))
    (K : A * Streamers -> M (B * Streamers)) x y :
  restores W1 R1 x ->
  restores W2 (fun streamers => K (x, streamers)) y ->
  restores (fun streamers => let* streamers' := W1 streamers in W2 streamers')
           (fun streamers => let* r := R1 streamers in K r) y.
Proof.
  intros H1 H2 sent received Hin.
  destruct (H1 sent received Hin) as (l1 & s1 & r1 & E1 & D1 & Hin1).
  destruct (H2 s1 r1 Hin1) as (l2 & s2 & r2 & E2 & D2 & Hin2).
  exists (l1 ++ l2), s2, r2. split; [|split; [|exact Hin2]].
  - eapply encodes_bind; [exact E1|exact E2].
  - eapply decodes_bind; [exact D1|exact D2].
Qed.

Lemma restores_stateless {A B} (W : M unit) (R : M A)
    (W2 : Streamers -> M Streamers)
    (K : A -> Streamers -> M (B * Streamers)) x y :
  round_trips W R x ->
  restores W2 (K x) y ->
  restores (fun streamers => let* _ := W in W2 streamers)
           (fun streamers => let* a := R in K a streamers) y.
Proof.
  intros (l1 & E1 & D1) H2 sent received Hin.
  destruct (H2 sent received Hin) as (l2 & s2 & r2 & E2 & D2 & Hin2).
  exists (l1 ++ l2), s2, r2. split; [|split; [|exact Hin2]].
  - eapply encodes_bind; [exact E1|exact E2].
  - eapply decodes_bind; [exact D1|exact D2].
Qed.

Lemma restores_map {A B} (W : Streamers -> M Streamers)
    (R : Streamers -> M (A * Streamers)) (f : A -> B) x :
  restores W R x ->
  restores W (fun streamers =>
                let* (a, streamers') := R streamers in ret (f a, streamers'))
           (f x).
Proof.
  intros H sent received Hin.
  destruct (H sent received Hin) as (l & s & r & E & D & Hin').
  exists l, s, r. split; [exact E|]. split; [|exact Hin'].
  rewrite <- (app_nil_r l). eapply decodes_bind; [exact D|]. apply decodes_ret.
Qed.

Lemma restores_end_to_end {A} (W : Streamers -> M Streamers)
    (R : Streamers -> M (A * Streamers)) x sent received :
  restores W R x -> in_step sent received ->
  exists w sent' r received',
    W sent writer_new = Some (sent', w)
    /\ R received (reader_new (ds_written (_underlying (flush w))))
       = Some ((x, received'), r)
    /\ in_step sent' received'.
Proof.
  intros H Hin. destruct (H sent received Hin) as (l & s & r & E & D & Hin').
  destruct (end_to_end _ _ _ _ _ E D) as (w & Ew & rd & Er).
  exists w, s, rd, r. split; [exact Ew|]. split; [exact Er|exact Hin'].
Qed.
End ThreadedCodecs.

Section ThreadedScriptValues.
Context {QObject QMetaObject : Type}.
Variable Streamers : Type.
Variable shl_QVariant : QVariant -> Streamers -> M Streamers.
Variable shr_QVariant : Streamers -> M (QVariant * Streamers).
Variable shl_QObject : QObject -> Streamers -> M Streamers.
Variable shr_QObject : Streamers -> M (option QObject * Streamers).
Variable shl_QMetaObject : QMetaObject -> Streamers -> M Streamers.
Variable shr_QMetaObject : Streamers -> M (option QMetaObject * Streamers).
Variable shl_QScriptString : option (list Z) -> Streamers -> M Streamers.
Variable shr_QScriptString : Streamers -> M (option (list Z) * Streamers).
Variable in_step : Streamers -> Streamers -> Prop.
Variable name_ok : list Z -> Prop.
Variable variant_ok : QVariant -> Prop.

Local Abbreviation restores := (Threaded.restores Streamers in_step).

Hypothesis variant_codec : forall variant,
  variant_ok variant -> restores (shl_QVariant variant) shr_QVariant variant.
Hypothesis name_codec : forall name,
  name_ok name -> restores (shl_QScriptString (Some name)) shr_QScriptString (Some name).
Hypothesis invalid_name_codec :
  restores (shl_QScriptString None) shr_QScriptString None.

Local Abbreviation value_t := (QScriptValue QObject QMetaObject).
Local Abbreviation shl :=
  (Threaded.operator_shl_QScriptValue QObject QMetaObject Streamers shl_QVariant
     shl_QObject shl_QMetaObject shl_QScriptString).
Local Abbreviation shr :=
  (Threaded.operator_shr_QScriptValue QObject QMetaObject Streamers shr_QVariant
     shr_QObject shr_QMetaObject shr_QScriptString).

Lemma threaded_write_elements_cons {T}
    (write_elem : T -> Streamers -> M Streamers) x xs :
  Threaded.write_elements Streamers write_elem (x :: xs)
  = fun streamers =>
      let* streamers' := write_elem x streamers in
      Threaded.write_elements Streamers write_elem xs streamers'.
Proof. reflexivity. Qed.

Lemma restores_elements (write_elem : value_t -> Streamers -> M Streamers)
    (read_element : Streamers -> M (value_t * Streamers)) (xs : list value_t) :
  Forall (fun x => restores (write_elem x) read_element x) xs ->
  forall pre,
    restores (Threaded.write_elements Streamers write_elem xs)
      (Threaded.read_elements QObject QMetaObject Streamers read_element
         (length xs) (length pre) (pre ++ replicate (length xs) Invalid_value))
      (pre ++ xs).
Proof.
  induction 1 as [|x xs Hx _ IH]; intros pre.
  - cbn [length replicate Threaded.read_elements Threaded.write_elements].
    rewrite !app_nil_r. apply restores_ret.
  - rewrite threaded_write_elements_cons.
    cbn [length replicate Threaded.read_elements].
    apply (restores_bind _ _ _ _ _ _ x); [exact Hx|]. cbv beta iota.
    replace (<[length pre := x]> (pre ++ Invalid_value :: replicate (length xs) Invalid_value))
      with ((pre ++ [x]) ++ replicate (length xs) Invalid_value).
    2:{ rewrite insert_app_r_alt by lia. rewrite Nat.sub_diag. cbn [list_insert].
        now rewrite <- app_assoc. }
    replace (S (length pre)) with (length (pre ++ [x]))
      by (rewrite length_app; cbn [length]; lia).
    replace (pre ++ x :: xs) with ((pre ++ [x]) ++ xs) by now rewrite <- app_assoc.
    apply IH.
Qed.

Lemma restores_properties
    (read_value : Streamers -> M (value_t * Streamers))
    (properties : list (list Z * value_t)) :
  Forall (fun property =>
            name_ok (fst property)
            /\ restores (shl (snd property)) read_value (snd property)
            /\ snd property <> Invalid_value) properties ->
  forall k set,
    (length properties < k)%nat ->
    NoDup (map fst (set ++ properties)) ->
    restores
      (fun streamers =>
         let* streamers' :=
           Threaded.write_elements Streamers
             (fun property streamers' =>
                let* streamers'' :=
                  shl_QScriptString (Some (fst property)) streamers' in
                shl (snd property) streamers'') properties streamers in
         shl_QScriptString None streamers')
      (Threaded.read_properties QObject QMetaObject Streamers shr_QScriptString
         read_value k set)
      (set ++ properties).
Proof.
  induction 1 as [|[name scriptValue] ps (Hname & Hvalue & Hvalid) _ IH];
    intros k set Hk Hnd; (destruct k as [|k]; [cbn [length] in Hk; lia|]).
  - cbn [Threaded.write_elements Threaded.read_properties]. rewrite app_nil_r.
    intros sent received Hin.
    destruct (invalid_name_codec sent received Hin) as (l & s & r & E & D & Hin').
    exists l, s, r. split; [|split; [|exact Hin']].
    + change l with ([] ++ l). eapply encodes_bind; [apply encodes_ret|exact E].
    + rewrite <- (app_nil_r l). eapply decodes_bind; [exact D|]. apply decodes_ret.
  - rewrite threaded_write_elements_cons. cbn [fst snd length] in *.
    cbn [Threaded.read_properties].
    intros sent received Hin.
    destruct (name_codec name Hname sent received Hin)
      as (l1 & s1 & r1 & E1 & D1 & Hin1).
    destruct (Hvalue s1 r1 Hin1) as (l2 & s2 & r2 & E2 & D2 & Hin2).
    assert (Hset : setProperty QObject QMetaObject set name scriptValue
                   = set ++ [(name, scriptValue)]).
    { apply setProperty_fresh; [|exact Hvalid].
      rewrite map_app in Hnd. apply NoDup_app in Hnd as (_ & Hnd & _).
      intros Hi. apply (Hnd name Hi). cbn [map fst]. apply elem_of_cons. now left. }
    replace (set ++ (name, scriptValue) :: ps)
      with ((set ++ [(name, scriptValue)]) ++ ps) in * by now rewrite <- app_assoc.
    destruct (IH k (set ++ [(name, scriptValue)]) ltac:(lia) Hnd s2 r2 Hin2)
      as (l3 & s3 & r3 & E3 & D3 & Hin3).
    exists (l1 ++ l2 ++ l3), s3, r3. split; [|split; [|exact Hin3]].
    + intros w Hw.
      destruct (E1 w Hw) as (w1 & Ew1 & Hok1 & Hu1 & Hb1).
      destruct (E2 w1 Hok1) as (w2 & Ew2 & Hok2 & Hu2 & Hb2).
      destruct (E3 w2 Hok2) as (w3 & Ew3 & Hok3 & Hu3 & Hb3).
      exists w3. split.
      * unfold bind in *. rewrite Ew1, Ew2. exact Ew3.
      * split; [exact Hok3|]. split; [congruence|].
        rewrite Hb3, Hb2, Hb1. now rewrite <- !app_assoc.
    + eapply decodes_bind; [exact D1|]. cbv beta iota.
      eapply decodes_bind; [exact D2|]. cbv beta iota. rewrite Hset. exact D3.
Qed.

Ltac threaded_tag tag :=
  cbn [Threaded.operator_shl_QScriptValue Threaded.operator_shr_QScriptValue];
  apply (restores_stateless _ _ _ _ _ _ tag);
    [apply round_trips_ScriptValueType; unfold tag; lia|];
  cbv beta;
  unfold INVALID_SCRIPT_VALUE, UNDEFINED_SCRIPT_VALUE, NULL_SCRIPT_VALUE,
    BOOL_SCRIPT_VALUE, NUMBER_SCRIPT_VALUE, STRING_SCRIPT_VALUE,
    VARIANT_SCRIPT_VALUE, QOBJECT_SCRIPT_VALUE, QMETAOBJECT_SCRIPT_VALUE,
    DATE_SCRIPT_VALUE, REGEXP_SCRIPT_VALUE, ARRAY_SCRIPT_VALUE,
    OBJECT_SCRIPT_VALUE;
  cbn [Z.eqb Pos.eqb].

Ltac threaded_payload x lemma :=
  apply (restores_stateless _ _ _ _ _ _ x); [apply lemma; assumption|];
  apply restores_ret.

Lemma supported_restores fuel :
  forall (v prior : value_t),
    supported name_ok variant_ok fuel v -> restores (shl v) (shr fuel prior) v.
Proof.
  induction fuel as [|fuel IH]; intros v prior Hs; inversion Hs; subst.
  - threaded_tag INVALID_SCRIPT_VALUE. apply restores_ret.
  - threaded_tag UNDEFINED_SCRIPT_VALUE. apply restores_ret.
  - threaded_tag NULL_SCRIPT_VALUE. apply restores_ret.
  - threaded_tag BOOL_SCRIPT_VALUE.
    apply (restores_stateless _ _ _ _ _ _ b); [apply round_trips_bool|].
    apply restores_ret.
  - threaded_tag NUMBER_SCRIPT_VALUE. threaded_payload bits round_trips_double.
  - threaded_tag STRING_SCRIPT_VALUE. threaded_payload string round_trips_QString.
  - threaded_tag VARIANT_SCRIPT_VALUE.
    apply (restores_map _ _ _ _ Variant_value). now apply variant_codec.
  - threaded_tag DATE_SCRIPT_VALUE.
    unfold operator_shl_QDateTime, operator_shr_QDateTime.
    threaded_payload msecs round_trips_qint64.
  - threaded_tag REGEXP_SCRIPT_VALUE.
    apply (restores_stateless _ _ _ _ _ _
             (RegExp_value pattern caseSensitivity syntax minimal));
      [now apply round_trips_QRegExp|].
    apply restores_ret.
  - threaded_tag ARRAY_SCRIPT_VALUE.
    apply (restores_stateless _ _ _ _ _ _ (Z.of_nat (length elements)));
      [apply round_trips_int; lia|].
    cbv beta. rewrite Nat2Z.id.
    apply (restores_map _ _ _ _ Array_value).
    apply (restores_elements _ _ elements) with (pre := []).
    eapply Forall_impl; [eassumption|]. intros x Hx. now apply IH.
  - threaded_tag OBJECT_SCRIPT_VALUE.
    apply (restores_map _ _ _ _ Object_value).
    apply (restores_properties _ properties) with (set := []);
      [|assumption|assumption].
    eapply Forall_impl; [eassumption|]. intros p (Hn & Hp & Hv).
    split; [exact Hn|]. split; [now apply IH|exact Hv].
Qed.
End ThreadedScriptValues.

(** ** Deltas of script values through the streamers *)

Section ScriptProperties.
Variables QObject QMetaObject : Type.

Local Abbreviation value_t := (QScriptValue QObject QMetaObject).
Local Abbreviation named m := (fun property : list Z * value_t => bool_decide (fst property = m)).
Local Abbreviation property_of ps m :=
  (Threaded.script_property QObject QMetaObject (Object_value ps) m).
Local Abbreviation set_all :=
  (fold_left (fun properties (entry : list Z * value_t) =>
                setProperty QObject QMetaObject properties (fst entry) (snd entry))).

Lemma find_named_app (ps qs : list (list Z * value_t)) m :
  find (named m) (ps ++ qs)
  = match find (named m) ps with
    | Some p => Some p
    | None => find (named m) qs
    end.
Proof.
  induction ps as [|p ps IH]; [reflexivity|].
  cbn [app find]. now destruct (bool_decide (fst p = m)).
Qed.

Lemma find_named_absent (ps : list (list Z * value_t)) m :
  m ∉ map fst ps -> find (named m) ps = None.
Proof.
  induction ps as [|p ps IH]; [reflexivity|].
  cbn [map]. intros [Hp Hps]%not_elem_of_cons. cbn [find].
  rewrite bool_decide_eq_false_2 by congruence. now apply IH.
Qed.

Lemma find_named_present (ps : list (list Z * value_t)) m p :
  find (named m) ps = Some p -> p ∈ ps /\ fst p = m.
Proof.
  induction ps as [|q ps IH]; [discriminate|].
  cbn [find]. destruct (bool_decide (fst q = m)) eqn:Hq.
  - intros [= <-]. apply bool_decide_eq_true in Hq. split; [|exact Hq].
    apply elem_of_cons. now left.
  - intros H. destruct (IH H) as [Hin Hm]. split; [|exact Hm].
    apply elem_of_cons. now right.
Qed.

Lemma find_named_member (ps : list (list Z * value_t)) p :
  NoDup (map fst ps) -> p ∈ ps -> find (named (fst p)) ps = Some p.
Proof.
  induction ps as [|q ps IH]; [intros _ H; now apply elem_of_nil in H|].
  cbn [map]. intros [Hq Hnd]%NoDup_cons [->|Hin]%elem_of_cons; cbn [find].
  - now rewrite bool_decide_eq_true_2.
  - rewrite bool_decide_eq_false_2; [now apply IH|].
    intros Heq. apply Hq. rewrite Heq.
    apply list_elem_of_In, in_map. now apply list_elem_of_In.
Qed.

Lemma find_named_filter (ps : list (list Z * value_t)) n m :
  find (named m) (filter (fun p => fst p <> n) ps)
  = if decide (m = n) then None else find (named m) ps.
Proof.
  induction ps as [|p ps IH]; [now destruct (decide (m = n))|].
  destruct (decide (fst p = n)) as [Hp|Hp].
  - rewrite filter_cons_False by (intros H; now apply H).
    rewrite IH. cbn [find]. destruct (decide (m = n)) as [->|Hm]; [reflexivity|].
    rewrite bool_decide_eq_false_2 by congruence. reflexivity.
  - rewrite filter_cons_True by exact Hp. cbn [find]. rewrite IH.
    destruct (decide (m = n)) as [->|Hm]; [|reflexivity].
    now rewrite bool_decide_eq_false_2.
Qed.

(** A property that was set is what is found under its name, also when
    setting the invalid value removed it; the others are untouched. *)
Lemma property_of_setProperty (ps : list (list Z * value_t)) n v m :
  property_of (setProperty QObject QMetaObject ps n v) m
  = if decide (m = n) then v else property_of ps m.
Proof.
  assert (Hset : forall w, w <> Invalid_value ->
            property_of (filter (fun p => fst p <> n) ps ++ [(n, w)]) m
            = if decide (m = n) then w else property_of ps m).
  { intros w _. cbn [Threaded.script_property]. rewrite find_named_app, find_named_filter.
    destruct (decide (m = n)) as [->|Hm].
    - cbn [find fst]. now rewrite bool_decide_eq_true_2.
    - destruct (find (named m) ps); [reflexivity|].
      cbn [find fst]. now rewrite bool_decide_eq_false_2 by congruence. }
  unfold setProperty. destruct v; try (apply Hset; discriminate).
  cbn [Threaded.script_property]. rewrite find_named_filter.
  now destruct (decide (m = n)).
Qed.

Lemma names_setProperty (ps : list (list Z * value_t)) n v :
  NoDup (map fst ps) -> NoDup (map fst (setProperty QObject QMetaObject ps n v)).
Proof.
  intros Hnd.
  assert (Hf : NoDup (map fst (filter (fun p => fst p <> n) ps))).
  { induction ps as [|p ps IH]; [apply NoDup_nil_2|].
    cbn [map] in Hnd. apply NoDup_cons in Hnd as [Hp Hnd].
    destruct (decide (fst p = n)) as [He|He].
    - rewrite filter_cons_False by (intros H; now apply H). now apply IH.
    - rewrite filter_cons_True by exact He. cbn [map]. apply NoDup_cons.
      split; [|now apply IH].
      intros Hin. apply Hp. apply list_elem_of_In, in_map_iff in Hin as (q & Hq & Hin).
      apply list_elem_of_In, list_elem_of_filter in Hin as [_ Hin].
      rewrite <- Hq. apply list_elem_of_In, in_map. now apply list_elem_of_In. }
  assert (Hn : n ∉ map fst (filter (fun p => fst p <> n) ps)).
  { intros Hin. apply list_elem_of_In, in_map_iff in Hin as (q & Hq & Hin).
    apply list_elem_of_In, list_elem_of_filter in Hin as [Hne _]. now apply Hne. }
  unfold setProperty.
  destruct v; try exact Hf;
    rewrite map_app; cbn [map fst]; apply NoDup_app;
    (split; [exact Hf|split; [|apply NoDup_singleton]]);
    (intros x Hx [->|H]%elem_of_cons; [now apply Hn|now apply elem_of_nil in H]).
Qed.

Lemma names_set_all (es : list (list Z * value_t)) :
  forall acc, NoDup (map fst acc) -> NoDup (map fst (set_all es acc)).
Proof.
  induction es as [|e es IH]; intros acc Hacc; [exact Hacc|].
  cbn [fold_left]. now apply IH, names_setProperty.
Qed.

(** After a run of [setProperty], a name holds what the run set it to, or
    what it held before. *)
Lemma property_of_set_all (es : list (list Z * value_t)) m :
  NoDup (map fst es) ->
  forall acc,
    property_of (set_all es acc) m
    = match find (named m) es with
      | Some e => snd e
      | None => property_of acc m
      end.
Proof.
  induction es as [|e es IH]; intros Hnd acc; [reflexivity|].
  cbn [map] in Hnd. apply NoDup_cons in Hnd as [He Hnd].
  cbn [fold_left find]. rewrite (IH Hnd), property_of_setProperty.
  destruct (decide (m = fst e)) as [->|Hm].
  - rewrite bool_decide_eq_true_2 by reflexivity.
    now rewrite find_named_absent.
  - now rewrite bool_decide_eq_false_2 by congruence.
Qed.

Lemma names_omap (step : list Z * value_t -> option (list Z * value_t))
    (xs : list (list Z * value_t)) m :
  (forall p q, step p = Some q -> fst q = fst p) ->
  m ∈ map fst (omap step xs) -> m ∈ map fst xs.
Proof.
  intros Hstep. induction xs as [|x xs IH]; [easy|].
  cbn [omap list_omap]. fold (omap step xs).
  destruct (step x) as [q|] eqn:Hq; cbn [map]; intros Hin.
  - apply elem_of_cons in Hin as [->|Hin]; apply elem_of_cons;
      [left; now apply Hstep|right; now apply IH].
  - apply elem_of_cons. right. now apply IH.
Qed.

Lemma NoDup_names_omap (step : list Z * value_t -> option (list Z * value_t))
    (xs : list (list Z * value_t)) :
  (forall p q, step p = Some q -> fst q = fst p) ->
  NoDup (map fst xs) -> NoDup (map fst (omap step xs)).
Proof.
  intros Hstep. induction xs as [|x xs IH]; [easy|].
  cbn [map]. intros [Hx Hnd]%NoDup_cons.
  cbn [omap list_omap]. fold (omap step xs).
  destruct (step x) as [q|] eqn:Hq; [|now apply IH].
  cbn [map]. apply NoDup_cons. split; [|now apply IH].
  rewrite (Hstep _ _ Hq). intros Hin. apply Hx. now apply (names_omap step).
Qed.

Lemma find_named_omap (step : list Z * value_t -> option (list Z * value_t))
    (xs : list (list Z * value_t)) m :
  (forall p q, step p = Some q -> fst q = fst p) ->
  NoDup (map fst xs) ->
  find (named m) (omap step xs)
  = match find (named m) xs with
    | Some p => step p
    | None => None
    end.
Proof.
  intros Hstep. induction xs as [|x xs IH]; [reflexivity|].
  cbn [map]. intros [Hx Hnd]%NoDup_cons.
  cbn [omap list_omap]. fold (omap step xs). cbn [find].
  destruct (step x) as [q|] eqn:Hq.
  - cbn [find]. rewrite (Hstep _ _ Hq).
    destruct (bool_decide (fst x = m)); [symmetry; exact Hq|now apply IH].
  - destruct (bool_decide (fst x = m)) eqn:Hm; [|now apply IH].
    apply bool_decide_eq_true in Hm. subst m. cbv beta iota. rewrite Hq.
    apply find_named_absent.
    intros Hin. apply Hx. now apply (names_omap step).
Qed.
End ScriptProperties.

Section ThreadedDeltas.
Context {QObject QMetaObject : Type}.
Variable Streamers : Type.
Variable shl_QVariant : QVariant -> Streamers -> M Streamers.
Variable shr_QVariant : Streamers -> M (QVariant * Streamers).
Variable shl_QObject : QObject -> Streamers -> M Streamers.
Variable shr_QObject : Streamers -> M (option QObject * Streamers).
Variable shl_QMetaObject : QMetaObject -> Streamers -> M Streamers.
Variable shr_QMetaObject : Streamers -> M (option QMetaObject * Streamers).
Variable shl_QScriptString : option (list Z) -> Streamers -> M Streamers.
Variable shr_QScriptString : Streamers -> M (option (list Z) * Streamers).
Variable writeRawDelta_QVariant : QVariant -> QVariant -> Streamers -> M Streamers.
Variable readRawDelta_QVariant : QVariant -> Streamers -> M (QVariant * Streamers).
Variable writeRawDelta_QObject : QObject -> QObject -> Streamers -> M Streamers.
Variable readRawDelta_QObject : QObject -> Streamers -> M (option QObject * Streamers).
Variable writeDelta_QScriptValue :
  QScriptValue QObject QMetaObject -> QScriptValue QObject QMetaObject ->
  Streamers -> M Streamers.
Variable readDelta_QScriptValue :
  QScriptValue QObject QMetaObject -> Streamers ->
  M (QScriptValue QObject QMetaObject * Streamers).
Variable script_equals :
  QScriptValue QObject QMetaObject -> QScriptValue QObject QMetaObject -> bool.
Variable newQObject : option QObject -> QScriptValue QObject QMetaObject.
Variable newQMetaObject : option QMetaObject -> QScriptValue QObject QMetaObject.
Variable in_step : Streamers -> Streamers -> Prop.
Variable name_ok : list Z -> Prop.
Variable variant_ok : QVariant -> Prop.

Local Abbreviation restores := (Threaded.restores Streamers in_step).

Hypothesis variant_codec : forall variant,
  variant_ok variant -> restores (shl_QVariant variant) shr_QVariant variant.
Hypothesis name_codec : forall name,
  name_ok name -> restores (shl_QScriptString (Some name)) shr_QScriptString (Some name).
Hypothesis invalid_name_codec :
  restores (shl_QScriptString None) shr_QScriptString None.

Local Abbreviation value_t := (QScriptValue QObject QMetaObject).
Local Abbreviation shl :=
  (Threaded.operator_shl_QScriptValue QObject QMetaObject Streamers shl_QVariant
     shl_QObject shl_QMetaObject shl_QScriptString).
Local Abbreviation shr :=
  (Threaded.operator_shr_QScriptValue QObject QMetaObject Streamers shr_QVariant
     shr_QObject shr_QMetaObject shr_QScriptString).
Local Abbreviation writeRawDelta :=
  (Threaded.writeRawDelta QObject QMetaObject Streamers shl_QVariant
     shl_QObject shl_QMetaObject shl_QScriptString writeRawDelta_QVariant
     writeRawDelta_QObject writeDelta_QScriptValue script_equals).
Local Abbreviation readRawDelta :=
  (Threaded.readRawDelta QObject QMetaObject Streamers shr_QVariant
     shr_QObject shr_QMetaObject shr_QScriptString readRawDelta_QVariant
     readRawDelta_QObject readDelta_QScriptValue newQObject newQMetaObject).
Local Abbreviation flat_delta_bits := (Threaded.flat_delta_bits QObject QMetaObject).
Local Abbreviation property_of := (Threaded.script_property QObject QMetaObject).

Lemma plain_restores fuel (value prior : value_t) :
  supported name_ok variant_ok fuel value ->
  restores (shl value) (shr fuel prior) value.
Proof.
  intros Hs.
  exact (supported_restores Streamers shl_QVariant shr_QVariant shl_QObject
           shr_QObject shl_QMetaObject shr_QMetaObject shl_QScriptString
           shr_QScriptString in_step name_ok variant_ok variant_codec name_codec
           invalid_name_codec fuel value prior Hs).
Qed.

(** A value of the kind of the reference: the flag 0 and the payload,
    which is what [operator<<] sends without the four bits of the kind. *)
Lemma same_kind_delta {A} (tag : Z) (W : M unit) (R : M A) (f : A -> value_t)
    (other : M (value_t * Streamers)) (x : A) (sent received : Streamers) :
  round_trips W R x ->
  exists plain,
    encodes (let* _ := writeScriptValueType tag in let* _ := W in ret sent)
            plain sent
    /\ encodes (let* _ := write_bool_m false in let* _ := W in ret sent)
               (false :: drop (Z.to_nat SCRIPT_VALUE_BITS) plain) sent
    /\ decodes (let* typeChanged := read_bool_m in
                if typeChanged then other
                else let* a := R in ret (f a, received))
               (false :: drop (Z.to_nat SCRIPT_VALUE_BITS) plain)
               (f x, received).
Proof.
  intros (l & E & D).
  assert (Ep : encodes (let* _ := W in ret sent) l sent).
  { rewrite <- (app_nil_r l). eapply encodes_bind; [exact E|apply encodes_ret]. }
  exists (tab (Z.testbit tag) 4 ++ l).
  rewrite drop_app_length' by (rewrite tab_length; reflexivity).
  split; [|split].
  - eapply encodes_bind; [apply encodes_writeScriptValueType|exact Ep].
  - change (false :: l) with ([false] ++ l).
    eapply encodes_bind; [apply encodes_write_bool|exact Ep].
  - change (false :: l) with ([false] ++ l).
    eapply decodes_bind; [apply decodes_read_bool|]. cbv iota.
    rewrite <- (app_nil_r l). eapply decodes_bind; [exact D|apply decodes_ret].
Qed.

Lemma flat_delta k fuel (value prior reference : value_t) :
  Threaded.nested_delta QObject QMetaObject value reference = false ->
  supported name_ok variant_ok fuel value ->
  forall sent received,
    in_step sent received ->
    exists plain sent' received',
      encodes (shl value sent) plain sent'
      /\ encodes (writeRawDelta (S k) value reference sent)
                 (flat_delta_bits value reference plain) sent'
      /\ decodes (readRawDelta fuel prior reference received)
                 (flat_delta_bits value reference plain) (value, received')
      /\ in_step sent' received'.
Proof.
  intros Hr Hs sent received Hin.
  assert (Hf : exists n, fuel = S n) by (inversion Hs; eauto).
  destruct Hf as [n ->].
  assert (Hplain : exists plain sent' received',
             encodes (shl value sent) plain sent'
             /\ decodes (shr (S n) prior received) plain (value, received')
             /\ in_step sent' received')
    by exact (plain_restores (S n) value prior Hs sent received Hin).
  assert (Hchanged : forall read_same,
    exists plain sent' received',
      encodes (shl value sent) plain sent'
      /\ encodes (let* _ := write_bool_m true in shl value sent)
                 (true :: plain) sent'
      /\ decodes (let* typeChanged := read_bool_m in
                  if typeChanged then shr (S n) prior received else read_same)
                 (true :: plain) (value, received')
      /\ in_step sent' received').
  { intros read_same. destruct Hplain as (plain & s & r & E & D & Hin').
    exists plain, s, r. split; [exact E|]. split; [|split; [|exact Hin']].
    - change (true :: plain) with ([true] ++ plain).
      eapply encodes_bind; [apply encodes_write_bool|exact E].
    - change (true :: plain) with ([true] ++ plain).
      eapply decodes_bind; [apply decodes_read_bool|exact D]. }
  destruct reference;
    cbn [Threaded.writeRawDelta Threaded.readRawDelta];
    try (destruct Hplain as (plain & s & r & E & D & Hin');
         exists plain, s, r; now repeat split);
    destruct value; try discriminate Hr; try (now inversion Hs);
    try (apply Hchanged);
    inversion Hs; subst;
    cbn [Threaded.operator_shl_QScriptValue];
    unfold Threaded.flat_delta_bits; cbn [Threaded.script_kind];
    rewrite Z.eqb_refl.
  - destruct (same_kind_delta BOOL_SCRIPT_VALUE (write_bool_m b0) read_bool_m
                Bool_value (shr (S n) prior received) b0 sent received
                (round_trips_bool b0)) as (plain & E1 & E2 & D).
    exists plain, sent, received. now repeat split.
  - destruct (same_kind_delta NUMBER_SCRIPT_VALUE (operator_shl_double bits0)
                operator_shr_double Number_value (shr (S n) prior received)
                bits0 sent received (round_trips_double bits0 ltac:(assumption)))
      as (plain & E1 & E2 & D).
    exists plain, sent, received. now repeat split.
  - destruct (same_kind_delta STRING_SCRIPT_VALUE (operator_shl_QString string0)
                operator_shr_QString String_value (shr (S n) prior received)
                string0 sent received (round_trips_QString string0 ltac:(assumption)))
      as (plain & E1 & E2 & D).
    exists plain, sent, received. now repeat split.
  - destruct (same_kind_delta DATE_SCRIPT_VALUE
                (operator_shl_QDateTime msecsSinceEpoch0)
                operator_shr_QDateTime Date_value (shr (S n) prior received)
                msecsSinceEpoch0 sent received
                (round_trips_qint64 msecsSinceEpoch0 ltac:(assumption)))
      as (plain & E1 & E2 & D).
    exists plain, sent, received. now repeat split.
  - destruct (same_kind_delta REGEXP_SCRIPT_VALUE
                (operator_shl_QRegExp pattern0 caseSensitivity0 syntax0 minimal0)
                (operator_shr_QRegExp QObject QMetaObject) (fun regExp => regExp)
                (shr (S n) prior received)
                (RegExp_value pattern0 caseSensitivity0 syntax0 minimal0)
                sent received
                (round_trips_QRegExp pattern0 caseSensitivity0 syntax0 minimal0
                   ltac:(assumption) ltac:(assumption) ltac:(assumption)))
      as (plain & E1 & E2 & D).
    exists plain, sent, received. now repeat split.
Qed.
Local Abbreviation read_deltas :=
  (Threaded.read_property_deltas QObject QMetaObject Streamers shr_QScriptString).
Local Abbreviation sends_entries :=
  (Threaded.sends_entries QObject QMetaObject Streamers shl_QVariant shl_QObject
     shl_QMetaObject shl_QScriptString writeRawDelta_QVariant
     writeRawDelta_QObject writeDelta_QScriptValue script_equals).
Local Abbreviation set_all :=
  (fold_left (fun properties (entry : list Z * value_t) =>
                setProperty QObject QMetaObject properties (fst entry) (snd entry))).

(** One loop of the object case: the properties for which [step] gives an
    entry are sent as a name and a delta, and received by as many turns
    of the reader's loop, which sets them. *)
Lemma delta_entries_loop (k : nat)
    (read_delta : value_t -> Streamers -> M (value_t * Streamers))
    (reference : value_t)
    (g : list Z * value_t -> Streamers -> M Streamers)
    (step : list Z * value_t -> option (list Z * value_t * value_t))
    (xs : list (list Z * value_t)) :
  Forall (fun x =>
            match step x with
            | None => g x = (fun streamers => ret streamers)
            | Some (name, v, rv) =>
              g x = (fun streamers =>
                       let* streamers' := shl_QScriptString (Some name) streamers in
                       writeRawDelta k v rv streamers')
              /\ rv = property_of reference name
              /\ name_ok name
              /\ restores (writeRawDelta k v rv) (read_delta rv) v
            end) xs ->
  forall sent received,
    in_step sent received ->
    exists l sent' received',
      sends_entries k sent (omap step xs) l sent'
      /\ encodes (Threaded.write_elements Streamers g xs sent) l sent'
      /\ in_step sent' received'
      /\ forall K acc rest y,
          (length xs < K)%nat ->
          (forall K', (K <= K' + length xs)%nat ->
             decodes (read_deltas read_delta reference K'
                        (set_all (fst <$> omap step xs) acc) received') rest y) ->
          decodes (read_deltas read_delta reference K acc received) (l ++ rest) y.
Proof.
  induction 1 as [|x xs Hx _ IH]; intros sent received Hin.
  - exists [], sent, received. split; [constructor|]. split; [apply encodes_ret|].
    split; [exact Hin|]. intros K acc rest y HK Hrest.
    apply (Hrest K). cbn [length]. lia.
  - assert (Hom : omap step (x :: xs)
                  = match step x with
                    | Some entry => entry :: omap step xs
                    | None => omap step xs
                    end) by reflexivity.
    rewrite Hom, threaded_write_elements_cons.
    destruct (step x) as [[[name v] rv]|] eqn:Hstep.
    + destruct Hx as (Hg & Hrv & Hname & Hrt). rewrite Hg.
      destruct (name_codec name Hname sent received Hin)
        as (l1 & s1 & r1 & E1 & D1 & Hin1).
      destruct (Hrt s1 r1 Hin1) as (l2 & s2 & r2 & E2 & D2 & Hin2).
      destruct (IH s2 r2 Hin2) as (l3 & s3 & r3 & Hsends & E3 & Hin3 & Hread).
      exists (l1 ++ l2 ++ l3), s3, r3.
      split; [econstructor; eassumption|].
      split; [|split; [exact Hin3|]].
      * rewrite app_assoc. eapply encodes_bind; [|exact E3].
        eapply encodes_bind; [exact E1|exact E2].
      * intros K acc rest y HK Hrest.
        destruct K as [|K]; [lia|]. cbn [length] in HK.
        cbn [Threaded.read_property_deltas].
        rewrite <- !app_assoc.
        eapply decodes_bind; [exact D1|]. cbv beta iota. rewrite <- Hrv.
        eapply decodes_bind; [exact D2|]. cbv beta iota.
        apply Hread; [lia|]. intros K' HK'. specialize (Hrest K').
        cbn [fmap list_fmap fst snd fold_left] in Hrest. apply Hrest.
        cbn [length]. lia.
    + rewrite Hx.
      destruct (IH sent received Hin) as (l & s & r & Hsends & E & Hin' & Hread).
      exists l, s, r. split; [exact Hsends|]. split; [|split; [exact Hin'|]].
      * change l with ([] ++ l). eapply encodes_bind; [apply encodes_ret|exact E].
      * intros K acc rest y HK Hrest. cbn [length] in HK.
        apply Hread; [lia|]. intros K' HK'. apply Hrest. cbn [length]. lia.
Qed.
Section ObjectDelta.
Variables (properties referenceProperties : list (list Z * value_t)).
Variables (k n : nat).

Local Abbreviation value := (Object_value properties : value_t).
Local Abbreviation reference := (Object_value referenceProperties : value_t).

Hypothesis equals_sound : forall first second : value_t,
  script_equals first second = true -> first = second.
Hypothesis names : NoDup (map fst properties).
Hypothesis reference_names : NoDup (map fst referenceProperties).
Hypothesis properties_ok :
  Forall (fun property =>
            name_ok (fst property)
            /\ supported name_ok variant_ok (S n) (snd property)
            /\ snd property <> Invalid_value
            /\ (script_equals (snd property) (property_of reference (fst property))
                = false ->
                Threaded.nested_delta QObject QMetaObject (snd property)
                  (property_of reference (fst property)) = false))
         properties.
Hypothesis reference_names_ok :
  Forall (fun property => name_ok (fst property)) referenceProperties.
Hypothesis enough : (length properties + length referenceProperties < S n)%nat.

Local Abbreviation changed :=
  (fun property : list Z * value_t =>
     let referenceValue := property_of reference (fst property) in
     if negb (script_equals (snd property) referenceValue)
     then Some (fst property, snd property, referenceValue) else None).
Local Abbreviation removed :=
  (fun property : list Z * value_t =>
     if negb (Threaded.script_isValid QObject QMetaObject
                (property_of value (fst property)))
     then Some (fst property, Invalid_value : value_t, snd property) else None).
Local Abbreviation changed_set :=
  (fun property : list Z * value_t => fst <$> changed property).
Local Abbreviation removed_set :=
  (fun property : list Z * value_t => fst <$> removed property).
Local Abbreviation copied := (set_all referenceProperties []).
Local Abbreviation rebuilt :=
  (set_all (fst <$> omap removed referenceProperties)
     (set_all (fst <$> omap changed properties) copied)).

Lemma flat_restores k' (value' prior reference' : value_t) :
  Threaded.nested_delta QObject QMetaObject value' reference' = false ->
  supported name_ok variant_ok (S n) value' ->
  restores (writeRawDelta (S k') value' reference')
           (readRawDelta (S n) prior reference') value'.
Proof.
  intros Hflat Hs sent received Hin.
  destruct (flat_delta k' (S n) value' prior reference' Hflat Hs sent received Hin)
    as (plain & s & r & _ & E & D & Hin').
  exists (flat_delta_bits value' reference' plain), s, r. now repeat split.
Qed.

Lemma changed_name p q : changed_set p = Some q -> fst q = fst p.
Proof.
  cbv beta zeta. destruct (script_equals _ _); cbn [negb fmap option_fmap option_map];
    [discriminate|now intros [= <-]].
Qed.

Lemma removed_name p q : removed_set p = Some q -> fst q = fst p.
Proof.
  cbv beta. destruct (Threaded.script_isValid _ _ _);
    cbn [negb fmap option_fmap option_map]; [discriminate|now intros [= <-]].
Qed.

Lemma object_delta (prior : value_t) sent received :
  in_step sent received ->
  exists l1 s1 l2 s2 l3 sent' received',
    sends_entries (S k) sent
      (Threaded.changed_properties QObject QMetaObject script_equals
         properties reference) l1 s1
    /\ sends_entries (S k) s1
         (Threaded.removed_properties QObject QMetaObject value referenceProperties)
         l2 s2
    /\ encodes (shl_QScriptString None s2) l3 sent'
    /\ encodes (writeRawDelta (S (S k)) value reference sent)
               (false :: l1 ++ l2 ++ l3) sent'
    /\ decodes (readRawDelta (S (S n)) prior reference received)
               (false :: l1 ++ l2 ++ l3) (Object_value rebuilt, received')
    /\ in_step sent' received'.
Proof.
  intros Hin.
  remember (S k) as k' eqn:Hk. remember (S n) as n' eqn:Hn.
  destruct (delta_entries_loop k' (readRawDelta n' Invalid_value) reference
              (fun property streamers' =>
                 let referenceValue := property_of reference (fst property) in
                 if negb (script_equals (snd property) referenceValue) then
                   let* streamers'' :=
                     shl_QScriptString (Some (fst property)) streamers' in
                   writeRawDelta k' (snd property) referenceValue streamers''
                 else ret streamers')
              changed properties) with (sent := sent) (received := received)
    as (l1 & s1 & r1 & Hsends1 & E1 & Hin1 & Hread1); [|exact Hin|].
  { eapply Forall_impl; [exact properties_ok|].
    intros [name v] (Hname & Hs & _ & Hflat). cbn [fst snd] in *. cbv beta zeta.
    cbn [fst snd].
    destruct (script_equals v (property_of reference name)) eqn:He;
      cbn [negb]; [reflexivity|].
    split; [reflexivity|]. split; [reflexivity|]. split; [exact Hname|].
    subst k' n'. apply flat_restores; [now apply Hflat|exact Hs]. }
  destruct (delta_entries_loop k' (readRawDelta n' Invalid_value) reference
              (fun property streamers'' =>
                 if negb (Threaded.script_isValid QObject QMetaObject
                            (property_of value (fst property))) then
                   let* streamers''' :=
                     shl_QScriptString (Some (fst property)) streamers'' in
                   writeRawDelta k' Invalid_value (snd property) streamers'''
                 else ret streamers'')
              removed referenceProperties) with (sent := s1) (received := r1)
    as (l2 & s2 & r2 & Hsends2 & E2 & Hin2 & Hread2); [|exact Hin1|].
  { apply Forall_forall. intros [name rv] Hi.
    pose proof (proj1 (Forall_forall _ _) reference_names_ok _ Hi) as Hname.
    cbn [fst snd] in *. cbv beta. cbn [fst snd].
    destruct (Threaded.script_isValid QObject QMetaObject (property_of value name));
      cbn [negb]; [reflexivity|].
    split; [reflexivity|]. split; [|split; [exact Hname|]].
    - pose proof (find_named_member _ _ _ (name, rv) reference_names Hi) as Hf.
      cbn [fst] in Hf. cbn [Threaded.script_property]. now rewrite Hf.
    - subst k' n'. apply flat_restores; [now destruct rv|apply supported_invalid]. }
  destruct (invalid_name_codec s2 r2 Hin2) as (l3 & s3 & r3 & E3 & D3 & Hin3).
  exists l1, s1, l2, s2, l3, s3, r3.
  split; [exact Hsends1|]. split; [exact Hsends2|]. split; [exact E3|].
  split; [|split; [|exact Hin3]].
  - cbn [Threaded.writeRawDelta].
    change (false :: l1 ++ l2 ++ l3) with ([false] ++ l1 ++ l2 ++ l3).
    eapply encodes_bind; [apply encodes_write_bool|].
    eapply encodes_bind; [exact E1|].
    eapply encodes_bind; [exact E2|exact E3].
  - cbn [Threaded.readRawDelta].
    change (false :: l1 ++ l2 ++ l3) with ([false] ++ l1 ++ l2 ++ l3).
    eapply decodes_bind; [apply decodes_read_bool|]. cbv iota zeta.
    rewrite <- (app_nil_r (l1 ++ l2 ++ l3)).
    eapply (decodes_bind _ _ _ _ (rebuilt, r3)); [|apply decodes_ret].
    apply Hread1; [lia|]. intros K1 HK1.
    apply Hread2; [lia|]. intros K2 HK2.
    destruct K2 as [|K2]; [lia|]. cbn [Threaded.read_property_deltas].
    rewrite <- (app_nil_r l3). eapply decodes_bind; [exact D3|]. cbv beta iota.
    apply decodes_ret.
Qed.

Lemma rebuilt_names : NoDup (map fst rebuilt).
Proof. repeat apply names_set_all. apply NoDup_nil_2. Qed.

Lemma rebuilt_properties name :
  property_of (Object_value rebuilt) name = property_of value name.
Proof.
  rewrite !list_fmap_omap.
  rewrite property_of_set_all
    by (apply NoDup_names_omap; [exact removed_name|exact reference_names]).
  rewrite find_named_omap by (exact removed_name || exact reference_names).
  rewrite property_of_set_all
    by (apply NoDup_names_omap; [exact changed_name|exact names]).
  rewrite find_named_omap by (exact changed_name || exact names).
  rewrite property_of_set_all by exact reference_names.
  change (property_of value name)
    with (match find (fun property : list Z * value_t =>
                        bool_decide (fst property = name)) properties with
          | Some property => snd property
          | None => Invalid_value
          end).
  destruct (find _ properties) as [[name' v]|] eqn:Hfind.
  - apply find_named_present in Hfind as [Hin Hname]. cbn [fst] in Hname. subst name'.
    pose proof (proj1 (Forall_forall _ _) properties_ok _ Hin) as (_ & _ & Hvalid & _).
    cbn [fst snd] in *.
    assert (Hkept : match find (fun property : list Z * value_t =>
                                  bool_decide (fst property = name))
                          referenceProperties with
                    | Some p => removed_set p
                    | None => None
                    end = None).
    { destruct (find _ referenceProperties) as [p|] eqn:Hp; [|reflexivity].
      apply find_named_present in Hp as [_ Hp]. cbv beta. rewrite Hp.
      pose proof (find_named_member _ _ _ (name, v) names Hin) as Hf.
      cbn [fst] in Hf. cbn [Threaded.script_property]. rewrite Hf. cbn [snd].
      now destruct v. }
    rewrite Hkept. cbv beta zeta. cbn [fst snd].
    destruct (script_equals v (property_of reference name)) eqn:He;
      cbn [negb fmap option_fmap option_map fst snd].
    + apply equals_sound in He. symmetry. exact He.
    + reflexivity.
  - destruct (find _ referenceProperties) as [p|] eqn:Hp; [|reflexivity].
    apply find_named_present in Hp as [_ Hp]. cbv beta. rewrite Hp.
    cbn [Threaded.script_property]. rewrite Hfind. reflexivity.
Qed.
End ObjectDelta.
End ThreadedDeltas.

(** *** The sample streamers *)

Lemma index_of_spec (string : option (list Z)) (sent : sample_streamers) i :
  index_of string sent = Some i ->
  (i < length sent)%nat /\ nth i sent None = string.
Proof.
  revert i. induction sent as [|first rest IH]; intros i; cbn [index_of];
    [discriminate|].
  destruct (decide (first = string)) as [->|Hne].
  - intros [= <-]. cbn [length nth]. split; [lia|reflexivity].
  - destruct (index_of string rest) as [j|]; [|discriminate].
    intros [= <-]. destruct (IH j eq_refl) as [Hj Hn]. cbn [length nth].
    split; [lia|exact Hn].
Qed.

Lemma round_trips_unary n : forall fuel,
  (n < fuel)%nat -> round_trips (write_unary n) (read_unary fuel) n.
Proof.
  induction n as [|n IH]; intros fuel Hf; (destruct fuel as [|fuel]; [lia|]);
    cbn [write_unary read_unary].
  - apply (round_trips_then _ _ _ false); [apply round_trips_bool|reflexivity].
  - apply (round_trips_bind _ _ _ _ true); [apply round_trips_bool|]. cbv iota.
    apply (round_trips_map _ _ S). apply IH. lia.
Qed.

Lemma stateless_codec {T} (shl : T -> M unit) (shr : M T) (value : T) :
  round_trips (shl value) shr value ->
  Threaded.restores sample_streamers eq (stateless_shl shl value)
    (stateless_shr shr) value.
Proof.
  intros H. unfold stateless_shl, stateless_shr.
  apply (restores_stateless _ _ _ _ _ _ value); [exact H|]. apply restores_ret.
Qed.

Lemma sample_interned_codec (string : option (list Z)) :
  round_trips (sample_shl_QScriptString string) sample_shr_QScriptString string ->
  Threaded.restores sample_streamers eq (sample_interned_shl string)
    sample_interned_shr string.
Proof.
  intros Hfull sent received <-. unfold sample_interned_shl, sample_interned_shr.
  destruct (index_of string sent) as [i|] eqn:Hi.
  - destruct (index_of_spec _ _ _ Hi) as [Hlt Hnth].
    destruct (round_trips_unary i (length sent) Hlt) as (l & E & D).
    exists (true :: l), sent, sent. split; [|split; [|reflexivity]].
    + change (true :: l) with ([true] ++ l).
      eapply encodes_bind; [apply encodes_write_bool|].
      rewrite <- (app_nil_r l). eapply encodes_bind; [exact E|apply encodes_ret].
    + change (true :: l) with ([true] ++ l).
      eapply decodes_bind; [apply decodes_read_bool|]. cbv iota.
      rewrite <- (app_nil_r l). eapply decodes_bind; [exact D|].
      rewrite Hnth. apply decodes_ret.
  - destruct Hfull as (l & E & D).
    exists (false :: l), (sent ++ [string]), (sent ++ [string]).
    split; [|split; [|reflexivity]].
    + change (false :: l) with ([false] ++ l).
      eapply encodes_bind; [apply encodes_write_bool|].
      rewrite <- (app_nil_r l). eapply encodes_bind; [exact E|apply encodes_ret].
    + change (false :: l) with ([false] ++ l).
      eapply decodes_bind; [apply decodes_read_bool|]. cbv iota.
      rewrite <- (app_nil_r l). eapply decodes_bind; [exact D|apply decodes_ret].
Qed.

Lemma sample_threaded_variant_codec variant :
  sample_variant_ok variant ->
  Threaded.restores sample_streamers eq
    (stateless_shl sample_shl_QVariant variant)
    (stateless_shr sample_shr_QVariant) variant.
Proof. intros H. now apply stateless_codec, sample_variant_codec. Qed.

Lemma sample_threaded_name_codec name :
  sample_name_ok name ->
  Threaded.restores sample_streamers eq (sample_interned_shl (Some name))
    sample_interned_shr (Some name).
Proof. intros H. now apply sample_interned_codec, sample_name_codec. Qed.

Lemma sample_threaded_invalid_name_codec :
  Threaded.restores sample_streamers eq (sample_interned_shl None)
    sample_interned_shr None.
Proof. apply sample_interned_codec, sample_invalid_name_codec. Qed.

Lemma sample_nested_supported :
  supported sample_name_ok sample_variant_ok 4 sample_nested.
Proof.
  assert (Hre : sample_name_ok [114; 101])
    by (split; [repeat constructor; lia|cbn; lia]).
  unfold sample_nested.
  apply supported_object; [cbn; lia| |].
  - cbn [map fst]. repeat (apply NoDup_cons; split; [set_solver|]). apply NoDup_nil_2.
  - repeat first [apply Forall_nil_2|apply Forall_cons_2].
    + cbn [fst snd]. split; [exact Hre|]. split; [|discriminate].
      apply supported_object; [cbn; lia| |].
      * cbn [map fst]. repeat (apply NoDup_cons; split; [set_solver|]).
        apply NoDup_nil_2.
      * repeat first [apply Forall_nil_2|apply Forall_cons_2].
        cbn [fst snd]. split; [exact Hre|]. split; [|discriminate].
        apply supported_regexp; [split; [cbn; lia|repeat constructor; lia]|lia|lia].
    + cbn [fst snd]. split; [|split; [|discriminate]].
      * split; [repeat constructor; lia|cbn; lia].
      * apply supported_array; [cbn; lia|].
        repeat first [apply Forall_nil_2|apply Forall_cons_2].
        -- apply supported_bool.
        -- apply supported_string. split; [cbn; lia|repeat constructor; lia].
Qed.

Lemma sample_script_equals_sound (first second : QScriptValue Z Z) :
  sample_script_equals first second = true -> first = second.
Proof.
  destruct first, second; cbn [sample_script_equals]; try discriminate;
    try reflexivity.
  - intros H. now apply Bool.eqb_prop in H as ->.
  - intros H. now apply Z.eqb_eq in H as ->.
  - intros H. now apply bool_decide_eq_true in H as ->.
Qed.

(** ** Script values that are restored, in the end *)

(** X19 — every supported script value is restored through the streamers
    of the stream: when the codecs of variants and of script strings
    restore what they send from streamers that are in step, and leave them
    in step, a value sent on a fresh stream and flushed is read back as
    it was, whatever the caller's variable held and whatever was sent
    before, and the streamers are left in step. *)
Theorem supported_script_value_restored {QObject QMetaObject Streamers : Type}
    (shl_QVariant : QVariant -> Streamers -> M Streamers)
    (shr_QVariant : Streamers -> M (QVariant * Streamers))
    (shl_QObject : QObject -> Streamers -> M Streamers)
    (shr_QObject : Streamers -> M (option QObject * Streamers))
    (shl_QMetaObject : QMetaObject -> Streamers -> M Streamers)
    (shr_QMetaObject : Streamers -> M (option QMetaObject * Streamers))
    (shl_QScriptString : option (list Z) -> Streamers -> M Streamers)
    (shr_QScriptString : Streamers -> M (option (list Z) * Streamers))
    (in_step : Streamers -> Streamers -> Prop)
    (name_ok : list Z -> Prop) (variant_ok : QVariant -> Prop)
    (fuel : nat) (value prior : QScriptValue QObject QMetaObject)
    (sent received : Streamers) :
  (forall variant,
     variant_ok variant ->
     Threaded.restores Streamers in_step (shl_QVariant variant) shr_QVariant
       variant) ->
  (forall name,
     name_ok name ->
     Threaded.restores Streamers in_step (shl_QScriptString (Some name))
       shr_QScriptString (Some name)) ->
  Threaded.restores Streamers in_step (shl_QScriptString None) shr_QScriptString
    None ->
  supported name_ok variant_ok fuel value ->
  in_step sent received ->
  exists w sent' r received',
    Threaded.operator_shl_QScriptValue QObject QMetaObject Streamers shl_QVariant
      shl_QObject shl_QMetaObject shl_QScriptString value sent writer_new
    = Some (sent', w)
    /\ Threaded.operator_shr_QScriptValue QObject QMetaObject Streamers
         shr_QVariant shr_QObject shr_QMetaObject shr_QScriptString fuel prior
         received (reader_new (ds_written (_underlying (flush w))))
       = Some ((value, received'), r)
    /\ in_step sent' received'.
Proof.
  intros Hv Hn Hi Hs Hin.
  apply (restores_end_to_end Streamers in_step); [|exact Hin].
  eapply supported_restores; [exact Hv|exact Hn|exact Hi|exact Hs].
Qed.

Lemma supported_script_value_restored_witness :
  exists w sent' r received',
    sample_threaded_shl sample_nested [Some [108; 105; 115; 116]] writer_new
    = Some (sent', w)
    /\ sample_threaded_shr 4 Undefined_value [Some [108; 105; 115; 116]]
         (reader_new (ds_written (_underlying (flush w))))
       = Some ((sample_nested, received'), r)
    /\ sent' = received'.
Proof.
  exact (supported_script_value_restored
           (stateless_shl sample_shl_QVariant) (stateless_shr sample_shr_QVariant)
           (stateless_shl sample_shl_handle) (stateless_shr sample_shr_handle)
           (stateless_shl sample_shl_handle) (stateless_shr sample_shr_handle)
           sample_interned_shl sample_interned_shr eq
           sample_name_ok sample_variant_ok 4 sample_nested Undefined_value
           [Some [108; 105; 115; 116]] [Some [108; 105; 115; 116]]
           sample_threaded_variant_codec sample_threaded_name_codec
           sample_threaded_invalid_name_codec sample_nested_supported eq_refl).
Defined.

(** ** Deltas of script values *)

(** X29 — the delta of a script value that is not nested (value and
    reference are not both variants, both objects of the host, both
    meta-objects, both arrays or both plain objects), with its wire
    format.  From streamers that are in step, if [plain] is what
    [operator<<] sends for the value, the delta is [plain] itself against
    an invalid, undefined or null reference, the flag 0 followed by
    [plain] without its four bits of kind for a value of the kind of the
    reference, and the flag 1 followed by [plain] for a value of another
    kind; [readRawDelta] against the same reference reads the value back
    from these bits, whatever the caller's variable held, also end to end
    through a flushed byte stream, and the streamers are left in step. *)
Theorem flat_script_delta_restored {QObject QMetaObject Streamers : Type}
    (shl_QVariant : QVariant -> Streamers -> M Streamers)
    (shr_QVariant : Streamers -> M (QVariant * Streamers))
    (shl_QObject : QObject -> Streamers -> M Streamers)
    (shr_QObject : Streamers -> M (option QObject * Streamers))
    (shl_QMetaObject : QMetaObject -> Streamers -> M Streamers)
    (shr_QMetaObject : Streamers -> M (option QMetaObject * Streamers))
    (shl_QScriptString : option (list Z) -> Streamers -> M Streamers)
    (shr_QScriptString : Streamers -> M (option (list Z) * Streamers))
    (writeRawDelta_QVariant : QVariant -> QVariant -> Streamers -> M Streamers)
    (readRawDelta_QVariant : QVariant -> Streamers -> M (QVariant * Streamers))
    (writeRawDelta_QObject : QObject -> QObject -> Streamers -> M Streamers)
    (readRawDelta_QObject : QObject -> Streamers -> M (option QObject * Streamers))
    (writeDelta_QScriptValue :
       QScriptValue QObject QMetaObject -> QScriptValue QObject QMetaObject ->
       Streamers -> M Streamers)
    (readDelta_QScriptValue :
       QScriptValue QObject QMetaObject -> Streamers ->
       M (QScriptValue QObject QMetaObject * Streamers))
    (script_equals :
       QScriptValue QObject QMetaObject -> QScriptValue QObject QMetaObject -> bool)
    (newQObject : option QObject -> QScriptValue QObject QMetaObject)
    (newQMetaObject : option QMetaObject -> QScriptValue QObject QMetaObject)
    (in_step : Streamers -> Streamers -> Prop)
    (name_ok : list Z -> Prop) (variant_ok : QVariant -> Prop)
    (k fuel : nat) (value prior reference : QScriptValue QObject QMetaObject)
    (sent received : Streamers) :
  (forall variant,
     variant_ok variant ->
     Threaded.restores Streamers in_step (shl_QVariant variant) shr_QVariant
       variant) ->
  (forall name,
     name_ok name ->
     Threaded.restores Streamers in_step (shl_QScriptString (Some name))
       shr_QScriptString (Some name)) ->
  Threaded.restores Streamers in_step (shl_QScriptString None) shr_QScriptString
    None ->
  Threaded.nested_delta QObject QMetaObject value reference = false ->
  supported name_ok variant_ok fuel value ->
  in_step sent received ->
  let writeRawDelta :=
    Threaded.writeRawDelta QObject QMetaObject Streamers shl_QVariant shl_QObject
      shl_QMetaObject shl_QScriptString writeRawDelta_QVariant
      writeRawDelta_QObject writeDelta_QScriptValue script_equals in
  let readRawDelta :=
    Threaded.readRawDelta QObject QMetaObject Streamers shr_QVariant shr_QObject
      shr_QMetaObject shr_QScriptString readRawDelta_QVariant
      readRawDelta_QObject readDelta_QScriptValue newQObject newQMetaObject in
  exists plain sent' received',
    encodes (Threaded.operator_shl_QScriptValue QObject QMetaObject Streamers
               shl_QVariant shl_QObject shl_QMetaObject shl_QScriptString
               value sent) plain sent'
    /\ encodes (writeRawDelta (S k) value reference sent)
               (Threaded.flat_delta_bits QObject QMetaObject value reference plain)
               sent'
    /\ decodes (readRawDelta fuel prior reference received)
               (Threaded.flat_delta_bits QObject QMetaObject value reference plain)
               (value, received')
    /\ in_step sent' received'
    /\ exists w r,
         writeRawDelta (S k) value reference sent writer_new = Some (sent', w)
         /\ readRawDelta fuel prior reference received
              (reader_new (ds_written (_underlying (flush w))))
            = Some ((value, received'), r).
Proof.
  intros Hv Hn Hi Hflat Hs Hin writeRawDelta readRawDelta.
  edestruct (@flat_delta QObject QMetaObject Streamers) as
    (plain & s & r & E & Ed & Dd & Hin');
    [exact Hv|exact Hn|exact Hi|exact Hflat|exact Hs|exact Hin|].
  exists plain, s, r. split; [exact E|]. split; [exact Ed|]. split; [exact Dd|].
  split; [exact Hin'|].
  destruct (end_to_end _ _ _ _ _ Ed Dd) as (w & Ew & rd & Er).
  exists w, rd. split; [exact Ew|exact Er].
Qed.

Lemma flat_script_delta_restored_witness :
  exists plain sent' received',
    encodes (sample_threaded_shl (String_value [104; 105]) [None]) plain sent'
    /\ encodes (sample_writeRawDelta 1 (String_value [104; 105])
                  (String_value [120]) [None])
               (false :: drop 4 plain) sent'
    /\ decodes (sample_readRawDelta 1 Undefined_value (String_value [120]) [None])
               (false :: drop 4 plain) (String_value [104; 105], received')
    /\ sent' = received'
    /\ exists w r,
         sample_writeRawDelta 1 (String_value [104; 105]) (String_value [120])
           [None] writer_new = Some (sent', w)
         /\ sample_readRawDelta 1 Undefined_value (String_value [120]) [None]
              (reader_new (ds_written (_underlying (flush w))))
            = Some ((String_value [104; 105], received'), r).
Proof.
  apply (flat_script_delta_restored
           (stateless_shl sample_shl_QVariant) (stateless_shr sample_shr_QVariant)
           (stateless_shl sample_shl_handle) (stateless_shr sample_shr_handle)
           (stateless_shl sample_shl_handle) (stateless_shr sample_shr_handle)
           sample_interned_shl sample_interned_shr
           (fun value _ => stateless_shl sample_shl_QVariant value)
           (fun _ => stateless_shr sample_shr_QVariant)
           (fun object _ => stateless_shl sample_shl_handle object)
           (fun _ => stateless_shr sample_shr_handle)
           (fun value _ => sample_threaded_shl value)
           (fun _ => sample_threaded_shr 4 Invalid_value)
           sample_script_equals sample_newHandle sample_newHandle eq
           sample_name_ok sample_variant_ok 0 1
           (String_value [104; 105]) Undefined_value (String_value [120])
           [None] [None]
           sample_threaded_variant_codec sample_threaded_name_codec
           sample_threaded_invalid_name_codec eq_refl).
  - apply supported_string. split; [cbn; lia|repeat constructor; lia].
  - reflexivity.
Defined.

(** X30 — the delta of a plain object against a plain object, with what
    it sends.  From streamers that are in step it is the flag 0, then, in
    the order of the value, each property that the comparison tells apart
    from the property of the reference under its name, as the name
    followed by the raw delta against that property, then, in the order of
    the reference, each name under which the value has no property, as the
    name followed by the raw delta of the invalid value, then the invalid
    name; nothing is sent for the other properties.  When the comparison
    only equates equal values and no property that differs is nested on
    both sides, [readRawDelta] rebuilds from the reference and these bits
    an object with distinct names that holds under every name the
    property of the object sent, and the streamers are left in step. *)
Theorem object_script_delta_restored {QObject QMetaObject Streamers : Type}
    (shl_QVariant : QVariant -> Streamers -> M Streamers)
    (shr_QVariant : Streamers -> M (QVariant * Streamers))
    (shl_QObject : QObject -> Streamers -> M Streamers)
    (shr_QObject : Streamers -> M (option QObject * Streamers))
    (shl_QMetaObject : QMetaObject -> Streamers -> M Streamers)
    (shr_QMetaObject : Streamers -> M (option QMetaObject * Streamers))
    (shl_QScriptString : option (list Z) -> Streamers -> M Streamers)
    (shr_QScriptString : Streamers -> M (option (list Z) * Streamers))
    (writeRawDelta_QVariant : QVariant -> QVariant -> Streamers -> M Streamers)
    (readRawDelta_QVariant : QVariant -> Streamers -> M (QVariant * Streamers))
    (writeRawDelta_QObject : QObject -> QObject -> Streamers -> M Streamers)
    (readRawDelta_QObject : QObject -> Streamers -> M (option QObject * Streamers))
    (writeDelta_QScriptValue :
       QScriptValue QObject QMetaObject -> QScriptValue QObject QMetaObject ->
       Streamers -> M Streamers)
    (readDelta_QScriptValue :
       QScriptValue QObject QMetaObject -> Streamers ->
       M (QScriptValue QObject QMetaObject * Streamers))
    (script_equals :
       QScriptValue QObject QMetaObject -> QScriptValue QObject QMetaObject -> bool)
    (newQObject : option QObject -> QScriptValue QObject QMetaObject)
    (newQMetaObject : option QMetaObject -> QScriptValue QObject QMetaObject)
    (in_step : Streamers -> Streamers -> Prop)
    (name_ok : list Z -> Prop) (variant_ok : QVariant -> Prop)
    (k n : nat)
    (properties referenceProperties : list (list Z * QScriptValue QObject QMetaObject))
    (prior : QScriptValue QObject QMetaObject) (sent received : Streamers) :
  let value := Object_value properties in
  let reference := Object_value referenceProperties in
  let script_property := Threaded.script_property QObject QMetaObject in
  (forall variant,
     variant_ok variant ->
     Threaded.restores Streamers in_step (shl_QVariant variant) shr_QVariant
       variant) ->
  (forall name,
     name_ok name ->
     Threaded.restores Streamers in_step (shl_QScriptString (Some name))
       shr_QScriptString (Some name)) ->
  Threaded.restores Streamers in_step (shl_QScriptString None) shr_QScriptString
    None ->
  (forall first second, script_equals first second = true -> first = second) ->
  NoDup (map fst properties) ->
  NoDup (map fst referenceProperties) ->
  Forall (fun property =>
            name_ok (fst property)
            /\ supported name_ok variant_ok (S n) (snd property)
            /\ snd property <> Invalid_value
            /\ (script_equals (snd property) (script_property reference (fst property))
                = false ->
                Threaded.nested_delta QObject QMetaObject (snd property)
                  (script_property reference (fst property)) = false))
         properties ->
  Forall (fun property => name_ok (fst property)) referenceProperties ->
  (length properties + length referenceProperties < S n)%nat ->
  in_step sent received ->
  let writeRawDelta :=
    Threaded.writeRawDelta QObject QMetaObject Streamers shl_QVariant shl_QObject
      shl_QMetaObject shl_QScriptString writeRawDelta_QVariant
      writeRawDelta_QObject writeDelta_QScriptValue script_equals in
  let readRawDelta :=
    Threaded.readRawDelta QObject QMetaObject Streamers shr_QVariant shr_QObject
      shr_QMetaObject shr_QScriptString readRawDelta_QVariant
      readRawDelta_QObject readDelta_QScriptValue newQObject newQMetaObject in
  let sends_entries :=
    Threaded.sends_entries QObject QMetaObject Streamers shl_QVariant shl_QObject
      shl_QMetaObject shl_QScriptString writeRawDelta_QVariant
      writeRawDelta_QObject writeDelta_QScriptValue script_equals in
  exists l1 s1 l2 s2 l3 sent' received' rebuilt,
    sends_entries (S k) sent
      (Threaded.changed_properties QObject QMetaObject script_equals
         properties reference) l1 s1
    /\ sends_entries (S k) s1
         (Threaded.removed_properties QObject QMetaObject value referenceProperties)
         l2 s2
    /\ encodes (shl_QScriptString None s2) l3 sent'
    /\ encodes (writeRawDelta (S (S k)) value reference sent)
               (false :: l1 ++ l2 ++ l3) sent'
    /\ decodes (readRawDelta (S (S n)) prior reference received)
               (false :: l1 ++ l2 ++ l3) (Object_value rebuilt, received')
    /\ in_step sent' received'
    /\ NoDup (map fst rebuilt)
    /\ forall name,
         script_property (Object_value rebuilt) name = script_property value name.
Proof.
  intros value reference script_property Hv Hn Hi He Hnd Hrnd Hok Hrok Hlen Hin
    writeRawDelta readRawDelta sends_entries.
  edestruct (@object_delta QObject QMetaObject Streamers) as
    (l1 & s1 & l2 & s2 & l3 & s3 & r3 & H1 & H2 & H3 & H4 & H5 & H6);
    [exact Hv|exact Hn|exact Hi|exact Hrnd|exact Hok|exact Hrok|exact Hlen|exact Hin|].
  exists l1, s1, l2, s2, l3, s3, r3. eexists.
  split; [exact H1|]. split; [exact H2|]. split; [exact H3|].
  split; [exact H4|]. split; [exact H5|]. split; [exact H6|]. split.
  - apply rebuilt_names.
  - intros name.
    eapply (@rebuilt_properties QObject QMetaObject); eassumption.
Qed.

Lemma object_script_delta_restored_witness :
  exists sent' received' rebuilt w r,
    sample_writeRawDelta 2 sample_changed sample_reference [Some [111; 110]]
      writer_new = Some (sent', w)
    /\ sample_readRawDelta 8 Undefined_value sample_reference [Some [111; 110]]
         (reader_new (ds_written (_underlying (flush w))))
       = Some ((Object_value rebuilt, received'), r)
    /\ sent' = received'
    /\ NoDup (map fst rebuilt)
    /\ forall name,
         Threaded.script_property Z Z (Object_value rebuilt) name
         = Threaded.script_property Z Z sample_changed name.
Proof.
  unfold sample_changed, sample_reference.
  edestruct (object_script_delta_restored
           (stateless_shl sample_shl_QVariant) (stateless_shr sample_shr_QVariant)
           (stateless_shl sample_shl_handle) (stateless_shr sample_shr_handle)
           (stateless_shl sample_shl_handle) (stateless_shr sample_shr_handle)
           sample_interned_shl sample_interned_shr
           (fun value _ => stateless_shl sample_shl_QVariant value)
           (fun _ => stateless_shr sample_shr_QVariant)
           (fun object _ => stateless_shl sample_shl_handle object)
           (fun _ => stateless_shr sample_shr_handle)
           (fun value _ => sample_threaded_shl value)
           (fun _ => sample_threaded_shr 4 Invalid_value)
           sample_script_equals sample_newHandle sample_newHandle eq
           sample_name_ok sample_variant_ok 0 6
           [([115; 105; 122; 101], Number_value 0x3FF0000000000000);
            ([111; 110], Number_value 0x4000000000000000);
            ([114; 101], RegExp_value [97] 1 0 false)]
           [([115; 105; 122; 101], Number_value 0x3FF0000000000000);
            ([111; 110], Bool_value true);
            ([116; 97; 103], String_value [120])]
           Undefined_value [Some [111; 110]] [Some [111; 110]])
    as (l1 & s1 & l2 & s2 & l3 & s3 & r3 & rebuilt & _ & _ & _ & E & D & Hs & Hnd & Hp);
    [exact sample_threaded_variant_codec|exact sample_threaded_name_codec
    |exact sample_threaded_invalid_name_codec|exact sample_script_equals_sound
    | | | | | |reflexivity|].
  - cbn [map fst]. repeat (apply NoDup_cons; split; [set_solver|]). apply NoDup_nil_2.
  - cbn [map fst]. repeat (apply NoDup_cons; split; [set_solver|]). apply NoDup_nil_2.
  - repeat first [apply Forall_nil_2|apply Forall_cons_2]; cbn [fst snd];
      (split; [split; [repeat constructor; lia|cbn; lia]|]);
      (split; [|split; [discriminate|intros _; reflexivity]]).
    + apply supported_number. lia.
    + apply supported_number. lia.
    + apply supported_regexp; [split; [cbn; lia|repeat constructor; lia]|lia|lia].
  - repeat first [apply Forall_nil_2|apply Forall_cons_2]; cbn [fst];
      (split; [repeat constructor; lia|cbn; lia]).
  - cbn [length]. lia.
  - destruct (end_to_end _ _ _ _ _ E D) as (w & Ew & rd & Er).
    exists s3, r3, rebuilt, w, rd.
    split; [exact Ew|]. split; [exact Er|]. split; [exact Hs|].
    split; [exact Hnd|exact Hp].
Defined.

(** ** Script values: the other cases *)

(** X20 — a script value that wraps a QMetaObject is not restored either:
    [operator>>] reads the meta-object, builds the script value with
    [newQMetaObject] and drops it, so the caller's variable keeps what it
    held, whatever the meta-object codec. *)
Theorem QMetaObject_script_value_not_restored {QObject QMetaObject : Type}
    (shl_QVariant : QVariant -> M unit) (shr_QVariant : M QVariant)
    (shl_QObject : QObject -> M unit) (shr_QObject : M (option QObject))
    (shl_QMetaObject : QMetaObject -> M unit)
    (shr_QMetaObject : M (option QMetaObject))
    (shl_QScriptString : option (list Z) -> M unit)
    (shr_QScriptString : M (option (list Z)))
    (metaObject : QMetaObject) (received : option QMetaObject) (l : list bool)
    (prior : QScriptValue QObject QMetaObject) (fuel : nat) :
  encodes (shl_QMetaObject metaObject) l tt ->
  decodes shr_QMetaObject l received ->
  exists w r,
    operator_shl_QScriptValue QObject QMetaObject shl_QVariant shl_QObject
      shl_QMetaObject shl_QScriptString (QMetaObject_value metaObject) writer_new
    = Some (tt, w)
    /\ operator_shr_QScriptValue QObject QMetaObject shr_QVariant shr_QObject
         shr_QMetaObject shr_QScriptString (S fuel) prior
         (reader_new (ds_written (_underlying (flush w))))
       = Some (prior, r)
    /\ (Invalid_value : QScriptValue QObject QMetaObject)
       <> QMetaObject_value metaObject.
Proof.
  intros He Hd.
  assert (Hrt : round_trips
    (operator_shl_QScriptValue QObject QMetaObject shl_QVariant shl_QObject
       shl_QMetaObject shl_QScriptString (QMetaObject_value metaObject))
    (operator_shr_QScriptValue QObject QMetaObject shr_QVariant shr_QObject
       shr_QMetaObject shr_QScriptString (S fuel) prior) prior).
  { cbn [operator_shl_QScriptValue operator_shr_QScriptValue].
    apply (round_trips_bind _ _ _ _ QMETAOBJECT_SCRIPT_VALUE);
      [apply round_trips_ScriptValueType; unfold QMETAOBJECT_SCRIPT_VALUE; lia|].
    cbv beta.
    change (QMETAOBJECT_SCRIPT_VALUE =? UNDEFINED_SCRIPT_VALUE) with false.
    change (QMETAOBJECT_SCRIPT_VALUE =? NULL_SCRIPT_VALUE) with false.
    change (QMETAOBJECT_SCRIPT_VALUE =? BOOL_SCRIPT_VALUE) with false.
    change (QMETAOBJECT_SCRIPT_VALUE =? NUMBER_SCRIPT_VALUE) with false.
    change (QMETAOBJECT_SCRIPT_VALUE =? STRING_SCRIPT_VALUE) with false.
    change (QMETAOBJECT_SCRIPT_VALUE =? VARIANT_SCRIPT_VALUE) with false.
    change (QMETAOBJECT_SCRIPT_VALUE =? QOBJECT_SCRIPT_VALUE) with false.
    change (QMETAOBJECT_SCRIPT_VALUE =? QMETAOBJECT_SCRIPT_VALUE) with true.
    cbv iota.
    apply (round_trips_then _ _ _ received); [|reflexivity].
    exists l. split; [exact He|exact Hd]. }
  destruct (round_trips_end_to_end _ _ _ Hrt) as (w & r & Ew & Er).
  exists w, r. split; [exact Ew|]. split; [exact Er|]. discriminate.
Qed.

Lemma QMetaObject_script_value_not_restored_witness :
  exists w r,
    sample_shl_QScriptValue (QMetaObject_value 9) writer_new = Some (tt, w)
    /\ sample_shr_QScriptValue 1 (Number_value 3)
         (reader_new (ds_written (_underlying (flush w))))
       = Some (Number_value 3, r)
    /\ (Invalid_value : QScriptValue Z Z) <> QMetaObject_value 9.
Proof.
  assert (Hd : decodes sample_shr_handle (tab (Z.testbit 9) 32) (Some 9)).
  { unfold sample_shr_handle. rewrite <- (app_nil_r (tab _ _)).
    eapply decodes_bind; [apply decodes_int; lia|]. apply decodes_ret. }
  exact (QMetaObject_script_value_not_restored
           sample_shl_QVariant sample_shr_QVariant
           sample_shl_handle sample_shr_handle sample_shl_handle sample_shr_handle
           sample_shl_QScriptString sample_shr_QScriptString
           9 (Some 9) (tab (Z.testbit 9) 32) (Number_value 3) 0
           (encodes_int 9) Hd).
Defined.

(** X21 — a tag that names no kind of script value (13, 14 or 15), like
    the tag of the invalid value (0), makes [operator>>] store the invalid
    value: the four bits of the tag are all it consumes, and what the
    caller's variable held is lost. *)
Theorem unknown_script_value_tag_reads_invalid {QObject QMetaObject : Type}
    (shr_QVariant : M QVariant) (shr_QObject : M (option QObject))
    (shr_QMetaObject : M (option QMetaObject))
    (shr_QScriptString : M (option (list Z)))
    (type : Z) (prior : QScriptValue QObject QMetaObject) (fuel : nat) :
  type = 0 \/ 13 <= type <= 15 ->
  decodes (operator_shr_QScriptValue QObject QMetaObject shr_QVariant shr_QObject
             shr_QMetaObject shr_QScriptString (S fuel) prior)
          (tab (Z.testbit type) 4) Invalid_value.
Proof.
  intros Ht. cbn [operator_shr_QScriptValue].
  rewrite <- (app_nil_r (tab _ _)).
  eapply decodes_bind; [apply decodes_readScriptValueType; lia|].
  cbv beta.
  unfold INVALID_SCRIPT_VALUE, UNDEFINED_SCRIPT_VALUE, NULL_SCRIPT_VALUE,
    BOOL_SCRIPT_VALUE, NUMBER_SCRIPT_VALUE, STRING_SCRIPT_VALUE,
    VARIANT_SCRIPT_VALUE, QOBJECT_SCRIPT_VALUE, QMETAOBJECT_SCRIPT_VALUE,
    DATE_SCRIPT_VALUE, REGEXP_SCRIPT_VALUE, ARRAY_SCRIPT_VALUE,
    OBJECT_SCRIPT_VALUE.
  assert (Hcases : type = 0 \/ type = 13 \/ type = 14 \/ type = 15) by lia.
  destruct Hcases as [->|[->|[->| ->]]]; cbn [Z.eqb Pos.eqb]; apply decodes_ret.
Qed.

Lemma unknown_script_value_tag_reads_invalid_witness :
  decodes (sample_shr_QScriptValue 1 (Bool_value true))
          (tab (Z.testbit 14) 4) Invalid_value.
Proof.
  apply (@unknown_script_value_tag_reads_invalid Z Z sample_shr_QVariant
           sample_shr_handle sample_shr_handle sample_shr_QScriptString
           14 (Bool_value true) 0).
  right. lia.
Defined.

(** ** Script strings *)

(** X22 — the full form of a script string is its text as a [QString]; an
    invalid script string is sent as the text "%INVALID%".  A valid string
    is read back as it was unless its text is "%INVALID%": that one is sent
    with the very bits of the invalid string and is read back invalid. *)
Theorem QScriptString_sentinel (text : list Z) :
  Z.of_nat (length text) < 2 ^ 27 ->
  Forall (fun unit => 0 <= unit < 65536) text ->
  encodes (operator_lt_QScriptString (Some text)) (QString_bits text) tt
  /\ decodes operator_gt_QScriptString (QString_bits text)
       (if bool_decide (text = INVALID_STRING) then None else Some text)
  /\ encodes (operator_lt_QScriptString None) (QString_bits INVALID_STRING) tt
  /\ decodes operator_gt_QScriptString (QString_bits INVALID_STRING) None
  /\ encodes (operator_lt_QScriptString (Some INVALID_STRING))
             (QString_bits INVALID_STRING) tt.
Proof.
  intros Hlen Hu.
  assert (Hdec : forall t, Z.of_nat (length t) < 2 ^ 27 ->
            Forall (fun unit => 0 <= unit < 65536) t ->
            decodes operator_gt_QScriptString (QString_bits t)
              (if bool_decide (t = INVALID_STRING) then None else Some t)).
  { intros t Ht Hut. unfold operator_gt_QScriptString.
    rewrite <- (app_nil_r (QString_bits t)).
    eapply decodes_bind; [now apply decodes_QString|apply decodes_ret]. }
  split; [apply encodes_QString|]. split; [now apply Hdec|].
  split; [apply encodes_QString|]. split; [|apply encodes_QString].
  apply (Hdec INVALID_STRING); [cbn; lia|].
  unfold INVALID_STRING. repeat constructor; lia.
Qed.

Lemma QScriptString_sentinel_witness :
  encodes (operator_lt_QScriptString (Some [120; 121])) (QString_bits [120; 121]) tt
  /\ decodes operator_gt_QScriptString (QString_bits [120; 121])
       (if bool_decide ([120; 121] = INVALID_STRING) then None else Some [120; 121])
  /\ encodes (operator_lt_QScriptString None) (QString_bits INVALID_STRING) tt
  /\ decodes operator_gt_QScriptString (QString_bits INVALID_STRING) None
  /\ encodes (operator_lt_QScriptString (Some INVALID_STRING))
             (QString_bits INVALID_STRING) tt.
Proof.
  apply (QScriptString_sentinel [120; 121]); [cbn; lia|repeat constructor; lia].
Defined.

(** ** Deltas of a remapped enumeration *)



(** ** The registries *)

Lemma QMetaObject_induction (P : Registry.QMetaObject -> Prop) :
  (forall name, P (Registry.mkQMetaObject name None)) ->
  (forall name super, P super -> P (Registry.mkQMetaObject name (Some super))) ->
  forall metaObject, P metaObject.
Proof.
  intros Hroot Hsub.
  exact (fix ind (m : Registry.QMetaObject) : P m :=
           match m with
           | Registry.mkQMetaObject name None => Hroot name
           | Registry.mkQMetaObject name (Some s) => Hsub name s (ind s)
           end).
Qed.

Lemma QMetaObject_eqb_spec a : forall b,
  Registry.QMetaObject_eqb a b = true <-> a = b.
Proof.
  induction a as [name1|name1 s1 IH] using QMetaObject_induction;
    intros [name2 [s2|]]; cbn [Registry.QMetaObject_eqb];
    rewrite andb_true_iff, bool_decide_eq_true.
  - split; [intros [_ H]; discriminate|discriminate].
  - split; [intros [-> _]; reflexivity|]. intros H. injection H as ->. now split.
  - rewrite IH. split; [intros [-> ->]; reflexivity|].
    intros H. injection H as -> ->. now split.
  - split; [intros [_ H]; discriminate|discriminate].
Qed.

Lemma insert_subclasses_app superClass : forall metaObject subClasses,
  Registry.insert_subclasses superClass metaObject subClasses
  = rev (map (fun c => (c, metaObject)) (Registry.ancestors superClass))
    ++ subClasses.
Proof.
  induction superClass as [name|name s IH] using QMetaObject_induction;
    intros metaObject subClasses.
  - reflexivity.
  - cbn [Registry.insert_subclasses Registry.ancestors map rev].
    rewrite IH, <- !app_assoc. reflexivity.
Qed.

Lemma ancestors_depth c : forall m,
  In c (Registry.ancestors m) ->
  (length (Registry.ancestors c) <= length (Registry.ancestors m))%nat.
Proof.
  intros m. induction m as [name|name s IH] using QMetaObject_induction;
    cbn [Registry.ancestors]; intros [<-|Hin].
  - reflexivity.
  - destruct Hin.
  - reflexivity.
  - cbn [length]. specialize (IH Hin). lia.
Qed.

Lemma ancestors_NoDup m : List.NoDup (Registry.ancestors m).
Proof.
  induction m as [name|name s IH] using QMetaObject_induction;
    cbn [Registry.ancestors].
  - constructor; [intros []|constructor].
  - constructor; [|exact IH]. intros Hin. apply ancestors_depth in Hin.
    cbn [Registry.ancestors length] in Hin. lia.
Qed.

Lemma filter_key_absent (a metaObject : Registry.QMetaObject) chain :
  ~ In a chain ->
  List.filter (fun entry => Registry.QMetaObject_eqb (fst entry) a)
    (map (fun c => (c, metaObject)) chain) = [].
Proof.
  induction chain as [|c chain IH]; intros Hnot; [reflexivity|].
  cbn [map List.filter fst].
  destruct (Registry.QMetaObject_eqb c a) eqn:E.
  - apply QMetaObject_eqb_spec in E. exfalso. apply Hnot. now left.
  - apply IH. intros Hin. apply Hnot. now right.
Qed.

Lemma filter_key_present (a metaObject : Registry.QMetaObject) chain :
  List.NoDup chain -> In a chain ->
  List.filter (fun entry => Registry.QMetaObject_eqb (fst entry) a)
    (map (fun c => (c, metaObject)) chain) = [(a, metaObject)].
Proof.
  induction 1 as [|c chain Hc Hnd IH]; intros Hin; [destruct Hin|].
  cbn [map List.filter fst].
  destruct (Registry.QMetaObject_eqb c a) eqn:E.
  - apply QMetaObject_eqb_spec in E. subst c. f_equal.
    now apply filter_key_absent.
  - destruct Hin as [->|Hin].
    + assert (Registry.QMetaObject_eqb a a = true) by now apply QMetaObject_eqb_spec.
      congruence.
    + now apply IH.
Qed.

(** X24 — [registerMetaObject] files the class under its name and lists it
    as a subclass of itself and of each of its ancestors, ahead of the
    subclasses listed before; the subclasses of every other class, and the
    classes filed under other names, are as they were. *)
Theorem registerMetaObject_lists_subclass
    (r : Registry.t) (name : list Z) (metaObject : Registry.QMetaObject) :
  let r' := snd (Registry.registerMetaObject r name metaObject) in
  fst (Registry.registerMetaObject r name metaObject) = 0
  /\ Registry.getMetaObject r' name = Some metaObject
  /\ (forall other, other <> name ->
        Registry.getMetaObject r' other = Registry.getMetaObject r other)
  /\ (forall a, In a (Registry.ancestors metaObject) ->
        Registry.getMetaObjectSubClasses r' a
        = metaObject :: Registry.getMetaObjectSubClasses r a)
  /\ (forall a, ~ In a (Registry.ancestors metaObject) ->
        Registry.getMetaObjectSubClasses r' a
        = Registry.getMetaObjectSubClasses r a)
  /\ In metaObject (Registry.ancestors metaObject).
Proof.
  cbn zeta. unfold Registry.registerMetaObject, Registry.getMetaObject,
    Registry.getMetaObjectSubClasses.
  cbn [fst snd Registry.metaObjects Registry.metaObjectSubClasses].
  split; [reflexivity|]. split; [apply lookup_insert_eq|].
  split; [intros other Hne; now apply lookup_insert_ne|].
  rewrite insert_subclasses_app. split; [|split].
  - intros a Hin. rewrite List.filter_app, List.map_app, List.filter_rev.
    rewrite filter_key_present; [reflexivity|apply ancestors_NoDup|exact Hin].
  - intros a Hnot. rewrite List.filter_app, List.map_app, List.filter_rev.
    rewrite filter_key_absent by exact Hnot. reflexivity.
  - destruct metaObject. cbn [Registry.ancestors]. now left.
Qed.

(** X25 — [registerTypeStreamer] stamps the streamer with the type and
    files it under that type: [getTypeStreamer] then returns it for the
    type, the other types and the other streamers are untouched.  The
    stamp is written into the object, so a streamer that was already filed
    under another type stays filed there but now reports the new type. *)
Theorem registerTypeStreamer_files_streamer
    (r : Registry.t) (type : Z) (streamer : N)
    (object : Registry.TypeStreamerObject) :
  Registry.streamers r !! streamer = Some object ->
  exists r',
    Registry.registerTypeStreamer r type streamer = Some (0, r')
    /\ Registry.getTypeStreamer r' type = Some streamer
    /\ Registry.getType r' streamer = Some type
    /\ (forall other, other <> type ->
          Registry.getTypeStreamer r' other = Registry.getTypeStreamer r other)
    /\ (forall other, other <> streamer ->
          Registry.getType r' other = Registry.getType r other)
    /\ (forall earlier, earlier <> type ->
          Registry.getTypeStreamer r earlier = Some streamer ->
          Registry.getTypeStreamer r' earlier = Some streamer
          /\ Registry.getType r' streamer <> Some earlier).
Proof.
  intros Hobj. unfold Registry.registerTypeStreamer. rewrite Hobj.
  eexists. split; [reflexivity|].
  unfold Registry.getTypeStreamer, Registry.getType.
  cbn [Registry.typeStreamers Registry.streamers].
  split; [apply lookup_insert_eq|].
  split; [now rewrite lookup_insert_eq|].
  split; [intros other Hne; now apply lookup_insert_ne|].
  split; [intros other Hne; now rewrite lookup_insert_ne|].
  intros earlier Hne Hreg. split.
  - now rewrite lookup_insert_ne.
  - rewrite lookup_insert_eq. cbn. congruence.
Qed.

Lemma registerTypeStreamer_files_streamer_witness :
  let r := {| Registry.streamers :=
                <[5%N := {| Registry._type := 2; Registry._self := None |}]> ∅;
              Registry.typeStreamers := <[2 := 5%N]> ∅;
              Registry.metaObjects := ∅;
              Registry.metaObjectSubClasses := [] |} in
  exists r',
    Registry.registerTypeStreamer r 7 5%N = Some (0, r')
    /\ Registry.getTypeStreamer r' 7 = Some 5%N
    /\ Registry.getType r' 5%N = Some 7
    /\ (forall other, other <> 7 ->
          Registry.getTypeStreamer r' other = Registry.getTypeStreamer r other)
    /\ (forall other, other <> 5%N ->
          Registry.getType r' other = Registry.getType r other)
    /\ (forall earlier, earlier <> 7 ->
          Registry.getTypeStreamer r earlier = Some 5%N ->
          Registry.getTypeStreamer r' earlier = Some 5%N
          /\ Registry.getType r' 5%N <> Some earlier).
Proof.
  apply (registerTypeStreamer_files_streamer _ 7 5%N
           {| Registry._type := 2; Registry._self := None |}).
  reflexivity.
Defined.

(** X26 — a type substitution takes precedence over the registry when a
    type name is resolved; one that names a type without a streamer stores
    a null pointer and the name is resolved as if there were no
    substitution, by its type and then among the enumerations; other names
    are resolved as before. *)
Theorem type_substitution_takes_precedence
    (r : Registry.t) (QMetaType_type : list Z -> Z)
    (getEnumStreamersByName : list Z -> option N)
    (substitutions : gmap (list Z) (option N)) (typeName : list Z) (type : Z) :
  let substitutions' := Registry.addTypeSubstitution r substitutions typeName type in
  Registry.resolve r QMetaType_type getEnumStreamersByName substitutions' typeName
  = match Registry.getTypeStreamer r type with
    | Some streamer => Some streamer
    | None =>
      Registry.resolve r QMetaType_type getEnumStreamersByName ∅ typeName
    end
  /\ (forall other, other <> typeName ->
        Registry.resolve r QMetaType_type getEnumStreamersByName substitutions' other
        = Registry.resolve r QMetaType_type getEnumStreamersByName substitutions other)
  /\ Registry.resolve r QMetaType_type getEnumStreamersByName ∅ typeName
     = match Registry.getTypeStreamer r (QMetaType_type typeName) with
       | Some streamer => Some streamer
       | None => getEnumStreamersByName typeName
       end.
Proof.
  cbn zeta. unfold Registry.resolve, Registry.addTypeSubstitution,
    Registry.getTypeStreamer.
  split; [|split].
  - rewrite lookup_insert_eq. cbn [default].
    destruct (Registry.typeStreamers r !! type); [reflexivity|].
    now rewrite lookup_empty.
  - intros other Hne. now rewrite lookup_insert_ne.
  - now rewrite lookup_empty.
Qed.

(** ** Objects *)

Lemma round_trips_assoc_r {A B C} (W : M unit) (R1 : M A) (R2 : A -> M B)
    (R3 : B -> M C) x :
  round_trips W (let* a := R1 in let* b := R2 a in R3 b) x ->
  round_trips W (let* b := (let* a := R1 in R2 a) in R3 b) x.
Proof.
  intros (l & E & D). exists l. split; [exact E|].
  intros bs c s Hr Hlen Hb. destruct (D bs c s Hr Hlen Hb) as (s' & Es & Hs).
  exists s'. split; [|exact Hs]. rewrite <- Es. apply bind_assoc.
Qed.

Lemma round_trips_ret_l {A B} (W : M unit) (R : A -> M B) a x :
  round_trips W (R a) x -> round_trips W (let* b := ret a in R b) x.
Proof. intros H. exact H. Qed.

Section ObjectProperties.
Variable getEnumStreamers : list Z * list Z -> option Objects.Streamer.
Variable getTypeStreamers : Z -> option Objects.Streamer.
Variable registered : Objects.QMetaObject -> bool.
Variable newInstance : Objects.QMetaObject -> option Objects.QObject.

Local Abbreviation property_streamer :=
  (Objects.property_streamer getEnumStreamers getTypeStreamers).
Local Abbreviation createPropertyWriters :=
  (Objects.createPropertyWriters getEnumStreamers getTypeStreamers).
Local Abbreviation createPropertyReaders :=
  (Objects.createPropertyReaders getEnumStreamers getTypeStreamers).
Local Abbreviation streamed :=
  (Objects.streamed getEnumStreamers getTypeStreamers).

(** X27 — the tables of property writers and of property readers are
    parallel: for a meta-object both list, in the order of the properties,
    exactly those that are stored and have a streamer, each writer with the
    streamer found for its property and each reader reading through that
    same streamer. *)
Theorem property_tables_parallel (properties : list Objects.QMetaProperty) :
  map Objects.writer_property (createPropertyWriters properties)
  = List.filter streamed properties
  /\ map Objects.reader_property (createPropertyReaders properties)
     = List.filter streamed properties
  /\ map (fun writer => Objects.read (Objects.writer_streamer writer))
         (createPropertyWriters properties)
     = map Objects.reader_read (createPropertyReaders properties)
  /\ map (fun writer => property_streamer (Objects.writer_property writer))
         (createPropertyWriters properties)
     = map (fun writer => Some (Objects.writer_streamer writer))
           (createPropertyWriters properties).
Proof.
  induction properties as [|property rest (IH1 & IH2 & IH3 & IH4)];
    [repeat split|].
  cbn [Objects.createPropertyWriters Objects.createPropertyReaders List.filter].
  unfold Objects.streamed in *. fold (property_streamer property).
  destruct (Objects.isStored property); cbn [negb andb];
    [|repeat split; assumption].
  destruct (property_streamer property) as [streamer|] eqn:E;
    [|repeat split; assumption].
  cbn [map Objects.writer_property Objects.reader_property Objects.reader_read
       Objects.writer_streamer].
  rewrite E. repeat split; f_equal; assumption.
Qed.

Lemma object_properties_codec (sent : Objects.QObject) :
  forall (properties : list Objects.QMetaProperty) (start : Objects.QObject),
  Forall (fun property => Objects.isValid property = true) properties ->
  (forall property streamer,
     In property properties -> Objects.isStored property = true ->
     property_streamer property = Some streamer ->
     round_trips
       (Objects.write streamer (Objects.QMetaProperty_read property sent))
       (Objects.read streamer) (Objects.QMetaProperty_read property sent)) ->
  round_trips
    (write_elements (fun writer => Objects.PropertyWriter_write writer sent)
                    (createPropertyWriters properties))
    (Objects.read_properties_into (createPropertyReaders properties) (Some start))
    (Some (Objects.restore getEnumStreamers getTypeStreamers sent properties start)).
Proof.
  induction properties as [|property rest IH]; intros start Hvalid Hcodec.
  - apply round_trips_ret.
  - apply Forall_cons in Hvalid as [Hv Hvalid].
    assert (Hrest : forall p st, In p rest -> Objects.isStored p = true ->
              property_streamer p = Some st ->
              round_trips (Objects.write st (Objects.QMetaProperty_read p sent))
                (Objects.read st) (Objects.QMetaProperty_read p sent)).
    { intros p st Hin. apply Hcodec. now right. }
    unfold Objects.restore.
    cbn [Objects.createPropertyWriters Objects.createPropertyReaders List.filter].
    unfold Objects.streamed at 1. fold (property_streamer property).
    destruct (Objects.isStored property) eqn:Es; cbn [negb andb];
      [|now apply IH].
    destruct (property_streamer property) as [streamer|] eqn:E;
      [|now apply IH].
    rewrite write_elements_cons.
    cbn [Objects.read_properties_into fold_left].
    unfold Objects.PropertyWriter_write at 1, Objects.PropertyReader_read at 1.
    cbn [Objects.writer_streamer Objects.writer_property Objects.reader_read
         Objects.reader_property].
    rewrite Hv.
    apply round_trips_assoc_r.
    apply (round_trips_bind _ _ _ _ (Objects.QMetaProperty_read property sent)).
    + apply Hcodec; [now left|exact Es|exact E].
    + cbv beta. apply round_trips_ret_l. apply IH; assumption.
Qed.

Lemma restore_metaObject sent properties start :
  Objects.metaObject
    (Objects.restore getEnumStreamers getTypeStreamers sent properties start)
  = Objects.metaObject start.
Proof.
  unfold Objects.restore.
  generalize (List.filter streamed properties). intros l. revert start.
  induction l as [|p l IH]; intros start; [reflexivity|].
  cbn [fold_left]. now rewrite IH.
Qed.

Lemma restore_values sent properties start (key : list Z) :
  let restored :=
    Objects.restore getEnumStreamers getTypeStreamers sent properties start in
  (In key (map Objects.name (List.filter streamed properties)) ->
   Objects.values restored !! key
   = Some (default QVariant_invalid (Objects.values sent !! key)))
  /\ (~ In key (map Objects.name (List.filter streamed properties)) ->
      Objects.values restored !! key = Objects.values start !! key).
Proof.
  cbn zeta. unfold Objects.restore.
  generalize (List.filter streamed properties). intros l.
  assert (H : forall start,
    (In key (map Objects.name l)
     \/ Objects.values start !! key
        = Some (default QVariant_invalid (Objects.values sent !! key)) ->
     Objects.values (fold_left (fun object property =>
         Objects.QMetaProperty_write property object
           (Objects.QMetaProperty_read property sent)) l start) !! key
     = Some (default QVariant_invalid (Objects.values sent !! key)))
    /\ (~ In key (map Objects.name l) ->
        Objects.values (fold_left (fun object property =>
            Objects.QMetaProperty_write property object
              (Objects.QMetaProperty_read property sent)) l start) !! key
        = Objects.values start !! key)).
  { induction l as [|p l IH]; intros start0.
    - cbn [fold_left map]. split; [intros [[]|H]; exact H|reflexivity].
    - cbn [fold_left map]. destruct (IH (Objects.QMetaProperty_write p start0
                                            (Objects.QMetaProperty_read p sent)))
        as [IHa IHb].
      split.
      + intros Hor. apply IHa.
        destruct (decide (Objects.name p = key)) as [Heq|Hne].
        * right. unfold Objects.QMetaProperty_write, Objects.QMetaProperty_read.
          cbn [Objects.values]. rewrite Heq. apply lookup_insert_eq.
        * destruct Hor as [[Heq|Hin]|Hstart]; [contradiction|now left|].
          right. unfold Objects.QMetaProperty_write. cbn [Objects.values].
          now rewrite lookup_insert_ne.
      + intros Hnot. rewrite IHb by (intros Hin; apply Hnot; now right).
        unfold Objects.QMetaProperty_write. cbn [Objects.values].
        apply lookup_insert_ne. intros Heq. apply Hnot. now left. }
  intros. destruct (H start) as [Ha Hb]. split; [intros Hin; apply Ha; now left|exact Hb].
Qed.
End ObjectProperties.

(** X28 — an object is restored through its stored properties.  When the
    meta-object of the object sent is registered and can be instantiated,
    when the reader obtained for it is the local one, and when the streamer
    of each stored property restores the value sent, [operator>>] yields a
    new instance in which every stored property that has a streamer holds
    the value it had in the object sent, and every other value is that of
    the new instance. *)
Theorem object_restored_through_properties {RVS : Type}
    (getEnumStreamers : list Z * list Z -> option Objects.Streamer)
    (getTypeStreamers : Z -> option Objects.Streamer)
    (registered : Objects.QMetaObject -> bool)
    (newInstance : Objects.QMetaObject -> option Objects.QObject)
    (metaObjectStreamer_shl : RVS -> option Objects.QMetaObject -> M RVS)
    (metaObjectStreamer_shr : RVS -> M (Objects.ObjectReader * RVS))
    (out out' in_ in' : RVS) (sent fresh : Objects.QObject) (l : list bool) :
  let metaObject := Objects.metaObject sent in
  registered metaObject = true ->
  newInstance metaObject = Some fresh ->
  Forall (fun property => Objects.isValid property = true)
         (Objects.properties metaObject) ->
  encodes (metaObjectStreamer_shl out (Some metaObject)) l out' ->
  decodes (metaObjectStreamer_shr in_) l
    ({| Objects._className := Objects.className metaObject;
        Objects._metaObject := Some metaObject;
        Objects._properties :=
          Objects.getPropertyReaders getEnumStreamers getTypeStreamers registered
            metaObject |}, in') ->
  (forall property streamer,
     In property (Objects.properties metaObject) ->
     Objects.isStored property = true ->
     Objects.property_streamer getEnumStreamers getTypeStreamers property
     = Some streamer ->
     round_trips
       (Objects.write streamer (Objects.QMetaProperty_read property sent))
       (Objects.read streamer) (Objects.QMetaProperty_read property sent)) ->
  exists bits received,
    encodes (Objects.operator_shl_QObject getEnumStreamers getTypeStreamers
               registered metaObjectStreamer_shl out (Some sent)) bits out'
    /\ decodes (Objects.operator_shr_QObject newInstance metaObjectStreamer_shr in_)
               bits (Some received, in')
    /\ Objects.metaObject received = Objects.metaObject fresh
    /\ (forall property,
          In property (Objects.properties metaObject) ->
          Objects.streamed getEnumStreamers getTypeStreamers property = true ->
          Objects.QMetaProperty_read property received
          = Objects.QMetaProperty_read property sent)
    /\ (forall key,
          ~ In key (map Objects.name
                      (List.filter
                         (Objects.streamed getEnumStreamers getTypeStreamers)
                         (Objects.properties metaObject))) ->
          Objects.values received !! key = Objects.values fresh !! key).
Proof.
  intros metaObject Hreg Hnew Hvalid He Hd Hcodec.
  destruct (object_properties_codec getEnumStreamers getTypeStreamers sent
              (Objects.properties metaObject) fresh Hvalid Hcodec)
    as (lp & Ep & Dp).
  set (received := Objects.restore getEnumStreamers getTypeStreamers sent
                     (Objects.properties metaObject) fresh) in *.
  exists (l ++ lp ++ []), received. split; [|split; [|split; [|split]]].
  - unfold Objects.operator_shl_QObject, Objects.getPropertyWriters.
    fold metaObject. rewrite Hreg.
    eapply encodes_bind; [exact He|].
    eapply encodes_bind; [exact Ep|apply encodes_ret].
  - unfold Objects.operator_shr_QObject.
    eapply decodes_bind; [exact Hd|]. cbv beta.
    unfold Objects.ObjectReader_read, Objects.getPropertyReaders.
    cbn [fst snd Objects._metaObject Objects._properties]. rewrite Hnew, Hreg.
    eapply decodes_bind; [exact Dp|apply decodes_ret].
  - apply restore_metaObject.
  - intros property Hin Hs.
    destruct (restore_values getEnumStreamers getTypeStreamers sent
                (Objects.properties metaObject) fresh (Objects.name property))
      as [Ha _].
    unfold Objects.QMetaProperty_read. fold received in Ha. rewrite Ha; [reflexivity|].
    apply in_map. apply List.filter_In. now split.
  - intros key Hnot.
    destruct (restore_values getEnumStreamers getTypeStreamers sent
                (Objects.properties metaObject) fresh key) as [_ Hb].
    now apply Hb.
Qed.

Lemma object_restored_through_properties_witness :
  exists bits received,
    encodes (Objects.operator_shl_QObject (fun _ => None)
               (fun _ => Some Objects.sample_streamer) (fun _ => true)
               Objects.sample_metaObjectStreamer_shl tt
               (Some Objects.sample_widget)) bits tt
    /\ decodes (Objects.operator_shr_QObject Objects.sample_newInstance
                 Objects.sample_metaObjectStreamer_shr tt)
               bits (Some received, tt)
    /\ Objects.metaObject received = Objects.sample_Widget
    /\ (forall property,
          In property (Objects.properties Objects.sample_Widget) ->
          Objects.streamed (fun _ => None) (fun _ => Some Objects.sample_streamer)
            property = true ->
          Objects.QMetaProperty_read property received
          = Objects.QMetaProperty_read property Objects.sample_widget)
    /\ (forall key,
          ~ In key (map Objects.name
                      (List.filter
                         (Objects.streamed (fun _ => None)
                            (fun _ => Some Objects.sample_streamer))
                         (Objects.properties Objects.sample_Widget))) ->
          Objects.values received !! key = (∅ : gmap (list Z) QVariant) !! key).
Proof.
  apply (object_restored_through_properties (fun _ => None)
           (fun _ => Some Objects.sample_streamer) (fun _ => true)
           Objects.sample_newInstance
           Objects.sample_metaObjectStreamer_shl
           Objects.sample_metaObjectStreamer_shr tt tt tt tt
           Objects.sample_widget
           {| Objects.metaObject := Objects.sample_Widget; Objects.values := ∅ |}
           (QByteArray_bits (Objects.className Objects.sample_Widget))).
  - reflexivity.
  - reflexivity.
  - repeat constructor.
  - apply encodes_QByteArray.
  - unfold Objects.sample_metaObjectStreamer_shr.
    eapply decodes_ext; [eapply decodes_bind; [|apply decodes_ret]
                        |apply app_nil_r|reflexivity].
    apply decodes_QByteArray; [repeat constructor; lia|cbn; lia].
  - intros property streamer Hin Hstored Hstreamer.
    destruct Hin as [<-|[<-|[]]]; [|discriminate].
    injection Hstreamer as <-.
    unfold Objects.QMetaProperty_read, Objects.sample_widget.
    cbn [Objects.values]. rewrite lookup_insert_eq. cbn [default].
    apply sample_variant_codec. unfold sample_variant_ok, Objects.sample_five.
    cbn [isValid userType typeName content].
    repeat split; try lia; try (repeat constructor; lia); cbn; lia.
Defined.
